(** * The compiler up to the body checker: parser, AST, builder, resolver,
      body checker

    A shallow embedding of the TypeScript sources
    - [ast.ts]          (data model, folders, [superFoldExpr], [BUILTINS]),
    - the resolver      ([resolveIdent], [resolveModule], [resolveModItem]),
    - the parser        ([parse], [parseItem], [parseExpr], [parseType],
                         [buildPkg], [validateAst]),
    - [typeck/expr.ts]  ([typeOfValue], [typeOfBuiltinValue], [checkBody],
                         [checkBinary], [checkUnary], [checkCall],
                         [resolveBody]),
    followed by the properties established about them.

    JavaScript objects become records and inductive types whose optional
    (phase dependent) slots are [option]s; arrays become lists indexed from
    0 with [push] appending at the end; [Map]s become [gmap]s; mutable
    state is threaded through a state-and-exception monad. *)

From stdpp Require Import base option list strings gmap pretty.
From Stdlib Require Import Lia.

Scheme All for list.
Scheme All for option.
Scheme All for prod.

Open Scope string_scope.
Open Scope list_scope.
Open Scope stdpp_scope.

(** ** Errors, spans and the monad *)

(** Modelled from the spec: spans are the source positions that the lexer
    attaches to tokens and that diagnostics report.  [error.ts], which
    declares [Span] and [Span.merge], is not among the sources; [merge]
    is taken to be the covering span. *)
Record Span := mkSpan { span_start : nat; span_end : nat }.

Definition span_merge (a b : Span) : Span :=
  mkSpan (span_start a `min` span_start b) (span_end a `max` span_end b).

(** [CompilerError { message, span }]. *)
Record CompilerError := mkCompilerError { message : string; err_span : Span }.

(** The token returned by the error sink once a diagnostic was emitted. *)
Inductive ErrorEmitted := errorEmitted.

(** What a JavaScript [throw] can carry in this code: a [CompilerError],
    a plain [Error], or the engine's [TypeError] raised when a property of
    [undefined] is read or written. *)
Inductive Exn :=
| ThrowCompilerError (e : CompilerError)
| ThrowError (msg : string)
| ThrowTypeError (msg : string).

Inductive Result (A : Type) :=
| Ok (a : A)
| Throw (e : Exn).
Arguments Ok {A} a.
Arguments Throw {A} e.

(** Computations over a mutable state [S] that may throw. *)
Definition M (S A : Type) : Type := S → Result (A * S).

Definition ret {S A} (a : A) : M S A := λ s, Ok (a, s).

Definition bind {S A B} (m : M S A) (f : A → M S B) : M S B :=
  λ s, match m s with
       | Ok (a, s') => f a s'
       | Throw e => Throw e
       end.

Definition throw {S A} (e : Exn) : M S A := λ _, Throw e.
Definition get {S} : M S S := λ s, Ok (s, s).
Definition gets {S A} (f : S → A) : M S A := λ s, Ok (f s, s).
Definition modify {S} (f : S → S) : M S unit := λ s, Ok (tt, f s).

Notation "'let*' x ':=' m 'in' k" := (bind m (λ x, k))
  (at level 10, x name, m at level 100, k at level 200).
Notation "'let*' ' pat ':=' m 'in' k" :=
  (bind m (λ x, match x with pat => k end))
  (at level 10, pat pattern, m at level 100, k at level 200).

(** [xs.map(f)] for an effectful [f]: left to right. *)
Fixpoint mapM {S A B} (f : A → M S B) (xs : list A) : M S (list B) :=
  match xs with
  | [] => ret []
  | x :: xs' => let* y := f x in let* ys := mapM f xs' in ret (y :: ys)
  end.

(** [xs.forEach(f)]. *)
Fixpoint forEachM {S A} (f : A → M S unit) (xs : list A) : M S unit :=
  match xs with
  | [] => ret tt
  | x :: xs' => let* _ := f x in forEachM f xs'
  end.

(** [o && f(o)] on an optional slot. *)
Definition optM {S A B} (f : A → M S B) (o : option A) : M S (option B) :=
  match o with
  | None => ret None
  | Some a => let* b := f a in ret (Some b)
  end.

(** ** Data model ([ast.ts]) *)

Record ItemId := mkItemId { pkgId : nat; itemIdx : nat }.

#[global] Instance ItemId_eq_dec : EqDecision ItemId.
Proof. solve_decision. Defined.

#[global] Instance ItemId_countable : Countable ItemId.
Proof.
  refine (inj_countable' (λ i, (pkgId i, itemIdx i))
                         (λ p, mkItemId p.1 p.2) _).
  by intros [].
Defined.

Definition ItemId_dummy : ItemId := mkItemId 999999 999999.
Definition ItemId_pkgRoot (pkg : nat) : ItemId := mkItemId pkg 0.

(** The semantic types.
    Modelled from the spec: [types.ts] is not among the sources.  The
    constructors follow section 3 ("Resolved type") and the [kind]s that
    [typeck/expr.ts] inspects; the unit type is the empty tuple, as the
    parser's comment on [()] says. *)
Inductive Ty :=
| TyBool
| TyString
| TyInt
| TyI32
| TyNever
| TyFn (params : list Ty) (returnTy : Ty)
| TyStruct (name : string) (fields_no_subst : list (string * Ty))
| TyTuple (elems : list Ty)
| TyRawptr (inner : Ty)
| TyVar (index : nat)
| TyParam (index : nat) (name : string)
| TyError (err : ErrorEmitted).

Definition TY_UNIT : Ty := TyTuple [].
Definition TY_STRING : Ty := TyString.
Definition TY_BOOL : Ty := TyBool.
Definition TY_INT : Ty := TyInt.
Definition TY_I32 : Ty := TyI32.
Definition TY_NEVER : Ty := TyNever.

Definition mkTyFn (params : list Ty) (returnTy : Ty) : Ty := TyFn params returnTy.

Inductive Resolution :=
| ResLocal (index : nat)
| ResItem (id : ItemId)
| ResBuiltin (name : string)
| ResTyParam (index : nat) (name : string)
| ResError (err : ErrorEmitted).

Record Ident := mkIdent { ident_name : string; ident_span : Span }.

(** [IdentWithRes<P>]: the [res] slot is present from phase [Resolved] on. *)
Record IdentWithRes := mkIdentWithRes {
  iwr_name : string;
  iwr_span : Span;
  iwr_res : option Resolution;
}.

Record LocalInfo := mkLocalInfo {
  local_name : string;
  local_span : Span;
  local_ty : option Ty;
}.

(** [Type<P>]: the AST form of a type. *)
Inductive Type_ :=
| TIdent (genericArgs : list Type_) (value : IdentWithRes) (span : Span)
| TTuple (elems : list Type_) (span : Span)
| TRawptr (inner : Type_) (span : Span)
| TNever (span : Span)
| TError (err : ErrorEmitted) (span : Span).

Inductive LitIntType := LitInt_Int | LitInt_I32.

Inductive Literal :=
| LitStr (value : string) (span : Span)
| LitInt (value : nat) (type : LitIntType).

Inductive BinaryKind :=
| BAdd | BSub | BMul | BDiv | BRem | BAnd | BOr
| BLt | BGt | BEq | BLe | BGe | BNe.

#[global] Instance BinaryKind_eq_dec : EqDecision BinaryKind.
Proof. solve_decision. Defined.

Inductive UnaryKind := UNot | UNeg.

#[global] Instance UnaryKind_eq_dec : EqDecision UnaryKind.
Proof. solve_decision. Defined.

(** The [field] slot of a [fieldAccess]: a name or a number, its span, and
    (after type checking) the index of the field. *)
Record Field := mkField {
  field_value : string + nat;
  field_span : Span;
  fieldIdx : option nat;
}.

(** [Expr<P> = ExprKind<P> & { span } & P["ty"]]. *)
Inductive Expr :=
| mkExpr (kind : ExprKind) (span : Span) (ty : option Ty)
with ExprKind :=
| KEmpty
| KLet (name : Ident) (type : option Type_) (rhs : Expr) (local : option LocalInfo)
| KAssign (lhs rhs : Expr)
| KBlock (exprs : list Expr) (locals : option (list LocalInfo))
| KLiteral (value : Literal)
| KIdent (value : IdentWithRes)
| KPath (segments : list string) (res : Resolution)
| KBinary (binaryKind : BinaryKind) (lhs rhs : Expr)
| KUnary (unaryKind : UnaryKind) (rhs : Expr)
| KCall (lhs : Expr) (args : list Expr)
| KFieldAccess (lhs : Expr) (field : Field)
| KIf (cond then_ : Expr) (else_ : option Expr)
| KLoop (body : Expr) (loopId : nat)
| KBreak (target : option nat)
| KStructLiteral (name : IdentWithRes) (fields : list StructLiteralField)
| KTupleLiteral (fields : list Expr)
| KAsm
| KError (err : ErrorEmitted)
with StructLiteralField :=
| mkStructLiteralField (name : Ident) (expr : Expr) (fieldIdx : option nat).

Scheme Expr_mind := Induction for Expr Sort Prop
with ExprKind_mind := Induction for ExprKind Sort Prop
with StructLiteralField_mind := Induction for StructLiteralField Sort Prop.

Definition expr_kind (e : Expr) : ExprKind := let '(mkExpr k _ _) := e in k.
Definition expr_span (e : Expr) : Span := let '(mkExpr _ s _) := e in s.
Definition expr_ty (e : Expr) : option Ty := let '(mkExpr _ _ t) := e in t.

Record FunctionArg := mkFunctionArg { arg_ident : Ident; arg_type : Type_ }.
Record FieldDef := mkFieldDef { fd_name : Ident; fd_type : Type_ }.

Inductive TypeDefKind :=
| TDStruct (fields : list FieldDef)
| TDAlias (type : Type_).

Record StringLiteral := mkStringLiteral { sl_value : string; sl_span : Span }.

(** [Item<P> = ItemKind<P> & { span, id, name } & P["defPath"]].  The
    resolver reaches the same payload through [item.node]. *)
Inductive Item :=
| mkItem (kind : ItemKind) (span : Span) (id : ItemId) (name : string)
         (defPath : option (list string))
with ItemKind :=
| IFunction (params : list FunctionArg) (body : Expr)
            (returnType : option Type_) (ty : option Ty)
| IType (genericParams : list Ident) (type : TypeDefKind) (ty : option Ty)
| IImport (module func : StringLiteral) (params : list FunctionArg)
          (returnType : option Type_) (ty : option Ty)
| IMod (contents : list Item)
| IExtern
| IGlobal (type : Type_) (init : Expr) (ty : option Ty)
| IUse (segments : list Ident) (res : option Resolution)
| IError (err : ErrorEmitted).

Scheme Item_mind := Induction for Item Sort Prop
with ItemKind_mind := Induction for ItemKind Sort Prop.

Definition item_kind (i : Item) : ItemKind := let '(mkItem k _ _ _ _) := i in k.
Definition item_span (i : Item) : Span := let '(mkItem _ s _ _ _) := i in s.
Definition item_id (i : Item) : ItemId := let '(mkItem _ _ d _ _) := i in d.
Definition item_name (i : Item) : string := let '(mkItem _ _ _ n _) := i in n.
Definition item_defPath (i : Item) : option (list string) :=
  let '(mkItem _ _ _ _ p) := i in p.

Record LoadedFile := mkLoadedFile { path : option string; content : string }.

(** [Pkg<P>] (called [Crate] by the resolver). *)
Record Pkg := mkPkg {
  pkg_id : nat;
  rootItems : list Item;
  itemsById : gmap ItemId Item;
  packageName : string;
  rootFile : LoadedFile;
  fatalError : option ErrorEmitted;
}.

Definition COMPARISON_KINDS : list BinaryKind := [BGt; BLt; BEq; BLe; BGe; BNe].
Definition EQUALITY_KINDS : list BinaryKind := [BEq; BNe].
Definition LOGICAL_KINDS : list BinaryKind := [BAnd; BOr].
Definition ARITH_TERM_KINDS : list BinaryKind := [BAdd; BSub].
Definition ARITH_FACTOR_KINDS : list BinaryKind := [BMul; BDiv; BRem].

(** [kinds.includes(k)]. *)
Definition includes (kinds : list BinaryKind) (k : BinaryKind) : bool :=
  bool_decide (k ∈ kinds).

Definition binaryExprPrecedenceClass (k : BinaryKind) : nat :=
  match k with
  | BAdd | BSub | BMul | BDiv | BRem => 0
  | BAnd => 1
  | BOr => 2
  | BLt => 3
  | BGt => 4
  | BEq => 5
  | BLe => 6
  | BGe => 7
  | BNe => 8
  end.

Definition BUILTINS : list string :=
  [ "print"; "String"; "Int"; "I32"; "Bool"; "true"; "false"; "trap";
    "__NULL"; "__i32_store"; "__i64_store"; "__i32_load"; "__i64_load";
    "__i32_extend_to_i64_u"; "___transmute"; "___asm"; "__locals" ].

(** ** Folders ([ast.ts]) *)

Section Folders.
Context {S : Type}.

(** A [Folder]: the four visiting functions.  The mutable
    [newItemsById] slot of the TypeScript folder lives in the state. *)
Record Folder := mkFolder {
  f_item : Item → M S Item;
  f_expr : Expr → M S Expr;
  f_ident : IdentWithRes → M S IdentWithRes;
  f_type : Type_ → M S Type_;
}.

(** The [item] function installed by [mkDefaultFolder]: run
    [itemInner], then record the result in [newItemsById]. *)
Definition defaultFolder_item (setItem : ItemId → Item → S → S)
    (itemInner : Item → M S Item) (item : Item) : M S Item :=
  let* newItem := itemInner item in
  let* _ := modify (setItem (item_id newItem) newItem) in
  ret newItem.

Definition foldArgs (folder : Folder) (params : list FunctionArg)
    : M S (list FunctionArg) :=
  mapM (λ a, let* t := f_type folder (arg_type a) in
             ret (mkFunctionArg (arg_ident a) t)) params.

Definition superFoldItem (item : Item) (folder : Folder) : M S Item :=
  let '(mkItem kind span id name defPath) := item in
  match kind with
  | IFunction params body returnType ty =>
      let* args := foldArgs folder params in
      let* body' := f_expr folder body in
      let* returnType' := optM (f_type folder) returnType in
      ret (mkItem (IFunction args body' returnType' ty) span id name defPath)
  | IType genericParams typeKind ty =>
      let* type := match typeKind with
             | TDStruct fields =>
                 let* fields' := mapM (λ fd, let* t := f_type folder (fd_type fd) in
                                       ret (mkFieldDef (fd_name fd) t)) fields in
                 ret (TDStruct fields')
             | TDAlias t =>
                 let* t' := f_type folder t in ret (TDAlias t')
             end in
      ret (mkItem (IType genericParams type ty) span id name defPath)
  | IImport module func params returnType ty =>
      let* args := foldArgs folder params in
      let* returnType' := optM (f_type folder) returnType in
      ret (mkItem (IImport module func args returnType' ty) span id name defPath)
  | IMod contents =>
      let* contents' := mapM (f_item folder) contents in
      ret (mkItem (IMod contents') span id name defPath)
  | IExtern => ret item
  | IGlobal type init ty =>
      let* type' := f_type folder type in
      let* init' := f_expr folder init in
      ret (mkItem (IGlobal type' init' ty) span id name defPath)
  | IUse _ _ => ret item
  | IError _ => ret item
  end.

Definition superFoldExpr (expr : Expr) (folder : Folder) : M S Expr :=
  let '(mkExpr kind span ty) := expr in
  match kind with
  | KEmpty => ret (mkExpr KEmpty span None)
  | KLet name type rhs local =>
      let* type' := optM (f_type folder) type in
      let* rhs' := f_expr folder rhs in
      ret (mkExpr (KLet name type' rhs' local) span ty)
  | KAssign lhs rhs =>
      let* lhs' := f_expr folder lhs in
      let* rhs' := f_expr folder rhs in
      ret (mkExpr (KAssign lhs' rhs') span ty)
  | KBlock exprs locals =>
      let* exprs' := mapM (f_expr folder) exprs in
      ret (mkExpr (KBlock exprs' locals) span ty)
  | KLiteral value => ret (mkExpr (KLiteral value) span None)
  | KIdent value =>
      let* value' := f_ident folder value in
      ret (mkExpr (KIdent value') span None)
  | KPath _ _ => ret expr
  | KBinary binaryKind lhs rhs =>
      let* lhs' := f_expr folder lhs in
      let* rhs' := f_expr folder rhs in
      ret (mkExpr (KBinary binaryKind lhs' rhs') span ty)
  | KUnary unaryKind rhs =>
      let* rhs' := f_expr folder rhs in
      ret (mkExpr (KUnary unaryKind rhs') span ty)
  | KCall lhs args =>
      let* lhs' := f_expr folder lhs in
      let* args' := mapM (f_expr folder) args in
      ret (mkExpr (KCall lhs' args') span ty)
  | KFieldAccess lhs field =>
      let* lhs' := f_expr folder lhs in
      ret (mkExpr (KFieldAccess lhs' field) span ty)
  | KIf cond then_ else_ =>
      let* cond' := f_expr folder cond in
      let* then' := f_expr folder then_ in
      let* else' := optM (f_expr folder) else_ in
      ret (mkExpr (KIf cond' then' else') span ty)
  | KLoop body loopId =>
      let* body' := f_expr folder body in
      ret (mkExpr (KLoop body' loopId) span ty)
  | KBreak _ => ret expr
  | KStructLiteral name fields =>
      let* name' := f_ident folder name in
      let* fields' := mapM (λ f, let '(mkStructLiteralField name expr _) := f in
                           let* expr' := f_expr folder expr in
                           ret (mkStructLiteralField name expr' None)) fields in
      ret (mkExpr (KStructLiteral name' fields') span ty)
  | KTupleLiteral fields =>
      let* fields' := mapM (f_expr folder) fields in
      ret (mkExpr (KTupleLiteral fields') span ty)
  | KAsm => ret expr
  | KError _ => ret expr
  end.

Definition superFoldType (type : Type_) (folder : Folder) : M S Type_ :=
  match type with
  | TIdent genericArgs value span =>
      let* genericArgs' := mapM (f_type folder) genericArgs in
      let* value' := f_ident folder value in
      ret (TIdent genericArgs' value' span)
  | TTuple elems span =>
      let* elems' := mapM (f_type folder) elems in
      ret (TTuple elems' span)
  | TRawptr inner span =>
      let* inner' := f_type folder inner in
      ret (TRawptr inner' span)
  | TNever span => ret (TNever span)
  | TError err span => ret (TError err span)
  end.
End Folders.
Arguments Folder S : clear implicits.

(** [foldAst]: fold every root item and take the rebuilt by-id table from
    the folder.  (The TypeScript function first checks that [item] is the
    one installed by [mkDefaultFolder]; every folder below is built with
    [defaultFolder_item], so the check never fires.) *)
Definition foldAst {S} (ast : Pkg) (folder : Folder S)
    (newItemsById : S → gmap ItemId Item) : M S Pkg :=
  let* rootItems' := mapM (f_item folder) (rootItems ast) in
  let* byId := gets newItemsById in
  ret (mkPkg (pkg_id ast) rootItems' byId (packageName ast) (rootFile ast)
             (fatalError ast)).

(** [gcx.error.emitError]: append to the sink, hand back the token.
    Modelled from the spec: "the error sink, a monotonically accumulating
    list of diagnostics" ([error.ts] and [context.ts] are not among the
    sources). *)
Definition sink_emit (sink : list CompilerError) (err : CompilerError)
    : list CompilerError := sink ++ [err].

(** ** Builder ([buildPkg]) *)

(** Modelled from the spec: [Ids] is declared in [utils.ts], which is not
    among the sources.  "A counter over items per package starts at 1 (0
    is the root module).  A counter over loops per package starts at 0":
    [next()] hands out the current value and advances by one. *)
Record Ids := mkIds { ids_counter : nat }.
Definition Ids_new : Ids := mkIds 0.
Definition Ids_next (i : Ids) : nat * Ids :=
  (ids_counter i, mkIds (S (ids_counter i))).

Record BuildState := mkBuildState {
  b_itemId : Ids;
  b_loopId : Ids;
  b_newItemsById : gmap ItemId Item;
}.

Definition next_itemId : M BuildState nat :=
  λ st, let '(n, ids) := Ids_next (b_itemId st) in
        Ok (n, mkBuildState ids (b_loopId st) (b_newItemsById st)).

Definition next_loopId : M BuildState nat :=
  λ st, let '(n, ids) := Ids_next (b_loopId st) in
        Ok (n, mkBuildState (b_itemId st) ids (b_newItemsById st)).

Definition b_setItem (id : ItemId) (item : Item) (st : BuildState) : BuildState :=
  mkBuildState (b_itemId st) (b_loopId st) (<[id := item]> (b_newItemsById st)).

(** [{ ...e, loopId }] on a loop node. *)
Definition with_loopId (e : Expr) (loopId : nat) : Expr :=
  match e with
  | mkExpr (KLoop body _) span ty => mkExpr (KLoop body loopId) span ty
  | _ => e
  end.

(** [{ ...item, id }]. *)
Definition with_id (item : Item) (id : ItemId) : Item :=
  let '(mkItem kind span _ name defPath) := item in
  mkItem kind span id name defPath.

Definition assigner_folder (item : Item → M BuildState Item)
    (expr : Expr → M BuildState Expr) : Folder BuildState :=
  mkFolder item expr ret ret.

Fixpoint assigner_expr (expr : Expr) : M BuildState Expr :=
  let this := assigner_folder ret assigner_expr in
  match expr_kind expr with
  | KLoop _ _ =>
      let* folded := superFoldExpr expr this in
      let* loopId := next_loopId in
      ret (with_loopId folded loopId)
  | _ => superFoldExpr expr this
  end.

Fixpoint assigner_item (pkgId : nat) (item : Item) : M BuildState Item :=
  let this := assigner_folder (assigner_item pkgId) assigner_expr in
  defaultFolder_item b_setItem
    (λ item, let* n := next_itemId in
             let id := mkItemId pkgId n in
             let* folded := superFoldItem item this in
             ret (with_id folded id))
    item.

Definition assigner (pkgId : nat) : Folder BuildState :=
  assigner_folder (assigner_item pkgId) assigner_expr.

Definition buildPkg (packageName : string) (rootItems : list Item)
    (pkgId : nat) (rootFile : LoadedFile) (fatalError : option ErrorEmitted)
    : Result Pkg :=
  let '(_, itemId) := Ids_next Ids_new in (* pkg root ID *)
  let loopId := Ids_new in
  let ast := mkPkg pkgId rootItems ∅ packageName rootFile fatalError in
  match foldAst ast (assigner pkgId) b_newItemsById
                (mkBuildState itemId loopId ∅) with
  | Ok (pkg, _) => Ok pkg
  | Throw e => Throw e
  end.

(** ** Validator ([validateAst]) *)

Record ValidateState := mkValidateState {
  v_seenItemIds : gset ItemId;
  v_error : list CompilerError;
  v_newItemsById : gmap ItemId Item;
}.

Definition v_emitError (err : CompilerError) : M ValidateState ErrorEmitted :=
  λ st, Ok (errorEmitted,
            mkValidateState (v_seenItemIds st) (sink_emit (v_error st) err)
                            (v_newItemsById st)).

Definition v_setItem (id : ItemId) (item : Item) (st : ValidateState)
    : ValidateState :=
  mkValidateState (v_seenItemIds st) (v_error st)
                  (<[id := item]> (v_newItemsById st)).

Definition v_seen_add (id : ItemId) (st : ValidateState) : ValidateState :=
  mkValidateState ({[id]} ∪ v_seenItemIds st) (v_error st) (v_newItemsById st).

Definition ItemId_toString (id : ItemId) : string :=
  if decide (pkgId id = 0) then pretty (itemIdx id)
  else "[" +:+ pretty (pkgId id) +:+ "@" +:+ pretty (itemIdx id) +:+ "]".

Definition BinaryKind_toString (k : BinaryKind) : string :=
  match k with
  | BAdd => "+" | BSub => "-" | BMul => "*" | BDiv => "/" | BRem => "%"
  | BAnd => "&" | BOr => "|" | BLt => "<" | BGt => ">" | BEq => "=="
  | BLe => "<=" | BGe => ">=" | BNe => "!="
  end.

Definition checkPrecedence (expr_binaryKind : BinaryKind) (expr_span : Span)
    (inner : Expr) (side : string) : M ValidateState unit :=
  match expr_kind inner with
  | KBinary inner_binaryKind _ _ =>
      let ourClass := binaryExprPrecedenceClass expr_binaryKind in
      let innerClass := binaryExprPrecedenceClass inner_binaryKind in
      if decide (ourClass ≠ innerClass) then
        let* _ := v_emitError (mkCompilerError
          ("mixing operators without parentheses is not allowed. " +:+ side
           +:+ " is " +:+ BinaryKind_toString inner_binaryKind
           +:+ ", which is different from "
           +:+ BinaryKind_toString expr_binaryKind) expr_span) in
        ret tt
      else ret tt
  | _ => ret tt
  end.

Definition validator_folder (item : Item → M ValidateState Item)
    (expr : Expr → M ValidateState Expr) : Folder ValidateState :=
  mkFolder item expr ret ret.

Fixpoint validator_expr (expr : Expr) : M ValidateState Expr :=
  let this := validator_folder ret validator_expr in
  match expr with
  | mkExpr (KBlock exprs _) _ _ =>
      let* _ := forEachM (λ inner,
        match inner with
        | mkExpr (KLet _ type rhs _) _ _ =>
            let* _ := validator_expr rhs in
            let* _ := optM (f_type this) type in
            ret tt
        | _ => let* _ := validator_expr inner in ret tt
        end) exprs in
      ret expr
  | mkExpr (KLet _ _ _ _) span _ =>
      let* _ := v_emitError
                  (mkCompilerError "let is only allowed in blocks" span) in
      superFoldExpr expr this
  | mkExpr (KBinary binaryKind lhs rhs) span _ =>
      let* _ := checkPrecedence binaryKind span lhs "left" in
      let* _ := checkPrecedence binaryKind span rhs "right" in
      superFoldExpr expr this
  | _ => superFoldExpr expr this
  end.

Fixpoint validator_item (item : Item) : M ValidateState Item :=
  let this := validator_folder validator_item validator_expr in
  defaultFolder_item v_setItem
    (λ item,
       let* seen := gets v_seenItemIds in
       if decide (item_id item ∈ seen) then
         throw (ThrowError ("duplicate item id: " +:+ ItemId_toString (item_id item)
                            +:+ " for " +:+ item_name item))
       else
         let* _ := modify (v_seen_add (item_id item)) in
         superFoldItem item this)
    item.

Definition validator : Folder ValidateState :=
  validator_folder validator_item validator_expr.

(** [validateAst(ast, gcx)]: the result is the error sink on normal
    return, or what was thrown. *)
Definition validateAst (ast : Pkg) (gcx_error : list CompilerError)
    : Result (list CompilerError) :=
  match foldAst ast validator v_newItemsById
                (mkValidateState ∅ gcx_error ∅) with
  | Ok (_, st) => Ok (v_error st)
  | Throw e => Throw e
  end.

(** ** Resolver ([resolve], [resolveModule], [resolveIdent]) *)

(** Modelled from the spec: the global context ([context.ts] and
    [loader.ts] are not among the sources) "exposes [findItem(id,
    currentPkg) → Item]" and the package loader.  [gcx_loadFresh] stands
    for the part of the loader that reads and compiles a package not seen
    before: given the finalized packages it returns the packages finalized
    on the way (dependencies of the loaded one) and the loaded package. *)
Record GlobalContext := mkGlobalContext {
  gcx_findItem : ItemId → Pkg → Item;
  gcx_loadFresh : list Pkg → string → Span → list Pkg * Pkg;
}.

(** The resolver's mutable state: [gcx.finalizedCrates], the two tables of
    its [Context], and the [scopes] and [blockLocals] arrays of the
    enclosing [resolveModule] call. *)
Record ResolveState := mkResolveState {
  r_finalizedCrates : list Pkg;
  r_modContentsCache : gmap ItemId (gmap string ItemId);
  r_newItemsById : gmap ItemId Item;
  r_scopes : list string;
  r_blockLocals : list (list LocalInfo);
}.

Definition r_set_finalizedCrates (v : list Pkg) (st : ResolveState) :=
  mkResolveState v (r_modContentsCache st) (r_newItemsById st) (r_scopes st)
                 (r_blockLocals st).
Definition r_set_modContentsCache (v : gmap ItemId (gmap string ItemId))
    (st : ResolveState) :=
  mkResolveState (r_finalizedCrates st) v (r_newItemsById st) (r_scopes st)
                 (r_blockLocals st).
Definition r_setItem (id : ItemId) (item : Item) (st : ResolveState) :=
  mkResolveState (r_finalizedCrates st) (r_modContentsCache st)
                 (<[id := item]> (r_newItemsById st)) (r_scopes st)
                 (r_blockLocals st).
Definition r_set_scopes (v : list string) (st : ResolveState) :=
  mkResolveState (r_finalizedCrates st) (r_modContentsCache st)
                 (r_newItemsById st) v (r_blockLocals st).
Definition r_set_blockLocals (v : list (list LocalInfo)) (st : ResolveState) :=
  mkResolveState (r_finalizedCrates st) (r_modContentsCache st)
                 (r_newItemsById st) (r_scopes st) v.

(** Modelled from the spec: "Package loading is memoized: the loader
    guarantees each package name loads at most once and returns the cached
    result thereafter"; a fresh load "loads a dependency package,
    type-checks it recursively, and appends it to the context's
    finalized-package list". *)
Definition crateLoader (gcx : GlobalContext) (name : string) (span : Span)
    : M ResolveState Pkg :=
  λ st,
    let finalized := r_finalizedCrates st in
    match find (λ c, bool_decide (packageName c = name)) finalized with
    | Some c => Ok (c, st)
    | None =>
        let '(deps, c) := gcx_loadFresh gcx finalized name span in
        Ok (c, r_set_finalizedCrates (finalized ++ deps ++ [c]) st)
    end.

(** [new Map(entries)]: entries are inserted in order, later ones win. *)
Definition Map_of_entries (entries : list (string * ItemId))
    : gmap string ItemId :=
  foldl (λ m e, <[e.1 := e.2]> m) ∅ entries.

Definition contents_entries (contents : list Item) : list (string * ItemId) :=
  map (λ item, (item_name item, item_id item)) contents.

Definition loadCrate (gcx : GlobalContext) (name : string) (span : Span)
    : M ResolveState (gmap string ItemId) :=
  let* loadedCrate := crateLoader gcx name span in
  ret (Map_of_entries (contents_entries (rootItems loadedCrate))).

(** [resolveModItem(cx, mod, item, name)]; [mod] is [item.node]. *)
Definition resolveModItem (gcx : GlobalContext) (item : Item) (name : string)
    : M ResolveState (option ItemId) :=
  let* cache := gets r_modContentsCache in
  match cache !! item_id item with
  | Some cachedContents => ret (cachedContents !! name)
  | None =>
      let* contents :=
        match item_kind item with
        | IMod contents => ret (Map_of_entries (contents_entries contents))
        | _ => loadCrate gcx (item_name item) (item_span item)
        end in
      let* _ := modify (λ st, r_set_modContentsCache
                               (<[item_id item := contents]> (r_modContentsCache st)) st) in
      ret (contents !! name)
  end.

(** The duplicate check at the head of [resolveModule]. *)
Fixpoint gather_items (contents : list Item) (items : gmap string ItemId)
    : Result (gmap string ItemId) :=
  match contents with
  | [] => Ok items
  | item :: rest =>
      match items !! item_name item with
      | Some _ =>
          Throw (ThrowCompilerError (mkCompilerError
            ("item `" +:+ item_name item +:+ "` has already been declared")
            (item_span item)))
      | None => gather_items rest (<[item_name item := item_id item]> items)
      end
  end.

(** The scan [for (let i = lastIdx; i >= 0; i--)] of [resolveIdent]; the
    counter [n] is [i + 1]. *)
Fixpoint scan_scopes (scopes : list string) (name : string) (lastIdx n : nat)
    : option nat :=
  match n with
  | 0 => None
  | S i =>
      if decide (scopes !! i = Some name) then Some (lastIdx - i)
      else scan_scopes scopes name lastIdx i
  end.

Section ResolveModule.
Context (gcx : GlobalContext) (ast : Pkg).

Definition resolveIdent (items : gmap string ItemId) (ident : Ident)
    : M ResolveState Resolution :=
  let* scopes := gets r_scopes in
  let lastIdx := length scopes - 1 in
  match scan_scopes scopes (ident_name ident) lastIdx (length scopes) with
  | Some index => ret (ResLocal index)
  | None =>
      match items !! ident_name ident with
      | Some item => ret (ResItem item)
      | None =>
          (* All loaded crates are in scope. *)
          let* finalized := gets r_finalizedCrates in
          match find (λ crate, bool_decide (ident_name ident = packageName crate))
                     (ast :: finalized) with
          | Some crate => ret (ResItem (ItemId_pkgRoot (pkg_id crate)))
          | None =>
              if bool_decide (ident_name ident ∈ BUILTINS) then
                ret (ResBuiltin (ident_name ident))
              else
                throw (ThrowCompilerError (mkCompilerError
                  ("cannot find " +:+ ident_name ident) (ident_span ident)))
          end
      end
  end.

Definition resolver_ident (items : gmap string ItemId) (ident : IdentWithRes)
    : M ResolveState IdentWithRes :=
  let* res := resolveIdent items (mkIdent (iwr_name ident) (iwr_span ident)) in
  ret (mkIdentWithRes (iwr_name ident) (iwr_span ident) (Some res)).

Definition resolver_folder (items : gmap string ItemId)
    (item : Item → M ResolveState Item) (expr : Expr → M ResolveState Expr)
    (type : Type_ → M ResolveState Type_) : Folder ResolveState :=
  mkFolder item expr (resolver_ident items) type.

(** [resolver.type]: [superFoldType(type, this)]. *)
Fixpoint resolver_type (items : gmap string ItemId) (type : Type_)
    : M ResolveState Type_ :=
  superFoldType type (resolver_folder items ret ret (resolver_type items)).

(** [popScope(expected)]. *)
Definition popScope (expected : string) : M ResolveState unit :=
  let* scopes := gets r_scopes in
  let popped := last scopes in
  let* _ := modify (r_set_scopes (removelast scopes)) in
  if decide (popped ≠ Some expected) then
    throw (ThrowError ("Scopes corrupted, wanted to pop " +:+ expected
                       +:+ " but popped " +:+ default "undefined" popped))
  else ret tt.

(** [blockLocals[blockLocals.length - 1].push(local)]; the receiver is
    [undefined] when no block is open. *)
Definition blockLocals_push_local (local : LocalInfo) : M ResolveState unit :=
  let* blockLocals := gets r_blockLocals in
  match last blockLocals with
  | None =>
      throw (ThrowTypeError "Cannot read properties of undefined (reading 'push')")
  | Some top =>
      modify (r_set_blockLocals (removelast blockLocals ++ [top ++ [local]]))
  end.

(** [blockLocals.pop()]. *)
Definition blockLocals_pop : M ResolveState (option (list LocalInfo)) :=
  let* blockLocals := gets r_blockLocals in
  let* _ := modify (r_set_blockLocals (removelast blockLocals)) in
  ret (last blockLocals).

(** The body of the [if (res.kind === "item")] test in the
    [fieldAccess] case: [res] and [segments] come from the visited lhs,
    [fallback] is the final [superFoldExpr(expr, this)]. *)
Definition modulePath (res : Resolution) (segments : list string)
    (lhs_span : Span) (field : Field) (fallback : M ResolveState Expr)
    : M ResolveState Expr :=
  match res with
  | ResItem id =>
      let module := gcx_findItem gcx id ast in
      match item_kind module with
      | IMod _ | IExtern =>
          match field_value field with
          | inr _ =>
              throw (ThrowCompilerError (mkCompilerError
                "module contents cannot be indexed with a number"
                (field_span field)))
          | inl field_name =>
              let* pathResItem := resolveModItem gcx module field_name in
              match pathResItem with
              | None =>
                  throw (ThrowCompilerError (mkCompilerError
                    ("module " +:+ item_name module +:+ " has no item "
                     +:+ field_name) (field_span field)))
              | Some id' =>
                  ret (mkExpr (KPath (segments ++ [field_name]) (ResItem id'))
                              (span_merge lhs_span (field_span field)) None)
              end
          end
      | _ => fallback
      end
  | _ => fallback
  end.

(** [resolver.expr].  Items never occur below an expression, so the
    folder handed to [superFoldExpr] has an inert [item] slot. *)
Fixpoint resolver_expr (items : gmap string ItemId) (expr : Expr)
    : M ResolveState Expr :=
  let this := resolver_folder items ret (resolver_expr items)
                              (resolver_type items) in
  match expr with
  | mkExpr (KBlock exprs _) span _ =>
      let* prevScopeLength := gets (λ st, length (r_scopes st)) in
      let* _ := modify (λ st, r_set_blockLocals (r_blockLocals st ++ [[]]) st) in
      let* exprs' := mapM (resolver_expr items) exprs in
      let* _ := modify (λ st, r_set_scopes (take prevScopeLength (r_scopes st)) st) in
      let* locals := blockLocals_pop in
      ret (mkExpr (KBlock exprs' locals) span None)
  | mkExpr (KLet name type rhs _) span ty =>
      let* rhs' := resolver_expr items rhs in
      let* type' := optM (f_type this) type in
      let* _ := modify (λ st, r_set_scopes (r_scopes st ++ [ident_name name]) st) in
      let local := mkLocalInfo (ident_name name) (ident_span name) None in
      let* _ := blockLocals_push_local local in
      ret (mkExpr (KLet name type' rhs' (Some local)) span ty)
  | mkExpr (KFieldAccess lhs field) span ty =>
      (* We convert field accesses to paths if the lhs refers to a module. *)
      let* lhs' := resolver_expr items lhs in
      let fallback := superFoldExpr expr this in
      match lhs' with
      | mkExpr (KIdent value) lhs_span _ =>
          let* res := resolveIdent items
                        (mkIdent (iwr_name value) (iwr_span value)) in
          modulePath res [iwr_name value] lhs_span field fallback
      | mkExpr (KPath segments res) lhs_span _ =>
          modulePath res segments lhs_span field fallback
      | _ => fallback
      end
  | _ => superFoldExpr expr this
  end.

(** [resolveModule], with the item visitor still to be tied: gather the
    module's names, open fresh [scopes] and [blockLocals], visit the
    contents, and give the caller its own arrays back. *)
Definition resolveModule_with
    (item : list string → gmap string ItemId → Item → M ResolveState Item)
    (modName : list string) (contents : list Item)
    : M ResolveState (list Item) :=
  match gather_items contents ∅ with
  | Throw e => throw e
  | Ok items =>
      let* outer := get in
      let* _ := modify (λ st, r_set_blockLocals [] (r_set_scopes [] st)) in
      let* contents' := mapM (item modName items) contents in
      let* _ := modify (λ st, r_set_blockLocals (r_blockLocals outer)
                                (r_set_scopes (r_scopes outer) st)) in
      ret contents'
  end.

Definition with_defPath (item : Item) (defPath : list string) : Item :=
  let '(mkItem kind span id name _) := item in
  mkItem kind span id name (Some defPath).

(** [resolver.item]: the default [item] around [resolver.itemInner]. *)
Fixpoint resolver_item (modName : list string) (items : gmap string ItemId)
    (item : Item) : M ResolveState Item :=
  let this := resolver_folder items (resolver_item modName items)
                              (resolver_expr items) (resolver_type items) in
  defaultFolder_item r_setItem
    (λ item,
       let '(mkItem kind span id name _) := item in
       let defPath := modName ++ [name] in
       match kind with
       | IFunction params body returnType _ =>
           let* params' := foldArgs this params in
           let* returnType' := optM (f_type this) returnType in
           let* _ := forEachM (λ p, modify (λ st,
                       r_set_scopes (r_scopes st ++ [ident_name (arg_ident p)]) st))
                       params in
           let* body' := f_expr this body in
           let revParams := reverse params in
           let* _ := forEachM (λ p, popScope (ident_name (arg_ident p)))
                              revParams in
           ret (mkItem (IFunction params' body' returnType' None) span id name
                       (Some defPath))
       | IMod contents =>
           let* contents' := resolveModule_with resolver_item defPath contents in
           ret (mkItem (IMod contents') span id name (Some defPath))
       | IExtern =>
           (* Eagerly resolve the crate. *)
           let* _ := loadCrate gcx name span in
           ret (mkItem IExtern span id name (Some defPath))
       | _ =>
           let* folded := superFoldItem item this in
           ret (with_defPath folded defPath)
       end)
    item.

Definition resolveModule : list string → list Item → M ResolveState (list Item) :=
  resolveModule_with resolver_item.
End ResolveModule.

(** [resolve(gcx, ast)]; [finalized] is [gcx.finalizedCrates] on entry, and
    is handed back with the resolved package. *)
Definition resolve (gcx : GlobalContext) (finalized : list Pkg) (ast : Pkg)
    : Result (Pkg * list Pkg) :=
  match resolveModule gcx ast [packageName ast] (rootItems ast)
                      (mkResolveState finalized ∅ ∅ [] []) with
  | Ok (rootItems', st) =>
      Ok (mkPkg (pkg_id ast) rootItems' (r_newItemsById st) (packageName ast)
                (rootFile ast) None,
          r_finalizedCrates st)
  | Throw e => Throw e
  end.

(** ** Body checker ([typeck/expr.ts]) *)

(** Modelled from the spec: the collaborators of [expr.ts] that are not
    among the sources.
    - [typeck/infer.ts]: "a single mutable substitution"; [assign(expected,
      actual, span)] unifies and reports a mismatch as a diagnostic (it
      never aborts); [resolveIfPossible] is the shallow chase.  The
      substitution is kept abstract.
    - [typeck/item.ts]: [typeOfItem] and [lowerAstTy], "lowered on demand
      but memoized per item id", reporting cycles and bad types as
      diagnostics; their memo table is kept abstract.
    - [printer.ts]: [printTy]. *)
Class TypeckEnv := mkTypeckEnv {
  Subst : Type;
  subst_empty : Subst;
  ItemTys : Type;
  subst_assign : Ty → Ty → Span → Subst → Subst * list CompilerError;
  subst_resolveIfPossible : Subst → Ty → Ty;
  item_typeOfItem : ItemId → list Ty → Span → ItemTys → Ty * list CompilerError * ItemTys;
  item_lowerAstTy : Type_ → ItemTys → Ty * list CompilerError * ItemTys;
  printTy : Ty → string;
}.

Record LoopState := mkLoopState { hasBreak : bool; ls_loopId : nat }.

Section Typeck.
Context `{env : TypeckEnv}.
Context (gcx : GlobalContext) (ast : Pkg).

(** Modelled from the spec: [InferContext] ([typeck/infer.ts]).
    "[newVar() → var]: fresh monotonically increasing identifier"; a
    variable is "identified by a sequential integer". *)
Record InferContext := mkInferContext { tyVars : nat; subst : Subst }.

(** [FuncCtx], together with the parts of [TypeckCtx] it reaches: the
    error sink [cx.gcx.error] and the item-type memo table. *)
Record FuncCtx := mkFuncCtx {
  cx_error : list CompilerError;
  cx_itemTys : ItemTys;
  infcx : InferContext;
  localTys : list Ty;
  loopState : list LoopState;
}.

Definition set_cx_error v (fcx : FuncCtx) :=
  mkFuncCtx v (cx_itemTys fcx) (infcx fcx) (localTys fcx) (loopState fcx).
Definition set_cx_itemTys v (fcx : FuncCtx) :=
  mkFuncCtx (cx_error fcx) v (infcx fcx) (localTys fcx) (loopState fcx).
Definition set_infcx v (fcx : FuncCtx) :=
  mkFuncCtx (cx_error fcx) (cx_itemTys fcx) v (localTys fcx) (loopState fcx).
Definition set_localTys v (fcx : FuncCtx) :=
  mkFuncCtx (cx_error fcx) (cx_itemTys fcx) (infcx fcx) v (loopState fcx).
Definition set_loopState v (fcx : FuncCtx) :=
  mkFuncCtx (cx_error fcx) (cx_itemTys fcx) (infcx fcx) (localTys fcx) v.

(** Modelled from the spec: [emitError], [tyError] and [tyErrorFrom]
    ([typeck/base.ts]): a diagnostic "is submitted to the error sink and
    replaced locally by an error sentinel". *)
Definition emitError (err : CompilerError) : M FuncCtx ErrorEmitted :=
  let* _ := modify (λ fcx, set_cx_error (sink_emit (cx_error fcx) err) fcx) in
  ret errorEmitted.

Definition tyErrorFrom (err : ErrorEmitted) : Ty := TyError err.

Definition tyError (err : CompilerError) : M FuncCtx Ty :=
  let* emitted := emitError err in
  ret (tyErrorFrom emitted).

Definition newVar : M FuncCtx Ty :=
  let* ic := gets infcx in
  let* _ := modify (set_infcx (mkInferContext (S (tyVars ic)) (subst ic))) in
  ret (TyVar (tyVars ic)).

Definition assign (expected actual : Ty) (span : Span) : M FuncCtx unit :=
  modify (λ fcx,
    let '(subst', errs) := subst_assign expected actual span (subst (infcx fcx)) in
    set_cx_error (cx_error fcx ++ errs)
      (set_infcx (mkInferContext (tyVars (infcx fcx)) subst') fcx)).

Definition resolveIfPossible (ty : Ty) : M FuncCtx Ty :=
  gets (λ fcx, subst_resolveIfPossible (subst (infcx fcx)) ty).

Definition typeOfItem (id : ItemId) (genericArgs : list Ty) (span : Span)
    : M FuncCtx Ty :=
  λ fcx,
    let '(ty, errs, tys) := item_typeOfItem id genericArgs span (cx_itemTys fcx) in
    Ok (ty, set_cx_itemTys tys (set_cx_error (cx_error fcx ++ errs) fcx)).

Definition lowerAstTy (type : Type_) : M FuncCtx Ty :=
  λ fcx,
    let '(ty, errs, tys) := item_lowerAstTy type (cx_itemTys fcx) in
    Ok (ty, set_cx_itemTys tys (set_cx_error (cx_error fcx ++ errs) fcx)).

(** Reading [e.ty]; the slot is filled by every case of the checker, and
    a read of [.kind] on a missing one raises. *)
Definition ty_of (e : Expr) : M FuncCtx Ty :=
  match expr_ty e with
  | Some ty => ret ty
  | None => throw (ThrowTypeError "Cannot read properties of undefined")
  end.

(** [{ ...e, ty }]. *)
Definition with_ty (e : Expr) (ty : Ty) : Expr :=
  let '(mkExpr kind span _) := e in mkExpr kind span (Some ty).

Definition exprError (err : ErrorEmitted) (span : Span) : Expr :=
  mkExpr (KError err) span (Some (tyErrorFrom err)).

Definition typeOfBuiltinValue (name : string) (span : Span) : M FuncCtx Ty :=
  if decide (name = "false") then ret TY_BOOL
  else if decide (name = "true") then ret TY_BOOL
  else if decide (name = "print") then ret (mkTyFn [TY_STRING] TY_UNIT)
  else if decide (name = "trap") then ret (mkTyFn [] TY_NEVER)
  else if decide (name = "__NULL") then
    let* inner := newVar in ret (TyRawptr inner)
  else if decide (name = "__i32_store") then ret (mkTyFn [TY_I32; TY_I32] TY_UNIT)
  else if decide (name = "__i64_store") then ret (mkTyFn [TY_I32; TY_INT] TY_UNIT)
  else if decide (name = "__i32_load") then ret (mkTyFn [TY_I32] TY_I32)
  else if decide (name = "__i64_load") then ret (mkTyFn [TY_I32] TY_INT)
  else if decide (name = "__memory_size") then ret (mkTyFn [] TY_I32)
  else if decide (name = "__memory_grow") then ret (mkTyFn [TY_I32] TY_I32)
  else if decide (name = "__i32_extend_to_i64_u") then ret (mkTyFn [TY_I32] TY_INT)
  else tyError (mkCompilerError ("`" +:+ name +:+ "` cannot be used as a value") span).

(** [localTys[idx]] for a JavaScript number [idx]: [undefined] outside
    the array. *)
Definition js_index {A} (l : list A) (idx : Z) : option A :=
  if decide (0 ≤ idx)%Z then l !! Z.to_nat idx else None.

(** [typeOfValue]; the result is [undefined] when the local index
    reaches outside [localTys]. *)
Definition typeOfValue (res : Resolution) (span : Span)
    : M FuncCtx (option Ty) :=
  match res with
  | ResLocal index =>
      let* localTys := gets localTys in
      let idx := (Z.of_nat (length localTys) - 1 - Z.of_nat index)%Z in
      ret (js_index localTys idx)
  | ResItem id =>
      let* ty := typeOfItem id [] span in ret (Some ty)
  | ResBuiltin name =>
      let* ty := typeOfBuiltinValue name span in ret (Some ty)
  | ResTyParam _ _ =>
      let* ty := tyError (mkCompilerError
                   "type parameter cannot be used as value" span) in
      ret (Some ty)
  | ResError err => ret (Some (tyErrorFrom err))
  end.

Definition is_int (ty : Ty) : bool := match ty with TyInt => true | _ => false end.
Definition is_i32 (ty : Ty) : bool := match ty with TyI32 => true | _ => false end.
Definition is_bool (ty : Ty) : bool := match ty with TyBool => true | _ => false end.
Definition is_string (ty : Ty) : bool :=
  match ty with TyString => true | _ => false end.

(** [e.ty = fcx.infcx.resolveIfPossible(e.ty)]. *)
Definition resolve_ty_of (e : Expr) : M FuncCtx Expr :=
  let* ty := ty_of e in
  let* ty' := resolveIfPossible ty in
  ret (with_ty e ty').

Definition UnaryKind_toString (k : UnaryKind) : string :=
  match k with UNot => "!" | UNeg => "-" end.

Definition field_value_toString (v : string + nat) : string :=
  match v with inl s => s | inr n => pretty n end.

(** [checkBinary(fcx, expr)] for [expr = { kind: "binary", binaryKind,
    lhs, rhs, span }]; [checkExpr] is [fcx.checkExpr]. *)
Definition checkBinary (checkExpr : Expr → M FuncCtx Expr)
    (binaryKind : BinaryKind) (lhs rhs : Expr) (span : Span)
    : M FuncCtx Expr :=
  let* lhs := checkExpr lhs in
  let* rhs := checkExpr rhs in
  let* lhs := resolve_ty_of lhs in
  let* rhs := resolve_ty_of rhs in
  let* lhsTy := ty_of lhs in
  let* rhsTy := ty_of rhs in
  let result ty := ret (mkExpr (KBinary binaryKind lhs rhs) span (Some ty)) in
  let both (kind : Ty → bool) := kind lhsTy && kind rhsTy in
  let rest :=
    if both is_int then result TY_INT
    else if both is_i32 then result TY_I32
    else if includes LOGICAL_KINDS binaryKind && both is_bool then result TY_BOOL
    else
      let* ty := tyError (mkCompilerError
        ("invalid types for binary operation: " +:+ printTy lhsTy +:+ " "
         +:+ BinaryKind_toString binaryKind +:+ " " +:+ printTy rhsTy) span) in
      result ty in
  if includes COMPARISON_KINDS binaryKind then
    if both is_int then result TY_BOOL
    else if both is_i32 then result TY_BOOL
    else if both is_string then result TY_BOOL
    else
      match lhsTy, rhsTy with
      | TyRawptr lhs_inner, TyRawptr rhs_inner =>
          let* _ := assign lhs_inner rhs_inner span in
          result TY_BOOL
      | _, _ =>
          if includes EQUALITY_KINDS binaryKind && both is_bool
          then result TY_BOOL
          else rest
      end
  else rest.

(** [checkUnary(fcx, expr, rhs)]. *)
Definition checkUnary (unaryKind : UnaryKind) (span : Span) (rhs : Expr)
    : M FuncCtx Expr :=
  let* rhsTy := ty_of rhs in
  if bool_decide (unaryKind = UNot)
     && (is_int rhsTy || is_i32 rhsTy || is_bool rhsTy)
  then ret (mkExpr (KUnary unaryKind rhs) span (Some rhsTy))
  else
    (* Negating an unsigned integer is a bad idea. *)
    let* ty := tyError (mkCompilerError
      ("invalid types for unary operation: " +:+ UnaryKind_toString unaryKind
       +:+ " " +:+ printTy rhsTy) span) in
    ret (mkExpr (KUnary unaryKind rhs) span (Some ty)).

(** The test at the head of [checkCall]: is the callee the
    [___transmute] intrinsic?  Reading [res.kind] of an identifier
    without a resolution raises. *)
Definition is_transmute (lhs : Expr) : M FuncCtx bool :=
  match expr_kind lhs with
  | KIdent value =>
      match iwr_res value with
      | None => throw (ThrowTypeError "Cannot read properties of undefined (reading 'kind')")
      | Some (ResBuiltin name) => ret (bool_decide (name = "___transmute"))
      | Some _ => ret false
      end
  | _ => ret false
  end.

(** The [lhsTy.params.forEach((param, i) => ...)] loop of [checkCall]. *)
Fixpoint checkCall_params (span : Span) (params : list Ty) (args : list Expr)
    (i : nat) : M FuncCtx unit :=
  match params with
  | [] => ret tt
  | param :: params' =>
      let* _ :=
        match args !! i with
        | None =>
            let* _ := emitError (mkCompilerError
              ("missing argument of type " +:+ printTy param) span) in
            ret tt
        | Some arg =>
            let* argTy := ty_of arg in
            assign param argTy (expr_span arg)
        end in
      checkCall_params span params' args (S i)
  end.

(** [checkCall(fcx, expr)] for [expr = { kind: "call", lhs, args, span }]. *)
Definition checkCall (checkExpr : Expr → M FuncCtx Expr)
    (lhs : Expr) (args : list Expr) (span : Span) : M FuncCtx Expr :=
  let* transmute := is_transmute lhs in
  if transmute then
    let* ty := newVar in
    let* args := mapM checkExpr args in
    ret (mkExpr (KCall (with_ty lhs TY_UNIT) args) span (Some ty))
  else
    let* lhs := checkExpr lhs in
    let* lhs := resolve_ty_of lhs in
    (* check args before checking the lhs. *)
    let* args := mapM checkExpr args in
    let* lhsTy := ty_of lhs in
    match lhsTy with
    | TyFn params returnTy =>
        let* _ := checkCall_params span params args 0 in
        let* _ :=
          if decide (length params < length args) then
            let* _ := emitError (mkCompilerError
              ("too many arguments passed, expected " +:+ pretty (length params)
               +:+ ", found " +:+ pretty (length args)) span) in
            ret tt
          else ret tt in
        ret (mkExpr (KCall lhs args) span (Some returnTy))
    | _ =>
        let* ty := tyError (mkCompilerError
          ("expression of type " +:+ printTy lhsTy +:+ " is not callable")
          (expr_span lhs)) in
        ret (mkExpr (KCall lhs args) span (Some ty))
    end.

(** [checkLValue(cx, expr)]. *)
Fixpoint checkLValue (expr : Expr) : M FuncCtx unit :=
  match expr with
  | mkExpr (KIdent _) _ _ | mkExpr (KPath _ _) _ _ => ret tt
  | mkExpr (KFieldAccess lhs _) _ _ => checkLValue lhs
  | mkExpr _ span _ =>
      let* _ := emitError (mkCompilerError
                  "invalid left-hand side of assignment" span) in
      ret tt
  end.

(** The [switch (res.kind)] on an assigned identifier or path. *)
Definition check_assign_res (res : option Resolution) (span : Span)
    : M FuncCtx unit :=
  match res with
  | None => throw (ThrowTypeError "Cannot read properties of undefined (reading 'kind')")
  | Some (ResLocal _) => ret tt
  | Some (ResItem id) =>
      let item := gcx_findItem gcx id ast in
      match item_kind item with
      | IGlobal _ _ _ => ret tt
      | _ =>
          let* _ := emitError (mkCompilerError "cannot assign to item" span) in
          ret tt
      end
  | Some (ResBuiltin _) =>
      let* _ := emitError (mkCompilerError "cannot assign to builtins" span) in
      ret tt
  | Some _ => ret tt
  end.

(** The typing of [lhs.field] in the [fieldAccess] case: the type and the
    recorded field index. *)
Definition fieldAccess_ty (lhs_span span : Span) (lhsTy : Ty) (field : Field)
    : M FuncCtx (Ty * option nat) :=
  let named (fields : list (string * Ty)) : M FuncCtx (Ty * option nat) :=
    match field_value field with
    | inl field_name =>
        match list_find (λ def, def.1 = field_name) fields with
        | None =>
            let* ty := tyError (mkCompilerError
              ("field `" +:+ field_name +:+ "` does not exist on "
               +:+ printTy lhsTy) (field_span field)) in
            ret (ty, None)
        | Some (idx, def) => ret (def.2, Some idx)
        end
    | inr _ =>
        let* ty := tyError (mkCompilerError
          "struct fields must be accessed with their name" (field_span field)) in
        ret (ty, None)
    end in
  match lhsTy with
  | TyTuple elems =>
      match field_value field with
      | inr n =>
          match elems !! n with
          | Some ty => ret (ty, Some n)
          | None =>
              let* ty := tyError (mkCompilerError
                ("tuple with " +:+ pretty (length elems)
                 +:+ " elements cannot be indexed with " +:+ pretty n)
                (field_span field)) in
              ret (ty, None)
          end
      | inl _ =>
          let* ty := tyError (mkCompilerError
            "tuple fields must be accessed with numbers" (field_span field)) in
          ret (ty, None)
      end
  | TyStruct _ fields => named fields
  | TyRawptr inner =>
      let* inner := resolveIfPossible inner in
      match inner with
      | TyStruct _ fields => named fields
      | _ =>
          let* ty := tyError (mkCompilerError
            "fields can only be accessed on pointers pointing to a struct"
            lhs_span) in
          ret (ty, None)
      end
  | _ =>
      let* ty := tyError (mkCompilerError
        ("cannot access field `" +:+ field_value_toString (field_value field)
         +:+ "` on type `" +:+ printTy lhsTy +:+ "`") span) in
      ret (ty, None)
  end.

(** The [fields.forEach(({ name, expr: field }, i) => ...)] loop of the
    [structLiteral] case.  When the name is not a field of the struct,
    [findIndex] gives -1, the diagnostic is emitted, and the following
    [fieldTy[1]] reads a property of [undefined]. *)
Definition check_structLiteral_field (struct_name : string)
    (fields_no_subst : list (string * Ty)) (f : StructLiteralField)
    : M FuncCtx StructLiteralField :=
  let '(mkStructLiteralField name field _) := f in
  match list_find (λ def, def.1 = ident_name name) fields_no_subst with
  | None =>
      let* _ := emitError (mkCompilerError
        ("field " +:+ ident_name name +:+ " doesn't exist on type "
         +:+ struct_name) (ident_span name)) in
      throw (ThrowTypeError "Cannot read properties of undefined (reading '1')")
  | Some (fieldIdx, fieldTy) =>
      let* field_ty := ty_of field in
      let* _ := assign fieldTy.2 field_ty (expr_span field) in
      ret (mkStructLiteralField name field (Some fieldIdx))
  end.

Definition sl_name (f : StructLiteralField) : string :=
  let '(mkStructLiteralField name _ _) := f in ident_name name.

(** [checker.expr] of [checkBody].
    - The write [expr.local!.ty = bindingTy] of the [let] case goes to the
      [LocalInfo] record that the enclosing block's [locals] also holds;
      only the test that the record exists is kept, since the [let] node
      that is returned carries no [local].
    - There is no case for [asm]: the function returns [undefined], and
      the next property read on it raises; this is placed at the node. *)
Fixpoint checker_expr (expr : Expr) : M FuncCtx Expr :=
  match expr with
  | mkExpr KEmpty span _ => ret (mkExpr KEmpty span (Some TY_UNIT))
  | mkExpr (KLet name type rhs local) span _ =>
      let* loweredBindingTy := optM lowerAstTy type in
      let* bindingTy := match loweredBindingTy with
                        | Some ty => ret ty
                        | None => newVar
                        end in
      let* rhs := checker_expr rhs in
      let* rhs_ty := ty_of rhs in
      let* _ := assign bindingTy rhs_ty span in
      (* AST validation ensures that lets can only be in blocks, where
         the types will be popped. *)
      let* _ := modify (λ fcx, set_localTys (localTys fcx ++ [bindingTy]) fcx) in
      match local with
      | None => throw (ThrowTypeError "Cannot set properties of undefined (setting 'ty')")
      | Some _ =>
          let type := match loweredBindingTy with Some _ => type | None => None end in
          ret (mkExpr (KLet name type rhs None) span (Some TY_UNIT))
      end
  | mkExpr (KAssign lhs rhs) span _ =>
      let* lhs := checker_expr lhs in
      let* rhs := checker_expr rhs in
      let* lhs_ty := ty_of lhs in
      let* rhs_ty := ty_of rhs in
      let* _ := assign lhs_ty rhs_ty span in
      let* _ :=
        match lhs with
        | mkExpr (KIdent value) _ _ => check_assign_res (iwr_res value) span
        | mkExpr (KPath _ res) _ _ => check_assign_res (Some res) span
        | mkExpr (KFieldAccess _ _) _ _ => checkLValue lhs
        | mkExpr _ lhs_span _ =>
            let* _ := emitError (mkCompilerError
                        "invalid left-hand side of assignment" lhs_span) in
            ret tt
        end in
      ret (mkExpr (KAssign lhs rhs) span (Some TY_UNIT))
  | mkExpr (KBlock exprs locals) span _ =>
      let* prevLocalTysLen := gets (λ fcx, length (localTys fcx)) in
      let* exprs := mapM checker_expr exprs in
      let ty := match last exprs with
                | Some e => expr_ty e
                | None => Some TY_UNIT
                end in
      let* _ := modify (λ fcx, set_localTys (take prevLocalTysLen (localTys fcx)) fcx) in
      ret (mkExpr (KBlock exprs locals) span ty)
  | mkExpr (KLiteral value) span _ =>
      let ty := match value with
                | LitStr _ _ => TY_STRING
                | LitInt _ LitInt_Int => TY_INT
                | LitInt _ LitInt_I32 => TY_I32
                end in
      ret (mkExpr (KLiteral value) span (Some ty))
  | mkExpr (KIdent value) span _ =>
      match iwr_res value with
      | None => throw (ThrowTypeError "Cannot read properties of undefined (reading 'kind')")
      | Some res =>
          let* ty := typeOfValue res (iwr_span value) in
          ret (mkExpr (KIdent value) span ty)
      end
  | mkExpr (KPath segments res) span _ =>
      let* ty := typeOfValue res span in
      ret (mkExpr (KPath segments res) span ty)
  | mkExpr (KBinary binaryKind lhs rhs) span _ =>
      checkBinary checker_expr binaryKind lhs rhs span
  | mkExpr (KUnary unaryKind rhs) span _ =>
      let* rhs := checker_expr rhs in
      let* rhs := resolve_ty_of rhs in
      checkUnary unaryKind span rhs
  | mkExpr (KCall lhs args) span _ =>
      checkCall checker_expr lhs args span
  | mkExpr (KFieldAccess lhs field) span _ =>
      let lhs_span := expr_span lhs in
      let* lhs := checker_expr lhs in
      let* lhs := resolve_ty_of lhs in
      let* lhs_ty := ty_of lhs in
      let* '(ty, fieldIdx) := fieldAccess_ty lhs_span span lhs_ty field in
      ret (mkExpr (KFieldAccess lhs
                     (mkField (field_value field) (field_span field) fieldIdx))
                  span (Some ty))
  | mkExpr (KIf cond then_ else_) span _ =>
      let* cond := checker_expr cond in
      let* then_ := checker_expr then_ in
      let* elsePart := optM checker_expr else_ in
      let* cond_ty := ty_of cond in
      let* _ := assign TY_BOOL cond_ty (expr_span cond) in
      let* then_ty := ty_of then_ in
      let* ty :=
        match elsePart with
        | Some elsePart =>
            let* else_ty := ty_of elsePart in
            let* _ := assign then_ty else_ty (expr_span elsePart) in
            ret then_ty
        | None =>
            let* _ := assign TY_UNIT then_ty (expr_span then_) in
            ret TY_UNIT
        end in
      ret (mkExpr (KIf cond then_ elsePart) span (Some ty))
  | mkExpr (KLoop body loopId) span _ =>
      let* _ := modify (λ fcx, set_loopState
                          (loopState fcx ++ [mkLoopState false loopId]) fcx) in
      let* body := checker_expr body in
      let* body_ty := ty_of body in
      let* _ := assign TY_UNIT body_ty (expr_span body) in
      let* hadBreak := gets (λ fcx, last (loopState fcx)) in
      let* _ := modify (λ fcx, set_loopState (removelast (loopState fcx)) fcx) in
      let ty := match hadBreak with
                | Some _ => TY_UNIT
                | None => TY_NEVER
                end in
      ret (mkExpr (KLoop body loopId) span (Some ty))
  | mkExpr (KBreak _) span _ =>
      let* loopState := gets loopState in
      match last loopState with
      | None =>
          let* err := emitError (mkCompilerError "break outside loop" span) in
          ret (exprError err span)
      | Some top =>
          let target := ls_loopId top in
          let* _ := modify (set_loopState
                      (removelast loopState ++ [mkLoopState true (ls_loopId top)])) in
          ret (mkExpr (KBreak (Some target)) span (Some TY_NEVER))
      end
  | mkExpr (KStructLiteral name fields) span _ =>
      let* fields := mapM (λ f, let '(mkStructLiteralField name expr _) := f in
                                let* expr := checker_expr expr in
                                ret (mkStructLiteralField name expr None)) fields in
      let* structTy :=
        match iwr_res name with
        | None => throw (ThrowTypeError "Cannot read properties of undefined (reading 'kind')")
        | Some res => typeOfValue res (iwr_span name)
        end in
      match structTy with
      | None => throw (ThrowTypeError "Cannot read properties of undefined (reading 'kind')")
      | Some (TyStruct struct_name fields_no_subst) =>
          let* fields := mapM (check_structLiteral_field (iwr_name name)
                                 fields_no_subst) fields in
          let assignedFields := map sl_name fields in
          let missing := filter (λ n, n ∉ assignedFields)
                                (map fst fields_no_subst) in
          let* _ :=
            if decide (0 < length missing) then
              let* _ := emitError (mkCompilerError
                ("missing fields in literal: " +:+ String.concat ", " missing)
                span) in
              ret tt
            else ret tt in
          ret (mkExpr (KStructLiteral name fields) span
                      (Some (TyStruct struct_name fields_no_subst)))
      | Some _ =>
          let* err := emitError (mkCompilerError
                        "struct literal is only allowed for struct types" span) in
          ret (exprError err span)
      end
  | mkExpr (KTupleLiteral fields) span _ =>
      let* fields := mapM checker_expr fields in
      let* elems := mapM ty_of fields in
      ret (mkExpr (KTupleLiteral fields) span (Some (TyTuple elems)))
  | mkExpr KAsm _ _ =>
      throw (ThrowTypeError "Cannot read properties of undefined")
  | mkExpr (KError err) span _ =>
      ret (mkExpr (KError err) span (Some (tyErrorFrom err)))
  end.

(** [checkBody(cx, ast, body, fnTy)] up to and including the unification
    of the body with the declared return type; the closing pass
    [resolveBody], which replaces inference variables by their
    solutions, is modelled on its own. *)
Definition checkBody (itemTys : ItemTys) (sink : list CompilerError)
    (body : Expr) (fnTy_params : list Ty) (fnTy_returnTy : Ty)
    : Result (Expr * FuncCtx) :=
  let fcx := mkFuncCtx sink itemTys (mkInferContext 0 subst_empty) fnTy_params [] in
  (let* checked := checker_expr body in
   let* checked_ty := ty_of checked in
   let* _ := assign fnTy_returnTy checked_ty (expr_span body) in
   ret checked) fcx.
End Typeck.

(** ** Parser ([parser.ts]: [parse], [parseItems], [parseItem],
    [parseExpr], [parseType] and their helpers) *)

(** Modelled from the spec: "Lexer (external): tokens + spans".
    [lexer.ts], which declares [Token], is not among the sources.  A token
    has a kind and a span; an identifier carries its name, a string
    literal its value, an integer literal its value and type, as the
    parser reads them.  The kinds are those that the parser names; the
    kind of a binary operator is its [BinaryKind]. *)
Inductive Sym :=
| SFunction | SType | SStruct | SImport | SExtern | SMod | SGlobal | SUse
| SLet | SIf | SThen | SElse | SLoop | SBreak
| SLParen | SRParen | SLBrace | SRBrace | SLBracket | SRBracket
| SSemi | SColon | SComma | SDot | SAssign | SNot
| SBinary (k : BinaryKind).

Inductive TokenKind :=
| TkIdentifier
| TkLitString
| TkLitInt
| TkSym (s : Sym).

Coercion TkSym : Sym >-> TokenKind.

#[global] Instance Sym_eq_dec : EqDecision Sym.
Proof. solve_decision. Defined.

#[global] Instance TokenKind_eq_dec : EqDecision TokenKind.
Proof. solve_decision. Defined.

Definition TokenKind_toString (kind : TokenKind) : string :=
  match kind with
  | TkIdentifier => "identifier"
  | TkLitString => "lit_string"
  | TkLitInt => "lit_int"
  | TkSym s =>
      match s with
      | SFunction => "function" | SType => "type" | SStruct => "struct"
      | SImport => "import" | SExtern => "extern" | SMod => "mod"
      | SGlobal => "global" | SUse => "use" | SLet => "let" | SIf => "if"
      | SThen => "then" | SElse => "else" | SLoop => "loop"
      | SBreak => "break"
      | SLParen => "(" | SRParen => ")" | SLBrace => "{" | SRBrace => "}"
      | SLBracket => "[" | SRBracket => "]"
      | SSemi => ";" | SColon => ":" | SComma => "," | SDot => "."
      | SAssign => "=" | SNot => "!"
      | SBinary k => BinaryKind_toString k
      end
  end.

Inductive Token :=
| TokenIdent (ident : string) (span : Span)
| TokenLitString (value : string) (span : Span)
| TokenLitInt (value : nat) (type : LitIntType) (span : Span)
| TokenSym (s : Sym) (span : Span).

Definition tok_kind (tok : Token) : TokenKind :=
  match tok with
  | TokenIdent _ _ => TkIdentifier
  | TokenLitString _ _ => TkLitString
  | TokenLitInt _ _ _ => TkLitInt
  | TokenSym s _ => TkSym s
  end.

Definition tok_span (tok : Token) : Span :=
  match tok with
  | TokenIdent _ span | TokenLitString _ span | TokenLitInt _ _ span
  | TokenSym _ span => span
  end.

(** [tok.ident] and [tok.value] of a token that [expectNext] has cast to
    [TokenIdent] or [TokenLitString]; tokens of other kinds have no such
    slot. *)
Definition tok_ident (tok : Token) : string :=
  match tok with TokenIdent ident _ => ident | _ => "" end.

Definition tok_value (tok : Token) : string :=
  match tok with TokenLitString value _ => value | _ => "" end.

(** Modelled from the spec: the collaborators of the parser that are not
    among the sources.
    - [error.ts]: [Span.eof(file)], and the file that a span lies in
      ([span.file]), which [Span] above does not keep.
    - [loader.ts]: "[loadModuleFile(referrerPath, submoduleName, span)] →
      either a loaded file or an error".
    - [lexer.ts]: "[tokenize(errorSink, file) → { ok, tokens } | { ok:
      false, err }]", together with the diagnostics that it submits to
      the sink. *)
Class ParserEnv := mkParserEnv {
  span_eof : LoadedFile → Span;
  span_file : Span → LoadedFile;
  loadModuleFile : string → string → Span → CompilerError + LoadedFile;
  tokenize : LoadedFile → (ErrorEmitted + list Token) * list CompilerError;
}.

(** [ParseState]; its [gcx] is reached for the error sink only, which is
    shared by all states and therefore threaded through [PM] below. *)
Record ParseState := mkParseState {
  ps_tokens : list Token;
  ps_file : LoadedFile;
}.

(** What a run of a parser ends in: its value and the sink, a
    [FatalParseError] carrying [inner] (with the sink as the throw left
    it), or the bound on the recursion of this embedding being reached. *)
Inductive Outcome (A : Type) :=
| POk (a : A) (sink : list CompilerError)
| PFatal (inner : ErrorEmitted) (sink : list CompilerError)
| POutOfFuel.
Arguments POk {A} a sink.
Arguments PFatal {A} inner sink.
Arguments POutOfFuel {A}.

Definition PM (A : Type) : Type := list CompilerError → Outcome A.

Definition p_ret {A} (a : A) : PM A := λ sink, POk a sink.

Definition p_bind {A B} (m : PM A) (f : A → PM B) : PM B :=
  λ sink, match m sink with
          | POk a sink' => f a sink'
          | PFatal inner sink' => PFatal inner sink'
          | POutOfFuel => POutOfFuel
          end.

Definition p_outOfFuel {A} : PM A := λ _, POutOfFuel.

(** [t.gcx.error.emitError(err)]. *)
Definition p_emitError (err : CompilerError) : PM ErrorEmitted :=
  λ sink, POk errorEmitted (sink_emit sink err).

(** [throw new FatalParseError(inner)]. *)
Definition p_throw {A} (inner : ErrorEmitted) : PM A :=
  λ sink, PFatal inner sink.

(** [throw new FatalParseError(t.gcx.error.emitError(err))]. *)
Definition p_fatal {A} (err : CompilerError) : PM A :=
  p_bind (p_emitError err) p_throw.

Notation "'let+' x ':=' m 'in' k" := (p_bind m (λ x, k))
  (at level 10, x name, m at level 100, k at level 200).
Notation "'let+' ' pat ':=' m 'in' k" :=
  (p_bind m (λ x, match x with pat => k end))
  (at level 10, pat pattern, m at level 100, k at level 200).

(** [type Parser<T> = (t: State) => [State, T]]. *)
Definition Parser (T : Type) : Type := ParseState → PM (ParseState * T).

Definition UNARY_KINDS : list UnaryKind := [UNot; UNeg].

(** [peek as UnaryKind] and [kind as BinaryKind]: the kinds that are
    written like a unary or a binary operator. *)
Definition as_UnaryKind (kind : TokenKind) : option UnaryKind :=
  match kind with
  | TkSym SNot => Some UNot
  | TkSym (SBinary BSub) => Some UNeg
  | _ => None
  end.

Definition as_BinaryKind (kind : TokenKind) : option BinaryKind :=
  match kind with
  | TkSym (SBinary k) => Some k
  | _ => None
  end.

Section Parser.
Context `{penv : ParserEnv}.

Definition maybeNextT (t : ParseState) : ParseState * option Token :=
  let next := head (ps_tokens t) in
  let rest := tail (ps_tokens t) in
  (mkParseState rest (ps_file t), next).

Definition unexpectedToken {A} (token : Token) (expected : string) : PM A :=
  p_fatal (mkCompilerError ("unexpected token, expected " +:+ expected)
                           (tok_span token)).

Definition next (t : ParseState) : PM (ParseState * Token) :=
  let '(rest, next) := maybeNextT t in
  match next with
  | None => p_fatal (mkCompilerError "unexpected end of file"
                                     (span_eof (ps_file t)))
  | Some next => p_ret (rest, next)
  end.

Definition expectNext (t : ParseState) (kind : TokenKind)
    : PM (ParseState * Token) :=
  let '(t, tok) := maybeNextT t in
  match tok with
  | None =>
      p_fatal (mkCompilerError
        ("expected `" +:+ TokenKind_toString kind +:+ "`, found end of file")
        (span_eof (ps_file t)))
  | Some tok =>
      if decide (tok_kind tok ≠ kind) then
        p_fatal (mkCompilerError
          ("expected `" +:+ TokenKind_toString kind +:+ "`, found `"
           +:+ TokenKind_toString (tok_kind tok) +:+ "`")
          (tok_span tok))
      else p_ret (t, tok)
  end.

Definition peekKind (t : ParseState) : option TokenKind :=
  tok_kind <$> (maybeNextT t).2.

Definition eat (t : ParseState) (kind : TokenKind)
    : PM (ParseState * option Token) :=
  if decide (peekKind t = Some kind) then
    let+ '(t, tok) := expectNext t kind in
    p_ret (t, Some tok)
  else p_ret (t, None).

(** The [while] loop of [parseCommaSeparatedList]; [n] bounds the number
    of its rounds. *)
Fixpoint parseCommaSeparatedList_loop {R} (n : nat) (terminator : TokenKind)
    (parser : Parser R) (t : ParseState) (items : list R)
    : PM (ParseState * list R) :=
  match n with
  | 0 => p_outOfFuel
  | S n' =>
      if decide (peekKind t ≠ Some terminator) then
        let+ '(t, nextValue) := parser t in
        let items := items ++ [nextValue] in
        let+ '(t, comma) := eat t SComma in
        match comma with
        | None =>
            (* No comma? Fine, you don't like trailing commas.
               But this better be the end. *)
            if decide (peekKind t ≠ Some terminator) then
              let+ '(_, tok) := next t in
              unexpectedToken tok
                (", or " +:+ TokenKind_toString terminator)
            else p_ret (t, items)
        | Some _ => parseCommaSeparatedList_loop n' terminator parser t items
        end
      else p_ret (t, items)
  end.

Definition parseCommaSeparatedList {R} (fuel : nat) (t : ParseState)
    (terminator : TokenKind) (parser : Parser R) : PM (ParseState * list R) :=
  (* () | (a) | (a,) | (a, b) *)
  let+ '(t, items) := parseCommaSeparatedList_loop fuel terminator parser t [] in
  let+ '(t, _) := expectNext t terminator in
  p_ret (t, items).

(** [parseGenericsArgs]; its reference to [parseType] is the argument. *)
Definition parseGenericsArgs (parseType : Parser Type_) (fuel : nat)
    (t : ParseState) : PM (ParseState * list Type_) :=
  let+ '(t, openBracket) := eat t SLBracket in
  match openBracket with
  | Some _ => parseCommaSeparatedList fuel t SRBracket parseType
  | None => p_ret (t, [])
  end.

(** [parseType]; [fuel] bounds the depth of its recursion and the rounds
    of the loops below it. *)
Fixpoint parseType (fuel : nat) (t : ParseState) : PM (ParseState * Type_) :=
  match fuel with
  | 0 => p_outOfFuel
  | S fuel' =>
      let+ '(t, tok) := next t in
      let span := tok_span tok in
      match tok with
      | TokenSym SNot _ => p_ret (t, TNever span)
      | TokenIdent ident _ =>
          let+ '(t, generics) := parseGenericsArgs (parseType fuel') fuel t in
          p_ret (t, TIdent generics (mkIdentWithRes ident span None) span)
      | TokenSym SLParen _ =>
          (* `()` is a the unit type, an empty tuple.
             `(T)` is just `T`
             `(T,)` is a tuple *)
          if decide (peekKind t = Some (TkSym SRParen)) then
            let+ '(t, _) := next t in
            p_ret (t, TTuple [] span)
          else
            let+ '(t, head) := parseType fuel' t in
            if decide (peekKind t = Some (TkSym SRParen)) then
              let+ '(t, _) := next t in
              (* Just a type inside parens, not a tuple. `(T,)` is a tuple. *)
              p_ret (t, head)
            else
              let+ '(t, _) := expectNext t SComma in
              let+ '(t, tail) :=
                parseCommaSeparatedList fuel t SRParen (parseType fuel') in
              p_ret (t, TTuple (head :: tail) span)
      | TokenSym (SBinary BMul) _ =>
          let+ '(t, inner) := parseType fuel' t in
          p_ret (t, TRawptr inner span)
      | _ =>
          p_fatal (mkCompilerError
            ("unexpected token: `" +:+ TokenKind_toString (tok_kind tok)
             +:+ "`, expected type") span)
      end
  end.

(** [mkBinaryExpr]; [kind as BinaryKind] is a cast that the source does
    not check.  Every caller passes a kind out of a list of binary
    operators; for any other kind there is no [BinaryKind] to produce,
    and the expression is left as the left operand. *)
Definition mkBinaryExpr (lhs rhs : Expr) (span : Span) (kind : TokenKind)
    : Expr :=
  match as_BinaryKind kind with
  | Some binaryKind => mkExpr (KBinary binaryKind lhs rhs) span None
  | None => lhs
  end.

(** [mkParserExprBinary(lower, kinds, mkExpr)]: the function [parser]
    that it returns, with a bound on its recursion. *)
Fixpoint mkParserExprBinary (n : nat) (lower : Parser Expr)
    (kinds : list TokenKind)
    (mkExpr : Expr → Expr → Span → TokenKind → Expr)
    (t : ParseState) : PM (ParseState * Expr) :=
  match n with
  | 0 => p_outOfFuel
  | S n' =>
      let+ '(t, lhs) := lower t in
      match peekKind t with
      | Some peek =>
          if bool_decide (peek ∈ kinds) then
            let+ '(t, tok) := next t in
            let+ '(t, rhs) := mkParserExprBinary n' lower kinds mkExpr t in
            let span := span_merge (expr_span lhs) (expr_span rhs) in
            p_ret (t, mkExpr lhs rhs span (tok_kind tok))
          else p_ret (t, lhs)
      | None => p_ret (t, lhs)
      end
  end.

(** The expression parsers below [parseExpr].  Their calls of [parseExpr]
    go to the argument of that name; [fuel] bounds the rounds of every
    loop and the depth of [parseType]. *)
Section ParseExpr.
Variable parseExpr : Parser Expr.
Variable fuel : nat.

Definition parseStructInit (t : ParseState)
    : PM (ParseState * list StructLiteralField) :=
  let+ '(t, _) := expectNext t SLBrace in
  let+ '(t, fields) :=
    parseCommaSeparatedList fuel t SRBrace (λ t,
      let+ '(t, name) := expectNext t TkIdentifier in
      let+ '(t, _) := expectNext t SColon in
      let+ '(t, expr) := parseExpr t in
      p_ret (t, mkStructLiteralField
                  (mkIdent (tok_ident name) (tok_span name)) expr None)) in
  p_ret (t, fields).

(** The [while (peekKind(t) !== ")")] loop of a block. *)
Fixpoint parseExprAtom_block (n : nat) (t : ParseState) (exprs : list Expr)
    : PM (ParseState * list Expr) :=
  match n with
  | 0 => p_outOfFuel
  | S n' =>
      if decide (peekKind t ≠ Some (TkSym SRParen)) then
        let+ '(t, _) := expectNext t SSemi in
        let+ '(t, expr) := parseExpr t in
        parseExprAtom_block n' t (exprs ++ [expr])
      else p_ret (t, exprs)
  end.

Definition parseExprAtom (startT : ParseState) : PM (ParseState * Expr) :=
  let+ '(t, tok) := next startT in
  let span := tok_span tok in
  match tok with
  | TokenSym SLParen _ =>
      let+ '(t, expr) := parseExpr t in
      (* This could be a block or a tuple literal. We can only know after
         parsing the first expression and looking at the delimiter. *)
      let+ '(_, peek) := next t in
      match tok_kind peek with
      | TkSym SRParen =>
          (* It's a single element, which we interpret as a block.
             `(0,)` is the one elem tuple. *)
          let+ '(t, _) := expectNext t SRParen in
          p_ret (t, mkExpr (KBlock [expr] None) span None)
      | TkSym SSemi =>
          (* It's a block. *)
          let+ '(t, exprs) := parseExprAtom_block fuel t [expr] in
          let+ '(t, _) := expectNext t SRParen in
          p_ret (t, mkExpr (KBlock exprs None) span None)
      | TkSym SComma =>
          (* It's a tuple. *)
          let+ '(t, _) := expectNext t SComma in
          let+ '(t, rest) := parseCommaSeparatedList fuel t SRParen parseExpr in
          p_ret (t, mkExpr (KTupleLiteral (expr :: rest)) span None)
      | _ => unexpectedToken peek "`,`, `;` or `)`"
      end
  | TokenLitString value _ =>
      p_ret (t, mkExpr (KLiteral (LitStr value (tok_span tok))) span None)
  | TokenLitInt value type _ =>
      p_ret (t, mkExpr (KLiteral (LitInt value type)) span None)
  | TokenIdent ident _ =>
      if decide (tok_kind <$> (maybeNextT t).2 = Some (TkSym SLBrace)) then
        let+ '(t, fields) := parseStructInit t in
        p_ret (t, mkExpr (KStructLiteral (mkIdentWithRes ident span None) fields)
                         span None)
      else
        p_ret (t, mkExpr (KIdent (mkIdentWithRes ident span None)) span None)
  | TokenSym SLet _ =>
      let+ '(t, name) := expectNext t TkIdentifier in
      let+ '(t, colon) := eat t SColon in
      let+ '(t, type) :=
        match colon with
        | Some _ => let+ '(t, type) := parseType fuel t in p_ret (t, Some type)
        | None => p_ret (t, None)
        end in
      let+ '(t, _) := expectNext t SAssign in
      let+ '(t, rhs) := parseExpr t in
      let nameIdent := mkIdent (tok_ident name) (tok_span name) in
      p_ret (t, mkExpr (KLet nameIdent type rhs None) (tok_span name) None)
  | TokenSym SIf _ =>
      let+ '(t, cond) := parseExpr t in
      let+ '(t, _) := expectNext t SThen in
      let+ '(t, then_) := parseExpr t in
      let+ '(t, elseTok) := eat t SElse in
      let+ '(t, elsePart) :=
        match elseTok with
        | Some _ => let+ '(t, e) := parseExpr t in p_ret (t, Some e)
        | None => p_ret (t, None)
        end in
      p_ret (t, mkExpr (KIf cond then_ elsePart) (tok_span tok) None)
  | TokenSym SLoop _ =>
      let+ '(t, body) := parseExpr t in
      p_ret (t, mkExpr (KLoop body 0) (tok_span tok) None)
  | TokenSym SBreak _ =>
      p_ret (t, mkExpr (KBreak None) (tok_span tok) None)
  | _ =>
      (* Parse nothing at all. *)
      p_ret (startT, mkExpr KEmpty span None)
  end.

(** The [while (peekKind(t) === "(" || peekKind(t) === ".")] loop of
    [parseExprCall]. *)
Fixpoint parseExprCall_loop (n : nat) (t : ParseState) (lhs : Expr)
    : PM (ParseState * Expr) :=
  match n with
  | 0 => p_outOfFuel
  | S n' =>
      if decide (peekKind t = Some (TkSym SLParen)
                 ∨ peekKind t = Some (TkSym SDot)) then
        let+ '(t, tok) := next t in
        match tok_kind tok with
        | TkSym SLParen =>
            let+ '(t, args) :=
              parseCommaSeparatedList fuel t SRParen parseExpr in
            parseExprCall_loop n' t (mkExpr (KCall lhs args) (tok_span tok) None)
        | TkSym SDot =>
            let+ '(t, access) := next t in
            let+ value :=
              match access with
              | TokenIdent ident _ => p_ret (inl ident)
              | TokenLitInt value _ _ => p_ret (inr value)
              | _ => unexpectedToken access "identifier or integer"
              end in
            parseExprCall_loop n' t
              (mkExpr (KFieldAccess lhs (mkField value (tok_span access) None))
                      (span_merge (expr_span lhs) (tok_span access)) None)
        | _ => parseExprCall_loop n' t lhs
        end
      else p_ret (t, lhs)
  end.

Definition parseExprCall (t : ParseState) : PM (ParseState * Expr) :=
  let+ '(t, lhs) := parseExprAtom t in
  parseExprCall_loop fuel t lhs.

(** [parseExprUnary]; [n] bounds the depth of its recursion. *)
Fixpoint parseExprUnary (n : nat) (t : ParseState) : PM (ParseState * Expr) :=
  match n with
  | 0 => p_outOfFuel
  | S n' =>
      match peekKind t with
      | Some peek =>
          match as_UnaryKind peek with
          | Some unaryKind =>
              if bool_decide (unaryKind ∈ UNARY_KINDS) then
                let+ '(t, tok) := expectNext t peek in
                let+ '(t, rhs) := parseExprUnary n' t in
                p_ret (t, mkExpr (KUnary unaryKind rhs) (tok_span tok) None)
              else parseExprCall t
          | None => parseExprCall t
          end
      | None => parseExprCall t
      end
  end.

Definition parseExprArithFactor : Parser Expr :=
  mkParserExprBinary fuel (parseExprUnary fuel)
    (map (λ k, TkSym (SBinary k)) ARITH_FACTOR_KINDS) mkBinaryExpr.

Definition parseExprArithTerm : Parser Expr :=
  mkParserExprBinary fuel parseExprArithFactor
    (map (λ k, TkSym (SBinary k)) ARITH_TERM_KINDS) mkBinaryExpr.

Definition parseExprLogical : Parser Expr :=
  mkParserExprBinary fuel parseExprArithTerm
    (map (λ k, TkSym (SBinary k)) LOGICAL_KINDS) mkBinaryExpr.

Definition parseExprComparison : Parser Expr :=
  mkParserExprBinary fuel parseExprLogical
    (map (λ k, TkSym (SBinary k)) COMPARISON_KINDS) mkBinaryExpr.

Definition parseExprAssignment : Parser Expr :=
  mkParserExprBinary fuel parseExprComparison [TkSym SAssign]
    (λ lhs rhs span _, mkExpr (KAssign lhs rhs) span None).
End ParseExpr.

(** [parseExpr]; [fuel] bounds the depth at which expressions nest, and
    the rounds of the loops at each depth. *)
Fixpoint parseExpr (fuel : nat) : Parser Expr :=
  match fuel with
  | 0 => λ _, p_outOfFuel
  | S fuel' => parseExprAssignment (parseExpr fuel') fuel
  end.

Record FunctionSig := mkFunctionSig {
  sig_name : string;
  sig_params : list FunctionArg;
  sig_returnType : option Type_;
}.

Definition parseFunctionSig (fuel : nat) (t : ParseState)
    : PM (ParseState * FunctionSig) :=
  let+ '(t, name) := expectNext t TkIdentifier in
  let+ '(t, _) := expectNext t SLParen in
  let+ '(t, params) :=
    parseCommaSeparatedList fuel t SRParen (λ t,
      let+ '(t, name) := expectNext t TkIdentifier in
      let+ '(t, _) := expectNext t SColon in
      let+ '(t, type) := parseType fuel t in
      p_ret (t, mkFunctionArg (mkIdent (tok_ident name) (tok_span name)) type)) in
  let+ '(t, colon) := eat t SColon in
  let+ '(t, returnType) :=
    match colon with
    | Some _ => let+ '(t, ty) := parseType fuel t in p_ret (t, Some ty)
    | None => p_ret (t, None)
    end in
  p_ret (t, mkFunctionSig (tok_ident name) params returnType).

Definition parseGenericsDef (fuel : nat) (t : ParseState)
    : PM (ParseState * list Ident) :=
  let+ '(t, openBracket) := eat t SLBracket in
  match openBracket with
  | Some _ =>
      let+ '(t, elems) :=
        parseCommaSeparatedList fuel t SRBracket (λ t,
          let+ '(t, name) := expectNext t TkIdentifier in
          p_ret (t, mkIdent (tok_ident name) (tok_span name))) in
      p_ret (t, elems)
  | None => p_ret (t, [])
  end.

(** [tokenize(t.gcx.error, file)]. *)
Definition p_tokenize (file : LoadedFile) : PM (ErrorEmitted + list Token) :=
  λ sink, let '(r, errs) := tokenize file in POk r (sink ++ errs).

(** The [while (t.tokens.length > 0)] loop of [parseItems]; its reference
    to [parseItem] is the argument. *)
Fixpoint parseItems_loop (parseItem : Parser Item) (n : nat) (t : ParseState)
    (items : list Item) : PM (ParseState * list Item) :=
  match n with
  | 0 => p_outOfFuel
  | S n' =>
      if decide (0 < length (ps_tokens t)) then
        let+ '(t, item) := parseItem t in
        parseItems_loop parseItem n' t (items ++ [item])
      else p_ret (t, items)
  end.

(** The [while (peekKind(t) !== ")")] loop of an inline module. *)
Fixpoint parseItem_contents (parseItem : Parser Item) (n : nat)
    (t : ParseState) (contents : list Item) : PM (ParseState * list Item) :=
  match n with
  | 0 => p_outOfFuel
  | S n' =>
      if decide (peekKind t ≠ Some (TkSym SRParen)) then
        let+ '(t, item) := parseItem t in
        parseItem_contents parseItem n' t (contents ++ [item])
      else p_ret (t, contents)
  end.

(** The [while (true)] loop over the segments of a [use]. *)
Fixpoint parseItem_segments (n : nat) (t : ParseState) (segments : list Ident)
    : PM (ParseState * list Ident) :=
  match n with
  | 0 => p_outOfFuel
  | S n' =>
      let+ '(t, semi) := eat t SDot in
      match semi with
      | None => p_ret (t, segments)
      | Some _ =>
          let+ '(t, ident) := expectNext t TkIdentifier in
          parseItem_segments n' t
            (segments ++ [mkIdent (tok_ident ident) (tok_span ident)])
      end
  end.

(** [parseItem]; [fuel] bounds the depth at which modules nest (inline or
    through files), and the rounds of the loops at each depth. *)
Fixpoint parseItem (fuel : nat) (t : ParseState) : PM (ParseState * Item) :=
  match fuel with
  | 0 => p_outOfFuel
  | S fuel' =>
      let+ '(t, tok) := next t in
      match tok_kind tok with
      | TkSym SFunction =>
          let+ '(t, sig) := parseFunctionSig fuel t in
          let+ '(t, _) := expectNext t SAssign in
          let+ '(t, body) := parseExpr fuel t in
          let+ '(t, _) := expectNext t SSemi in
          p_ret (t, mkItem (IFunction (sig_params sig) body (sig_returnType sig) None)
                           (tok_span tok)
                           (* Assigned later. *)
                           ItemId_dummy (sig_name sig) None)
      | TkSym SType =>
          let+ '(t, name) := expectNext t TkIdentifier in
          let+ '(t, generics) := parseGenericsDef fuel t in
          let+ '(t, _) := expectNext t SAssign in
          let+ '(t, struct) := eat t SStruct in
          let+ '(t, type) :=
            match struct with
            | Some _ =>
                let+ '(t, _) := expectNext t SLBrace in
                let+ '(t, fields) :=
                  parseCommaSeparatedList fuel t SRBrace (λ t,
                    let+ '(t, name) := expectNext t TkIdentifier in
                    let+ '(t, _) := expectNext t SColon in
                    let+ '(t, type) := parseType fuel t in
                    p_ret (t, mkFieldDef
                                (mkIdent (tok_ident name) (tok_span name)) type)) in
                p_ret (t, TDStruct fields)
            | None =>
                let+ '(t, aliased) := parseType fuel t in
                p_ret (t, TDAlias aliased)
            end in
          let+ '(t, _) := expectNext t SSemi in
          p_ret (t, mkItem (IType generics type None) (tok_span name)
                           ItemId_dummy (tok_ident name) None)
      | TkSym SImport =>
          let+ '(t, _) := expectNext t SLParen in
          let+ '(t, module) := expectNext t TkLitString in
          let+ '(t, func) := expectNext t TkLitString in
          let+ '(t, _) := expectNext t SRParen in
          let+ '(t, sig) := parseFunctionSig fuel t in
          let+ '(t, _) := expectNext t SSemi in
          p_ret (t, mkItem (IImport
                              (mkStringLiteral (tok_value module) (tok_span module))
                              (mkStringLiteral (tok_value func) (tok_span func))
                              (sig_params sig) (sig_returnType sig) None)
                           (tok_span tok) ItemId_dummy (sig_name sig) None)
      | TkSym SExtern =>
          let+ '(t, _) := expectNext t SMod in
          let+ '(t, name) := expectNext t TkIdentifier in
          let+ '(t, _) := expectNext t SSemi in
          p_ret (t, mkItem IExtern (tok_span name) ItemId_dummy
                           (tok_ident name) None)
      | TkSym SMod =>
          let+ '(t, name) := expectNext t TkIdentifier in
          let+ '(t, popen) := eat t SLParen in
          let+ '(t, contents) :=
            match popen with
            | Some _ =>
                let+ '(t, contents) :=
                  parseItem_contents (parseItem fuel') fuel t [] in
                let+ '(t, _) := expectNext t SRParen in
                p_ret (t, contents)
            | None =>
                match path (span_file (tok_span name)) with
                | None =>
                    let+ _ := p_emitError (mkCompilerError
                      "no known source file for statement, cannot load file relative to it"
                      (tok_span name)) in
                    p_ret (t, [])
                | Some file_path =>
                    match loadModuleFile file_path (tok_ident name)
                                         (tok_span name) with
                    | inl err =>
                        let+ _ := p_emitError err in
                        p_ret (t, [])
                    | inr file =>
                        let+ tokens := p_tokenize file in
                        match tokens with
                        | inl err => p_throw err
                        | inr tokens =>
                            let+ '(_, contents) :=
                              parseItems_loop (parseItem fuel') fuel'
                                (mkParseState tokens file) [] in
                            p_ret (t, contents)
                        end
                    end
                end
            end in
          let+ '(t, _) := expectNext t SSemi in
          p_ret (t, mkItem (IMod contents) (tok_span name) ItemId_dummy
                           (tok_ident name) None)
      | TkSym SGlobal =>
          let+ '(t, name) := expectNext t TkIdentifier in
          let+ '(t, _) := expectNext t SColon in
          let+ '(t, type) := parseType fuel t in
          let+ '(t, _) := expectNext t SAssign in
          let+ '(t, init) := parseExpr fuel t in
          let+ '(t, _) := expectNext t SSemi in
          p_ret (t, mkItem (IGlobal type init None) (tok_span name)
                           ItemId_dummy (tok_ident name) None)
      | TkSym SUse =>
          let+ '(t, ident) := expectNext t TkIdentifier in
          let first := mkIdent (tok_ident ident) (tok_span ident) in
          let+ '(t, segments) := parseItem_segments fuel t [first] in
          let+ '(t, _) := expectNext t SSemi in
          p_ret (t, mkItem (IUse segments None) (tok_span tok) ItemId_dummy
                           (ident_name (List.last segments first)) None)
      | _ => unexpectedToken tok "item"
      end
  end.

Definition parseItems (fuel : nat) (t : ParseState)
    : PM (ParseState * list Item) :=
  parseItems_loop (parseItem fuel) fuel t [].

(** [parse(packageName, t, pkgId)]: the package and the error sink, what
    [buildPkg] or [validateAst] threw, or [None] when [fuel] did not
    suffice for the items. *)
Definition parse (fuel : nat) (packageName : string) (t : ParseState)
    (pkgId : nat) (sink : list CompilerError)
    : option (Result (Pkg * list CompilerError)) :=
  let build (items : list Item) (fatalError : option ErrorEmitted)
            (sink : list CompilerError) :=
    match buildPkg packageName items pkgId (ps_file t) fatalError with
    | Ok ast =>
        match validateAst ast sink with
        | Ok sink' => Ok (ast, sink')
        | Throw e => Throw e
        end
    | Throw e => Throw e
    end in
  match parseItems fuel t sink with
  | POk (_, items) sink' => Some (build items None sink')
  | PFatal inner sink' => Some (build [] (Some inner) sink')
  | POutOfFuel => None
  end.
End Parser.

(** ** The closing pass of the body checker ([resolveBody]) *)

(** [resolveBody] runs on what [checker.expr] returned.  There a [let]
    carries no [local] (the checker returns it without), so the records
    of a block's locals, which the pass updates in place, are reached
    through the block alone; the types the checker wrote into them are
    part of the tree that is given. *)

Section ResolveBody.
Context `{env : TypeckEnv}.

(** [resolveTy] of [resolveBody].  A type slot that is missing makes the
    read of its [kind] raise, in [resolveIfPossible] or right after
    it. *)
Definition resolveTy (ty : option Ty) (span : Span) : M FuncCtx Ty :=
  match ty with
  | None =>
      throw (ThrowTypeError "Cannot read properties of undefined (reading 'kind')")
  | Some ty =>
      let* resTy := resolveIfPossible ty in
      (* TODO: When doing deep resolution, we need to check for _any_ vars. *)
      match resTy with
      | TyVar _ => tyError (mkCompilerError "cannot infer type" span)
      | _ => ret resTy
      end
  end.

(** The [expr.locals!.forEach(...)] loop on a block: the records are
    updated in place, so the block that is folded next holds them. *)
Definition resolveBody_locals (locals : option (list LocalInfo))
    : M FuncCtx (option (list LocalInfo)) :=
  match locals with
  | None =>
      throw (ThrowTypeError "Cannot read properties of undefined (reading 'forEach')")
  | Some locals =>
      let* locals' :=
        mapM (λ local,
                let* ty := resolveTy (local_ty local) (local_span local) in
                ret (mkLocalInfo (local_name local) (local_span local) (Some ty)))
             locals in
      ret (Some locals')
  end.

(** [resolver.expr] of [resolveBody]; the folder's [item] is the one of
    [mkDefaultFolder], which no expression reaches. *)
Fixpoint resolveBody_expr (expr : Expr) : M FuncCtx Expr :=
  let this :=
    mkFolder (λ _, throw (ThrowError "unimplemented")) resolveBody_expr ret ret in
  let* ty := resolveTy (expr_ty expr) (expr_span expr) in
  let* innerExpr :=
    match expr with
    | mkExpr (KBlock exprs locals) span expr_ty =>
        let* locals' := resolveBody_locals locals in
        superFoldExpr (mkExpr (KBlock exprs locals') span expr_ty) this
    | _ => superFoldExpr expr this
    end in
  ret (with_ty innerExpr ty).

(** [resolveBody(fcx, checked)]. *)
Definition resolveBody (checked : Expr) : M FuncCtx Expr :=
  resolveBody_expr checked.
End ResolveBody.

(** ** A context for closed examples *)

(** A single package without dependencies: items are looked up in the
    by-id table of the current package, [itemIdx = 0] is the package root
    module, and loading a package yields an empty one. *)
Definition example_gcx : GlobalContext :=
  mkGlobalContext
    (λ id pkg,
       if decide (itemIdx id = 0) then
         mkItem (IMod (rootItems pkg)) (mkSpan 0 0) id (packageName pkg) None
       else
         default (mkItem (IError errorEmitted) (mkSpan 0 0) id "" None)
                 (itemsById pkg !! id))
    (λ _ name _, ([], mkPkg 0 [] ∅ name (mkLoadedFile None "") None)).

(** The identity folder over a trivial state. *)
Definition id_folder : Folder unit := mkFolder ret ret ret ret.

(** An inference engine and item table for closed examples.
    Modelled from the spec (section 4.4), without the component-wise
    descent: [resolveIfPossible] is the shallow chase through the
    substitution; [assign] succeeds silently on an error type, resolves
    both sides, binds a variable that does not occur in the other side,
    accepts a [never] actual and two equal types, and otherwise reports
    "expected ..., found ...". *)
Fixpoint example_printTys (printTy : Ty → string) (tys : list Ty) : string :=
  match tys with
  | [] => ""
  | [ty] => printTy ty
  | ty :: tys' => printTy ty +:+ ", " +:+ example_printTys printTy tys'
  end.

Fixpoint example_printTy (ty : Ty) : string :=
  match ty with
  | TyBool => "bool"
  | TyString => "string"
  | TyInt => "int"
  | TyI32 => "i32"
  | TyNever => "!"
  | TyFn params returnTy =>
      "fn(" +:+ example_printTys example_printTy params +:+ ") -> "
      +:+ example_printTy returnTy
  | TyStruct name _ => name
  | TyTuple elems => "(" +:+ example_printTys example_printTy elems +:+ ")"
  | TyRawptr inner => "*" +:+ example_printTy inner
  | TyVar _ => "?"
  | TyParam _ name => name
  | TyError _ => "<ERROR>"
  end.

(** The substitution as a list of bindings, newest first. *)
Fixpoint example_lookup (s : list (nat * Ty)) (v : nat) : option Ty :=
  match s with
  | [] => None
  | (w, ty) :: s' => if Nat.eqb v w then Some ty else example_lookup s' v
  end.

Fixpoint example_chase (fuel : nat) (s : list (nat * Ty)) (ty : Ty) : Ty :=
  match fuel, ty with
  | S fuel', TyVar v =>
      match example_lookup s v with
      | Some ty' => example_chase fuel' s ty'
      | None => ty
      end
  | _, _ => ty
  end.

Definition example_resolveIfPossible (s : list (nat * Ty)) (ty : Ty) : Ty :=
  example_chase (S (length s)) s ty.

Fixpoint example_occurs (v : nat) (ty : Ty) : bool :=
  match ty with
  | TyVar w => Nat.eqb v w
  | TyFn params returnTy =>
      existsb (example_occurs v) params || example_occurs v returnTy
  | TyStruct _ fields => existsb (λ f, example_occurs v f.2) fields
  | TyTuple elems => existsb (example_occurs v) elems
  | TyRawptr inner => example_occurs v inner
  | _ => false
  end.

Fixpoint example_ty_eqb (a b : Ty) : bool :=
  let all2 :=
    fix all2 (xs ys : list Ty) : bool :=
      match xs, ys with
      | [], [] => true
      | x :: xs', y :: ys' => example_ty_eqb x y && all2 xs' ys'
      | _, _ => false
      end in
  match a, b with
  | TyBool, TyBool | TyString, TyString | TyInt, TyInt | TyI32, TyI32
  | TyNever, TyNever => true
  | TyFn ps r, TyFn ps' r' => all2 ps ps' && example_ty_eqb r r'
  | TyStruct n _, TyStruct n' _ => String.eqb n n'
  | TyTuple es, TyTuple es' => all2 es es'
  | TyRawptr i, TyRawptr i' => example_ty_eqb i i'
  | TyVar v, TyVar w => Nat.eqb v w
  | TyParam i _, TyParam i' _ => Nat.eqb i i'
  | _, _ => false
  end.

Definition example_unify (s : list (nat * Ty)) (expected actual : Ty)
    : option (list (nat * Ty)) :=
  let is_error ty := match ty with TyError _ => true | _ => false end in
  if is_error expected || is_error actual then Some s
  else
    let e := example_resolveIfPossible s expected in
    let a := example_resolveIfPossible s actual in
    if example_ty_eqb e a then Some s
    else
      match e with
      | TyVar v => if example_occurs v a then None else Some ((v, a) :: s)
      | _ =>
          match a with
          | TyVar w => if example_occurs w e then None else Some ((w, e) :: s)
          | TyNever => Some s
          | _ => None
          end
      end.

Definition example_assign (expected actual : Ty) (span : Span)
    (s : list (nat * Ty)) : list (nat * Ty) * list CompilerError :=
  match example_unify s expected actual with
  | Some s' => (s', [])
  | None =>
      (s, [mkCompilerError
             ("expected " +:+ example_printTy (example_resolveIfPossible s expected)
              +:+ ", found " +:+ example_printTy (example_resolveIfPossible s actual))
             span])
  end.

(** Modelled from the spec: [lowerAstTy] on the built-in type names,
    tuples, raw pointers and [never]; the examples declare no type items,
    so any other name lowers to the error type. *)
Fixpoint example_lowerAstTy (type : Type_) : Ty :=
  match type with
  | TIdent _ value _ =>
      match iwr_res value with
      | Some (ResBuiltin "Int") => TyInt
      | Some (ResBuiltin "I32") => TyI32
      | Some (ResBuiltin "Bool") => TyBool
      | Some (ResBuiltin "String") => TyString
      | _ => TyError errorEmitted
      end
  | TTuple elems _ => TyTuple (map example_lowerAstTy elems)
  | TRawptr inner _ => TyRawptr (example_lowerAstTy inner)
  | TNever _ => TyNever
  | TError err _ => TyError err
  end.

(** [itemTys] gives the signature of each item of the example. *)
Definition example_env (itemTys : ItemId → Ty) : TypeckEnv :=
  mkTypeckEnv (list (nat * Ty)) [] unit
    example_assign example_resolveIfPossible
    (λ id _ _ memo, (itemTys id, [], memo))
    (λ type memo, (example_lowerAstTy type, [], memo))
    example_printTy.

Definition example_fcx `{env : TypeckEnv} (memo : ItemTys) (localTys : list Ty)
    : FuncCtx :=
  mkFuncCtx [] memo (mkInferContext 0 subst_empty) localTys [].

(** The environment of a package without typed items, and the checker's
    state on entry to a body with the given parameter types. *)
Definition example_env0 : TypeckEnv := example_env (λ _, TyError errorEmitted).

Definition example_fcx0 (localTys : list Ty) : @FuncCtx example_env0 :=
  example_fcx (env:=example_env0) () localTys.

(** A state of the checker in that environment: the sink, the number of
    inference variables, the substitution, and the two stacks. *)
Definition example_state (errors : list CompilerError) (vars : nat)
    (s : list (nat * Ty)) (localTys : list Ty) (loopState : list LoopState)
    : @FuncCtx example_env0 :=
  @mkFuncCtx example_env0 errors () (@mkInferContext example_env0 vars s)
             localTys loopState.

(** [function main() = __memory_size();] as the parser builds it. *)
Definition example_memory_size_items : list Item :=
  [ mkItem
      (IFunction []
         (mkExpr (KCall
                    (mkExpr (KIdent (mkIdentWithRes "__memory_size" (mkSpan 18 31) None))
                            (mkSpan 18 31) None)
                    [])
                 (mkSpan 31 32) None)
         None None)
      (mkSpan 0 8) ItemId_dummy "main" None ].

Definition example_file : LoadedFile := mkLoadedFile None "".

(** The result of a computation that is known to return. *)
Definition expect {A} (r : Result A) (dflt : A) : A :=
  match r with Ok a => a | Throw _ => dflt end.

Definition empty_pkg : Pkg := mkPkg 0 [] ∅ "" example_file None.

(** ** The operand pairs of binary operators, as a table *)

(** The table that [checkBinary] implements: comparisons on two [int]s,
    two [i32]s, two [string]s or two raw pointers, and [==]/[!=] also on
    two [bool]s, give [bool]; every other operator (the arithmetic ones
    and [&], [|]) on two [int]s gives [int] and on two [i32]s gives
    [i32]; [&] and [|] on two [bool]s give [bool]. *)
Definition admitted_binary (k : BinaryKind) (lhsTy rhsTy : Ty) : option Ty :=
  if includes COMPARISON_KINDS k then
    match lhsTy, rhsTy with
    | TyInt, TyInt | TyI32, TyI32 | TyString, TyString
    | TyRawptr _, TyRawptr _ => Some TY_BOOL
    | TyBool, TyBool => if includes EQUALITY_KINDS k then Some TY_BOOL else None
    | _, _ => None
    end
  else
    match lhsTy, rhsTy with
    | TyInt, TyInt => Some TY_INT
    | TyI32, TyI32 => Some TY_I32
    | TyBool, TyBool => if includes LOGICAL_KINDS k then Some TY_BOOL else None
    | _, _ => None
    end.

Definition is_rawptr (ty : Ty) : bool :=
  match ty with TyRawptr _ => true | _ => false end.

(** [1 & 2] as the parser builds it. *)
Definition example_and_ints : Expr :=
  mkExpr (KBinary BAnd
            (mkExpr (KLiteral (LitInt 1 LitInt_Int)) (mkSpan 0 1) None)
            (mkExpr (KLiteral (LitInt 2 LitInt_Int)) (mkSpan 4 5) None))
         (mkSpan 0 5) None.

(** [p.1] after type checking, for a local [p] of type [(int, bool)]. *)
Definition example_fieldAccess : Expr :=
  mkExpr (KFieldAccess
            (mkExpr (KIdent (mkIdentWithRes "p" (mkSpan 0 1) (Some (ResLocal 0))))
                    (mkSpan 0 1) (Some (TyTuple [TyInt; TyBool])))
            (mkField (inr 1) (mkSpan 2 3) (Some 1)))
         (mkSpan 0 3) (Some TyBool).

(** The [field] slot of a [fieldAccess] node. *)
Definition expr_field (e : Expr) : option Field :=
  match expr_kind e with
  | KFieldAccess _ field => Some field
  | _ => None
  end.

(** The body of the [n]-th root item of a package, when it is a function. *)
Definition pkg_body (pkg : Pkg) (n : nat) : Expr :=
  match item_kind <$> rootItems pkg !! n with
  | Some (IFunction _ body _ _) => body
  | _ => mkExpr KEmpty (mkSpan 0 0) None
  end.

(** A package through the builder and the resolver, as [index.ts] runs
    them. *)
Definition example_build (items : list Item) : Pkg :=
  expect (buildPkg "main" items 0 example_file None) empty_pkg.

Definition example_resolve (items : list Item) : Pkg :=
  (expect (resolve example_gcx [] (example_build items)) (empty_pkg, [])).1.

(** [function main() = loop ( 1 );] as the parser builds it. *)
Definition example_loop_items : list Item :=
  [ mkItem
      (IFunction []
         (mkExpr (KLoop
                    (mkExpr (KBlock
                               [mkExpr (KLiteral (LitInt 1 LitInt_Int))
                                       (mkSpan 25 26) None]
                               None)
                            (mkSpan 23 24) None)
                    0)
                 (mkSpan 18 22) None)
         None None)
      (mkSpan 0 8) ItemId_dummy "main" None ].

(** The body of [main] in that package after resolution, and what the
    checker makes of it from the entry state. *)
Definition example_loop_block : Expr :=
  mkExpr (KBlock [mkExpr (KLiteral (LitInt 1 LitInt_Int)) (mkSpan 25 26) None]
                 (Some []))
         (mkSpan 23 24) None.

Definition example_loop_body : Expr :=
  mkExpr (KLoop example_loop_block 0) (mkSpan 18 22) None.

Definition example_loop_checked : Expr :=
  mkExpr (KLoop
            (mkExpr (KBlock [mkExpr (KLiteral (LitInt 1 LitInt_Int)) (mkSpan 25 26)
                                    (Some TY_INT)]
                            (Some []))
                    (mkSpan 23 24) (Some TY_INT))
            0)
         (mkSpan 18 22) (Some TY_UNIT).

Definition example_loop_fcx : @FuncCtx example_env0 :=
  example_state [mkCompilerError "expected (), found int" (mkSpan 23 24)] 0 [] [] [].

(** [function main() = c;] as the parser builds it. *)
Definition example_unresolved_items : list Item :=
  [ mkItem
      (IFunction []
         (mkExpr (KIdent (mkIdentWithRes "c" (mkSpan 18 19) None)) (mkSpan 18 19) None)
         None None)
      (mkSpan 0 8) ItemId_dummy "main" None ].





(** [mod m ( function g() = (); ); function main() = m.g();] as the
    parser builds it. *)
Definition example_mod_items : list Item :=
  [ mkItem
      (IMod [ mkItem
                (IFunction []
                   (mkExpr (KTupleLiteral []) (mkSpan 23 25) None) None None)
                (mkSpan 8 16) ItemId_dummy "g" None ])
      (mkSpan 4 5) ItemId_dummy "m" None;
    mkItem
      (IFunction []
         (mkExpr (KCall
                    (mkExpr (KFieldAccess
                               (mkExpr (KIdent (mkIdentWithRes "m" (mkSpan 48 49) None))
                                       (mkSpan 48 49) None)
                               (mkField (inl "g") (mkSpan 50 51) None))
                            (mkSpan 48 51) None)
                    [])
                 (mkSpan 48 53) None)
         None None)
      (mkSpan 30 38) ItemId_dummy "main" None ].

(** The resolver's state inside a block, below a binding of [x]. *)
Definition example_let_state : ResolveState :=
  mkResolveState [] ∅ ∅ ["x"] [[]].

(** ** Further example programs *)

(** [function f() = 1 + 2 < 4;] as the parser builds it and the builder
    numbers it. *)
Definition example_mixed_pkg : Pkg :=
  mkPkg 0
    [ mkItem
        (IFunction []
           (mkExpr (KBinary BLt
                      (mkExpr (KBinary BAdd
                                 (mkExpr (KLiteral (LitInt 1 LitInt_Int))
                                         (mkSpan 15 16) None)
                                 (mkExpr (KLiteral (LitInt 2 LitInt_Int))
                                         (mkSpan 19 20) None))
                              (mkSpan 15 20) None)
                      (mkExpr (KLiteral (LitInt 4 LitInt_Int))
                              (mkSpan 23 24) None))
                   (mkSpan 15 24) None)
           None None)
        (mkSpan 0 8) (mkItemId 0 1) "f" None ]
    ∅ "main" example_file None.

(** [loop ( break; loop ( break ) )] after resolution, and what the
    checker makes of it from the entry state. *)
Definition example_break_body : Expr :=
  mkExpr (KLoop
            (mkExpr (KBlock
                       [ mkExpr (KBreak None) (mkSpan 7 12) None;
                         mkExpr (KLoop
                                   (mkExpr (KBlock
                                              [mkExpr (KBreak None) (mkSpan 21 26) None]
                                              (Some []))
                                           (mkSpan 19 20) None)
                                   1)
                                (mkSpan 14 18) None ]
                       (Some []))
                    (mkSpan 5 6) None)
            0)
         (mkSpan 0 4) None.

Definition example_break_run : Expr * @FuncCtx example_env0 :=
  expect (checker_expr (env:=example_env0) example_gcx empty_pkg
            example_break_body (example_fcx0 []))
         (example_break_body, example_fcx0 []).

Definition example_break_checked : Expr := example_break_run.1.
Definition example_break_fcx : @FuncCtx example_env0 := example_break_run.2.

(** [( let x = 1; x )] after resolution, checked below one local. *)
Definition example_let_block : Expr :=
  mkExpr (KBlock
            [ mkExpr (KLet (mkIdent "x" (mkSpan 6 7)) None
                           (mkExpr (KLiteral (LitInt 1 LitInt_Int)) (mkSpan 10 11) None)
                           (Some (mkLocalInfo "x" (mkSpan 6 7) None)))
                     (mkSpan 2 5) None;
              mkExpr (KIdent (mkIdentWithRes "x" (mkSpan 13 14) (Some (ResLocal 0))))
                     (mkSpan 13 14) None ]
            (Some [mkLocalInfo "x" (mkSpan 6 7) None]))
         (mkSpan 0 1) None.

Definition example_let_block_run : Expr * @FuncCtx example_env0 :=
  expect (checker_expr (env:=example_env0) example_gcx empty_pkg
            example_let_block (example_fcx0 [TY_BOOL]))
         (example_let_block, example_fcx0 [TY_BOOL]).

Definition example_let_block_checked : Expr := example_let_block_run.1.
Definition example_let_block_fcx : @FuncCtx example_env0 := example_let_block_run.2.

(** A parser environment without files: spans lie in the unnamed file,
    the loader finds nothing, and the lexer is never asked. *)
Definition example_penv : ParserEnv :=
  mkParserEnv (λ _, mkSpan 0 0) (λ _, example_file)
    (λ _ _ span, inl (mkCompilerError "no such file" span))
    (λ _, (inr [], [])).

Definition example_span (n : nat) : Span := mkSpan n (S n).

(** The tokens of [1 - 2 - 3;]. *)
Definition example_sub_tokens : list Token :=
  [ TokenLitInt 1 LitInt_Int (example_span 0);
    TokenSym (SBinary BSub) (example_span 1);
    TokenLitInt 2 LitInt_Int (example_span 2);
    TokenSym (SBinary BSub) (example_span 3);
    TokenLitInt 3 LitInt_Int (example_span 4);
    TokenSym SSemi (example_span 5) ].

Definition example_sub_state : ParseState :=
  mkParseState example_sub_tokens example_file.

(** The tokens of [function f(x: Int) = (x);]. *)
Definition example_fn_tokens : list Token :=
  [ TokenSym SFunction (example_span 0); TokenIdent "f" (example_span 1);
    TokenSym SLParen (example_span 2); TokenIdent "x" (example_span 3);
    TokenSym SColon (example_span 4); TokenIdent "Int" (example_span 5);
    TokenSym SRParen (example_span 6); TokenSym SAssign (example_span 7);
    TokenSym SLParen (example_span 8); TokenIdent "x" (example_span 9);
    TokenSym SRParen (example_span 10); TokenSym SSemi (example_span 11) ].

Definition example_fn_state : ParseState :=
  mkParseState example_fn_tokens example_file.

Definition example_fn_parsed : Pkg * list CompilerError :=
  match parse (penv:=example_penv) 14 "main" example_fn_state 0 [] with
  | Some (Ok r) => r
  | _ => (empty_pkg, [])
  end.

(** [1 - 2 - 3] as a chain of operands. *)
Definition example_sub_first : nat * LitIntType * Span :=
  (1, LitInt_Int, example_span 0).

Definition example_sub_rest
    : list (BinaryKind * Span * (nat * LitIntType * Span)) :=
  [ (BSub, example_span 1, (2, LitInt_Int, example_span 2));
    (BSub, example_span 3, (3, LitInt_Int, example_span 4)) ].

(** A tuple type of three elements: a raw pointer to [List[Int, !]], the
    one-element tuple of [Int], and the empty tuple. *)
Definition example_written_type : Type_ :=
  TTuple
    [ TRawptr
        (TIdent [ TIdent [] (mkIdentWithRes "Int" (example_span 2) None)
                         (example_span 2);
                  TNever (example_span 3) ]
                (mkIdentWithRes "List" (example_span 1) None) (example_span 1))
        (example_span 0);
      TTuple [TIdent [] (mkIdentWithRes "Int" (example_span 5) None)
                     (example_span 5)]
             (example_span 4);
      TTuple [] (example_span 6) ]
    (example_span 7).

(** [function main() = ( (let print = print, 1).0 );] as the parser
    builds it: a [let] inside the left-hand side of a field access. *)
Definition example_twice_tuple : Expr :=
  mkExpr (KTupleLiteral
            [ mkExpr (KLet (mkIdent "print" (mkSpan 25 30)) None
                           (mkExpr (KIdent (mkIdentWithRes "print" (mkSpan 33 38) None))
                                   (mkSpan 33 38) None)
                           None)
                     (mkSpan 21 24) None;
              mkExpr (KLiteral (LitInt 1 LitInt_Int)) (mkSpan 40 41) None ])
         (mkSpan 20 21) None.

Definition example_main (body : Expr) : list Item :=
  [ mkItem (IFunction [] (mkExpr (KBlock [body] None) (mkSpan 18 19) None)
                      None None)
           (mkSpan 0 8) ItemId_dummy "main" None ].

Definition example_twice_items : list Item :=
  example_main
    (mkExpr (KFieldAccess example_twice_tuple
                          (mkField (inr 0) (mkSpan 43 44) None))
            (mkSpan 20 44) None).

(** [function main() = ( (let print = print, 1) );]: the same tuple
    without the field access. *)
Definition example_once_items : list Item := example_main example_twice_tuple.

(** The tuple once its [let] is resolved, with the given resolution of
    the right-hand side. *)
Definition example_tuple_resolved (res : Resolution) : Expr :=
  mkExpr (KTupleLiteral
            [ mkExpr (KLet (mkIdent "print" (mkSpan 25 30)) None
                           (mkExpr (KIdent (mkIdentWithRes "print" (mkSpan 33 38)
                                              (Some res)))
                                   (mkSpan 33 38) None)
                           (Some (mkLocalInfo "print" (mkSpan 25 30) None)))
                     (mkSpan 21 24) None;
              mkExpr (KLiteral (LitInt 1 LitInt_Int)) (mkSpan 40 41) None ])
         (mkSpan 20 21) None.

(** [( __NULL == __NULL; __NULL )] after resolution, and checked. *)
Definition example_NULL (lo : nat) (ty : option Ty) : Expr :=
  mkExpr (KIdent (mkIdentWithRes "__NULL" (mkSpan lo (lo + 6))
                    (Some (ResBuiltin "__NULL"))))
         (mkSpan lo (lo + 6)) ty.

Definition example_NULL_body : Expr :=
  mkExpr (KBlock
            [ mkExpr (KBinary BEq (example_NULL 2 None) (example_NULL 12 None))
                     (mkSpan 2 18) None;
              example_NULL 20 None ]
            (Some []))
         (mkSpan 0 1) None.

Definition example_NULL_checked : Expr :=
  mkExpr (KBlock
            [ mkExpr (KBinary BEq (example_NULL 2 (Some (TyRawptr (TyVar 0))))
                                  (example_NULL 12 (Some (TyRawptr (TyVar 1)))))
                     (mkSpan 2 18) (Some TY_BOOL);
              example_NULL 20 (Some (TyRawptr (TyVar 2))) ]
            (Some []))
         (mkSpan 0 1) (Some (TyRawptr (TyVar 2))).



(** [( let x = 1; x )] as the checker leaves it, with the type of [x]
    written into the block's record: the variable [?0]. *)
Definition example_checked_block : Expr :=
  mkExpr (KBlock
            [ mkExpr (KLet (mkIdent "x" (mkSpan 6 7)) None
                           (mkExpr (KLiteral (LitInt 1 LitInt_Int)) (mkSpan 10 11)
                                   (Some TY_INT))
                           None)
                     (mkSpan 2 5) (Some TY_UNIT);
              mkExpr (KIdent (mkIdentWithRes "x" (mkSpan 13 14) (Some (ResLocal 0))))
                     (mkSpan 13 14) (Some (TyVar 0)) ]
            (Some [mkLocalInfo "x" (mkSpan 6 7) (Some (TyVar 0))]))
         (mkSpan 0 1) (Some (TyVar 0)).

(** [P { a: 1 }] as the checker leaves it, the field found at index 0. *)
Definition example_checked_literal : Expr :=
  mkExpr (KStructLiteral
            (mkIdentWithRes "P" (mkSpan 0 1) (Some (ResItem (mkItemId 0 1))))
            [ mkStructLiteralField (mkIdent "a" (mkSpan 4 5))
                (mkExpr (KLiteral (LitInt 1 LitInt_Int)) (mkSpan 7 8) (Some TY_INT))
                (Some 0) ])
         (mkSpan 0 10) (Some (TyStruct "P" [("a", TY_INT)])).

(** ** Vocabulary of the properties *)

(** [m] relates the state it starts in to the state it returns in by [R]. *)
Definition preserves {S A} (R : S → S → Prop) (m : M S A) : Prop :=
  ∀ s a s', m s = Ok (a, s') → R s s'.

(** [m] raises nothing but exceptions satisfying [P]. *)
Definition throws_only {S A} (P : Exn → Prop) (m : M S A) : Prop :=
  ∀ s e, m s = Throw e → P e.

Definition is_TypeError (e : Exn) : Prop := ∃ msg, e = ThrowTypeError msg.

(** What every step of the body checker respects: the loop stack keeps its
    depth, inference variables are only added, and the error sink only
    grows. *)
Definition fcx_frame `{env : TypeckEnv} (a b : FuncCtx) : Prop :=
  length (loopState b) = length (loopState a)
  ∧ (tyVars (infcx a) ≤ tyVars (infcx b))%nat
  ∧ cx_error a `prefix_of` cx_error b.

(** The items of a package in the order the folders visit them: an item
    before the contents of its module. *)
Fixpoint items_of (item : Item) : list Item :=
  match item with
  | mkItem (IMod contents) _ _ _ _ => item :: flat_map items_of contents
  | _ => [item]
  end.

Definition pkg_items (pkg : Pkg) : list Item := flat_map items_of (rootItems pkg).

Definition pkg_itemIds (pkg : Pkg) : list ItemId := map item_id (pkg_items pkg).

(** The loop identifiers of an expression in the order the builder hands
    them out: sub-expressions left to right, a loop after its body. *)
Fixpoint expr_loopIds (e : Expr) : list nat :=
  match e with
  | mkExpr k _ _ =>
      match k with
      | KLet _ _ rhs _ => expr_loopIds rhs
      | KAssign lhs rhs | KBinary _ lhs rhs => expr_loopIds lhs ++ expr_loopIds rhs
      | KBlock exprs _ | KTupleLiteral exprs => flat_map expr_loopIds exprs
      | KUnary _ rhs => expr_loopIds rhs
      | KCall lhs args => expr_loopIds lhs ++ flat_map expr_loopIds args
      | KFieldAccess lhs _ => expr_loopIds lhs
      | KIf cond then_ else_ =>
          expr_loopIds cond ++ expr_loopIds then_
          ++ match else_ with Some e => expr_loopIds e | None => [] end
      | KLoop body loopId => expr_loopIds body ++ [loopId]
      | KStructLiteral _ fields =>
          flat_map (λ f, let '(mkStructLiteralField _ expr _) := f in
                         expr_loopIds expr) fields
      | _ => []
      end
  end.

Fixpoint item_loopIds (item : Item) : list nat :=
  match item with
  | mkItem (IFunction _ body _ _) _ _ _ _ => expr_loopIds body
  | mkItem (IGlobal _ init _) _ _ _ _ => expr_loopIds init
  | mkItem (IMod contents) _ _ _ _ => flat_map item_loopIds contents
  | _ => []
  end.

Definition pkg_loopIds (pkg : Pkg) : list nat := flat_map item_loopIds (rootItems pkg).

(** [m] always returns, in a state related to the initial one by [R]. *)
Definition returns {S A} (R : S → S → Prop) (m : M S A) : Prop :=
  ∀ s, ∃ a s', m s = Ok (a, s') ∧ R s s'.

Definition b_loops (n : nat) (st : BuildState) : BuildState :=
  mkBuildState (b_itemId st) (mkIds (ids_counter (b_loopId st) + n))
               (b_newItemsById st).

(** What the builder does to an expression: it returns, hands out the
    next loop identifiers in order, and touches nothing else. *)
Definition assigner_expr_ok (e : Expr) : Prop :=
  ∀ st, ∃ e' st',
    assigner_expr e st = Ok (e', st')
    ∧ st' = b_loops (length (expr_loopIds e)) st
    ∧ expr_loopIds e' = seq (ids_counter (b_loopId st)) (length (expr_loopIds e)).

Definition b_counters (st : BuildState) : nat * nat :=
  (ids_counter (b_itemId st), ids_counter (b_loopId st)).

(** What the builder does to an item: it returns, numbers the item and
    the items below it from the item counter on, in visiting order, and
    the loops of their bodies from the loop counter on. *)
Definition assigner_item_ok (pkgId : nat) (item : Item) : Prop :=
  ∀ st, ∃ item' st',
    assigner_item pkgId item st = Ok (item', st')
    ∧ b_counters st' = (ids_counter (b_itemId st) + length (items_of item),
                        ids_counter (b_loopId st) + length (item_loopIds item))
    ∧ map item_id (items_of item')
      = map (mkItemId pkgId) (seq (ids_counter (b_itemId st)) (length (items_of item)))
    ∧ item_loopIds item'
      = seq (ids_counter (b_loopId st)) (length (item_loopIds item)).

(** The validator's expression and type visitors always return and leave
    the set of seen item identifiers alone. *)
Definition same_seen (a b : ValidateState) : Prop :=
  v_seenItemIds b = v_seenItemIds a.

(** In a block the validator reaches below a [let] element, to its
    right-hand side; the induction carries that case along. *)
Definition validator_expr_ok (e : Expr) : Prop :=
  returns same_seen (validator_expr e)
  ∧ match e with
    | mkExpr (KLet _ _ rhs _) _ _ => returns same_seen (validator_expr rhs)
    | _ => True
    end.

Definition ids_of (item : Item) : list ItemId := map item_id (items_of item).

(** The validator accepts an item exactly when the identifiers of the
    item and of the items below it are distinct and new. *)
Definition validator_accepts {A} (ids : list ItemId)
    (run : ValidateState → Result (A * ValidateState)) : Prop :=
  ∀ st,
    match run st with
    | Ok (_, st') =>
        NoDup ids ∧ (∀ id, id ∈ ids → id ∉ v_seenItemIds st)
        ∧ v_seenItemIds st' = list_to_set ids ∪ v_seenItemIds st
    | Throw _ => ¬ (NoDup ids ∧ ∀ id, id ∈ ids → id ∉ v_seenItemIds st)
    end.


(** How the stack of open blocks' locals may differ after a visit: the
    enclosing blocks are untouched and the innermost one has gained
    entries at its end. *)
Definition locals_ext (bl bl' : list (list LocalInfo)) : Prop :=
  bl' = bl ∨ ∃ init top more, bl = init ++ [top] ∧ bl' = init ++ [top ++ more].

(** What a visit of the resolver respects: names are only added on top of
    the scope stack, the block stack changes as [locals_ext] says, the
    finalized packages and the module-contents cache only grow, and the
    table of resolved items is left alone. *)
Definition r_frame (a b : ResolveState) : Prop :=
  r_scopes a `prefix_of` r_scopes b
  ∧ locals_ext (r_blockLocals a) (r_blockLocals b)
  ∧ r_finalizedCrates a `prefix_of` r_finalizedCrates b
  ∧ r_modContentsCache a ⊆ r_modContentsCache b
  ∧ r_newItemsById b = r_newItemsById a.

(** The stronger relation that holds across the visit of a chain
    [a.b.c]: the scope and block stacks and the item table are the same. *)
Definition r_ext (a b : ResolveState) : Prop :=
  r_scopes b = r_scopes a
  ∧ r_blockLocals b = r_blockLocals a
  ∧ r_newItemsById b = r_newItemsById a
  ∧ r_finalizedCrates a `prefix_of` r_finalizedCrates b
  ∧ r_modContentsCache a ⊆ r_modContentsCache b.

(** Does a resolution denote a module: an item of kind [mod] or [extern]? *)
Definition is_module_res (gcx : GlobalContext) (ast : Pkg) (res : Resolution)
    : bool :=
  match res with
  | ResItem id =>
      match item_kind (gcx_findItem gcx id ast) with
      | IMod _ | IExtern => true
      | _ => false
      end
  | _ => false
  end.

(** Is the expression an identifier or path that denotes a module? *)
Definition module_lhs (gcx : GlobalContext) (ast : Pkg) (e : Expr) : bool :=
  match expr_kind e with
  | KIdent value =>
      match iwr_res value with
      | Some res => is_module_res gcx ast res
      | None => false
      end
  | KPath _ res => is_module_res gcx ast res
  | _ => false
  end.

(** The segments that an identifier or path contributes to a path. *)
Definition lhs_segments (e : Expr) : list string :=
  match expr_kind e with
  | KIdent value => [iwr_name value]
  | KPath segments _ => segments
  | _ => []
  end.

(** No [fieldAccess] below [e] has a module on its left. *)
Fixpoint collapsed (gcx : GlobalContext) (ast : Pkg) (e : Expr) : bool :=
  match e with
  | mkExpr k _ _ =>
      match k with
      | KLet _ _ rhs _ => collapsed gcx ast rhs
      | KAssign lhs rhs | KBinary _ lhs rhs =>
          collapsed gcx ast lhs && collapsed gcx ast rhs
      | KBlock exprs _ | KTupleLiteral exprs => forallb (collapsed gcx ast) exprs
      | KUnary _ rhs => collapsed gcx ast rhs
      | KCall lhs args => collapsed gcx ast lhs && forallb (collapsed gcx ast) args
      | KFieldAccess lhs _ => negb (module_lhs gcx ast lhs) && collapsed gcx ast lhs
      | KIf cond then_ else_ =>
          collapsed gcx ast cond && collapsed gcx ast then_
          && match else_ with Some e => collapsed gcx ast e | None => true end
      | KLoop body _ => collapsed gcx ast body
      | KStructLiteral _ fields =>
          forallb (λ f, let '(mkStructLiteralField _ expr _) := f in
                        collapsed gcx ast expr) fields
      | _ => true
      end
  end.

Fixpoint item_collapsed (gcx : GlobalContext) (ast : Pkg) (item : Item) : bool :=
  match item with
  | mkItem (IFunction _ body _ _) _ _ _ _ => collapsed gcx ast body
  | mkItem (IGlobal _ init _) _ _ _ _ => collapsed gcx ast init
  | mkItem (IMod contents) _ _ _ _ => forallb (item_collapsed gcx ast) contents
  | _ => true
  end.

(** A chain: an identifier or path followed by field accesses. *)
Fixpoint is_chain (e : Expr) : bool :=
  match e with
  | mkExpr (KIdent _) _ _ | mkExpr (KPath _ _) _ _ => true
  | mkExpr (KFieldAccess lhs _) _ _ => is_chain lhs
  | _ => false
  end.

(** The identifier a chain starts with is found at [st] as something other
    than a built-in (a chain that starts with a path has nothing to look
    up). *)
Fixpoint leaf_found (ast : Pkg) (items : gmap string ItemId) (e : Expr)
    (st : ResolveState) : Prop :=
  match e with
  | mkExpr (KIdent value) _ _ =>
      ∃ res, resolveIdent ast items (mkIdent (iwr_name value) (iwr_span value)) st
             = Ok (res, st)
             ∧ ∀ name, res ≠ ResBuiltin name
  | mkExpr (KFieldAccess lhs _) _ _ => leaf_found ast items lhs st
  | _ => True
  end.

(** [m], when it returns, returns a value that satisfies [Q]. *)
Definition ensures {S A} (Q : A → Prop) (m : M S A) : Prop :=
  ∀ s a s', m s = Ok (a, s') → Q a.

Definition is_name (e : Expr) : bool :=
  match expr_kind e with
  | KIdent _ | KPath _ _ => true
  | _ => false
  end.

(** The resolution that the [fieldAccess] case looks at after it has
    visited the left-hand side: [resolveIdent(lhs.value)] for an
    identifier, [lhs.res] for a path. *)
Definition access_res (ast : Pkg) (items : gmap string ItemId) (lhs' : Expr)
    : M ResolveState (option Resolution) :=
  match expr_kind lhs' with
  | KIdent value =>
      let* res := resolveIdent ast items
                    (mkIdent (iwr_name value) (iwr_span value)) in
      ret (Some res)
  | KPath _ res => ret (Some res)
  | _ => ret None
  end.

(** What the [fieldAccess] case does once the left-hand side is visited. *)
Definition access_step (gcx : GlobalContext) (ast : Pkg)
    (items : gmap string ItemId) (lhs' : Expr) (field : Field)
    (fallback : M ResolveState Expr) : M ResolveState Expr :=
  match lhs' with
  | mkExpr (KIdent value) lhs_span _ =>
      let* res := resolveIdent ast items
                    (mkIdent (iwr_name value) (iwr_span value)) in
      modulePath gcx ast res [iwr_name value] lhs_span field fallback
  | mkExpr (KPath segments res) lhs_span _ =>
      modulePath gcx ast res segments lhs_span field fallback
  | _ => fallback
  end.

(** Visiting a chain twice gives the same result: the visit changes the
    state only by loading packages and caching module contents, and unless
    the chain starts with a built-in (in which case the state is not
    changed at all) a later visit, in a state that has only grown in this
    way, returns the same expression. *)
Definition chain_ok (gcx : GlobalContext) (ast : Pkg)
    (items : gmap string ItemId) (c : Expr) : Prop :=
  ∀ st e1 st1,
    resolver_expr gcx ast items c st = Ok (e1, st1) →
    r_ext st st1
    ∧ (leaf_found ast items c st ∨ st1 = st)
    ∧ ((∃ segments res, expr_kind e1 = KPath segments res) →
       leaf_found ast items c st)
    ∧ (leaf_found ast items c st →
       ∀ st2 e2 st3, r_ext st1 st2 →
         resolver_expr gcx ast items c st2 = Ok (e2, st3) → e2 = e1).

(** The resolution an identifier or path carries. *)
Definition lhs_res (e : Expr) : option Resolution :=
  match expr_kind e with
  | KIdent value => iwr_res value
  | KPath _ res => Some res
  | _ => None
  end.

(** [m] maintains the invariant [I] of the state. *)
Definition maintains {S A} (I : S → Prop) (m : M S A) : Prop :=
  ∀ s a s', I s → m s = Ok (a, s') → I s'.

(** Every item in the resolver's table of resolved items is collapsed. *)
Definition items_collapsed (gcx : GlobalContext) (ast : Pkg)
    (st : ResolveState) : Prop :=
  map_Forall (λ _ item, item_collapsed gcx ast item = true) (r_newItemsById st).

Definition same_items (a b : ResolveState) : Prop :=
  r_newItemsById b = r_newItemsById a.

(** ** C10: the occurrences of [__NULL] in a checked body *)

(** An occurrence of [__NULL] used as a value: an identifier or a path
    whose resolution is the builtin of that name. *)
Definition is_NULL_res (res : Resolution) : bool :=
  match res with
  | ResBuiltin name => bool_decide (name = "__NULL")
  | _ => false
  end.

Definition is_NULL_kind (kind : ExprKind) : bool :=
  match kind with
  | KIdent value =>
      match iwr_res value with
      | Some res => is_NULL_res res
      | None => false
      end
  | KPath _ res => is_NULL_res res
  | _ => false
  end.

(** The type slots of the occurrences of [__NULL] in [e], one entry for
    each occurrence. *)
Fixpoint NULL_types (e : Expr) : list (option Ty) :=
  let '(mkExpr kind _ ty) := e in
  (if is_NULL_kind kind then [ty] else []) ++
  match kind with
  | KLet _ _ rhs _ => NULL_types rhs
  | KAssign lhs rhs => NULL_types lhs ++ NULL_types rhs
  | KBlock exprs _ => flat_map NULL_types exprs
  | KBinary _ lhs rhs => NULL_types lhs ++ NULL_types rhs
  | KUnary _ rhs => NULL_types rhs
  | KCall lhs args => NULL_types lhs ++ flat_map NULL_types args
  | KFieldAccess lhs _ => NULL_types lhs
  | KIf cond then_ else_ =>
      NULL_types cond ++ NULL_types then_
      ++ match else_ with
         | Some else_ => NULL_types else_
         | None => []
         end
  | KLoop body _ => NULL_types body
  | KStructLiteral _ fields =>
      flat_map (λ f, let '(mkStructLiteralField _ expr _) := f in
                     NULL_types expr) fields
  | KTupleLiteral fields => flat_map NULL_types fields
  | KEmpty | KLiteral _ | KIdent _ | KPath _ _ | KBreak _ | KAsm | KError _ =>
      []
  end.

(** The type slots [tys] hold raw pointers to inference variables, no two
    of them to the same one, all created from the [lo]-th variable on and
    before the [hi]-th. *)
Definition fresh_tys (lo hi : nat) (tys : list (option Ty)) : Prop :=
  NoDup tys
  ∧ Forall (λ ty, ∃ v, ty = Some (TyRawptr (TyVar v)) ∧ lo ≤ v < hi)%nat tys.

(** The inference variables are only added to. *)
Definition fcx_vars `{env : TypeckEnv} (a b : FuncCtx) : Prop :=
  (tyVars (infcx a) ≤ tyVars (infcx b))%nat.

(** Given that the slots [pre] are fresh up to the variable counter when
    [m] starts, the slots [tys a] of its result are fresh up to the
    counter when it ends. *)
Definition carries `{env : TypeckEnv} {A} (pre : list (option Ty))
    (tys : A → list (option Ty)) (m : M FuncCtx A) : Prop :=
  ∀ lo st a st',
    (lo ≤ tyVars (infcx st))%nat →
    fresh_tys lo (tyVars (infcx st)) pre →
    m st = Ok (a, st') →
    (tyVars (infcx st) ≤ tyVars (infcx st'))%nat
    ∧ fresh_tys lo (tyVars (infcx st')) (tys a).

(** ** C2: what the checker needs of a resolved body *)




(** The abort of the [structLiteral] case on a field that the struct
    type does not have. *)
Definition unknown_field_abort : Exn :=
  ThrowTypeError "Cannot read properties of undefined (reading '1')".

Definition same_locals `{env : TypeckEnv} (a b : FuncCtx) : Prop :=
  localTys b = localTys a.

(** From [n] locals in scope, [m] returns with [n'] in scope and a value
    that satisfies [Q], unless it ends in [unknown_field_abort]. *)
Definition runs `{env : TypeckEnv} {A} (n n' : nat) (Q : A → Prop)
    (m : M FuncCtx A) : Prop :=
  ∀ fcx,
    length (localTys fcx) = n →
    match m fcx with
    | Ok (a, fcx') => length (localTys fcx') = n' ∧ Q a
    | Throw exn => exn = unknown_field_abort
    end.

(** A node as the checker leaves it: its type is filled in, and an
    identifier still carries its resolution. *)
Definition checked (e : Expr) : Prop :=
  is_Some (expr_ty e)
  ∧ match expr_kind e with
    | KIdent value => is_Some (iwr_res value)
    | _ => True
    end.



(** ** Vocabulary of the further properties *)

(** The scope stack and the innermost block's locals move in step: the
    names that a visit leaves on the scope stack are the names of the
    local-info records it appended to the innermost open block, in the
    same order; with no block open, nothing is left on the stack. *)
Definition r_sync (a b : ResolveState) : Prop :=
  ∃ more,
    r_scopes b = r_scopes a ++ map local_name more
    ∧ ((r_blockLocals a = [] ∧ more = [] ∧ r_blockLocals b = [])
       ∨ ∃ init top, r_blockLocals a = init ++ [top]
                     ∧ r_blockLocals b = init ++ [top ++ more]).

(** Anything but a plain [Error]. *)
Definition not_Error (e : Exn) : Prop := ∀ msg, e ≠ ThrowError msg.

(** An item visitor run with no block open: it gives the scope stack
    back as it found it, still with no block open, and if it raises, it
    is not a plain [Error]. *)
Definition item_safe {A} (m : M ResolveState A) : Prop :=
  ∀ st, r_blockLocals st = [] →
    match m st with
    | Ok (_, st') => r_blockLocals st' = [] ∧ r_scopes st' = r_scopes st
    | Throw e => not_Error e
    end.

(** Every item carries its definition path: the path of the enclosing
    module followed by its own name; the items of a module carry the
    module's path as prefix. *)
Fixpoint defPaths_ok (modName : list string) (item : Item) : bool :=
  match item with
  | mkItem kind _ _ name defPath =>
      bool_decide (defPath = Some (modName ++ [name]))
      && match kind with
         | IMod contents => forallb (defPaths_ok (modName ++ [name])) contents
         | _ => true
         end
  end.

(** The [kind] tag of an item. *)
Definition item_tag (item : Item) : string :=
  match item_kind item with
  | IFunction _ _ _ _ => "function"
  | IType _ _ _ => "type"
  | IImport _ _ _ _ _ => "import"
  | IMod _ => "mod"
  | IExtern => "extern"
  | IGlobal _ _ _ => "global"
  | IUse _ _ => "use"
  | IError _ => "error"
  end.

(** What identifies an item: its id, name, span and kind. *)
Definition item_key (item : Item) : ItemId * string * Span * string :=
  (item_id item, item_name item, item_span item, item_tag item).

(** [item'] is [item] resolved below the module path [modName]: the same
    items in the same order, each with its definition path. *)
Definition resolved_like (modName : list string) (item item' : Item) : Prop :=
  defPaths_ok modName item' = true
  ∧ map item_key (items_of item') = map item_key (items_of item).

(** A visit of an item fills the by-id table: afterwards every item of
    the returned tree is found under its id (provided the ids of the tree
    are distinct), and entries under other ids are as they were. *)
Definition covers {S} (table : S → gmap ItemId Item) (item' : Item)
    (st st' : S) : Prop :=
  (NoDup (ids_of item') →
   ∀ i, i ∈ items_of item' → table st' !! item_id i = Some i)
  ∧ (∀ id, id ∉ ids_of item' → table st' !! id = table st !! id).

Definition b_same (a b : BuildState) : Prop :=
  b_newItemsById b = b_newItemsById a.

(** An operand of a binary expression that is itself a binary expression
    is of the same precedence class as the expression around it. *)
Definition same_prec_class (k : BinaryKind) (inner : Expr) : bool :=
  match expr_kind inner with
  | KBinary k' _ _ =>
      bool_decide (binaryExprPrecedenceClass k = binaryExprPrecedenceClass k')
  | _ => true
  end.

(** Nothing to report below [e]: every [let] is an element of a block,
    and no binary expression has a binary operand of another precedence
    class. *)
Fixpoint quiet_expr (e : Expr) : bool :=
  match e with
  | mkExpr k _ _ =>
      match k with
      | KLet _ _ _ _ => false
      | KBlock exprs _ =>
          forallb (λ inner,
                     match inner with
                     | mkExpr (KLet _ _ rhs _) _ _ => quiet_expr rhs
                     | _ => quiet_expr inner
                     end) exprs
      | KBinary k lhs rhs =>
          same_prec_class k lhs && same_prec_class k rhs
          && quiet_expr lhs && quiet_expr rhs
      | KAssign lhs rhs => quiet_expr lhs && quiet_expr rhs
      | KUnary _ rhs => quiet_expr rhs
      | KCall lhs args => quiet_expr lhs && forallb quiet_expr args
      | KFieldAccess lhs _ => quiet_expr lhs
      | KIf cond then_ else_ =>
          quiet_expr cond && quiet_expr then_
          && match else_ with Some e => quiet_expr e | None => true end
      | KLoop body _ => quiet_expr body
      | KStructLiteral _ fields =>
          forallb (λ f, let '(mkStructLiteralField _ expr _) := f in
                        quiet_expr expr) fields
      | KTupleLiteral fields => forallb quiet_expr fields
      | _ => true
      end
  end.

Fixpoint quiet_item (item : Item) : bool :=
  match item with
  | mkItem (IFunction _ body _ _) _ _ _ _ => quiet_expr body
  | mkItem (IGlobal _ init _) _ _ _ _ => quiet_expr init
  | mkItem (IMod contents) _ _ _ _ => forallb quiet_item contents
  | _ => true
  end.

(** [m] appends diagnostics to the validator's sink, and none exactly
    when [q] holds. *)
Definition emits {A} (q : bool) (m : M ValidateState A) : Prop :=
  ∀ st a st', m st = Ok (a, st') →
    ∃ errs, v_error st' = v_error st ++ errs ∧ (errs = [] ↔ q = true).

(** The expression an assignment target is rooted in: what is left when
    the field accesses are taken off. *)
Fixpoint lvalue_root (e : Expr) : Expr :=
  match e with
  | mkExpr (KFieldAccess lhs _) _ _ => lvalue_root lhs
  | _ => e
  end.

(** The checker's state with one more diagnostic in the sink. *)
Definition fcx_report `{env : TypeckEnv} (err : CompilerError) (fcx : FuncCtx)
    : FuncCtx :=
  set_cx_error (cx_error fcx ++ [err]) fcx.

(** A step of the checker that leaves both of its stacks alone. *)
Definition fcx_same_stacks `{env : TypeckEnv} (a b : FuncCtx) : Prop :=
  loopState b = loopState a ∧ localTys b = localTys a.

(** Every [break] below [e] carries the id of the innermost loop around
    it; [loops] are the ids of the loops around [e], outermost first. *)
Fixpoint breaks_ok (loops : list nat) (e : Expr) : bool :=
  match e with
  | mkExpr k _ _ =>
      match k with
      | KBreak target => bool_decide (target = last loops ∧ is_Some target)
      | KLoop body loopId => breaks_ok (loops ++ [loopId]) body
      | KLet _ _ rhs _ => breaks_ok loops rhs
      | KAssign lhs rhs | KBinary _ lhs rhs =>
          breaks_ok loops lhs && breaks_ok loops rhs
      | KBlock exprs _ | KTupleLiteral exprs => forallb (breaks_ok loops) exprs
      | KUnary _ rhs => breaks_ok loops rhs
      | KCall lhs args => breaks_ok loops lhs && forallb (breaks_ok loops) args
      | KFieldAccess lhs _ => breaks_ok loops lhs
      | KIf cond then_ else_ =>
          breaks_ok loops cond && breaks_ok loops then_
          && match else_ with Some e => breaks_ok loops e | None => true end
      | KStructLiteral _ fields =>
          forallb (λ f, let '(mkStructLiteralField _ expr _) := f in
                        breaks_ok loops expr) fields
      | _ => true
      end
  end.

(** [m], run with the loops [loops] open, returns with the same loops
    open, with types at most added on top of [localTys], and with a value
    that satisfies [Q]. *)
Definition in_loops `{env : TypeckEnv} {A} (loops : list nat) (Q : A → Prop)
    (m : M FuncCtx A) : Prop :=
  ∀ st a st',
    map ls_loopId (loopState st) = loops →
    m st = Ok (a, st') →
    Q a
    ∧ map ls_loopId (loopState st') = loops
    ∧ localTys st `prefix_of` localTys st'.

(** ** What the parser's functions do: vocabulary *)

(** [t'] is [t] with some tokens taken off the front. *)
Definition state_le (t' t : ParseState) : Prop :=
  ps_file t' = ps_file t ∧ ps_tokens t' `suffix_of` ps_tokens t.

Definition state_lt (t' t : ParseState) : Prop :=
  state_le t' t ∧ (length (ps_tokens t') < length (ps_tokens t))%nat.

(** [m] either returns a value satisfying [Q] and leaves the sink alone,
    or is fatal after exactly one diagnostic (or runs out of fuel). *)
Definition steps {A} (m : PM A) (Q : A → Prop) : Prop :=
  ∀ sink,
    match m sink with
    | POk a sink' => sink' = sink ∧ Q a
    | PFatal _ sink' => ∃ err, sink' = sink ++ [err]
    | POutOfFuel => True
    end.

(** The slots that later phases fill are empty, every loop has the id 0,
    and there is no [path], [asm] or [error] node. *)
Fixpoint parsed_type (type : Type_) : bool :=
  match type with
  | TIdent genericArgs value _ =>
      forallb parsed_type genericArgs && bool_decide (iwr_res value = None)
  | TTuple elems _ => forallb parsed_type elems
  | TRawptr inner _ => parsed_type inner
  | TNever _ => true
  | TError _ _ => false
  end.

Fixpoint parsed_expr (e : Expr) : bool :=
  match e with
  | mkExpr k _ ty =>
      bool_decide (ty = None)
      && match k with
         | KEmpty | KLiteral _ => true
         | KLet _ type rhs local =>
             match type with Some ty => parsed_type ty | None => true end
             && parsed_expr rhs && bool_decide (local = None)
         | KAssign lhs rhs | KBinary _ lhs rhs => parsed_expr lhs && parsed_expr rhs
         | KBlock exprs locals =>
             forallb parsed_expr exprs && bool_decide (locals = None)
         | KIdent value => bool_decide (iwr_res value = None)
         | KUnary _ rhs => parsed_expr rhs
         | KCall lhs args => parsed_expr lhs && forallb parsed_expr args
         | KFieldAccess lhs field =>
             parsed_expr lhs && bool_decide (fieldIdx field = None)
         | KIf cond then_ else_ =>
             parsed_expr cond && parsed_expr then_
             && match else_ with Some e => parsed_expr e | None => true end
         | KLoop body loopId => parsed_expr body && bool_decide (loopId = 0)
         | KBreak target => bool_decide (target = None)
         | KStructLiteral name fields =>
             bool_decide (iwr_res name = None)
             && forallb (λ f, let '(mkStructLiteralField _ expr idx) := f in
                              parsed_expr expr && bool_decide (idx = None))
                        fields
         | KTupleLiteral fields => forallb parsed_expr fields
         | KPath _ _ | KAsm | KError _ => false
         end
  end.

(** [m] does not run out of fuel. *)
Definition finishes {A} (m : PM A) : Prop := ∀ sink, m sink ≠ POutOfFuel.

(** Whatever [m] returns without running out of fuel, [m'] returns too. *)
Definition refines {A} (m m' : PM A) : Prop :=
  ∀ sink, m sink ≠ POutOfFuel → m' sink = m sink.

(** As [steps], for parsers that may report without failing: the sink is
    only ever extended. *)
Definition steps_w {A} (m : PM A) (Q : A → Prop) : Prop :=
  ∀ sink,
    match m sink with
    | POk a sink' => sink `prefix_of` sink' ∧ Q a
    | PFatal _ sink' => sink `prefix_of` sink'
    | POutOfFuel => True
    end.

(** An item as the parser builds it: no definition path, no type, no
    resolution, and parsed types and expressions inside. *)
Definition parsed_args (params : list FunctionArg) : bool :=
  forallb (λ a, parsed_type (arg_type a)) params.

Definition parsed_opt_type (type : option Type_) : bool :=
  match type with Some ty => parsed_type ty | None => true end.

Definition parsed_sig (sig : FunctionSig) : bool :=
  parsed_args (sig_params sig) && parsed_opt_type (sig_returnType sig).

Fixpoint parsed_item (item : Item) : bool :=
  match item with
  | mkItem k _ _ _ defPath =>
      bool_decide (defPath = None)
      && match k with
         | IFunction params body returnType ty =>
             parsed_args params && parsed_expr body
             && parsed_opt_type returnType && bool_decide (ty = None)
         | IType _ type ty =>
             match type with
             | TDStruct fields => forallb (λ f, parsed_type (fd_type f)) fields
             | TDAlias type => parsed_type type
             end && bool_decide (ty = None)
         | IImport _ _ params returnType ty =>
             parsed_args params && parsed_opt_type returnType
             && bool_decide (ty = None)
         | IMod contents => forallb parsed_item contents
         | IExtern => true
         | IGlobal type init ty =>
             parsed_type type && parsed_expr init && bool_decide (ty = None)
         | IUse _ res => bool_decide (res = None)
         | IError _ => false
         end
  end.

(** No module is read from a file: a [mod name;] whose span lies in a
    file with a path finds the loader failing. *)
Definition no_module_files `{penv : ParserEnv} : Prop :=
  ∀ span name file_path,
    path (span_file span) = Some file_path →
    ∃ err, loadModuleFile file_path name span = inl err.

(** A chain of integer literals joined by binary operators, as tokens
    and as the expression that nests to the right. *)
Definition Operand : Type := nat * LitIntType * Span.

Definition operand_token (o : Operand) : Token :=
  TokenLitInt o.1.1 o.1.2 o.2.

Definition operand_expr (o : Operand) : Expr :=
  mkExpr (KLiteral (LitInt o.1.1 o.1.2)) o.2 None.

Fixpoint chain_tokens (first : Operand)
    (rest : list (BinaryKind * Span * Operand)) : list Token :=
  operand_token first
  :: match rest with
     | [] => []
     | (k, span, next) :: rest' =>
         TokenSym (SBinary k) span :: chain_tokens next rest'
     end.

Fixpoint chain_expr (first : Operand)
    (rest : list (BinaryKind * Span * Operand)) : Expr :=
  match rest with
  | [] => operand_expr first
  | (k, _, next) :: rest' =>
      let rhs := chain_expr next rest' in
      mkExpr (KBinary k (operand_expr first) rhs)
             (span_merge first.2 (expr_span rhs)) None
  end.

(** The tokens [after] do not continue an operand: they are empty, or
    begin with something other than [(], [.], [=] and the binary
    operators. *)
Definition ends_operand (after : list Token) : Prop :=
  match after with
  | [] => True
  | tok :: _ =>
      tok_kind tok ∉ [TkSym SLParen; TkSym SDot; TkSym SAssign]
      ∧ as_BinaryKind (tok_kind tok) = None
  end.

(** The levels of binary operators above [parseExprUnary], innermost
    last: [parseExprAssignment] is the tower of five levels. *)
Fixpoint binary_tower `{penv : ParserEnv} (parseExpr : Parser Expr) (fuel : nat)
    (levels : list (list TokenKind * (Expr → Expr → Span → TokenKind → Expr)))
    : Parser Expr :=
  match levels with
  | [] => parseExprUnary parseExpr fuel fuel
  | (kinds, mkExpr') :: levels' =>
      mkParserExprBinary fuel (binary_tower parseExpr fuel levels') kinds mkExpr'
  end.

Definition binary_kinds (kinds : list BinaryKind) : list TokenKind :=
  map (λ k, TkSym (SBinary k)) kinds.

(** The next token is of none of the kinds [kinds]. *)
Definition peek_avoids (x : list Token) (kinds : list TokenKind) : Prop :=
  ∀ tok, head x = Some tok → tok_kind tok ∉ kinds.


(** Types written out as tokens: [xss] joined by commas, and a type with
    every piece of punctuation at the span of its node.  A one-element
    tuple is written [(T,)]; an identifier without arguments is written
    without brackets. *)
Fixpoint comma_sep (comma : Token) (xss : list (list Token)) : list Token :=
  match xss with
  | [] => []
  | xs :: rest =>
      xs ++ match rest with
            | [] => []
            | _ => comma :: comma_sep comma rest
            end
  end.

Fixpoint type_tokens (type : Type_) : list Token :=
  match type with
  | TIdent genericArgs value span =>
      TokenIdent (iwr_name value) span
      :: match genericArgs with
         | [] => []
         | _ =>
             TokenSym SLBracket span
             :: comma_sep (TokenSym SComma span) (map type_tokens genericArgs)
             ++ [TokenSym SRBracket span]
         end
  | TTuple elems span =>
      TokenSym SLParen span
      :: comma_sep (TokenSym SComma span) (map type_tokens elems)
      ++ match elems with
         | [_] => [TokenSym SComma span]
         | _ => []
         end
      ++ [TokenSym SRParen span]
  | TRawptr inner span => TokenSym (SBinary BMul) span :: type_tokens inner
  | TNever span => [TokenSym SNot span]
  | TError _ _ => []
  end.

#[global] Instance Span_eq_dec : EqDecision Span.
Proof. solve_decision. Defined.

(** The types that can be written: parsed ones whose identifiers carry
    the span of their node. *)
Fixpoint written_type (type : Type_) : bool :=
  match type with
  | TIdent genericArgs value span =>
      forallb written_type genericArgs
      && bool_decide (iwr_span value = span)
      && bool_decide (iwr_res value = None)
  | TTuple elems _ => forallb written_type elems
  | TRawptr inner _ => written_type inner
  | TNever _ => true
  | TError _ _ => false
  end.

(** ** The closing pass of the body checker: what is said of its result *)

(** A type slot that holds a type, and one that holds a type other than
    an inference variable. *)
Definition filled_ty (ty : option Ty) : bool :=
  match ty with
  | Some _ => true
  | None => false
  end.

Definition solved_ty (ty : option Ty) : bool :=
  match ty with
  | Some (TyVar _) | None => false
  | Some _ => true
  end.

(** [slot] holds of the type slot of every node of [e] and of every local
    listed by a block of [e], and every block of [e] has its list of
    locals. *)
Fixpoint every_slot (slot : option Ty → bool) (e : Expr) : bool :=
  let '(mkExpr kind _ ty) := e in
  slot ty &&
  match kind with
  | KLet _ _ rhs _ => every_slot slot rhs
  | KAssign lhs rhs => every_slot slot lhs && every_slot slot rhs
  | KBlock exprs locals =>
      match locals with
      | Some locals => forallb (λ local, slot (local_ty local)) locals
      | None => false
      end
      && forallb (every_slot slot) exprs
  | KBinary _ lhs rhs => every_slot slot lhs && every_slot slot rhs
  | KUnary _ rhs => every_slot slot rhs
  | KCall lhs args => every_slot slot lhs && forallb (every_slot slot) args
  | KFieldAccess lhs _ => every_slot slot lhs
  | KIf cond then_ else_ =>
      every_slot slot cond && every_slot slot then_
      && match else_ with
         | Some else_ => every_slot slot else_
         | None => true
         end
  | KLoop body _ => every_slot slot body
  | KStructLiteral _ fields =>
      forallb (λ f, let '(mkStructLiteralField _ expr _) := f in
                    every_slot slot expr) fields
  | KTupleLiteral fields => forallb (every_slot slot) fields
  | KEmpty | KLiteral _ | KIdent _ | KPath _ _ | KBreak _ | KAsm | KError _ =>
      true
  end.

(** The tree without what the type checker writes into it: the type of
    every node and of every local, and the field index of every field of
    a struct literal. *)
Definition untyped_local (local : LocalInfo) : LocalInfo :=
  mkLocalInfo (local_name local) (local_span local) None.

Fixpoint untyped (e : Expr) : Expr :=
  let '(mkExpr kind span _) := e in
  mkExpr
    match kind with
    | KLet name type rhs local =>
        KLet name type (untyped rhs) (untyped_local <$> local)
    | KAssign lhs rhs => KAssign (untyped lhs) (untyped rhs)
    | KBlock exprs locals =>
        KBlock (map untyped exprs) (map untyped_local <$> locals)
    | KBinary binaryKind lhs rhs => KBinary binaryKind (untyped lhs) (untyped rhs)
    | KUnary unaryKind rhs => KUnary unaryKind (untyped rhs)
    | KCall lhs args => KCall (untyped lhs) (map untyped args)
    | KFieldAccess lhs field => KFieldAccess (untyped lhs) field
    | KIf cond then_ else_ =>
        KIf (untyped cond) (untyped then_)
            match else_ with
            | Some else_ => Some (untyped else_)
            | None => None
            end
    | KLoop body loopId => KLoop (untyped body) loopId
    | KStructLiteral name fields =>
        KStructLiteral name
          (map (λ f, let '(mkStructLiteralField name expr _) := f in
                     mkStructLiteralField name (untyped expr) None) fields)
    | KTupleLiteral fields => KTupleLiteral (map untyped fields)
    | KEmpty | KLiteral _ | KIdent _ | KPath _ _ | KBreak _ | KAsm
    | KError _ => kind
    end span None.

(** No field of a struct literal of [e] has a field index. *)
Fixpoint literal_fields_unindexed (e : Expr) : bool :=
  let '(mkExpr kind _ _) := e in
  match kind with
  | KLet _ _ rhs _ => literal_fields_unindexed rhs
  | KAssign lhs rhs => literal_fields_unindexed lhs && literal_fields_unindexed rhs
  | KBlock exprs _ => forallb literal_fields_unindexed exprs
  | KBinary _ lhs rhs => literal_fields_unindexed lhs && literal_fields_unindexed rhs
  | KUnary _ rhs => literal_fields_unindexed rhs
  | KCall lhs args =>
      literal_fields_unindexed lhs && forallb literal_fields_unindexed args
  | KFieldAccess lhs _ => literal_fields_unindexed lhs
  | KIf cond then_ else_ =>
      literal_fields_unindexed cond && literal_fields_unindexed then_
      && match else_ with
         | Some else_ => literal_fields_unindexed else_
         | None => true
         end
  | KLoop body _ => literal_fields_unindexed body
  | KStructLiteral _ fields =>
      forallb (λ f, let '(mkStructLiteralField _ expr fieldIdx) := f in
                    bool_decide (fieldIdx = None)
                    && literal_fields_unindexed expr) fields
  | KTupleLiteral fields => forallb literal_fields_unindexed fields
  | KEmpty | KLiteral _ | KIdent _ | KPath _ _ | KBreak _ | KAsm | KError _ =>
      true
  end.

(** The state [st'] is [st] with diagnostics added to the sink, each of
    them a "cannot infer type". *)
Definition reports_unsolved `{env : TypeckEnv} (st st' : FuncCtx) : Prop :=
  ∃ errs,
    st' = set_cx_error (cx_error st ++ errs) st
    ∧ Forall (λ err, message err = "cannot infer type") errs.

(** [e'] is [e] resolved: no type slot of [e'] holds an inference
    variable, [e'] differs from [e] in nothing but what the checker
    writes, and its struct literals list their fields without index. *)
Definition resolved_of (e e' : Expr) : Prop :=
  every_slot solved_ty e' = true
  ∧ untyped e' = untyped e
  ∧ literal_fields_unindexed e' = true.

(** * Properties *)

(** ** The monad *)

Section MonadFacts.
Context {S : Type}.

Lemma bind_Ok {A B} (m : M S A) (f : A → M S B) s r :
  bind m f s = Ok r ↔ ∃ a s', m s = Ok (a, s') ∧ f a s' = Ok r.
Proof.
  unfold bind. destruct (m s) as [[a s']|e]; split.
  - eauto.
  - by intros (? & ? & [= <- <-] & ?).
  - done.
  - by intros (? & ? & ? & ?).
Qed.

Lemma bind_Throw {A B} (m : M S A) (f : A → M S B) s e :
  bind m f s = Throw e ↔
  m s = Throw e ∨ ∃ a s', m s = Ok (a, s') ∧ f a s' = Throw e.
Proof.
  unfold bind. destruct (m s) as [[a s']|e']; split.
  - eauto.
  - intros [?|(? & ? & [= <- <-] & ?)]; done.
  - intros [= ->]. by left.
  - intros [[= ->]|(? & ? & ? & ?)]; done.
Qed.

Lemma bind_run {A B} (m : M S A) (f : A → M S B) s a s' :
  m s = Ok (a, s') → bind m f s = f a s'.
Proof. unfold bind. by intros ->. Qed.
End MonadFacts.

(** ** C9: [superFoldExpr] on a [fieldAccess] *)

(** C9, as stated, fails: folding a type-checked [p.1] whose field carries
    [fieldIdx = 1] yields a node whose field still carries [fieldIdx = 1];
    the slot is not dropped. *)
Lemma superFoldExpr_fieldAccess_fieldIdx_not_dropped :
  ∃ e', superFoldExpr example_fieldAccess id_folder () = Ok (e', ())
        ∧ (fieldIdx <$> expr_field example_fieldAccess) = Some (Some 1)
        ∧ (fieldIdx <$> expr_field e') = Some (Some 1)
        ∧ (fieldIdx <$> expr_field e') ≠ Some None.
Proof. eexists. repeat split; [reflexivity..|done]. Qed.

(** C9 (amended): for every folder, [superFoldExpr] maps a [fieldAccess]
    to a [fieldAccess] whose [lhs] is the folded lhs and whose [field]
    slot is the input's, unchanged: value, span and [fieldIdx] are all
    retained, as are the node's span and type. *)
Theorem superFoldExpr_fieldAccess_keeps_field {S} (folder : Folder S)
    (lhs : Expr) (field : Field) (span : Span) (ty : option Ty) (s s' : S)
    (e' : Expr) :
  superFoldExpr (mkExpr (KFieldAccess lhs field) span ty) folder s = Ok (e', s') →
  ∃ lhs', f_expr folder lhs s = Ok (lhs', s')
          ∧ e' = mkExpr (KFieldAccess lhs' field) span ty
          ∧ expr_field e' = Some field.
Proof.
  cbn [superFoldExpr]. intros (lhs' & s1 & Hlhs & [= <- <-])%bind_Ok.
  by exists lhs'.
Qed.

Lemma superFoldExpr_fieldAccess_keeps_field_witness :
  ∃ lhs', f_expr id_folder
            (mkExpr (KIdent (mkIdentWithRes "p" (mkSpan 0 1) None)) (mkSpan 0 1) None) ()
          = Ok (lhs', ())
        ∧ expr_field
            (mkExpr (KFieldAccess lhs' (mkField (inl "x") (mkSpan 2 3) (Some 0)))
                    (mkSpan 0 3) None)
          = Some (mkField (inl "x") (mkSpan 2 3) (Some 0)).
Proof.
  destruct (superFoldExpr_fieldAccess_keeps_field id_folder
              (mkExpr (KIdent (mkIdentWithRes "p" (mkSpan 0 1) None)) (mkSpan 0 1) None)
              (mkField (inl "x") (mkSpan 2 3) (Some 0)) (mkSpan 0 3) None () ()
              (mkExpr (KFieldAccess
                         (mkExpr (KIdent (mkIdentWithRes "p" (mkSpan 0 1) None))
                                 (mkSpan 0 1) None)
                         (mkField (inl "x") (mkSpan 2 3) (Some 0)))
                      (mkSpan 0 3) None))
    as (lhs' & Hl & He & Hf).
  - reflexivity.
  - exists lhs'. split; [exact Hl|]. by rewrite <- He.
Defined.

(** ** C5: local indices between the resolver and the checker *)

Lemma scan_scopes_Some scopes name lastIdx n index :
  scan_scopes scopes name lastIdx n = Some index →
  ∃ i, i < n ∧ scopes !! i = Some name
       ∧ (∀ j, i < j < n → scopes !! j ≠ Some name)
       ∧ index = lastIdx - i.
Proof.
  induction n as [|n IH]; simpl; [done|].
  destruct (decide (scopes !! n = Some name)) as [Hn|Hn].
  - intros [= <-]. exists n. repeat split; [lia|done|intros; lia].
  - intros (i & Hi & Hname & Hlater & ->)%IH.
    exists i. repeat split; [lia|done|].
    intros j Hj. destruct (decide (j = n)) as [->|]; [done|].
    apply Hlater. lia.
Qed.

Lemma scan_scopes_None scopes name lastIdx n :
  scan_scopes scopes name lastIdx n = None →
  ∀ j, j < n → scopes !! j ≠ Some name.
Proof.
  induction n as [|n IH]; simpl; [intros; lia|].
  destruct (decide (scopes !! n = Some name)); [done|].
  intros Hn j Hj. destruct (decide (j = n)) as [->|]; [done|].
  apply IH; [done|lia].
Qed.

Lemma resolveIdent_local ast items ident st index st' :
  resolveIdent ast items ident st = Ok (ResLocal index, st') →
  st' = st ∧
  scan_scopes (r_scopes st) (ident_name ident) (length (r_scopes st) - 1)
              (length (r_scopes st)) = Some index.
Proof.
  unfold resolveIdent. intros (scopes & s1 & [= <- <-] & H)%bind_Ok.
  destruct scan_scopes as [i|]; [by injection H as <- <-|].
  destruct (items !! _); [done|].
  apply bind_Ok in H as (fin & s2 & [= <- <-] & H).
  destruct find; [done|]. by destruct bool_decide.
Qed.

(** C5: when the resolver answers [local { index }] against a scope stack
    and the checker's [localTys] has the same depth, then [index] is
    [stackTop − i] for the topmost entry [i] that carries the name, and
    [typeOfValue] reads [localTys] at exactly that position [i]. *)
Theorem local_index_roundtrip `{env : TypeckEnv}
    (ast : Pkg) (items : gmap string ItemId) (ident : Ident)
    (st st' : ResolveState) (index : nat) (fcx : FuncCtx) (span : Span) :
  resolveIdent ast items ident st = Ok (ResLocal index, st') →
  length (localTys fcx) = length (r_scopes st) →
  ∃ i, r_scopes st !! i = Some (ident_name ident)
       ∧ (∀ j, i < j → r_scopes st !! j ≠ Some (ident_name ident))
       ∧ index = length (r_scopes st) - 1 - i
       ∧ is_Some (localTys fcx !! i)
       ∧ typeOfValue (ResLocal index) span fcx = Ok (localTys fcx !! i, fcx).
Proof.
  intros [_ (i & Hi & Hname & Hlater & ->)%scan_scopes_Some]%resolveIdent_local Hlen.
  exists i. split_and!; [done| |done| |].
  - intros j Hj. destruct (decide (j < length (r_scopes st))).
    + apply Hlater. lia.
    + rewrite lookup_ge_None_2; [done|lia].
  - apply lookup_lt_is_Some. lia.
  - cbn. unfold bind, gets, ret, js_index. rewrite Hlen.
    destruct decide; [|lia]. do 3 f_equal. lia.
Qed.

Lemma local_index_roundtrip_witness :
  ∃ i, ["a"; "b"; "a"; "c"] !! i = Some "a"
       ∧ 1 = length ["a"; "b"; "a"; "c"] - 1 - i
       ∧ [TyInt; TyBool; TyString; TyI32] !! i = Some TyString.
Proof.
  destruct (local_index_roundtrip (env:=example_env0)
              (mkPkg 0 [] ∅ "main" (mkLoadedFile None "") None) ∅
              (mkIdent "a" (mkSpan 0 1))
              (mkResolveState [] ∅ ∅ ["a"; "b"; "a"; "c"] [])
              (mkResolveState [] ∅ ∅ ["a"; "b"; "a"; "c"] []) 1
              (example_fcx0 [TyInt; TyBool; TyString; TyI32])
              (mkSpan 0 1))
    as (i & Hi & Hlater & Hidx & Hsome & Hty).
  - reflexivity.
  - reflexivity.
  - exists i. split; [exact Hi|]. split; [exact Hidx|].
    cbn in Hidx. assert (i = 2) as -> by (apply lookup_lt_Some in Hi; cbn in Hi; lia).
    reflexivity.
Defined.

(** ** C3: the memory-size and memory-grow primitives *)


(** C3: [typeOfBuiltinValue] gives [__memory_size] and [__memory_grow]
    function types, but neither name is in [BUILTINS], so identifier
    resolution does not recognize them: resolving
    [function main() = __memory_size();] raises "cannot find
    __memory_size" instead of answering [builtin]. *)
Theorem memory_builtins_not_resolved :
  "__memory_size" ∉ BUILTINS ∧ "__memory_grow" ∉ BUILTINS
  ∧ (∀ (env : TypeckEnv) span fcx,
       typeOfBuiltinValue "__memory_size" span fcx = Ok (mkTyFn [] TY_I32, fcx)
       ∧ typeOfBuiltinValue "__memory_grow" span fcx
         = Ok (mkTyFn [TY_I32] TY_I32, fcx))
  ∧ (∃ built,
       buildPkg "main" example_memory_size_items 0 example_file None = Ok built
       ∧ resolve example_gcx [] built
         = Throw (ThrowCompilerError
                    (mkCompilerError "cannot find __memory_size" (mkSpan 18 31)))).
Proof.
  split_and!.
  - by apply (bool_decide_eq_false_1 _).
  - by apply (bool_decide_eq_false_1 _).
  - done.
  - eexists. split; [reflexivity|]. vm_compute. reflexivity.
Qed.

(** ** C4: binary operator typing *)

(** C4, as stated, fails: [1 & 2] applies the logical operator [&] to two
    [int]s, not to a [bool] pair, and is admitted with result type [int];
    no diagnostic is emitted and the result type is not the error type. *)
Lemma checkBinary_and_admits_ints :
  checkBinary (env:=example_env0) (checker_expr example_gcx empty_pkg) BAnd
    (mkExpr (KLiteral (LitInt 1 LitInt_Int)) (mkSpan 0 1) None)
    (mkExpr (KLiteral (LitInt 2 LitInt_Int)) (mkSpan 4 5) None)
    (mkSpan 0 5) (example_fcx0 [])
  = Ok (mkExpr (KBinary BAnd
                  (mkExpr (KLiteral (LitInt 1 LitInt_Int)) (mkSpan 0 1) (Some TY_INT))
                  (mkExpr (KLiteral (LitInt 2 LitInt_Int)) (mkSpan 4 5) (Some TY_INT)))
               (mkSpan 0 5) (Some TY_INT),
        example_fcx0 [])
  ∧ BAnd ∈ LOGICAL_KINDS
  ∧ cx_error (example_fcx0 []) = [].
Proof.
  split_and!; [reflexivity| |done].
  by apply (bool_decide_unpack _).
Qed.

Lemma ty_of_with_ty `{env : TypeckEnv} e ty fcx :
  ty_of (with_ty e ty) fcx = Ok (ty, fcx).
Proof. by destruct e. Qed.

Lemma resolve_ty_of_run `{env : TypeckEnv} e ty fcx :
  expr_ty e = Some ty →
  resolve_ty_of e fcx
  = Ok (with_ty e (subst_resolveIfPossible (subst (infcx fcx)) ty), fcx).
Proof. unfold resolve_ty_of, ty_of, bind. by intros ->. Qed.

(** C4 (amended): with the operands checked and their types resolved to
    [lhsTy] and [rhsTy], [checkBinary] follows the table
    [admitted_binary]: an admitted pair gives the table's result type and,
    unless the operands are raw pointers (whose pointees are unified),
    leaves the state alone; any other pair appends exactly one diagnostic
    and gives the error type.  In the table, the arithmetic operators
    admit only [int]/[int] (result [int]) and [i32]/[i32] (result [i32]),
    and [&], [|] admit those two pairs as well as [bool]/[bool] (result
    [bool]). *)
Theorem checkBinary_table `{env : TypeckEnv}
    (checkExpr : Expr → M FuncCtx Expr) (k : BinaryKind) (lhs rhs : Expr)
    (span : Span) (fcx fcx1 fcx2 : FuncCtx) (lhs1 rhs1 : Expr) (lty rty : Ty) :
  checkExpr lhs fcx = Ok (lhs1, fcx1) →
  checkExpr rhs fcx1 = Ok (rhs1, fcx2) →
  expr_ty lhs1 = Some lty →
  expr_ty rhs1 = Some rty →
  let lhsTy := subst_resolveIfPossible (subst (infcx fcx2)) lty in
  let rhsTy := subst_resolveIfPossible (subst (infcx fcx2)) rty in
  (∃ ty fcx',
     checkBinary checkExpr k lhs rhs span fcx
     = Ok (mkExpr (KBinary k (with_ty lhs1 lhsTy) (with_ty rhs1 rhsTy)) span (Some ty),
           fcx')
     ∧ match admitted_binary k lhsTy rhsTy with
       | Some ty0 => ty = ty0 ∧ (is_rawptr lhsTy = false → fcx' = fcx2)
       | None =>
           ty = TyError errorEmitted
           ∧ fcx' = set_cx_error
                      (cx_error fcx2 ++
                       [mkCompilerError
                          ("invalid types for binary operation: " +:+ printTy lhsTy
                           +:+ " " +:+ BinaryKind_toString k +:+ " "
                           +:+ printTy rhsTy) span]) fcx2
       end)
  ∧ (∀ a b ty, k ∈ ARITH_TERM_KINDS ++ ARITH_FACTOR_KINDS →
       admitted_binary k a b = Some ty ↔
       (a = TyInt ∧ b = TyInt ∧ ty = TyInt) ∨ (a = TyI32 ∧ b = TyI32 ∧ ty = TyI32))
  ∧ (∀ a b ty, k ∈ LOGICAL_KINDS →
       admitted_binary k a b = Some ty ↔
       (a = TyInt ∧ b = TyInt ∧ ty = TyInt) ∨ (a = TyI32 ∧ b = TyI32 ∧ ty = TyI32)
       ∨ (a = TyBool ∧ b = TyBool ∧ ty = TyBool)).
Proof.
  intros Hl Hr Hlty Hrty lhsTy rhsTy. split_and!.
  - unfold checkBinary.
    rewrite (bind_run _ _ _ _ _ Hl), (bind_run _ _ _ _ _ Hr).
    rewrite (bind_run _ _ _ _ _ (resolve_ty_of_run _ _ _ Hlty)).
    rewrite (bind_run _ _ _ _ _ (resolve_ty_of_run _ _ _ Hrty)).
    rewrite (bind_run _ _ _ _ _ (ty_of_with_ty _ _ _)).
    rewrite (bind_run _ _ _ _ _ (ty_of_with_ty _ _ _)).
    fold lhsTy rhsTy. unfold admitted_binary.
    destruct k;
      repeat match goal with
             | |- context [includes ?l ?k] =>
                 let b := eval vm_compute in (includes l k) in
                 change (includes l k) with b
             end;
      destruct lhsTy, rhsTy; cbn; eauto;
      by (do 2 eexists; split; [reflexivity|]).
  - intros a b ty Hk. unfold admitted_binary.
    assert (includes COMPARISON_KINDS k = false) as ->.
    { apply bool_decide_eq_false_2. set_solver. }
    assert (includes LOGICAL_KINDS k = false) as ->.
    { apply bool_decide_eq_false_2. set_solver. }
    destruct a, b; naive_solver.
  - intros a b ty Hk. unfold admitted_binary.
    assert (includes COMPARISON_KINDS k = false) as ->.
    { apply bool_decide_eq_false_2. set_solver. }
    assert (includes LOGICAL_KINDS k = true) as ->.
    { by apply bool_decide_eq_true_2. }
    destruct a, b; naive_solver.
Qed.

Lemma checkBinary_table_witness :
  admitted_binary BAnd TyInt TyInt = Some TyInt
  ∧ ∃ fcx',
      checkBinary (env:=example_env0) (checker_expr example_gcx empty_pkg) BAnd
        (mkExpr (KLiteral (LitInt 1 LitInt_Int)) (mkSpan 0 1) None)
        (mkExpr (KLiteral (LitInt 2 LitInt_Int)) (mkSpan 4 5) None)
        (mkSpan 0 5) (example_fcx0 [])
      = Ok (mkExpr (KBinary BAnd
                      (mkExpr (KLiteral (LitInt 1 LitInt_Int)) (mkSpan 0 1) (Some TyInt))
                      (mkExpr (KLiteral (LitInt 2 LitInt_Int)) (mkSpan 4 5) (Some TyInt)))
                   (mkSpan 0 5) (Some TyInt), fcx').
Proof.
  split; [reflexivity|].
  destruct (checkBinary_table (env:=example_env0) (checker_expr example_gcx empty_pkg)
              BAnd
              (mkExpr (KLiteral (LitInt 1 LitInt_Int)) (mkSpan 0 1) None)
              (mkExpr (KLiteral (LitInt 2 LitInt_Int)) (mkSpan 4 5) None)
              (mkSpan 0 5) (example_fcx0 []) (example_fcx0 []) (example_fcx0 [])
              (mkExpr (KLiteral (LitInt 1 LitInt_Int)) (mkSpan 0 1) (Some TyInt))
              (mkExpr (KLiteral (LitInt 2 LitInt_Int)) (mkSpan 4 5) (Some TyInt))
              TyInt TyInt)
    as [(ty & fcx' & Hrun & Hty) _]; [reflexivity..|].
  exists fcx'. cbn in Hty. destruct Hty as [-> _]. exact Hrun.
Defined.

(** ** Frames: what the steps of a computation leave alone *)

Lemma list_all_Forall {A} (P : A → Prop) (l : list A) :
  list_all A P l → Forall P l.
Proof. induction 1; by constructor. Qed.

Lemma option_all_inv {A} (P : A → Prop) (o : option A) :
  option_all A P o → ∀ a, o = Some a → P a.
Proof. destruct 1; naive_solver. Qed.

Section Preserves.
Context {S : Type} (R : S → S → Prop) `{!PreOrder R}.

Lemma preserves_ret {A} (a : A) : preserves R (ret a).
Proof. intros s a' s' [= <- <-]. reflexivity. Qed.

Lemma preserves_throw {A} e : preserves R (throw (A:=A) e).
Proof. by intros s a s'. Qed.

Lemma preserves_gets {A} (f : S → A) : preserves R (gets f).
Proof. intros s a s' [= <- <-]. reflexivity. Qed.

Lemma preserves_modify (f : S → S) : (∀ s, R s (f s)) → preserves R (modify f).
Proof. intros Hf s a s' [= <- <-]. apply Hf. Qed.

Lemma preserves_bind {A B} (m : M S A) (f : A → M S B) :
  preserves R m → (∀ a, preserves R (f a)) → preserves R (bind m f).
Proof.
  intros Hm Hf s b s' (a & s1 & H1 & H2)%bind_Ok.
  etrans; [by eapply Hm|by eapply Hf].
Qed.

Lemma preserves_mapM {A B} (f : A → M S B) (xs : list A) :
  Forall (λ x, preserves R (f x)) xs → preserves R (mapM f xs).
Proof.
  induction 1 as [|x xs Hx _ IH]; cbn [mapM]; [apply preserves_ret|].
  apply preserves_bind; [done|]. intros y.
  apply preserves_bind; [done|]. intros ys. apply preserves_ret.
Qed.

Lemma preserves_forEachM {A} (f : A → M S unit) (xs : list A) :
  Forall (λ x, preserves R (f x)) xs → preserves R (forEachM f xs).
Proof.
  induction 1 as [|x xs Hx _ IH]; cbn [forEachM]; [apply preserves_ret|].
  by apply preserves_bind.
Qed.

Lemma preserves_optM {A B} (f : A → M S B) (o : option A) :
  (∀ a, o = Some a → preserves R (f a)) → preserves R (optM f o).
Proof.
  destruct o as [a|]; cbn [optM]; intros Hf; [|apply preserves_ret].
  apply preserves_bind; [by apply Hf|]. intros b. apply preserves_ret.
Qed.
End Preserves.

(** ** The body checker keeps the loop stack balanced *)

Section CheckerFrame.
Context `{env : TypeckEnv} (gcx : GlobalContext) (ast : Pkg).

#[local] Instance fcx_frame_preorder : PreOrder fcx_frame.
Proof.
  split.
  - by intros a.
  - intros a b c (? & ? & ?) (? & ? & ?). split_and!; [congruence|lia|by etrans].
Qed.

Lemma frame_ret {A} (a : A) : preserves fcx_frame (ret a).
Proof. apply preserves_ret, _. Qed.

Lemma frame_gets {A} (f : FuncCtx → A) : preserves fcx_frame (gets f).
Proof. apply preserves_gets, _. Qed.

Lemma frame_bind {A B} (m : M FuncCtx A) (f : A → M FuncCtx B) :
  preserves fcx_frame m → (∀ a, preserves fcx_frame (f a)) →
  preserves fcx_frame (bind m f).
Proof. apply preserves_bind, _. Qed.

Lemma frame_mapM {A B} (f : A → M FuncCtx B) (xs : list A) :
  Forall (λ x, preserves fcx_frame (f x)) xs → preserves fcx_frame (mapM f xs).
Proof. apply preserves_mapM, _. Qed.

Lemma frame_optM {A B} (f : A → M FuncCtx B) (o : option A) :
  (∀ a, o = Some a → preserves fcx_frame (f a)) → preserves fcx_frame (optM f o).
Proof. apply preserves_optM, _. Qed.

Lemma frame_emitError err : preserves fcx_frame (emitError err).
Proof.
  intros s a s' H. cbv [emitError bind modify ret] in H. simplify_eq.
  split_and!; [done..|]. by apply prefix_app_r.
Qed.

Lemma frame_tyError err : preserves fcx_frame (tyError err).
Proof.
  apply frame_bind; [apply frame_emitError|]. intros. apply frame_ret.
Qed.

Lemma frame_newVar : preserves fcx_frame newVar.
Proof.
  intros s a s' H. cbv [newVar bind modify gets ret] in H. simplify_eq.
  split_and!; cbn; [done|lia|done].
Qed.

Lemma frame_assign expected actual span :
  preserves fcx_frame (assign expected actual span).
Proof.
  intros s a s' H. cbv [assign modify] in H. simplify_eq.
  destruct subst_assign as [subst' errs].
  split_and!; cbn; [done..|]. by apply prefix_app_r.
Qed.

Lemma frame_resolveIfPossible ty : preserves fcx_frame (resolveIfPossible ty).
Proof. apply frame_gets. Qed.

Lemma frame_typeOfItem id args span : preserves fcx_frame (typeOfItem id args span).
Proof.
  intros s a s'. unfold typeOfItem. destruct item_typeOfItem as [[ty errs] tys].
  intros [= <- <-]. split_and!; cbn; [done..|]. by apply prefix_app_r.
Qed.

Lemma frame_lowerAstTy type : preserves fcx_frame (lowerAstTy type).
Proof.
  intros s a s'. unfold lowerAstTy. destruct item_lowerAstTy as [[ty errs] tys].
  intros [= <- <-]. split_and!; cbn; [done..|]. by apply prefix_app_r.
Qed.

Lemma frame_ty_of e : preserves fcx_frame (ty_of e).
Proof.
  unfold ty_of. destruct (expr_ty e); [apply frame_ret|apply preserves_throw].
Qed.

Lemma frame_set_localTys (f : FuncCtx → list Ty) :
  preserves fcx_frame (modify (λ fcx, set_localTys (f fcx) fcx)).
Proof. apply preserves_modify. by intros s. Qed.

(** Closes a goal [preserves fcx_frame m] when [m] is built from steps
    that are known to respect the frame. *)
Ltac frame :=
  repeat first
    [ assumption
    | apply frame_ret
    | apply preserves_throw
    | apply frame_gets
    | apply frame_emitError
    | apply frame_tyError
    | apply frame_newVar
    | apply frame_assign
    | apply frame_resolveIfPossible
    | apply frame_typeOfItem
    | apply frame_lowerAstTy
    | apply frame_ty_of
    | apply frame_set_localTys
    | apply frame_bind; [|intros]
    | apply frame_optM; intros ? ?
    | match goal with
      | |- preserves _ (match ?x with _ => _ end) => destruct x
      | |- preserves _ (if ?x then _ else _) => destruct x
      | |- preserves _ (let '(_, _) := ?x in _) => destruct x
      end ].

Lemma frame_typeOfBuiltinValue name span :
  preserves fcx_frame (typeOfBuiltinValue name span).
Proof. unfold typeOfBuiltinValue. frame. Qed.

Lemma frame_typeOfValue res span : preserves fcx_frame (typeOfValue res span).
Proof. destruct res; cbn [typeOfValue]; frame; apply frame_typeOfBuiltinValue. Qed.

Lemma frame_resolve_ty_of e : preserves fcx_frame (resolve_ty_of e).
Proof. unfold resolve_ty_of. frame. Qed.

Lemma frame_checkUnary k span rhs : preserves fcx_frame (checkUnary k span rhs).
Proof. unfold checkUnary. frame. Qed.

Lemma frame_checkCall_params span params args i :
  preserves fcx_frame (checkCall_params span params args i).
Proof.
  revert i. induction params as [|p params IH]; intros i; cbn [checkCall_params]; frame.
  apply IH.
Qed.

Lemma frame_checkLValue e : preserves fcx_frame (checkLValue e).
Proof.
  induction e as [k IH span ty| | | | | | | | | | | | | | | | | | |]
    using Expr_mind
    with (P0 := λ k, ∀ span ty, preserves fcx_frame (checkLValue (mkExpr k span ty)))
         (P1 := λ _, True); try done; intros; cbn [checkLValue]; frame.
Qed.

Lemma frame_check_assign_res res span :
  preserves fcx_frame (check_assign_res gcx ast res span).
Proof. unfold check_assign_res. frame. Qed.

Lemma frame_fieldAccess_ty lhs_span span lhsTy field :
  preserves fcx_frame (fieldAccess_ty lhs_span span lhsTy field).
Proof. unfold fieldAccess_ty. frame. Qed.

Lemma frame_check_structLiteral_field n fields f :
  preserves fcx_frame (check_structLiteral_field n fields f).
Proof. unfold check_structLiteral_field. frame. Qed.

Lemma frame_is_transmute lhs : preserves fcx_frame (is_transmute lhs).
Proof. unfold is_transmute. frame. Qed.

Lemma frame_checkBinary checkExpr k lhs rhs span :
  preserves fcx_frame (checkExpr lhs) → preserves fcx_frame (checkExpr rhs) →
  preserves fcx_frame (checkBinary checkExpr k lhs rhs span).
Proof. intros Hl Hr. unfold checkBinary. frame; apply frame_resolve_ty_of. Qed.

Lemma frame_checkCall checkExpr lhs args span :
  preserves fcx_frame (checkExpr lhs) →
  Forall (λ a, preserves fcx_frame (checkExpr a)) args →
  preserves fcx_frame (checkCall checkExpr lhs args span).
Proof.
  intros Hl Hargs. unfold checkCall.
  apply frame_bind; [apply frame_is_transmute|]. intros [].
  - frame. by apply frame_mapM.
  - apply frame_bind; [done|]. intros.
    apply frame_bind; [apply frame_resolve_ty_of|]. intros.
    apply frame_bind; [by apply frame_mapM|]. intros.
    frame; apply frame_checkCall_params.
Qed.

Lemma frame_set_loopState_same (f : FuncCtx → list LoopState) :
  (∀ fcx, length (f fcx) = length (loopState fcx)) →
  preserves fcx_frame (modify (λ fcx, set_loopState (f fcx) fcx)).
Proof.
  intros Hf. apply preserves_modify. intros s. split_and!; cbn; [apply Hf|done..].
Qed.

(** Every case of the checker respects the frame. *)
Lemma frame_checker_expr e : preserves fcx_frame (checker_expr gcx ast e).
Proof.
  induction e as [k IH span ty
    | |name type rhs IHrhs local|lhs IHl rhs IHr|exprs IHs locals|value|value
    |segments res|k lhs IHl rhs IHr|k rhs IHr|lhs IHl args IHargs
    |lhs IHl field|cond IHc then_ IHt else_ IHe|body IHb loopId|target
    |name fields IHf|fields IHf| |err
    |name expr IHe fieldIdx]
    using Expr_mind
    with (P0 := λ k, ∀ span ty, preserves fcx_frame (checker_expr gcx ast (mkExpr k span ty)))
         (P1 := λ f, let '(mkStructLiteralField _ expr _) := f in
                     preserves fcx_frame (checker_expr gcx ast expr));
    try done; intros span ty; cbn [checker_expr].
  - (* empty *) frame.
  - (* let *) frame.
  - (* assign *)
    frame; first [apply frame_check_assign_res|apply frame_checkLValue].
  - (* block *)
    apply list_all_Forall in IHs.
    apply frame_bind; [frame|]. intros.
    apply frame_bind; [by apply frame_mapM|]. intros.
    frame.
  - (* literal *) frame.
  - (* ident *) frame. apply frame_typeOfValue.
  - (* path *) frame. apply frame_typeOfValue.
  - (* binary *) by apply frame_checkBinary.
  - (* unary *) frame; first [apply frame_resolve_ty_of|apply frame_checkUnary].
  - (* call *) apply frame_checkCall; [done|by apply list_all_Forall].
  - (* fieldAccess *)
    frame; first [apply frame_resolve_ty_of|apply frame_fieldAccess_ty].
  - (* if *)
    apply frame_bind; [done|]. intros.
    apply frame_bind; [done|]. intros.
    apply frame_bind; [apply frame_optM; by apply option_all_inv|].
    intros. frame.
  - (* loop *)
    intros s e' s' (? & s1 & Hpush & H)%bind_Ok.
    apply bind_Ok in H as (body' & s2 & Hbody%IHb & H).
    apply bind_Ok in H as (bty & s3 & Hty%frame_ty_of & H).
    apply bind_Ok in H as (? & s4 & Hassign%frame_assign & H).
    cbv [bind gets modify ret] in Hpush, H. simplify_eq.
    destruct Hbody as (Hlen2 & ? & ?), Hty as (Hlen3 & ? & ?),
      Hassign as (Hlen4 & ? & ?).
    cbn in *. rewrite length_app in Hlen2. cbn in Hlen2.
    split_and!; cbn; [|lia|by repeat (etrans; [eassumption|])].
    destruct (loopState s4) as [|l ls] using rev_ind; [cbn in *; lia|].
    rewrite removelast_last. rewrite length_app in Hlen4. cbn in Hlen4. lia.
  - (* break *)
    intros s e' s' (ls & s1 & Hget & H)%bind_Ok.
    cbv [gets] in Hget. simplify_eq.
    destruct (last (loopState s1)) as [top|] eqn:Hlast.
    + cbv [bind modify ret] in H. simplify_eq.
      split_and!; cbn; [|done..].
      destruct (loopState s1) as [|l ls] using rev_ind; [done|].
      by rewrite removelast_last, !length_app.
    + revert H. apply frame_bind; [apply frame_emitError|]. intros. apply frame_ret.
  - (* structLiteral *)
    apply list_all_Forall in IHf.
    apply frame_bind.
    { apply frame_mapM. eapply Forall_impl; [exact IHf|].
      intros [n e i] He. frame. }
    intros fields'. frame; first [apply frame_typeOfValue|idtac].
    all: try (apply frame_mapM, Forall_forall; intros;
              apply frame_check_structLiteral_field).
  - (* tupleLiteral *)
    apply list_all_Forall in IHf.
    apply frame_bind; [by apply frame_mapM|]. intros.
    apply frame_bind; [|intros; apply frame_ret].
    apply frame_mapM, Forall_forall. intros. apply frame_ty_of.
  - (* error; the asm case raises *) apply frame_ret.
Qed.
End CheckerFrame.

(** ** C1: the type of a loop *)

(** C1: whenever the checker returns from a [loop], the type it assigned
    is unit, whether or not the body contained a [break]: [loopState.pop()]
    hands back the record pushed on entry, and the test [hadBreak ? ... :
    ...] is on that record, not on its [hasBreak] field.  The type [never]
    is not assigned to any loop. *)
Theorem loop_ty_always_unit `{env : TypeckEnv} (gcx : GlobalContext) (ast : Pkg)
    (body : Expr) (loopId : nat) (span : Span) (ty : option Ty)
    (fcx fcx' : FuncCtx) (e' : Expr) :
  checker_expr gcx ast (mkExpr (KLoop body loopId) span ty) fcx = Ok (e', fcx') →
  expr_ty e' = Some TY_UNIT ∧ expr_ty e' ≠ Some TY_NEVER.
Proof.
  cbn [checker_expr].
  intros (? & s1 & Hpush & H)%bind_Ok.
  apply bind_Ok in H as (body' & s2 & Hbody%frame_checker_expr & H).
  apply bind_Ok in H as (bty & s3 & Hty%frame_ty_of & H).
  apply bind_Ok in H as (? & s4 & Hassign%frame_assign & H).
  cbv [bind gets modify ret] in Hpush, H. simplify_eq.
  destruct Hbody as (Hlen2 & _), Hty as (Hlen3 & _), Hassign as (Hlen4 & _).
  cbn in Hlen2. rewrite length_app in Hlen2. cbn in Hlen2.
  destruct (loopState s4) as [|l ls _] using rev_ind; [cbn in *; lia|].
  by rewrite last_snoc.
Qed.

Lemma loop_ty_always_unit_witness :
  pkg_body (example_resolve example_loop_items) 0 = example_loop_body
  ∧ checker_expr example_gcx (example_resolve example_loop_items) example_loop_body
      (example_fcx0 [])
    = Ok (example_loop_checked, example_loop_fcx)
  ∧ expr_ty example_loop_checked = Some TY_UNIT
  ∧ expr_ty example_loop_checked ≠ Some TY_NEVER.
Proof.
  split; [vm_compute; reflexivity|]. split; [vm_compute; reflexivity|].
  apply (loop_ty_always_unit (env:=example_env0) example_gcx
           (example_resolve example_loop_items) example_loop_block 0 (mkSpan 18 22)
           None (example_fcx0 []) example_loop_fcx example_loop_checked).
  vm_compute; reflexivity.
Defined.

(** ** The type of [__NULL] *)

Lemma typeOfBuiltinValue_NULL `{env : TypeckEnv} span fcx :
  typeOfBuiltinValue "__NULL" span fcx
  = Ok (TyRawptr (TyVar (tyVars (infcx fcx))),
        set_infcx (mkInferContext (S (tyVars (infcx fcx))) (subst (infcx fcx))) fcx).
Proof. reflexivity. Qed.


(** ** C2: who aborts and who reports *)

Section ThrowsOnly.
Context {S : Type} (P : Exn → Prop).

Lemma throws_only_ret {A} (a : A) : throws_only (S:=S) P (ret a).
Proof. by intros s e. Qed.

Lemma throws_only_gets {A} (f : S → A) : throws_only P (gets f).
Proof. by intros s e. Qed.

Lemma throws_only_modify (f : S → S) : throws_only P (modify f).
Proof. by intros s e. Qed.

Lemma throws_only_throw {A} e : P e → throws_only (S:=S) (A:=A) P (throw e).
Proof. by intros He s e' [= <-]. Qed.

Lemma throws_only_bind {A B} (m : M S A) (f : A → M S B) :
  throws_only P m → (∀ a, throws_only P (f a)) → throws_only P (bind m f).
Proof.
  intros Hm Hf s e [H|(a & s' & _ & H)]%bind_Throw; [by eapply Hm|by eapply Hf].
Qed.

Lemma throws_only_mapM {A B} (f : A → M S B) (xs : list A) :
  Forall (λ x, throws_only P (f x)) xs → throws_only P (mapM f xs).
Proof.
  induction 1 as [|x xs Hx _ IH]; cbn [mapM]; [apply throws_only_ret|].
  apply throws_only_bind; [done|]. intros y.
  apply throws_only_bind; [done|]. intros ys. apply throws_only_ret.
Qed.

Lemma throws_only_optM {A B} (f : A → M S B) (o : option A) :
  (∀ a, o = Some a → throws_only P (f a)) → throws_only P (optM f o).
Proof.
  destruct o as [a|]; cbn [optM]; intros Hf; [|apply throws_only_ret].
  apply throws_only_bind; [by apply Hf|]. intros b. apply throws_only_ret.
Qed.
End ThrowsOnly.

Section CheckerThrows.
Context `{env : TypeckEnv} (gcx : GlobalContext) (ast : Pkg).

Lemma is_TypeError_intro msg : is_TypeError (ThrowTypeError msg).
Proof. by exists msg. Qed.

Lemma nothrow_assign expected actual span :
  throws_only is_TypeError (assign expected actual span).
Proof. apply throws_only_modify. Qed.

Lemma nothrow_typeOfItem id args span :
  throws_only is_TypeError (typeOfItem id args span).
Proof. intros s e. unfold typeOfItem. by destruct item_typeOfItem as [[??]?]. Qed.

Lemma nothrow_lowerAstTy type : throws_only is_TypeError (lowerAstTy type).
Proof. intros s e. unfold lowerAstTy. by destruct item_lowerAstTy as [[??]?]. Qed.

(** Closes a goal [throws_only is_TypeError m] when [m] is built from
    steps that raise nothing but [TypeError]s. *)
Ltac nothrow :=
  repeat first
    [ assumption
    | apply throws_only_ret
    | apply throws_only_gets
    | apply throws_only_modify
    | apply throws_only_throw, is_TypeError_intro
    | apply nothrow_assign
    | apply nothrow_typeOfItem
    | apply nothrow_lowerAstTy
    | apply throws_only_bind; [|intros]
    | apply throws_only_optM; intros ? ?
    | match goal with
      | |- throws_only _ (match ?x with _ => _ end) => destruct x
      | |- throws_only _ (if ?x then _ else _) => destruct x
      end ].


Lemma nothrow_tyError err : throws_only is_TypeError (tyError err).
Proof. unfold tyError, emitError. nothrow. Qed.















End CheckerThrows.

(** The duplicate check of [resolveModule]. *)
Lemma gather_items_Ok contents items m :
  gather_items contents items = Ok m →
  NoDup (map item_name contents)
  ∧ (∀ item, item ∈ contents → items !! item_name item = None).
Proof.
  revert items. induction contents as [|item rest IH]; intros items; cbn.
  { intros _. split; [constructor|]. by intros ? ?%elem_of_nil. }
  destruct (items !! item_name item) eqn:Hitem; [done|].
  intros [Hnodup Hfresh]%IH. split.
  - constructor; [|done]. intros (item' & Heq & Hin)%list_elem_of_fmap.
    specialize (Hfresh item' Hin). rewrite <- Heq in Hfresh.
    by rewrite lookup_insert_eq in Hfresh.
  - intros item' [->|Hin]%elem_of_cons; [done|].
    specialize (Hfresh item' Hin).
    destruct (decide (item_name item = item_name item')) as [Heq|Hne].
    + rewrite Heq in Hfresh. by rewrite lookup_insert_eq in Hfresh.
    + by rewrite lookup_insert_ne in Hfresh.
Qed.

Lemma gather_items_Throw contents items e :
  gather_items contents items = Throw e →
  ∃ item, item ∈ contents
          ∧ e = ThrowCompilerError (mkCompilerError
                  ("item `" +:+ item_name item +:+ "` has already been declared")
                  (item_span item)).
Proof.
  revert items. induction contents as [|item rest IH]; intros items; cbn; [done|].
  destruct (items !! item_name item).
  - intros [= <-]. exists item. split; [by left|done].
  - intros (item' & Hin & ->)%IH. exists item'. split; [by right|done].
Qed.





(** ** C8: the builder's identifiers and the validator *)

Lemma b_loops_0 st : b_loops 0 st = st.
Proof. destruct st as [? [l] ?]. unfold b_loops. cbn. by rewrite Nat.add_0_r. Qed.

Lemma b_loops_add n m st : b_loops m (b_loops n st) = b_loops (n + m) st.
Proof. unfold b_loops. cbn. by rewrite Nat.add_assoc. Qed.

Lemma bind_assoc {S A B C} (m : M S A) (f : A → M S B) (g : B → M S C) s :
  bind (bind m f) g s = bind m (λ a, bind (f a) g) s.
Proof. unfold bind. by destruct (m s) as [[??]|]. Qed.

Lemma optM_ret {S A} (o : option A) (s : S) : optM ret o s = Ok (o, s).
Proof. by destruct o. Qed.

Lemma assigner_exprs_ok (es : list Expr) :
  Forall assigner_expr_ok es →
  ∀ st, ∃ es' st',
    mapM assigner_expr es st = Ok (es', st')
    ∧ st' = b_loops (length (flat_map expr_loopIds es)) st
    ∧ flat_map expr_loopIds es'
      = seq (ids_counter (b_loopId st)) (length (flat_map expr_loopIds es)).
Proof.
  induction 1 as [|e es He _ IH]; intros st; cbn [mapM].
  { exists [], st. by rewrite b_loops_0. }
  destruct (He st) as (e' & st1 & Hrun & -> & Hids).
  rewrite (bind_run _ _ _ _ _ Hrun).
  destruct (IH (b_loops (length (expr_loopIds e)) st)) as (es' & st2 & Hrun' & -> & Hids').
  rewrite (bind_run _ _ _ _ _ Hrun').
  eexists _, _. split; [reflexivity|]. cbn.
  rewrite b_loops_add, length_app, seq_app, Hids, Hids'. done.
Qed.

(** Runs the next sub-expression of the goal with its induction
    hypothesis. *)
Ltac run_expr IH :=
  match goal with
  | |- context [bind (assigner_expr _) _ ?s] =>
      let e' := fresh "e'" in
      let st' := fresh "st'" in
      let Hrun := fresh "Hrun" in
      let Hids := fresh "Hids" in
      destruct (IH s) as (e' & st' & Hrun & -> & Hids);
      rewrite (bind_run _ _ _ _ _ Hrun); clear Hrun
  end.

Ltac run_exprs IH :=
  match goal with
  | |- context [bind (mapM assigner_expr _) _ ?s] =>
      let es' := fresh "es'" in
      let st' := fresh "st'" in
      let Hrun := fresh "Hrun" in
      let Hids := fresh "Hids" in
      destruct (assigner_exprs_ok _ IH s) as (es' & st' & Hrun & -> & Hids);
      rewrite (bind_run _ _ _ _ _ Hrun); clear Hrun
  end.

Ltac finish_expr :=
  eexists _, _; split; [reflexivity|]; cbn;
  rewrite ?app_nil_r, ?b_loops_add, ?b_loops_0, ?length_app, ?seq_app, ?Nat.add_assoc;
  split; [try done; f_equal; lia|]; repeat f_equal; try done.

Lemma assigner_expr_spec e : assigner_expr_ok e.
Proof.
  induction e as [k IH span ty
    | |name type rhs IHrhs local|lhs IHl rhs IHr|exprs IHs locals|value|value
    |segments res|k lhs IHl rhs IHr|k rhs IHr|lhs IHl args IHargs
    |lhs IHl field|cond IHc then_ IHt else_ IHe|body IHb loopId|target
    |name fields IHf|fields IHf| |err
    |name expr IHe fieldIdx]
    using Expr_mind
    with (P0 := λ k, ∀ span ty, assigner_expr_ok (mkExpr k span ty))
         (P1 := λ f, let '(mkStructLiteralField _ expr _) := f in
                     assigner_expr_ok expr);
    try done; intros span ty st; cbn [assigner_expr expr_kind superFoldExpr f_expr
      f_ident f_type assigner_folder expr_loopIds].
  - (* empty *) finish_expr.
  - (* let *)
    rewrite (bind_run _ _ _ _ _ (optM_ret _ _)).
    run_expr IHrhs. finish_expr.
  - (* assign *) run_expr IHl. run_expr IHr. finish_expr.
  - (* block *) apply list_all_Forall in IHs. run_exprs IHs. finish_expr.
  - (* literal *) finish_expr.
  - (* ident *) finish_expr.
  - (* path *) finish_expr.
  - (* binary *) run_expr IHl. run_expr IHr. finish_expr.
  - (* unary *) run_expr IHr. finish_expr.
  - (* call *)
    apply list_all_Forall in IHargs. run_expr IHl. run_exprs IHargs. finish_expr.
  - (* fieldAccess *) run_expr IHl. finish_expr.
  - (* if *)
    run_expr IHc. run_expr IHt.
    destruct IHe as [else_ IHe|].
    + match goal with
      | |- context [bind (optM _ _) _ ?s] =>
          destruct (IHe s) as (e3 & st3 & Hrun3 & -> & Hids3);
          assert (optM assigner_expr (Some else_) s
                  = Ok (Some e3, b_loops (length (expr_loopIds else_)) s)) as Hopt
            by (cbn [optM]; by rewrite (bind_run _ _ _ _ _ Hrun3));
          rewrite (bind_run _ _ _ _ _ Hopt)
      end.
      finish_expr.
    + cbn [optM]. rewrite !app_nil_r. finish_expr.
  - (* loop *)
    rewrite bind_assoc. run_expr IHb. unfold bind, next_loopId, ret. cbn.
    eexists _, _; split; [reflexivity|]. cbn.
    rewrite length_app, seq_app, Hids. cbn.
    split; [|done]. unfold b_loops. cbn. do 2 f_equal. lia.
  - (* break *) finish_expr.
  - (* structLiteral *)
    apply list_all_Forall in IHf. unfold bind at 1, ret at 1.
    assert (∀ st, ∃ fs' st',
      mapM (λ f, let '(mkStructLiteralField name0 expr _) := f in
                 let* expr' := assigner_expr expr in
                 ret (mkStructLiteralField name0 expr' None)) fields st
      = Ok (fs', st')
      ∧ st' = b_loops (length (flat_map (λ f, let '(mkStructLiteralField _ expr _) := f in
                                              expr_loopIds expr) fields)) st
      ∧ flat_map (λ f, let '(mkStructLiteralField _ expr _) := f in
                       expr_loopIds expr) fs'
        = seq (ids_counter (b_loopId st))
              (length (flat_map (λ f, let '(mkStructLiteralField _ expr _) := f in
                                      expr_loopIds expr) fields))) as Hfields.
    { clear st. induction IHf as [|[n e i] fs He _ IH]; intros st; cbn [mapM].
      { exists [], st. by rewrite b_loops_0. }
      rewrite bind_assoc. run_expr He. unfold bind at 1, ret at 1.
      destruct (IH (b_loops (length (expr_loopIds e)) st))
        as (fs' & st2 & Hrun' & -> & Hids').
      rewrite (bind_run _ _ _ _ _ Hrun').
      eexists _, _. split; [reflexivity|]. cbn.
      rewrite b_loops_add, length_app, seq_app, Hids, Hids'. done. }
    destruct (Hfields st) as (fs' & st' & Hrun & -> & Hids).
    rewrite (bind_run _ _ _ _ _ Hrun). finish_expr.
  - (* tupleLiteral *) apply list_all_Forall in IHf. run_exprs IHf. finish_expr.
  - (* asm *) finish_expr.
  - (* error *) finish_expr.
Qed.

Lemma mapM_pure {S A B} (f : A → M S B) (xs : list A) (s : S) :
  (∀ x s, ∃ y, f x s = Ok (y, s)) → ∃ ys, mapM f xs s = Ok (ys, s).
Proof.
  intros Hf. induction xs as [|x xs [ys IH]]; cbn [mapM]; [by exists []|].
  destruct (Hf x s) as [y Hy]. rewrite (bind_run _ _ _ _ _ Hy).
  rewrite (bind_run _ _ _ _ _ IH). by eexists.
Qed.

Lemma foldArgs_assigner item expr params st :
  ∃ params', foldArgs (assigner_folder item expr) params st = Ok (params', st).
Proof. apply mapM_pure. intros. by eexists. Qed.

Lemma assigner_items_ok pkgId (items : list Item) :
  Forall (assigner_item_ok pkgId) items →
  ∀ st, ∃ items' st',
    mapM (assigner_item pkgId) items st = Ok (items', st')
    ∧ b_counters st' = (ids_counter (b_itemId st) + length (flat_map items_of items),
                        ids_counter (b_loopId st) + length (flat_map item_loopIds items))
    ∧ map item_id (flat_map items_of items')
      = map (mkItemId pkgId)
            (seq (ids_counter (b_itemId st)) (length (flat_map items_of items)))
    ∧ flat_map item_loopIds items'
      = seq (ids_counter (b_loopId st)) (length (flat_map item_loopIds items)).
Proof.
  induction 1 as [|item items Hitem _ IH]; intros st; cbn [mapM].
  { exists [], st. unfold b_counters. cbn. by rewrite !Nat.add_0_r. }
  destruct (Hitem st) as (item' & st1 & Hrun & Hc & Hids & Hloops).
  rewrite (bind_run _ _ _ _ _ Hrun).
  destruct (IH st1) as (items' & st2 & Hrun' & Hc' & Hids' & Hloops').
  rewrite (bind_run _ _ _ _ _ Hrun').
  injection Hc as Hci Hcl. rewrite Hci, Hcl in *.
  eexists _, _. split; [reflexivity|]. cbn [flat_map].
  rewrite !length_app, !seq_app, !map_app, Hids, Hids', Hloops, Hloops', Hc'.
  split_and!; [f_equal; lia|done..].
Qed.

Lemma assigner_item_spec pkgId item : assigner_item_ok pkgId item.
Proof.
  induction item as [k IH span id name defPath
    |params body returnType ty|genericParams type ty
    |module func params returnType ty|contents IHc| |type init ty
    |segments res|err]
    using Item_mind
    with (P0 := λ k, ∀ span id name defPath,
                  assigner_item_ok pkgId (mkItem k span id name defPath));
    try done; intros span id name defPath st;
    cbn [assigner_item]; unfold defaultFolder_item;
    rewrite bind_assoc; unfold bind at 1, next_itemId at 1; cbn [Ids_next];
    cbn [superFoldItem f_item f_expr f_type assigner_folder].
  - (* function *)
    rewrite !bind_assoc.
    match goal with
    | |- context [bind (foldArgs _ _) _ ?s] =>
        destruct (foldArgs_assigner (assigner_item pkgId) assigner_expr params s)
          as [args1 Hargs]
    end.
    rewrite (bind_run _ _ _ _ _ Hargs); cbv beta; rewrite ?bind_assoc.
    match goal with
    | |- context [bind (assigner_expr body) _ ?s] =>
        destruct (assigner_expr_spec body s) as (body' & st1 & Hrun & -> & Hids)
    end.
    rewrite (bind_run _ _ _ _ _ Hrun); cbv beta; rewrite ?bind_assoc.
    rewrite (bind_run _ _ _ _ _ (optM_ret _ _)); cbv beta.
    eexists _, _. split; [reflexivity|]. cbn.
    unfold b_counters. cbn. rewrite Hids. split_and!; [f_equal; lia|done..].
  - (* type *)
    rewrite !bind_assoc.
    assert (∀ s : BuildState, ∃ type',
              match type with
              | TDStruct fields =>
                  let* fields' := mapM (λ fd, let* t := ret (fd_type fd) in
                                              ret (mkFieldDef (fd_name fd) t)) fields in
                  ret (TDStruct fields')
              | TDAlias t => let* t' := ret t in ret (TDAlias t')
              end s = Ok (type', s)) as Htype.
    { intros s. destruct type as [fields|t]; [|by eexists].
      destruct (mapM_pure (λ fd, let* t := ret (fd_type fd) in
                                 ret (mkFieldDef (fd_name fd) t)) fields s)
        as [fields' Hf]; [intros; by eexists|].
      rewrite (bind_run _ _ _ _ _ Hf). by eexists. }
    match goal with
    | |- context [bind _ _ ?s] => destruct (Htype s) as [type' Hrun]
    end.
    rewrite (bind_run _ _ _ _ _ Hrun).
    eexists _, _. split; [reflexivity|]. cbn.
    unfold b_counters. cbn. split_and!; [f_equal; lia|done..].
  - (* import *)
    rewrite !bind_assoc.
    match goal with
    | |- context [bind (foldArgs _ _) _ ?s] =>
        destruct (foldArgs_assigner (assigner_item pkgId) assigner_expr params s)
          as [args1 Hargs]
    end.
    rewrite (bind_run _ _ _ _ _ Hargs); cbv beta; rewrite ?bind_assoc.
    rewrite (bind_run _ _ _ _ _ (optM_ret _ _)); cbv beta.
    eexists _, _. split; [reflexivity|]. cbn.
    unfold b_counters. cbn. split_and!; [f_equal; lia|done..].
  - (* mod *)
    apply list_all_Forall in IHc. rewrite !bind_assoc.
    match goal with
    | |- context [bind (mapM _ contents) _ ?s] =>
        destruct (assigner_items_ok pkgId contents IHc s)
          as (contents' & st1 & Hrun & Hc & Hids & Hloops)
    end.
    rewrite (bind_run _ _ _ _ _ Hrun).
    eexists _, _. split; [reflexivity|]. cbn.
    injection Hc as Hci Hcl. cbn in Hci, Hcl, Hids, Hloops.
    unfold b_counters. cbn. rewrite Hci, Hcl, Hids, Hloops.
    split_and!; [f_equal; lia| |done].
    by f_equal.
  - (* extern *)
    eexists _, _. split; [reflexivity|]. cbn.
    unfold b_counters. cbn. split_and!; [f_equal; lia|done..].
  - (* global *)
    rewrite !bind_assoc. unfold bind at 1, ret at 1. cbv beta iota.
    rewrite ?bind_assoc.
    match goal with
    | |- context [bind (assigner_expr init) _ ?s] =>
        destruct (assigner_expr_spec init s) as (init' & st1 & Hrun & -> & Hids)
    end.
    rewrite (bind_run _ _ _ _ _ Hrun); cbv beta.
    eexists _, _. split; [reflexivity|]. cbn.
    unfold b_counters. cbn. rewrite Hids. split_and!; [f_equal; lia|done..].
  - (* use *)
    eexists _, _. split; [reflexivity|]. cbn.
    unfold b_counters. cbn. split_and!; [f_equal; lia|done..].
  - (* error *)
    eexists _, _. split; [reflexivity|]. cbn.
    unfold b_counters. cbn. split_and!; [f_equal; lia|done..].
Qed.

Lemma buildPkg_spec name parsed pkgId file fatal :
  ∃ built,
    buildPkg name parsed pkgId file fatal = Ok built
    ∧ pkg_id built = pkgId
    ∧ pkg_itemIds built
      = map (mkItemId pkgId) (seq 1 (length (flat_map items_of parsed)))
    ∧ pkg_loopIds built = seq 0 (length (flat_map item_loopIds parsed)).
Proof.
  unfold buildPkg, foldAst. cbn [Ids_next Ids_new ids_counter].
  destruct (assigner_items_ok pkgId parsed) with
    (st := mkBuildState (mkIds 1) (mkIds 0) ∅)
    as (items' & st' & Hrun & _ & Hids & Hloops).
  { apply Forall_forall. intros. apply assigner_item_spec. }
  cbn [rootItems f_item assigner assigner_folder] in *.
  rewrite (bind_run _ _ _ _ _ Hrun). cbn.
  eexists. split; [reflexivity|]. split; [done|].
  unfold pkg_itemIds, pkg_items, pkg_loopIds. cbn. by rewrite Hids, Hloops.
Qed.

Section Returns.
Context {S : Type} (R : S → S → Prop) `{!PreOrder R}.

Lemma returns_ret {A} (a : A) : returns R (ret a).
Proof. intros s. by exists a, s. Qed.



Lemma returns_bind {A B} (m : M S A) (f : A → M S B) :
  returns R m → (∀ a, returns R (f a)) → returns R (bind m f).
Proof.
  intros Hm Hf s. destruct (Hm s) as (a & s1 & Hrun & HR).
  destruct (Hf a s1) as (b & s2 & Hrun' & HR').
  exists b, s2. split; [by rewrite (bind_run _ _ _ _ _ Hrun)|by etrans].
Qed.

Lemma returns_mapM {A B} (f : A → M S B) (xs : list A) :
  Forall (λ x, returns R (f x)) xs → returns R (mapM f xs).
Proof.
  induction 1 as [|x xs Hx _ IH]; cbn [mapM]; [apply returns_ret|].
  apply returns_bind; [done|]. intros y.
  apply returns_bind; [done|]. intros ys. apply returns_ret.
Qed.

Lemma returns_forEachM {A} (f : A → M S unit) (xs : list A) :
  Forall (λ x, returns R (f x)) xs → returns R (forEachM f xs).
Proof.
  induction 1 as [|x xs Hx _ IH]; cbn [forEachM]; [apply returns_ret|].
  by apply returns_bind.
Qed.

Lemma returns_optM {A B} (f : A → M S B) (o : option A) :
  (∀ a, o = Some a → returns R (f a)) → returns R (optM f o).
Proof.
  destruct o as [a|]; cbn [optM]; intros Hf; [|apply returns_ret].
  apply returns_bind; [by apply Hf|]. intros b. apply returns_ret.
Qed.
End Returns.

#[local] Instance same_seen_preorder : PreOrder same_seen.
Proof. split; [by intros a|]. intros a b c. unfold same_seen. congruence. Qed.

Lemma seen_bind {A B} (m : M ValidateState A) (f : A → M ValidateState B) :
  returns same_seen m → (∀ a, returns same_seen (f a)) → returns same_seen (bind m f).
Proof. apply returns_bind, _. Qed.

Lemma seen_ret {A} (a : A) : returns same_seen (ret a).
Proof. apply returns_ret, _. Qed.

Lemma seen_mapM {A B} (f : A → M ValidateState B) xs :
  Forall (λ x, returns same_seen (f x)) xs → returns same_seen (mapM f xs).
Proof. apply returns_mapM, _. Qed.

Lemma seen_optM {A B} (f : A → M ValidateState B) o :
  (∀ a, o = Some a → returns same_seen (f a)) → returns same_seen (optM f o).
Proof. apply returns_optM, _. Qed.

Lemma seen_emitError err : returns same_seen (v_emitError err).
Proof. intros s. by eexists _, _. Qed.

Lemma seen_checkPrecedence k span inner side :
  returns same_seen (checkPrecedence k span inner side).
Proof.
  unfold checkPrecedence. destruct (expr_kind inner); try apply seen_ret.
  destruct decide; [|apply seen_ret].
  apply seen_bind; [apply seen_emitError|]. intros. apply seen_ret.
Qed.

Ltac seen :=
  repeat first
    [ assumption
    | apply seen_ret
    | apply seen_emitError
    | apply seen_checkPrecedence
    | apply seen_bind; [|intros]
    | apply seen_optM; intros ? ?
    | apply seen_mapM; assumption ].

Lemma validator_exprs_ok es :
  list_all Expr validator_expr_ok es →
  Forall (λ e, returns same_seen (validator_expr e)) es.
Proof. intros H%list_all_Forall. eapply Forall_impl; [exact H|]. by intros ? [? _]. Qed.

Lemma validator_expr_ok_all e : validator_expr_ok e.
Proof.
  induction e as [k IH span ty
    | |name type rhs [IHrhs _] local|lhs [IHl _] rhs [IHr _]|exprs IHs locals
    |value|value
    |segments res|k lhs [IHl _] rhs [IHr _]|k rhs [IHr _]|lhs [IHl _] args IHargs
    |lhs [IHl _] field|cond [IHc _] then_ [IHt _] else_ IHe|body [IHb _] loopId|target
    |name fields IHf|fields IHf| |err
    |name expr IHe fieldIdx]
    using Expr_mind
    with (P0 := λ k, ∀ span ty, validator_expr_ok (mkExpr k span ty))
         (P1 := λ f, let '(mkStructLiteralField _ expr _) := f in
                     validator_expr_ok expr);
    try done; intros span ty; (split; [|try done]);
    cbn [validator_expr superFoldExpr f_expr f_ident f_type validator_folder];
    try (apply list_all_Forall in IHs); seen.
  - (* block *)
    apply (returns_forEachM _), Forall_forall. intros inner Hin.
    rewrite Forall_forall in IHs. destruct (IHs inner Hin) as [Hinner Hrhs].
    destruct inner as [[] ? ?]; seen.
  - (* call *) by apply seen_mapM, validator_exprs_ok.
  - (* if: else *)
    by eapply (option_all_inv _ _ IHe).
  - (* structLiteral *)
    apply list_all_Forall in IHf.
    apply seen_mapM. eapply Forall_impl; [exact IHf|].
    intros [n e i] [He _]. seen.
  - (* tupleLiteral *) by apply seen_mapM, validator_exprs_ok.
Qed.

Lemma validator_expr_returns e : returns same_seen (validator_expr e).
Proof. apply validator_expr_ok_all. Qed.

Lemma validator_item_unfold k span id name defPath st :
  validator_item (mkItem k span id name defPath) st
  = if decide (id ∈ v_seenItemIds st) then
      Throw (ThrowError ("duplicate item id: " +:+ ItemId_toString id
                         +:+ " for " +:+ name))
    else
      match superFoldItem (mkItem k span id name defPath) validator
                          (v_seen_add id st) with
      | Ok (item', st') => Ok (item', v_setItem (item_id item') item' st')
      | Throw e => Throw e
      end.
Proof.
  unfold validator. cbn [validator_item].
  unfold defaultFolder_item, bind, gets, modify, throw, ret. cbn [item_id item_name].
  destruct decide; [done|]. by destruct superFoldItem as [[??]|].
Qed.

Lemma validator_foldArgs_returns params :
  returns same_seen (foldArgs validator params).
Proof.
  apply seen_mapM, Forall_forall. intros a _.
  apply seen_bind; [apply seen_ret|]. intros. apply seen_ret.
Qed.

(** Below an item that is not a module the validator meets no further
    item. *)
Lemma validator_superFoldItem_returns k span id name defPath :
  match k with IMod _ => False | _ => True end →
  returns same_seen (superFoldItem (mkItem k span id name defPath) validator).
Proof.
  destruct k as [params body returnType ty|genericParams type ty
                |module func params returnType ty|contents| |type init ty
                |segments res|err]; try done; intros _;
    cbn [superFoldItem f_item f_expr f_type validator validator_folder];
    seen; try apply validator_foldArgs_returns; try apply validator_expr_returns.
  destruct type as [fields|t]; seen.
  apply seen_mapM, Forall_forall. intros a _. seen.
Qed.

Lemma validator_items_accepts (items : list Item) :
  Forall (λ item, validator_accepts (ids_of item) (validator_item item)) items →
  validator_accepts (flat_map ids_of items) (mapM validator_item items).
Proof.
  induction 1 as [|item items Hitem _ IH]; intros st; cbn [mapM flat_map].
  { cbn. split_and!; [constructor|set_solver|set_solver]. }
  unfold bind. specialize (Hitem st).
  destruct (validator_item item st) as [[item' st1]|e].
  - destruct Hitem as (Hnodup & Hnew & Hseen). specialize (IH st1).
    destruct (mapM validator_item items st1) as [[items' st2]|e].
    + destruct IH as (Hnodup' & Hnew' & Hseen'). cbn.
      rewrite Hseen in Hnew', Hseen'. split_and!.
      * apply NoDup_app. split_and!; [done| |done].
        intros id Hid Hid'. apply (Hnew' id Hid'). set_solver.
      * intros id [Hid|Hid]%elem_of_app; [by apply Hnew|].
        specialize (Hnew' id Hid). set_solver.
      * rewrite Hseen'. set_solver.
    + intros [(Hn1 & Hdisj & Hn2)%NoDup_app Hnew']. apply IH. split; [done|].
      intros id Hid. rewrite Hseen. specialize (Hdisj id).
      specialize (Hnew' id). set_solver.
  - intros [(Hn1 & Hdisj & Hn2)%NoDup_app Hnew']. apply Hitem. split; [done|].
    intros id Hid. apply Hnew'. set_solver.
Qed.

Lemma validator_item_accepts item :
  validator_accepts (ids_of item) (validator_item item).
Proof.
  induction item as [k IH span id name defPath
    |params body returnType ty|genericParams type ty
    |module func params returnType ty|contents IHc| |type init ty
    |segments res|err]
    using Item_mind
    with (P0 := λ k, ∀ span id name defPath,
                  validator_accepts (ids_of (mkItem k span id name defPath))
                    (validator_item (mkItem k span id name defPath)));
    try done; intros span id name defPath st; rewrite validator_item_unfold.
  4: { (* mod *)
    destruct decide as [Hseen|Hnew].
    { intros [_ Hnew]. apply (Hnew id); [by left|done]. }
    apply list_all_Forall, validator_items_accepts in IHc.
    specialize (IHc (v_seen_add id st)).
    cbn [superFoldItem f_item validator validator_folder].
    unfold bind. destruct (mapM validator_item contents _) as [[contents' st1]|e].
    - destruct IHc as (Hnodup & Hnew' & Hseen). cbn in *.
      unfold ids_of. cbn. rewrite flat_map_concat_map, concat_map, map_map,
        <- flat_map_concat_map. fold ids_of. split_and!.
      + constructor; [|done]. intros Hin. apply (Hnew' id Hin). set_solver.
      + intros id' [->|Hin]%elem_of_cons; [done|].
        specialize (Hnew' id' Hin). set_solver.
      + rewrite Hseen. set_solver.
    - unfold ids_of. cbn. rewrite flat_map_concat_map, concat_map, map_map,
        <- flat_map_concat_map. fold ids_of.
      intros [[Hid Hnodup]%NoDup_cons Hnew']. apply IHc. split; [done|].
      intros id' Hin. cbn. specialize (Hnew' id'). set_solver. }
  all: destruct decide as [Hseen|Hnew];
    [intros [_ Hnew]; apply (Hnew id); [by left|done]|].
  all: match goal with
       | |- context [superFoldItem (mkItem ?k ?sp ?i ?n ?d) validator ?s] =>
           destruct (validator_superFoldItem_returns k sp i n d I s)
             as (item' & st1 & -> & Hsame)
       end.
  all: unfold same_seen in Hsame; cbn in *; rewrite Hsame;
    split_and!; [apply NoDup_singleton|set_solver|set_solver].
Qed.

Lemma flat_map_ids_of items : flat_map ids_of items = map item_id (flat_map items_of items).
Proof.
  induction items as [|item items IH]; [done|]. cbn. by rewrite map_app, IH.
Qed.

Lemma validateAst_accepts ast sink :
  (∃ sink', validateAst ast sink = Ok sink') ↔ NoDup (pkg_itemIds ast).
Proof.
  unfold validateAst, foldAst, pkg_itemIds, pkg_items.
  rewrite <- flat_map_ids_of.
  pose proof (validator_items_accepts (rootItems ast)) as Hacc.
  specialize (Hacc (proj2 (Forall_forall _ _) (λ item _, validator_item_accepts item))
                   (mkValidateState ∅ sink ∅)).
  cbn [f_item validator validator_folder]. unfold bind.
  destruct (mapM validator_item (rootItems ast) _) as [[items' st']|e].
  - destruct Hacc as (Hnodup & _). cbn. split; [done|]. by eexists.
  - split; [by intros [? ?]|]. intros Hnodup. destruct Hacc. split; [done|].
    cbn. set_solver.
Qed.

(** C8: the builder returns; listed in visiting order, the items of the
    built package carry the identifiers [(pkgId, 1)], [(pkgId, 2)], ...
    and its loops the identifiers 0, 1, ...; these are pairwise distinct,
    and the built package passes the validator.  The validator accepts a
    package exactly when the item identifiers in it are pairwise
    distinct. *)
Theorem builder_ids_and_validator (name : string) (parsed : list Item)
    (pkgId : nat) (file : LoadedFile) (fatal : option ErrorEmitted) :
  (∃ built,
     buildPkg name parsed pkgId file fatal = Ok built
     ∧ pkg_itemIds built
       = map (mkItemId pkgId) (seq 1 (length (flat_map items_of parsed)))
     ∧ pkg_loopIds built = seq 0 (length (flat_map item_loopIds parsed))
     ∧ NoDup (pkg_itemIds built)
     ∧ NoDup (pkg_loopIds built)
     ∧ (mkItemId pkgId 0 ∉ pkg_itemIds built)
     ∧ (∀ sink, ∃ sink', validateAst built sink = Ok sink'))
  ∧ (∀ ast sink,
       (∃ sink', validateAst ast sink = Ok sink') ↔ NoDup (pkg_itemIds ast)).
Proof.
  split; [|apply validateAst_accepts].
  destruct (buildPkg_spec name parsed pkgId file fatal)
    as (built & Hbuilt & Hid & Hids & Hloops).
  assert (NoDup (pkg_itemIds built)) as Hnodup.
  { rewrite Hids. apply NoDup_fmap_2; [by intros ?? [=]|apply NoDup_seq]. }
  exists built. split_and!; [done..| | | |].
  - done.
  - rewrite Hloops. apply NoDup_seq.
  - rewrite Hids. intros (i & [= <-] & Hin%elem_of_seq)%list_elem_of_fmap. lia.
  - intros sink. by apply validateAst_accepts.
Qed.

(** * The resolver *)

(** Induction on AST types that reaches below the lists of arguments. *)
Lemma Type_nested_ind (P : Type_ → Prop)
    (HIdent : ∀ genericArgs value span,
       Forall P genericArgs → P (TIdent genericArgs value span))
    (HTuple : ∀ elems span, Forall P elems → P (TTuple elems span))
    (HRawptr : ∀ inner span, P inner → P (TRawptr inner span))
    (HNever : ∀ span, P (TNever span))
    (HError : ∀ err span, P (TError err span)) :
  ∀ type, P type.
Proof.
  fix IH 1. intros [args value span|elems span|inner span|span|err span].
  - apply HIdent. induction args as [|a args IHargs]; constructor; [apply IH|done].
  - apply HTuple. induction elems as [|a elems IHelems]; constructor; [apply IH|done].
  - apply HRawptr, IH.
  - apply HNever.
  - apply HError.
Qed.

#[local] Instance locals_ext_preorder : PreOrder locals_ext.
Proof.
  split; [by left|].
  intros a b c [->|(init & top & more & -> & ->)] [->|(init' & top' & more' & Hb & ->)].
  - by left.
  - right. eauto.
  - right. eauto.
  - apply app_inj_tail in Hb as [<- <-]. right.
    exists init, top, (more ++ more'). by rewrite (assoc_L (++)).
Qed.

#[local] Instance r_frame_preorder : PreOrder r_frame.
Proof.
  split.
  - intros a. by split_and!.
  - intros a b c (? & ? & ? & ? & ?) (? & ? & ? & ? & ?).
    split_and!; [by etrans..|congruence].
Qed.

#[local] Instance r_ext_preorder : PreOrder r_ext.
Proof.
  split.
  - intros a. by split_and!.
  - intros a b c (? & ? & ? & ? & ?) (? & ? & ? & ? & ?).
    split_and!; [congruence..|by etrans|by etrans].
Qed.

Lemma r_ext_frame a b : r_ext a b → r_frame a b.
Proof.
  intros (Hs & Hb & ? & ? & ?). split_and!; [by rewrite Hs|by rewrite Hb|done..].
Qed.

Lemma preserves_weaken {S A} (R R' : S → S → Prop) (m : M S A) :
  (∀ a b, R a b → R' a b) → preserves R m → preserves R' m.
Proof. intros HR Hm s a s' H. by eapply HR, Hm. Qed.

Section ResolverFrame.
Context (gcx : GlobalContext) (ast : Pkg) (items : gmap string ItemId).

(** Looking a name up changes nothing. *)
Lemma resolveIdent_state ident : preserves eq (resolveIdent ast items ident).
Proof.
  intros st res st'. unfold resolveIdent, bind, gets, ret, throw.
  repeat case_match; naive_solver.
Qed.

Lemma resolver_ident_state ident : preserves eq (resolver_ident ast items ident).
Proof.
  apply preserves_bind; [apply _|apply resolveIdent_state|].
  intros res. apply preserves_ret, _.
Qed.

Lemma resolver_type_state type : preserves eq (resolver_type ast items type).
Proof.
  induction type as [args value span IH|elems span IH|inner span IH|span|err span]
    using Type_nested_ind; cbn [resolver_type superFoldType f_type f_ident resolver_folder].
  - apply preserves_bind; [apply _|by apply preserves_mapM; [apply _|]|]. intros.
    apply preserves_bind; [apply _|apply resolver_ident_state|]. intros.
    apply preserves_ret, _.
  - apply preserves_bind; [apply _|by apply preserves_mapM; [apply _|]|]. intros.
    apply preserves_ret, _.
  - apply preserves_bind; [apply _|done|]. intros. apply preserves_ret, _.
  - apply preserves_ret, _.
  - apply preserves_ret, _.
Qed.

Lemma crateLoader_ext name span : preserves r_ext (crateLoader gcx name span).
Proof.
  intros st c st'. unfold crateLoader.
  destruct (find _ _); [by intros [= <- <-]|].
  destruct (gcx_loadFresh _ _ _ _) as [deps c']. intros [= <- <-].
  split_and!; [done..| |done]. by apply prefix_app_r.
Qed.

Lemma loadCrate_ext name span : preserves r_ext (loadCrate gcx name span).
Proof.
  apply preserves_bind; [apply _|apply crateLoader_ext|].
  intros c. apply preserves_ret, _.
Qed.

(** A member lookup leaves the module's contents in the cache and answers
    from them; what was cached before stays. *)
Lemma resolveModItem_Ok module name st r st' :
  resolveModItem gcx module name st = Ok (r, st') →
  r_ext st st'
  ∧ ∃ contents, r_modContentsCache st' !! item_id module = Some contents
                ∧ r = contents !! name.
Proof.
  unfold resolveModItem. intros (cache & st0 & [= <- <-] & H)%bind_Ok.
  destruct (r_modContentsCache st !! item_id module) as [cached|] eqn:Hc.
  { injection H as <- <-. split; [done|]. eauto. }
  apply bind_Ok in H as (contents & st1 & H1 & H).
  cbv [bind modify ret] in H. injection H as <- <-.
  assert (r_ext st st1) as (Hs & Hb & Hi & Hf & Hm).
  { destruct (item_kind module); try by eapply loadCrate_ext.
    by injection H1 as <- <-. }
  split.
  - split_and!; cbn; [done..|].
    etrans; [done|]. apply insert_subseteq.
    eapply lookup_weaken_None; [|done]. 
    destruct (r_modContentsCache st1 !! item_id module) eqn:E; [|done].
    (* the entry cannot have appeared while the contents were computed *)
    exfalso. destruct (item_kind module); try (injection H1 as <- <-; congruence).
    all: apply bind_Ok in H1 as (c & st2 & H1 & [= <- <-]);
      unfold crateLoader in H1; destruct (find _ _);
      [|destruct (gcx_loadFresh _ _ _ _)]; injection H1 as <- <-; cbn in E; congruence.
  - exists contents. split; [|done]. cbn. by rewrite lookup_insert_eq.
Qed.

Lemma resolveModItem_cached module name st contents :
  r_modContentsCache st !! item_id module = Some contents →
  resolveModItem gcx module name st = Ok (contents !! name, st).
Proof. intros H. unfold resolveModItem, bind, gets. by rewrite H. Qed.

Lemma resolveModItem_ext module name :
  preserves r_ext (resolveModItem gcx module name).
Proof. intros st r st' H. by apply resolveModItem_Ok in H as [? _]. Qed.

Lemma rframe_ret {A} (a : A) : preserves r_frame (ret a).
Proof. apply preserves_ret, _. Qed.

Lemma rframe_gets {A} (f : ResolveState → A) : preserves r_frame (gets f).
Proof. apply preserves_gets, _. Qed.

Lemma rframe_bind {A B} (m : M ResolveState A) (f : A → M ResolveState B) :
  preserves r_frame m → (∀ a, preserves r_frame (f a)) →
  preserves r_frame (bind m f).
Proof. apply preserves_bind, _. Qed.

Lemma rframe_mapM {A B} (f : A → M ResolveState B) (xs : list A) :
  Forall (λ x, preserves r_frame (f x)) xs → preserves r_frame (mapM f xs).
Proof. apply preserves_mapM, _. Qed.

Lemma rframe_optM {A B} (f : A → M ResolveState B) (o : option A) :
  (∀ a, o = Some a → preserves r_frame (f a)) → preserves r_frame (optM f o).
Proof. apply preserves_optM, _. Qed.

Lemma rframe_eq {A} (m : M ResolveState A) : preserves eq m → preserves r_frame m.
Proof. apply preserves_weaken. by intros a b <-. Qed.

Lemma rframe_ext {A} (m : M ResolveState A) : preserves r_ext m → preserves r_frame m.
Proof. apply preserves_weaken, r_ext_frame. Qed.

Lemma rframe_push_scope name :
  preserves r_frame (modify (λ st, r_set_scopes (r_scopes st ++ [name]) st)).
Proof.
  apply preserves_modify. intros st. split_and!; cbn; [|done..].
  by apply prefix_app_r.
Qed.

Lemma rframe_push_local local : preserves r_frame (blockLocals_push_local local).
Proof.
  intros st [] st'. unfold blockLocals_push_local, bind, gets, modify, throw.
  destruct (last (r_blockLocals st)) as [top|] eqn:Hl; [|done].
  intros [= <-]. split_and!; cbn; [done| |done..].
  right. exists (removelast (r_blockLocals st)), top, [local]. split; [|done].
  destruct (r_blockLocals st) as [|b bl] using rev_ind; [done|].
  rewrite last_snoc in Hl. injection Hl as ->. by rewrite removelast_last.
Qed.

Ltac rframe :=
  repeat first
    [ assumption
    | apply rframe_ret
    | apply preserves_throw
    | apply rframe_gets
    | apply rframe_push_scope
    | apply rframe_push_local
    | apply rframe_eq, resolveIdent_state
    | apply rframe_eq, resolver_ident_state
    | apply rframe_eq, resolver_type_state
    | apply rframe_ext, resolveModItem_ext
    | apply rframe_bind; [|intros]
    | apply rframe_optM; intros ? ?
    | match goal with
      | |- preserves _ (match ?x with _ => _ end) => destruct x
      | |- preserves _ (if ?x then _ else _) => destruct x
      end ].

Lemma rframe_modulePath res segments lhs_span field fallback :
  preserves r_frame fallback →
  preserves r_frame (modulePath gcx ast res segments lhs_span field fallback).
Proof. intros. unfold modulePath. rframe. Qed.

(** A block gives back the scope and block stacks it found. *)
Lemma rframe_block (exprs : list Expr) span :
  Forall (λ e, preserves r_frame (resolver_expr gcx ast items e)) exprs →
  preserves r_frame
    (let* prevScopeLength := gets (λ st, length (r_scopes st)) in
     let* _ := modify (λ st, r_set_blockLocals (r_blockLocals st ++ [[]]) st) in
     let* exprs' := mapM (resolver_expr gcx ast items) exprs in
     let* _ := modify (λ st, r_set_scopes (take prevScopeLength (r_scopes st)) st) in
     let* locals := blockLocals_pop in
     ret (mkExpr (KBlock exprs' locals) span None)).
Proof.
  intros IH st e st' H.
  apply bind_Ok in H as (n & st0 & [= <- <-] & H).
  apply bind_Ok in H as ([] & st0 & [= <-] & H).
  apply bind_Ok in H as (exprs' & st1 & H1 & H).
  cbv [bind modify blockLocals_pop gets ret] in H. injection H as <- <-.
  apply rframe_mapM in H1 as ((more & Hs) & Hb & Hf & Hc & Hi); [|done]. cbn in *.
  split_and!; cbn; [| |done..].
  - by rewrite Hs, take_app_length.
  - destruct Hb as [->|(init & top & more' & [<- <-]%app_inj_tail & ->)];
      by rewrite removelast_last.
Qed.

(** Every case of the resolver's expression visitor respects the frame. *)
Lemma rframe_resolver_expr e : preserves r_frame (resolver_expr gcx ast items e).
Proof.
  induction e as [k IH span ty
    | |name type rhs IHrhs local|lhs IHl rhs IHr|exprs IHs locals|value|value
    |segments res|k lhs IHl rhs IHr|k rhs IHr|lhs IHl args IHargs
    |lhs IHl field|cond IHc then_ IHt else_ IHe|body IHb loopId|target
    |name fields IHf|fields IHf| |err
    |name expr IHe fieldIdx]
    using Expr_mind
    with (P0 := λ k, ∀ span ty,
                  preserves r_frame (resolver_expr gcx ast items (mkExpr k span ty)))
         (P1 := λ f, let '(mkStructLiteralField _ expr _) := f in
                     preserves r_frame (resolver_expr gcx ast items expr));
    try done; intros span ty;
    cbn [resolver_expr superFoldExpr f_expr f_type f_ident resolver_folder].
  - rframe.
  - rframe.
  - rframe.
  - apply rframe_block. by apply list_all_Forall.
  - rframe.
  - rframe.
  - rframe.
  - rframe.
  - rframe.
  - apply list_all_Forall in IHargs. rframe. by apply rframe_mapM.
  - apply rframe_bind; [done|]. intros lhs'.
    assert (preserves r_frame
              (let* lhs'0 := resolver_expr gcx ast items lhs in
               ret (mkExpr (KFieldAccess lhs'0 field) span ty))) by rframe.
    destruct lhs' as [[] ? ?]; try done.
    + apply rframe_bind; [rframe|]. intros. by apply rframe_modulePath.
    + by apply rframe_modulePath.
  - apply rframe_bind; [done|]. intros.
    apply rframe_bind; [done|]. intros.
    apply rframe_bind; [apply rframe_optM; by apply option_all_inv|].
    intros. rframe.
  - rframe.
  - rframe.
  - apply list_all_Forall in IHf. rframe. apply rframe_mapM.
    eapply Forall_impl; [done|]. intros [] ?. rframe.
  - apply list_all_Forall in IHf. rframe. by apply rframe_mapM.
  - rframe.
  - rframe.
Qed.
End ResolverFrame.

Lemma find_app_Some {A} (f : A → bool) (l l' : list A) x :
  find f l = Some x → find f (l ++ l') = Some x.
Proof. induction l as [|a l IH]; cbn; [done|]. by destruct (f a). Qed.

Section ResolverChains.
Context (gcx : GlobalContext) (ast : Pkg) (items : gmap string ItemId).

(** A name that was found as a local, an item or a package is found as
    the same thing after more packages were loaded. *)
Lemma resolveIdent_ext ident st st2 res :
  resolveIdent ast items ident st = Ok (res, st) →
  (∀ name, res ≠ ResBuiltin name) →
  r_ext st st2 →
  resolveIdent ast items ident st2 = Ok (res, st2).
Proof.
  intros H Hres (Hs & _ & _ & [more Hf] & _). revert H.
  unfold resolveIdent, bind, gets, ret, throw. rewrite Hs.
  destruct scan_scopes; [by intros [= <-]|].
  destruct (items !! _); [by intros [= <-]|].
  rewrite Hf, app_comm_cons.
  destruct (find _ (ast :: _)) as [crate|] eqn:Hfind.
  - intros [= <-]. by rewrite (find_app_Some _ _ _ _ Hfind).
  - destruct bool_decide; [|done]. intros [= <-]. by destruct (Hres (ident_name ident)).
Qed.

Lemma resolver_expr_ident value span ty st e' st' :
  resolver_expr gcx ast items (mkExpr (KIdent value) span ty) st = Ok (e', st') →
  ∃ res,
    resolveIdent ast items (mkIdent (iwr_name value) (iwr_span value)) st
    = Ok (res, st)
    ∧ e' = mkExpr (KIdent (mkIdentWithRes (iwr_name value) (iwr_span value)
                                           (Some res))) span None
    ∧ st' = st.
Proof.
  cbn [resolver_expr superFoldExpr f_ident resolver_folder]. unfold resolver_ident.
  intros (v & st1 & (res & st2 & Hres & [= <- <-])%bind_Ok & [= <- <-])%bind_Ok.
  apply resolveIdent_state in Hres as Hst. subst st2. eauto.
Qed.

Lemma resolver_expr_fieldAccess lhs field span ty st :
  resolver_expr gcx ast items (mkExpr (KFieldAccess lhs field) span ty) st
  = (let* lhs' := resolver_expr gcx ast items lhs in
     access_step gcx ast items lhs' field
       (let* lhs'' := resolver_expr gcx ast items lhs in
        ret (mkExpr (KFieldAccess lhs'' field) span ty))) st.
Proof. reflexivity. Qed.

Lemma access_step_eq lhs' field fallback st :
  access_step gcx ast items lhs' field fallback st
  = (let* ores := access_res ast items lhs' in
     match ores with
     | Some res =>
         modulePath gcx ast res (lhs_segments lhs') (expr_span lhs') field fallback
     | None => fallback
     end) st.
Proof.
  destruct lhs' as [[] ? ?]; try reflexivity.
  cbn. unfold bind. by destruct resolveIdent as [[]|].
Qed.

Lemma access_res_state lhs' : preserves eq (access_res ast items lhs').
Proof.
  unfold access_res. destruct (expr_kind lhs'); try (apply preserves_ret, _).
  apply preserves_bind; [apply _|apply resolveIdent_state|].
  intros. apply preserves_ret, _.
Qed.

Lemma is_module_res_item res :
  is_module_res gcx ast res = true → ∃ id, res = ResItem id.
Proof. destruct res; naive_solver. Qed.

Lemma modulePath_other res segments lhs_span field fallback :
  is_module_res gcx ast res = false →
  modulePath gcx ast res segments lhs_span field fallback = fallback.
Proof.
  destruct res as [|id| | |]; try done. cbn.
  by destruct (item_kind (gcx_findItem gcx id ast)).
Qed.

(** On a module the [fieldAccess] case returns only a path, made of the
    segments of the left-hand side and the field's name, that resolves to
    the member the module has under that name. *)
Lemma modulePath_module id segments lhs_span field fallback st e st' :
  is_module_res gcx ast (ResItem id) = true →
  modulePath gcx ast (ResItem id) segments lhs_span field fallback st = Ok (e, st') →
  ∃ name member,
    field_value field = inl name
    ∧ resolveModItem gcx (gcx_findItem gcx id ast) name st = Ok (Some member, st')
    ∧ e = mkExpr (KPath (segments ++ [name]) (ResItem member))
                 (span_merge lhs_span (field_span field)) None.
Proof.
  intros Hm H. cbn in Hm, H.
  assert (match field_value field with
          | inl field_name =>
              let* pathResItem :=
                resolveModItem gcx (gcx_findItem gcx id ast) field_name in
              match pathResItem with
              | Some id' =>
                  ret (mkExpr (KPath (segments ++ [field_name]) (ResItem id'))
                              (span_merge lhs_span (field_span field)) None)
              | None => throw (ThrowCompilerError (mkCompilerError
                    ("module " +:+ item_name (gcx_findItem gcx id ast)
                     +:+ " has no item " +:+ field_name) (field_span field)))
              end
          | inr _ => throw (ThrowCompilerError (mkCompilerError
                "module contents cannot be indexed with a number"
                (field_span field)))
          end st = Ok (e, st')) as H'.
  { by destruct (item_kind (gcx_findItem gcx id ast)). }
  clear H. destruct (field_value field) as [name|]; [|done].
  apply bind_Ok in H' as ([member|] & st1 & Hmod & H); [|done].
  injection H as <- <-. eauto.
Qed.

Lemma modulePath_module_run id segments lhs_span field fallback st name member :
  is_module_res gcx ast (ResItem id) = true →
  field_value field = inl name →
  resolveModItem gcx (gcx_findItem gcx id ast) name st = Ok (Some member, st) →
  modulePath gcx ast (ResItem id) segments lhs_span field fallback st
  = Ok (mkExpr (KPath (segments ++ [name]) (ResItem member))
               (span_merge lhs_span (field_span field)) None, st).
Proof.
  intros Hm Hf Hmod. cbn [modulePath]. cbn in Hm.
  destruct (item_kind (gcx_findItem gcx id ast)) eqn:Hk; try done;
    rewrite Hf; unfold bind; by rewrite Hmod.
Qed.

(** The [fieldAccess] case, after the resolver_expr gcx ast items of the left-hand side: a
    path, when that side denotes a module, and the default fold
    otherwise. *)
Lemma access_step_Ok lhs' field fallback st e st' :
  access_step gcx ast items lhs' field fallback st = Ok (e, st') →
  ∃ ores, access_res ast items lhs' st = Ok (ores, st)
    ∧ ((∃ id name member,
          ores = Some (ResItem id)
          ∧ is_module_res gcx ast (ResItem id) = true
          ∧ field_value field = inl name
          ∧ resolveModItem gcx (gcx_findItem gcx id ast) name st
            = Ok (Some member, st')
          ∧ e = mkExpr (KPath (lhs_segments lhs' ++ [name]) (ResItem member))
                       (span_merge (expr_span lhs') (field_span field)) None)
       ∨ ((∀ res, ores = Some res → is_module_res gcx ast res = false)
          ∧ fallback st = Ok (e, st'))).
Proof.
  rewrite access_step_eq. intros (ores & st1 & Hres & H)%bind_Ok.
  apply access_res_state in Hres as Hst. subst st1.
  exists ores. split; [done|].
  destruct ores as [res|]; [|right; split; [done|done]].
  destruct (is_module_res gcx ast res) eqn:Hm.
  - left. destruct (is_module_res_item _ Hm) as [id ->].
    apply modulePath_module in H as (name & member & ? & ? & ?); [|done].
    exists id, name, member. done.
  - right. rewrite modulePath_other in H by done. split; [|done].
    by intros ? [= <-].
Qed.

(** The visitor keeps the kind of what it visits, except that a field
    access may come back as a path. *)
Lemma resolver_expr_kind e st e' st' :
  resolver_expr gcx ast items e st = Ok (e', st') →
  match expr_kind e' with
  | KIdent _ => ∃ value, expr_kind e = KIdent value
  | KPath _ _ =>
      (∃ segments res, expr_kind e = KPath segments res)
      ∨ (∃ lhs field, expr_kind e = KFieldAccess lhs field)
  | KFieldAccess _ _ => ∃ lhs field, expr_kind e = KFieldAccess lhs field
  | _ => True
  end.
Proof.
  destruct e as [[] span ty];
    try (cbn [resolver_expr superFoldExpr f_expr f_type f_ident resolver_folder];
         intros H; repeat (apply bind_Ok in H as (? & ? & ? & H));
         cbv [ret] in H; simplify_eq; cbn; by eauto).
  rewrite resolver_expr_fieldAccess. intros (lhs' & st1 & Hl & H)%bind_Ok.
  apply access_step_Ok in H as (ores & _ & [(id & name & member & _ & _ & _ & _ & ->)|[_ H]]).
  - cbn. eauto.
  - apply bind_Ok in H as (? & ? & ? & [= <- <-]). cbn. eauto.
Qed.

(** The resolution that decides about a visited left-hand side is the one
    it carries. *)
Lemma access_res_lhs_res lhs st lhs' st' :
  resolver_expr gcx ast items lhs st = Ok (lhs', st') →
  ∀ ores, access_res ast items lhs' st' = Ok (ores, st') → ores = lhs_res lhs'.
Proof.
  intros Hl ores. apply resolver_expr_kind in Hl as Hk.
  destruct lhs' as [k' span' ty']. unfold access_res, lhs_res.
  destruct k'; cbn [expr_kind];
    try (by intros [= <-]).
  cbn in Hk. destruct Hk as [v Hk]. destruct lhs as [k span ty].
  cbn in Hk. subst k.
  apply resolver_expr_ident in Hl as (res & Hres & [= -> -> ->] & ->).
  cbn. unfold bind. rewrite Hres. by intros [= <-].
Qed.

Lemma module_lhs_lhs_res e :
  module_lhs gcx ast e
  = match lhs_res e with Some res => is_module_res gcx ast res | None => false end.
Proof. unfold module_lhs, lhs_res. by destruct (expr_kind e). Qed.

Lemma access_res_own lhs st lhs' st' :
  resolver_expr gcx ast items lhs st = Ok (lhs', st') →
  ∀ ores, access_res ast items lhs' st' = Ok (ores, st') →
  module_lhs gcx ast lhs'
  = match ores with Some res => is_module_res gcx ast res | None => false end.
Proof.
  intros Hl ores Hres. rewrite module_lhs_lhs_res.
  by rewrite (access_res_lhs_res _ _ _ _ Hl _ Hres).
Qed.

Lemma access_res_stable lhs st lhs' st' ores st2 :
  resolver_expr gcx ast items lhs st = Ok (lhs', st') →
  leaf_found ast items lhs st →
  access_res ast items lhs' st' = Ok (ores, st') →
  r_ext st' st2 →
  access_res ast items lhs' st2 = Ok (ores, st2).
Proof.
  intros Hl Hleaf Hres Hext. apply resolver_expr_kind in Hl as Hk.
  destruct lhs' as [k' span' ty']. unfold access_res in *.
  destruct k'; cbn [expr_kind] in *;
    try (by injection Hres as <-).
  destruct Hk as [v Hk]. destruct lhs as [k span ty]. cbn in Hk. subst k.
  apply resolver_expr_ident in Hl as (res & Hident & [= -> -> ->] & ->).
  cbn [leaf_found] in Hleaf. cbn [iwr_name iwr_span] in Hres |- *.
  destruct Hleaf as (res' & Hident' & Hnb).
  assert (res' = res) as -> by congruence.
  unfold bind in Hres |- *. rewrite Hident in Hres. injection Hres as <-.
  by rewrite (resolveIdent_ext _ _ _ _ Hident Hnb Hext).
Qed.

Lemma chain_ok_is_chain c : is_chain c = true → chain_ok gcx ast items c.
Proof.
  induction c as [k IH span ty
    | |name type rhs IHrhs local|lhs IHl rhs IHr|exprs IHs locals|value|value
    |segments res|k lhs IHl rhs IHr|k rhs IHr|lhs IHl args IHargs
    |lhs IHl field|cond IHc then_ IHt else_ IHe|body IHb loopId|target
    |name fields IHf|fields IHf| |err
    |name expr IHe fieldIdx]
    using Expr_mind
    with (P0 := λ k, ∀ span ty, is_chain (mkExpr k span ty) = true →
                  chain_ok gcx ast items (mkExpr k span ty))
         (P1 := λ _, True);
    try done; try (by intros; apply IH); intros span ty Hc; try done.
  - (* ident *)
    intros st e1 st1 (res & Hres & -> & ->)%resolver_expr_ident.
    split_and!; [done|by right|by intros (? & ? & ?)|].
    intros (res' & Hres' & Hnb) st2 e2 st3 Hext
           (res2 & Hres2 & -> & ->)%resolver_expr_ident.
    assert (res' = res) as -> by congruence.
    rewrite (resolveIdent_ext _ _ _ _ Hres Hnb Hext) in Hres2. congruence.
  - (* path *)
    intros st e1 st1 [= <- <-].
    split_and!; [done|by right|done|].
    by intros _ st2 e2 st3 _ [= <- <-].
  - (* fieldAccess *)
    cbn in Hc. specialize (IHl Hc).
    intros st e1 st1. rewrite resolver_expr_fieldAccess.
    intros (lhs1 & sta & Hl & H)%bind_Ok.
    destruct (IHl _ _ _ Hl) as (Hexta & Hora & Hpatha & Hstaba).
    apply access_step_Ok in H
      as (ores & Hres & [(id & name & member & -> & Hm & Hfield & Hmod & ->)|[Hnm H]]).
    + (* the left-hand side is a module: a path *)
      apply resolveModItem_Ok in Hmod as Hmod'.
      destruct Hmod' as (Hextm & contents & Hcache & Hmember).
      assert (leaf_found ast items lhs st) as Hleaf.
      { apply resolver_expr_kind in Hl as Hk.
        destruct lhs1 as [k1 span1 ty1]. unfold access_res in Hres.
        destruct k1; cbn [expr_kind] in *; try done.
        - destruct Hk as [v Hk]. destruct lhs as [k span0 ty0].
          cbn in Hk. subst k.
          apply resolver_expr_ident in Hl as (res & Hident & [= -> -> ->] & ->).
          cbn in Hres |- *. unfold bind in Hres. rewrite Hident in Hres.
          injection Hres as ->. eauto.
        - apply Hpatha. eauto. }
      split_and!; [by etrans|by left|done|].
      intros _ st2 e2 st3 Hext2. rewrite resolver_expr_fieldAccess.
      intros (lhs2 & st2a & Hl2 & H2)%bind_Ok.
      assert (r_ext sta st2) as Hext_a2 by (by etrans).
      assert (lhs2 = lhs1) as ->
        by (by apply (Hstaba Hleaf st2 _ st2a)).
      destruct (IHl _ _ _ Hl2) as (Hext2a & _).
      assert (r_ext sta st2a) as Hext_a2a by (by etrans).
      pose proof (access_res_stable _ _ _ _ _ _ Hl Hleaf Hres Hext_a2a) as Hres2.
      rewrite access_step_eq in H2. unfold bind in H2. rewrite Hres2 in H2.
      erewrite modulePath_module_run in H2; [by injection H2 as <- <-|done..|].
      rewrite (resolveModItem_cached _ _ _ _ contents); [by rewrite <- Hmember|].
      assert (r_ext st1 st2a) as (_ & _ & _ & _ & Hsub) by (by etrans).
      by eapply lookup_weaken.
    + (* otherwise: the default fold, which visits the left-hand side again *)
      apply bind_Ok in H as (lhs1' & stb & Hl' & [= <- <-]).
      destruct (IHl _ _ _ Hl') as (Hextb & _).
      split_and!.
      * by etrans.
      * destruct Hora as [?| ->]; [by left|right]. congruence.
      * by intros (? & ? & ?).
      * intros Hleaf st2 e2 st3 Hext2. rewrite resolver_expr_fieldAccess.
        intros (lhs2 & st2a & Hl2 & H2)%bind_Ok.
        cbn [leaf_found] in Hleaf.
        assert (lhs1' = lhs1) as ->
          by (by apply (Hstaba Hleaf sta _ stb)).
        assert (r_ext sta st2) as Hext_a2 by (by etrans).
        assert (lhs2 = lhs1) as ->
          by (by apply (Hstaba Hleaf st2 _ st2a)).
        destruct (IHl _ _ _ Hl2) as (Hext2a & _).
        assert (r_ext sta st2a) as Hext_a2a by (by etrans).
        pose proof (access_res_stable _ _ _ _ _ _ Hl Hleaf Hres Hext_a2a) as Hres2.
        rewrite access_step_eq in H2. unfold bind at 1 in H2. rewrite Hres2 in H2.
        assert ((let* lhs'' := resolver_expr gcx ast items lhs in
                 ret (mkExpr (KFieldAccess lhs'' field) span ty)) st2a
                = Ok (e2, st3)) as H3.
        { destruct ores as [res|]; [|done].
          by rewrite modulePath_other in H2 by (by apply Hnm). }
        apply bind_Ok in H3 as (lhs3 & ? & Hl3 & [= <- <-]).
        by rewrite (Hstaba Hleaf st2a lhs3 _ Hext_a2a Hl3).
Qed.

(** What is not a chain does not come back as an identifier or a path. *)
Lemma not_chain_not_name e :
  is_chain e = false → ensures (λ e', is_name e' = false) (resolver_expr gcx ast items e).
Proof.
  induction e as [k IH span ty
    | |name type rhs IHrhs local|lhs IHl rhs IHr|exprs IHs locals|value|value
    |segments res|k lhs IHl rhs IHr|k rhs IHr|lhs IHl args IHargs
    |lhs IHl field|cond IHc then_ IHt else_ IHe|body IHb loopId|target
    |name fields IHf|fields IHf| |err
    |name expr IHe fieldIdx]
    using Expr_mind
    with (P0 := λ k, ∀ span ty, is_chain (mkExpr k span ty) = false →
                  ensures (λ e', is_name e' = false)
                          (resolver_expr gcx ast items (mkExpr k span ty)))
         (P1 := λ _, True);
    try done; try (by intros; apply IH); intros span ty Hc; try done;
    try (intros st e' st' H%resolver_expr_kind;
         by destruct e' as [[] ? ?]; cbn in H |- *; try done; naive_solver).
  cbn in Hc. specialize (IHl Hc).
  intros st e' st'. rewrite resolver_expr_fieldAccess.
  intros (lhs1 & sta & Hl & H)%bind_Ok. apply IHl in Hl as Hname.
  destruct lhs1 as [k1 ? ?]. 
  destruct k1; try done; cbn in H;
    by apply bind_Ok in H as (? & ? & ? & [= <- <-]).
Qed.
End ResolverChains.

Section Ensures.
Context {S : Type}.

Lemma ensures_ret {A} (Q : A → Prop) (a : A) : Q a → ensures (S:=S) Q (ret a).
Proof. by intros Ha s a' s' [= <- <-]. Qed.

Lemma ensures_throw {A} (Q : A → Prop) e : ensures (S:=S) Q (throw e).
Proof. by intros s a s'. Qed.

Lemma ensures_any {A} (m : M S A) : ensures (λ _, True) m.
Proof. by intros s a s'. Qed.

Lemma ensures_bind {A B} (P : A → Prop) (Q : B → Prop) (m : M S A)
    (f : A → M S B) :
  ensures P m → (∀ a, P a → ensures Q (f a)) → ensures Q (bind m f).
Proof.
  intros Hm Hf s b s' (a & s1 & H1 & H2)%bind_Ok.
  eapply Hf; [by eapply Hm|done].
Qed.

Lemma ensures_mapM {A B} (q : B → bool) (f : A → M S B) (xs : list A) :
  Forall (λ x, ensures (λ y, q y = true) (f x)) xs →
  ensures (λ ys, forallb q ys = true) (mapM f xs).
Proof.
  induction 1 as [|x xs Hx _ IH]; cbn [mapM]; [by apply ensures_ret|].
  eapply ensures_bind; [done|]. intros y Hy.
  eapply ensures_bind; [done|]. intros ys Hys.
  apply ensures_ret. cbn. by rewrite Hy, Hys.
Qed.

Lemma ensures_optM {A B} (q : B → bool) (f : A → M S B) (o : option A) :
  (∀ a, o = Some a → ensures (λ y, q y = true) (f a)) →
  ensures (λ o', match o' with Some y => q y | None => true end = true)
          (optM f o).
Proof.
  destruct o as [a|]; cbn [optM]; intros Hf; [|by apply ensures_ret].
  eapply ensures_bind; [by apply Hf|]. intros b Hb. by apply ensures_ret.
Qed.
End Ensures.

Section ResolverCollapses.
Context (gcx : GlobalContext) (ast : Pkg).

(** Splits a visit into its steps; what the steps on sub-expressions
    return is collapsed by the induction hypotheses in the context. *)
Ltac ens :=
  repeat first
    [ apply ensures_ret
    | apply ensures_throw
    | eapply ensures_bind;
      [ first [ eassumption
              | apply ensures_mapM; eassumption
              | apply ensures_optM; by apply option_all_inv
              | apply ensures_any ]
      | intros ? ? ] ].

Lemma module_lhs_name e : is_name e = false → module_lhs gcx ast e = false.
Proof. unfold is_name, module_lhs. by destruct (expr_kind e). Qed.

(** The expressions that the resolver returns have no field access on a
    module left. *)
Lemma resolver_expr_collapsed items e :
  ensures (λ e', collapsed gcx ast e' = true) (resolver_expr gcx ast items e).
Proof.
  induction e as [k IH span ty
    | |name type rhs IHrhs local|lhs IHl rhs IHr|exprs IHs locals|value|value
    |segments res|k lhs IHl rhs IHr|k rhs IHr|lhs IHl args IHargs
    |lhs IHl field|cond IHc then_ IHt else_ IHe|body IHb loopId|target
    |name fields IHf|fields IHf| |err
    |name expr IHe fieldIdx]
    using Expr_mind
    with (P0 := λ k, ∀ span ty,
                  ensures (λ e', collapsed gcx ast e' = true)
                          (resolver_expr gcx ast items (mkExpr k span ty)))
         (P1 := λ f, let '(mkStructLiteralField _ expr _) := f in
                     ensures (λ e', collapsed gcx ast e' = true)
                             (resolver_expr gcx ast items expr));
    try done; intros span ty;
    try apply list_all_Forall in IHs;
    try apply list_all_Forall in IHargs;
    try apply list_all_Forall in IHf.
  11: { (* fieldAccess *)
    intros st e' st'. rewrite resolver_expr_fieldAccess.
    intros (lhs1 & sta & Hl & H)%bind_Ok.
    apply access_step_Ok in H
      as (ores & Hres & [(id & name & member & _ & _ & _ & _ & ->)|[Hnm H]]);
      [done|].
    apply bind_Ok in H as (lhs2 & stb & Hl2 & [= <- <-]).
    cbn [collapsed]. rewrite (IHl _ _ _ Hl2), andb_true_r.
    apply negb_true_iff.
    destruct (is_chain lhs) eqn:Hc.
    - destruct (chain_ok_is_chain gcx ast items lhs Hc _ _ _ Hl)
        as (_ & Hor & _ & Hstab).
      assert (lhs2 = lhs1) as ->.
      { destruct Hor as [Hleaf| ->]; [|congruence].
        by apply (Hstab Hleaf sta _ stb). }
      rewrite (access_res_own _ _ _ _ _ _ _ Hl _ Hres).
      destruct ores; [by apply Hnm|done].
    - by apply module_lhs_name, (not_chain_not_name gcx ast items lhs Hc _ _ _ Hl2). }
  14: { (* struct literal *)
    cbn [resolver_expr superFoldExpr f_expr f_type f_ident resolver_folder].
    eapply ensures_bind; [apply ensures_any|intros name' _].
    eapply ensures_bind;
      [apply (ensures_mapM (λ f, let '(mkStructLiteralField _ expr _) := f in
                                 collapsed gcx ast expr))
      |intros fields' Hfields; by apply ensures_ret].
    eapply Forall_impl; [done|]. intros [n e fieldIdx] He.
    eapply ensures_bind; [done|]. intros e' He'. by apply ensures_ret. }
  all: cbn [resolver_expr superFoldExpr f_expr f_type f_ident resolver_folder];
    ens; cbn [collapsed]; rewrite ?andb_true_iff; done.
Qed.
End ResolverCollapses.

Section ResolverItems.
Context (gcx : GlobalContext) (ast : Pkg).

Lemma item_collapsed_with_defPath item defPath :
  item_collapsed gcx ast (with_defPath item defPath) = item_collapsed gcx ast item.
Proof. by destruct item as [[] ? ? ? ?]. Qed.

Lemma resolveModule_with_collapsed
    (item : list string → gmap string ItemId → Item → M ResolveState Item)
    modName contents :
  Forall (λ i, ∀ modName items,
            ensures (λ item', item_collapsed gcx ast item' = true)
                    (item modName items i)) contents →
  ensures (λ contents', forallb (item_collapsed gcx ast) contents' = true)
          (resolveModule_with item modName contents).
Proof.
  intros IH. unfold resolveModule_with.
  destruct (gather_items contents ∅) as [items|e]; [|apply ensures_throw].
  eapply ensures_bind; [apply ensures_any|intros outer _].
  eapply ensures_bind; [apply ensures_any|intros [] _].
  eapply ensures_bind.
  { apply (ensures_mapM (item_collapsed gcx ast)).
    eapply Forall_impl; [done|]. intros i Hi. apply Hi. }
  intros contents' Hc.
  eapply ensures_bind; [apply ensures_any|intros [] _].
  by apply ensures_ret.
Qed.

Lemma resolver_item_collapsed item :
  ∀ modName items,
    ensures (λ item', item_collapsed gcx ast item' = true)
            (resolver_item gcx ast modName items item).
Proof.
  induction item as [k IH span id name defPath
    |params body returnType ty|genericParams type ty
    |module func params returnType ty|contents IHc| |type init ty
    |segments res|err]
    using Item_mind
    with (P0 := λ k, ∀ span id name defPath modName items,
                  ensures (λ item', item_collapsed gcx ast item' = true)
                    (resolver_item gcx ast modName items
                       (mkItem k span id name defPath)));
    try done; intros span id name defPath modName items;
    cbn [resolver_item]; unfold defaultFolder_item;
    (apply (ensures_bind (λ item', item_collapsed gcx ast item' = true));
     [|intros newItem Hnew;
       eapply ensures_bind; [apply ensures_any|intros [] _];
       by apply ensures_ret]).
  1: { (* function *)
    eapply ensures_bind; [apply ensures_any|intros params' _].
    eapply ensures_bind; [apply ensures_any|intros returnType' _].
    eapply ensures_bind; [apply ensures_any|intros [] _].
    eapply ensures_bind; [apply resolver_expr_collapsed|intros body' Hbody].
    eapply ensures_bind; [apply ensures_any|intros [] _].
    by apply ensures_ret. }
  3: { (* mod *)
    eapply ensures_bind;
      [apply resolveModule_with_collapsed; by apply list_all_Forall
      |intros contents' Hc; by apply ensures_ret]. }
  3: { (* extern *)
    eapply ensures_bind; [apply ensures_any|intros ? _]. by apply ensures_ret. }
  all: apply (ensures_bind (λ item', item_collapsed gcx ast item' = true));
    [|intros folded Hfolded; apply ensures_ret;
      by rewrite item_collapsed_with_defPath].
  all: cbn [superFoldItem f_expr f_type resolver_folder];
    repeat first
      [ by apply ensures_ret
      | eapply ensures_bind;
        [first [apply resolver_expr_collapsed|apply ensures_any]|intros ? ?] ].
Qed.
End ResolverItems.

Section Maintains.
Context {S : Type} (I : S → Prop).

Lemma maintains_ret {A} (a : A) : maintains I (ret a).
Proof. by intros s a' s' Hs [= <- <-]. Qed.

Lemma maintains_throw {A} e : maintains I (throw (A:=A) e).
Proof. by intros s a s'. Qed.

Lemma maintains_bind {A B} (m : M S A) (f : A → M S B) :
  maintains I m → (∀ a, maintains I (f a)) → maintains I (bind m f).
Proof.
  intros Hm Hf s b s' Hs (a & s1 & H1 & H2)%bind_Ok.
  eapply Hf; [by eapply Hm|done].
Qed.

Lemma maintains_mapM {A B} (f : A → M S B) (xs : list A) :
  Forall (λ x, maintains I (f x)) xs → maintains I (mapM f xs).
Proof.
  induction 1 as [|x xs Hx _ IH]; cbn [mapM]; [apply maintains_ret|].
  apply maintains_bind; [done|]. intros y.
  apply maintains_bind; [done|]. intros ys. apply maintains_ret.
Qed.
End Maintains.

#[local] Instance same_items_preorder : PreOrder same_items.
Proof. split; [done|]. unfold same_items. intros a b c. congruence. Qed.

Section ResolverTable.
Context (gcx : GlobalContext) (ast : Pkg).

Lemma same_items_maintains {A} (m : M ResolveState A) :
  preserves same_items m → maintains (items_collapsed gcx ast) m.
Proof.
  intros Hm s a s' Hs H%Hm. unfold items_collapsed. by rewrite H.
Qed.

Lemma same_items_frame {A} (m : M ResolveState A) :
  preserves r_frame m → preserves same_items m.
Proof. apply preserves_weaken. by intros a b (_ & _ & _ & _ & ?). Qed.

Lemma same_items_eq {A} (m : M ResolveState A) :
  preserves eq m → preserves same_items m.
Proof. apply preserves_weaken. by intros a b <-. Qed.

Lemma same_items_bind {A B} (m : M ResolveState A) (f : A → M ResolveState B) :
  preserves same_items m → (∀ a, preserves same_items (f a)) →
  preserves same_items (bind m f).
Proof. apply preserves_bind, _. Qed.

Lemma same_items_ret {A} (a : A) : preserves same_items (ret a).
Proof. apply preserves_ret, _. Qed.

Lemma same_items_modify (f : ResolveState → ResolveState) :
  (∀ st, r_newItemsById (f st) = r_newItemsById st) →
  preserves same_items (modify f).
Proof. intros Hf. apply (preserves_modify _). intros st. apply Hf. Qed.

Lemma same_items_gets {A} (f : ResolveState → A) : preserves same_items (gets f).
Proof. apply preserves_gets, _. Qed.

Lemma same_items_optM {A B} (f : A → M ResolveState B) (o : option A) :
  (∀ a, preserves same_items (f a)) → preserves same_items (optM f o).
Proof. intros Hf. apply preserves_optM; [apply _|]. intros. apply Hf. Qed.

Lemma same_items_mapM {A B} (f : A → M ResolveState B) (xs : list A) :
  (∀ a, preserves same_items (f a)) → preserves same_items (mapM f xs).
Proof. intros Hf. apply preserves_mapM; [apply _|]. by apply Forall_forall. Qed.

Lemma same_items_forEachM {A} (f : A → M ResolveState unit) (xs : list A) :
  (∀ a, preserves same_items (f a)) → preserves same_items (forEachM f xs).
Proof. intros Hf. apply preserves_forEachM; [apply _|]. by apply Forall_forall. Qed.

(** Closes [preserves same_items m] for the steps of the item visitor
    that do not record an item. *)
Ltac same :=
  repeat first
    [ apply same_items_ret
    | apply preserves_throw
    | apply same_items_gets
    | apply same_items_modify; by intros
    | apply same_items_eq, resolver_type_state
    | apply same_items_frame, rframe_resolver_expr
    | apply same_items_frame, rframe_ext, loadCrate_ext
    | apply same_items_bind; [|intros]
    | apply same_items_optM; intros
    | apply same_items_mapM; intros
    | apply same_items_forEachM; intros
    | match goal with
      | |- preserves _ (match ?x with _ => _ end) => destruct x
      | |- preserves _ (if ?x then _ else _) => destruct x
      end ].

Lemma same_items_popScope expected : preserves same_items (popScope expected).
Proof. unfold popScope. same. Qed.

Lemma resolveModule_with_table
    (item : list string → gmap string ItemId → Item → M ResolveState Item)
    modName contents :
  Forall (λ i, ∀ modName items,
            maintains (items_collapsed gcx ast) (item modName items i)) contents →
  maintains (items_collapsed gcx ast) (resolveModule_with item modName contents).
Proof.
  intros IH. unfold resolveModule_with.
  destruct (gather_items contents ∅) as [items|e]; [|apply maintains_throw].
  apply maintains_bind; [by intros st a st' Hst [= _ <-]|]. intros outer.
  apply maintains_bind; [apply same_items_maintains; same|]. intros [].
  apply maintains_bind.
  { apply maintains_mapM. eapply Forall_impl; [done|]. intros i Hi. apply Hi. }
  intros contents'.
  apply maintains_bind; [apply same_items_maintains; same|]. intros [].
  apply maintains_ret.
Qed.

(** The table of resolved items holds collapsed items only. *)
Lemma resolver_item_table item :
  ∀ modName items,
    maintains (items_collapsed gcx ast) (resolver_item gcx ast modName items item).
Proof.
  induction item as [k IH span id name defPath
    |params body returnType ty|genericParams type ty
    |module func params returnType ty|contents IHc| |type init ty
    |segments res|err]
    using Item_mind
    with (P0 := λ k, ∀ span id name defPath modName items,
                  maintains (items_collapsed gcx ast)
                    (resolver_item gcx ast modName items
                       (mkItem k span id name defPath)));
    try done; intros span id name defPath modName items st item' st' Hst Hrun;
    pose proof (resolver_item_collapsed gcx ast _ _ _ _ _ _ Hrun) as Hitem;
    cbn [resolver_item] in Hrun; unfold defaultFolder_item in Hrun;
    apply bind_Ok in Hrun as (newItem & st1 & Hinner & Hrun);
    cbv [bind modify ret] in Hrun; injection Hrun as -> <-;
    (apply map_Forall_insert_2; [done|]);
    change (items_collapsed gcx ast st1).
  4: { (* mod *)
    eapply maintains_bind; [| |exact Hst|exact Hinner].
    - apply resolveModule_with_table. by apply list_all_Forall.
    - intros contents'. apply maintains_ret. }
  all: eapply same_items_maintains; [|exact Hst|exact Hinner];
    cbn [superFoldItem foldArgs f_expr f_type resolver_folder]; unfold loadCrate;
    same; first [apply same_items_popScope
                |apply same_items_frame, rframe_ext, crateLoader_ext].
Qed.
End ResolverTable.

(** ** C6: a [let] resolves its right-hand side before it binds its name *)

(** C6: the [let] case visits the right-hand side before it pushes the
    name, but the [fieldAccess] case visits its left-hand side twice:
    once to see whether it names a module, and once more through
    [superFoldExpr] on the node it was given.  A [let] in that position
    is resolved twice, and the second visit finds the name that the
    first one pushed.  In [( (let print = print, 1).0 )] the right-hand
    side [print] comes back as local 0, which is the binding of this
    same [let], and the block lists two local records for the one
    [let]; in [( (let print = print, 1) )], without the field access,
    it comes back as the builtin and the block lists one record. *)
Theorem let_below_field_access_sees_own_binding :
  pkg_body (example_resolve example_twice_items) 0
  = mkExpr (KBlock
              [ mkExpr (KFieldAccess (example_tuple_resolved (ResLocal 0))
                                     (mkField (inr 0) (mkSpan 43 44) None))
                       (mkSpan 20 44) None ]
              (Some [ mkLocalInfo "print" (mkSpan 25 30) None;
                      mkLocalInfo "print" (mkSpan 25 30) None ]))
           (mkSpan 18 19) None
  ∧ pkg_body (example_resolve example_once_items) 0
    = mkExpr (KBlock [example_tuple_resolved (ResBuiltin "print")]
                     (Some [mkLocalInfo "print" (mkSpan 25 30) None]))
             (mkSpan 18 19) None.
Proof. split; vm_compute; reflexivity. Qed.

(** X19: when the resolver's visit of [let x = E] returns, [E] was visited
    first, in the state in which the [let] was met, where [x] is not yet
    on the scope stack (so an identifier [E] that comes back as a local
    points at an entry that was on the stack before this visit); only
    then was [x] pushed on top of the scope stack, and its local-info
    record (name and name span) appended to the locals of the innermost
    open block, which exists. *)
Theorem let_rhs_resolved_before_push (gcx : GlobalContext) (ast : Pkg)
    (items : gmap string ItemId) (name : Ident) (type : option Type_)
    (rhs : Expr) (local : option LocalInfo) (span : Span) (ty : option Ty)
    (st st' : ResolveState) (e' : Expr) :
  resolver_expr gcx ast items (mkExpr (KLet name type rhs local) span ty) st
  = Ok (e', st') →
  let info := mkLocalInfo (ident_name name) (ident_span name) None in
  ∃ rhs' type' st1 init top more,
    resolver_expr gcx ast items rhs st = Ok (rhs', st1)
    ∧ optM (resolver_type ast items) type st1 = Ok (type', st1)
    ∧ e' = mkExpr (KLet name type' rhs' (Some info)) span ty
    ∧ r_scopes st' = r_scopes st1 ++ [ident_name name]
    ∧ r_blockLocals st = init ++ [top]
    ∧ r_blockLocals st1 = init ++ [top ++ more]
    ∧ r_blockLocals st' = init ++ [top ++ more ++ [info]]
    ∧ (∀ value index,
         expr_kind rhs = KIdent value →
         lhs_res rhs' = Some (ResLocal index) →
         ∃ i, i < length (r_scopes st)
              ∧ r_scopes st !! i = Some (iwr_name value)
              ∧ index = length (r_scopes st) - 1 - i).
Proof.
  cbn [resolver_expr f_type resolver_folder].
  intros (rhs' & st1 & Hrhs & H)%bind_Ok.
  apply bind_Ok in H as (type' & st2 & Htype & H).
  assert (st1 = st2) as <-.
  { eapply preserves_optM in Htype; [done|apply _|].
    intros. apply resolver_type_state. }
  apply bind_Ok in H as ([] & st3 & [= <-] & H).
  apply bind_Ok in H as ([] & st4 & Hpush & [= <- <-]).
  unfold blockLocals_push_local, bind, gets, modify, throw in Hpush. cbn in Hpush.
  destruct (last (r_blockLocals st1)) as [top1|] eqn:Hlast; [|done].
  injection Hpush as <-.
  destruct (r_blockLocals st1) as [|top1' init1 _] eqn:Hbl1 using rev_ind; [done|].
  rewrite last_snoc in Hlast. injection Hlast as ->.
  apply rframe_resolver_expr in Hrhs as Hframe.
  destruct Hframe as (_ & Hb & _). rewrite Hbl1 in Hb.
  assert (∀ value index,
            expr_kind rhs = KIdent value →
            lhs_res rhs' = Some (ResLocal index) →
            ∃ i, i < length (r_scopes st)
                 ∧ r_scopes st !! i = Some (iwr_name value)
                 ∧ index = length (r_scopes st) - 1 - i) as Hident.
  { intros value index Hk Hres. destruct rhs as [k span0 ty0]. cbn in Hk. subst k.
    apply resolver_expr_ident in Hrhs as (res & Hrun & -> & _).
    injection Hres as ->.
    apply resolveIdent_local in Hrun as [_ (i & ? & ? & _ & ->)%scan_scopes_Some].
    by exists i. }
  exists rhs', type', st1.
  destruct Hb as [Heq|(init & top & more & Hst & [-> ->]%app_inj_tail)].
  - exists init1, top1, []. cbn. rewrite removelast_last, !app_nil_r.
    by rewrite Hbl1.
  - exists init, top, more. cbn. rewrite removelast_last.
    split_and!; try done. by rewrite (assoc_L (++)).
Qed.

Lemma let_rhs_resolved_before_push_witness :
  ∃ st1,
    resolver_expr example_gcx empty_pkg ∅
      (mkExpr (KIdent (mkIdentWithRes "x" (mkSpan 8 9) None)) (mkSpan 8 9) None)
      example_let_state
    = Ok (mkExpr (KIdent (mkIdentWithRes "x" (mkSpan 8 9) (Some (ResLocal 0))))
                 (mkSpan 8 9) None, st1)
    ∧ r_scopes st1 ++ ["x"] = ["x"; "x"].
Proof.
  destruct (let_rhs_resolved_before_push example_gcx empty_pkg ∅
              (mkIdent "x" (mkSpan 4 5)) None
              (mkExpr (KIdent (mkIdentWithRes "x" (mkSpan 8 9) None))
                      (mkSpan 8 9) None)
              None (mkSpan 0 9) None example_let_state
              (mkResolveState [] ∅ ∅ ["x"; "x"]
                 [[mkLocalInfo "x" (mkSpan 4 5) None]])
              (mkExpr (KLet (mkIdent "x" (mkSpan 4 5)) None
                        (mkExpr (KIdent (mkIdentWithRes "x" (mkSpan 8 9)
                                           (Some (ResLocal 0))))
                                (mkSpan 8 9) None)
                        (Some (mkLocalInfo "x" (mkSpan 4 5) None)))
                      (mkSpan 0 9) None))
    as (rhs' & type' & st1 & init & top & more & Hrhs & _ & He & Hs & _).
  - reflexivity.
  - exists st1. injection He as <- <-. split; [exact Hrhs|]. symmetry. exact Hs.
Defined.

(** ** C7: field accesses on modules become paths *)

(** C7: in a package that the resolver returns, in the tree of its root
    items as well as in its table of items, no field access is left whose
    left-hand side is an identifier or path that denotes a module (an
    item of kind [mod] or [extern]); and where the visited left-hand
    side of a field access denotes a module, the access comes back as a
    path: the segments of the left-hand side followed by the field's
    name, resolving to the member that [resolveModItem] finds under that
    name. *)
Theorem module_access_becomes_path (gcx : GlobalContext) (ast : Pkg) :
  (∀ finalized pkg' finalized',
     resolve gcx finalized ast = Ok (pkg', finalized') →
     forallb (item_collapsed gcx ast) (rootItems pkg') = true
     ∧ map_Forall (λ _ item, item_collapsed gcx ast item = true) (itemsById pkg'))
  ∧ (∀ items lhs field span ty st lhs' st1 e' st',
       resolver_expr gcx ast items lhs st = Ok (lhs', st1) →
       module_lhs gcx ast lhs' = true →
       resolver_expr gcx ast items (mkExpr (KFieldAccess lhs field) span ty) st
       = Ok (e', st') →
       ∃ id name member,
         lhs_res lhs' = Some (ResItem id)
         ∧ field_value field = inl name
         ∧ resolveModItem gcx (gcx_findItem gcx id ast) name st1
           = Ok (Some member, st')
         ∧ e' = mkExpr (KPath (lhs_segments lhs' ++ [name]) (ResItem member))
                       (span_merge (expr_span lhs') (field_span field)) None).
Proof.
  split.
  - intros finalized pkg' finalized'. unfold resolve, resolveModule.
    destruct (resolveModule_with _ _ _ _) as [[rootItems' st]|e] eqn:H; [|done].
    intros [= <- <-]. cbn. split.
    + eapply resolveModule_with_collapsed; [|done].
      apply Forall_forall. intros item _. apply resolver_item_collapsed.
    + eapply (resolveModule_with_table gcx ast); [| |done].
      * apply Forall_forall. intros item _. apply resolver_item_table.
      * apply map_Forall_empty.
  - intros items lhs field span ty st lhs' st1 e' st' Hl Hm.
    rewrite resolver_expr_fieldAccess. intros (lhs1 & sta & Hl1 & H)%bind_Ok.
    rewrite Hl in Hl1. injection Hl1 as <- <-.
    apply access_step_Ok in H
      as (ores & Hres & [(id & name & member & -> & _ & Hfield & Hmember & ->)
                        |[Hnm _]]).
    + exists id, name, member. split_and!; try done.
      symmetry. by apply (access_res_lhs_res _ _ _ _ _ _ _ Hl).
    + rewrite (access_res_own _ _ _ _ _ _ _ Hl _ Hres) in Hm.
      destruct ores as [res|]; [|done]. by rewrite Hnm in Hm.
Qed.

Lemma module_access_becomes_path_witness :
  (forallb (item_collapsed example_gcx (example_build example_mod_items))
           (rootItems (example_resolve example_mod_items)) = true
   ∧ map_Forall (λ _ item, item_collapsed example_gcx
                             (example_build example_mod_items) item = true)
                (itemsById (example_resolve example_mod_items)))
  ∧ pkg_body (example_resolve example_mod_items) 1
    = mkExpr (KCall
                (mkExpr (KPath ["m"; "g"] (ResItem (mkItemId 0 2)))
                        (mkSpan 48 51) None)
                [])
             (mkSpan 48 53) None.
Proof.
  split; [|reflexivity].
  apply (proj1 (module_access_becomes_path example_gcx
                  (example_build example_mod_items))
           [] (example_resolve example_mod_items)
           (expect (resolve example_gcx [] (example_build example_mod_items))
                   (empty_pkg, [])).2).
  reflexivity.
Defined.

#[local] Instance r_sync_preorder : PreOrder r_sync.
Proof.
  split.
  - intros a. exists []. rewrite app_nil_r. split; [done|].
    destruct (r_blockLocals a) as [|top init _] using rev_ind; [by left|].
    right. exists init, top. by rewrite app_nil_r.
  - intros a b c (m1 & Hs1 & H1) (m2 & Hs2 & H2). exists (m1 ++ m2).
    rewrite Hs2, Hs1, map_app, (assoc_L (++)). split; [done|].
    destruct H1 as [(Ha & -> & Hb)|(init & top & Ha & Hb)].
    + destruct H2 as [(_ & -> & Hc)|(init' & top' & Hb' & _)].
      * by left.
      * rewrite Hb in Hb'. by destruct init'.
    + right. exists init, top. split; [done|].
      destruct H2 as [(Hb' & _)|(init' & top' & Hb' & Hc)].
      * rewrite Hb in Hb'. by destruct init.
      * rewrite Hb in Hb'. apply app_inj_tail in Hb' as [<- <-].
        by rewrite Hc, (assoc_L (++)).
Qed.

Lemma r_sync_same a b :
  r_scopes b = r_scopes a → r_blockLocals b = r_blockLocals a → r_sync a b.
Proof.
  intros Hs Hb. exists []. rewrite Hs, Hb, app_nil_r. split; [done|].
  destruct (r_blockLocals a) as [|top init _] using rev_ind; [by left|].
  right. exists init, top. by rewrite app_nil_r.
Qed.

Section ResolverSync.
Context (gcx : GlobalContext) (ast : Pkg) (items : gmap string ItemId).

Lemma rsync_ret {A} (a : A) : preserves r_sync (ret a).
Proof. apply preserves_ret, _. Qed.

Lemma rsync_bind {A B} (m : M ResolveState A) (f : A → M ResolveState B) :
  preserves r_sync m → (∀ a, preserves r_sync (f a)) →
  preserves r_sync (bind m f).
Proof. apply preserves_bind, _. Qed.

Lemma rsync_mapM {A B} (f : A → M ResolveState B) (xs : list A) :
  Forall (λ x, preserves r_sync (f x)) xs → preserves r_sync (mapM f xs).
Proof. apply preserves_mapM, _. Qed.

Lemma rsync_optM {A B} (f : A → M ResolveState B) (o : option A) :
  (∀ a, o = Some a → preserves r_sync (f a)) → preserves r_sync (optM f o).
Proof. apply preserves_optM, _. Qed.

Lemma rsync_eq {A} (m : M ResolveState A) : preserves eq m → preserves r_sync m.
Proof. apply preserves_weaken. intros a b <-. reflexivity. Qed.

Lemma rsync_ext {A} (m : M ResolveState A) : preserves r_ext m → preserves r_sync m.
Proof.
  apply preserves_weaken. intros a b (Hs & Hb & _). by apply r_sync_same.
Qed.

Ltac rsync :=
  repeat first
    [ assumption
    | apply rsync_ret
    | apply preserves_throw
    | apply rsync_eq, resolveIdent_state
    | apply rsync_eq, resolver_ident_state
    | apply rsync_eq, resolver_type_state
    | apply rsync_ext, resolveModItem_ext
    | apply rsync_bind; [|intros]
    | apply rsync_optM; intros ? ?
    | match goal with
      | |- preserves _ (match ?x with _ => _ end) => destruct x
      | |- preserves _ (if ?x then _ else _) => destruct x
      end ].

Lemma rsync_modulePath res segments lhs_span field fallback :
  preserves r_sync fallback →
  preserves r_sync (modulePath gcx ast res segments lhs_span field fallback).
Proof. intros. unfold modulePath. rsync. Qed.

(** What a block does: the expressions are visited with a fresh list of
    locals on the block stack; the names they leave on the scope stack
    are dropped again, and the records made for them become the block's
    [locals]. *)
Lemma resolver_block_Ok exprs locals span ty st e' st' :
  Forall (λ e, preserves r_sync (resolver_expr gcx ast items e)) exprs →
  resolver_expr gcx ast items (mkExpr (KBlock exprs locals) span ty) st
  = Ok (e', st') →
  ∃ exprs' st1 more,
    mapM (resolver_expr gcx ast items) exprs
         (r_set_blockLocals (r_blockLocals st ++ [[]]) st) = Ok (exprs', st1)
    ∧ r_scopes st1 = r_scopes st ++ map local_name more
    ∧ r_blockLocals st1 = r_blockLocals st ++ [more]
    ∧ e' = mkExpr (KBlock exprs' (Some more)) span None
    ∧ st' = r_set_blockLocals (r_blockLocals st) (r_set_scopes (r_scopes st) st1).
Proof.
  intros IH. cbn [resolver_expr].
  intros (n & st0 & [= <- <-] & H)%bind_Ok.
  apply bind_Ok in H as ([] & st0 & [= <-] & H).
  apply bind_Ok in H as (exprs' & st1 & H1 & H).
  cbv [bind modify blockLocals_pop gets ret] in H. injection H as <- <-.
  apply rsync_mapM in H1 as Hsync; [|done].
  destruct Hsync as (more & Hs & [(Hnil & _)|(init & top & Ha & Hb)]); cbn in *.
  { by destruct (r_blockLocals st). }
  apply app_inj_tail in Ha as [<- <-]. cbn in Hb.
  exists exprs', st1, more. split_and!; [done..| |].
  - by rewrite Hb, last_snoc.
  - rewrite Hs, take_app_length, Hb, removelast_last. done.
Qed.

Lemma rsync_let name type rhs local span ty :
  preserves r_sync (resolver_expr gcx ast items rhs) →
  preserves r_sync
    (resolver_expr gcx ast items (mkExpr (KLet name type rhs local) span ty)).
Proof.
  intros IH st e' st'. cbn [resolver_expr f_type resolver_folder].
  intros (rhs' & st1 & Hrhs%IH & H)%bind_Ok.
  apply bind_Ok in H as (type' & st2 & Htype & H).
  assert (st1 = st2) as <-.
  { eapply preserves_optM in Htype; [done|apply _|].
    intros. apply resolver_type_state. }
  apply bind_Ok in H as ([] & st3 & [= <-] & H).
  apply bind_Ok in H as ([] & st4 & Hpush & [= <- <-]).
  unfold blockLocals_push_local, bind, gets, modify, throw in Hpush. cbn in Hpush.
  destruct (last (r_blockLocals st1)) as [top1|] eqn:Hlast; [|done].
  injection Hpush as <-.
  etrans; [done|].
  exists [mkLocalInfo (ident_name name) (ident_span name) None]. cbn.
  split; [done|]. right.
  destruct (r_blockLocals st1) as [|top1' init1 _] using rev_ind; [done|].
  rewrite last_snoc in Hlast. injection Hlast as ->.
  exists init1, top1. by rewrite removelast_last.
Qed.

(** Every case of the resolver's expression visitor keeps the scope
    stack and the innermost block's locals in step. *)
Lemma rsync_resolver_expr e : preserves r_sync (resolver_expr gcx ast items e).
Proof.
  induction e as [k IH span ty
    | |name type rhs IHrhs local|lhs IHl rhs IHr|exprs IHs locals|value|value
    |segments res|k lhs IHl rhs IHr|k rhs IHr|lhs IHl args IHargs
    |lhs IHl field|cond IHc then_ IHt else_ IHe|body IHb loopId|target
    |name fields IHf|fields IHf| |err
    |name expr IHe fieldIdx]
    using Expr_mind
    with (P0 := λ k, ∀ span ty,
                  preserves r_sync (resolver_expr gcx ast items (mkExpr k span ty)))
         (P1 := λ f, let '(mkStructLiteralField _ expr _) := f in
                     preserves r_sync (resolver_expr gcx ast items expr));
    try done; intros span ty;
    try (by apply rsync_let);
    cbn [resolver_expr superFoldExpr f_expr f_type f_ident resolver_folder].
  - rsync.
  - rsync.
  - (* block *)
    apply list_all_Forall in IHs. intros st e' st' H.
    change (resolver_expr gcx ast items (mkExpr (KBlock exprs locals) span ty) st
            = Ok (e', st')) in H.
    apply resolver_block_Ok in H as (exprs' & st1 & more & _ & _ & _ & _ & ->);
      [|done].
    by apply r_sync_same.
  - rsync.
  - rsync.
  - rsync.
  - rsync.
  - rsync.
  - apply list_all_Forall in IHargs. rsync. by apply rsync_mapM.
  - apply rsync_bind; [done|]. intros lhs'.
    assert (preserves r_sync
              (let* lhs'0 := resolver_expr gcx ast items lhs in
               ret (mkExpr (KFieldAccess lhs'0 field) span ty))) by rsync.
    destruct lhs' as [[] ? ?]; try done.
    + apply rsync_bind; [rsync|]. intros. by apply rsync_modulePath.
    + by apply rsync_modulePath.
  - apply rsync_bind; [done|]. intros.
    apply rsync_bind; [done|]. intros.
    apply rsync_bind; [apply rsync_optM; by apply option_all_inv|].
    intros. rsync.
  - rsync.
  - rsync.
  - apply list_all_Forall in IHf. rsync. apply rsync_mapM.
    eapply Forall_impl; [done|]. intros [] ?. rsync.
  - apply list_all_Forall in IHf. rsync. by apply rsync_mapM.
  - rsync.
  - rsync.
Qed.
End ResolverSync.

Section ResolverNoError.
Context (gcx : GlobalContext) (ast : Pkg).

Lemma not_Error_CompilerError err : not_Error (ThrowCompilerError err).
Proof. by intros msg. Qed.

Lemma not_Error_TypeError msg : not_Error (ThrowTypeError msg).
Proof. by intros msg'. Qed.

Lemma noerr_resolveIdent items ident :
  throws_only not_Error (resolveIdent ast items ident).
Proof.
  intros st e. unfold resolveIdent, bind, gets, ret, throw.
  repeat case_match; try done. intros [= <-]. apply not_Error_CompilerError.
Qed.

Lemma noerr_resolver_ident items ident :
  throws_only not_Error (resolver_ident ast items ident).
Proof.
  apply throws_only_bind; [apply noerr_resolveIdent|].
  intros. apply throws_only_ret.
Qed.

Lemma noerr_resolver_type items type :
  throws_only not_Error (resolver_type ast items type).
Proof.
  induction type as [args value span IH|elems span IH|inner span IH|span|err span]
    using Type_nested_ind; cbn [resolver_type superFoldType f_type f_ident resolver_folder].
  - apply throws_only_bind; [by apply throws_only_mapM|]. intros.
    apply throws_only_bind; [apply noerr_resolver_ident|]. intros.
    apply throws_only_ret.
  - apply throws_only_bind; [by apply throws_only_mapM|]. intros.
    apply throws_only_ret.
  - apply throws_only_bind; [done|]. intros. apply throws_only_ret.
  - apply throws_only_ret.
  - apply throws_only_ret.
Qed.

Lemma noerr_loadCrate name span : throws_only not_Error (loadCrate gcx name span).
Proof.
  intros st e. unfold loadCrate, bind, crateLoader.
  destruct (find _ _); [done|]. by destruct (gcx_loadFresh _ _ _ _).
Qed.

Lemma noerr_resolveModItem module name :
  throws_only not_Error (resolveModItem gcx module name).
Proof.
  unfold resolveModItem.
  apply throws_only_bind; [apply throws_only_gets|]. intros cache.
  destruct (cache !! item_id module); [apply throws_only_ret|].
  apply throws_only_bind.
  { destruct (item_kind module);
      first [apply throws_only_ret|apply noerr_loadCrate]. }
  intros. apply throws_only_bind; [apply throws_only_modify|].
  intros. apply throws_only_ret.
Qed.

Ltac noerr :=
  repeat first
    [ assumption
    | apply throws_only_ret
    | apply throws_only_gets
    | apply throws_only_modify
    | apply throws_only_throw, not_Error_CompilerError
    | apply throws_only_throw, not_Error_TypeError
    | apply noerr_resolveIdent
    | apply noerr_resolver_ident
    | apply noerr_resolver_type
    | apply noerr_resolveModItem
    | apply noerr_loadCrate
    | apply throws_only_bind; [|intros]
    | apply throws_only_optM; intros ? ?
    | match goal with
      | |- throws_only _ (match ?x with _ => _ end) => destruct x
      | |- throws_only _ (if ?x then _ else _) => destruct x
      end ].

Lemma noerr_modulePath res segments lhs_span field fallback :
  throws_only not_Error fallback →
  throws_only not_Error (modulePath gcx ast res segments lhs_span field fallback).
Proof. intros. unfold modulePath. noerr. Qed.

Lemma noerr_push_local local : throws_only not_Error (blockLocals_push_local local).
Proof. unfold blockLocals_push_local. noerr. Qed.

Lemma noerr_blockLocals_pop : throws_only not_Error blockLocals_pop.
Proof. unfold blockLocals_pop. noerr. Qed.

(** The expression visitor raises [CompilerError]s and, for a [let]
    outside any block, a [TypeError], but never a plain [Error]. *)
Lemma noerr_resolver_expr items e :
  throws_only not_Error (resolver_expr gcx ast items e).
Proof.
  induction e as [k IH span ty
    | |name type rhs IHrhs local|lhs IHl rhs IHr|exprs IHs locals|value|value
    |segments res|k lhs IHl rhs IHr|k rhs IHr|lhs IHl args IHargs
    |lhs IHl field|cond IHc then_ IHt else_ IHe|body IHb loopId|target
    |name fields IHf|fields IHf| |err
    |name expr IHe fieldIdx]
    using Expr_mind
    with (P0 := λ k, ∀ span ty,
                  throws_only not_Error
                    (resolver_expr gcx ast items (mkExpr k span ty)))
         (P1 := λ f, let '(mkStructLiteralField _ expr _) := f in
                     throws_only not_Error (resolver_expr gcx ast items expr));
    try done; intros span ty;
    try apply list_all_Forall in IHs;
    try apply list_all_Forall in IHargs;
    try apply list_all_Forall in IHf;
    cbn [resolver_expr superFoldExpr f_expr f_type f_ident resolver_folder];
    try solve [noerr; by apply throws_only_mapM].
  - (* fieldAccess *)
    apply throws_only_bind; [done|]. intros lhs'.
    assert (throws_only not_Error
              (let* lhs'0 := resolver_expr gcx ast items lhs in
               ret (mkExpr (KFieldAccess lhs'0 field) span ty))) by noerr.
    destruct lhs' as [[] ? ?]; try done.
    + apply throws_only_bind; [noerr|]. intros. by apply noerr_modulePath.
    + by apply noerr_modulePath.
  - (* if *)
    apply throws_only_bind; [done|]. intros.
    apply throws_only_bind; [done|]. intros.
    apply throws_only_bind; [apply throws_only_optM; by apply option_all_inv|].
    intros. noerr.
  - (* struct literal *)
    noerr. apply throws_only_mapM.
    eapply Forall_impl; [done|]. intros [] ?. noerr.
Qed.

(** With no block open an expression is visited without a trace on the
    scope stack. *)
Lemma safe_resolver_expr items e : item_safe (resolver_expr gcx ast items e).
Proof.
  intros st Hbl.
  destruct (resolver_expr gcx ast items e st) as [[e' st']|err] eqn:H.
  - apply rsync_resolver_expr in H
      as (more & Hs & [(_ & -> & Hb)|(init & top & Ha & _)]).
    + by rewrite Hs, app_nil_r.
    + rewrite Hbl in Ha. by destruct init.
  - by eapply noerr_resolver_expr.
Qed.

Lemma item_safe_ret {A} (a : A) : item_safe (ret a).
Proof. by intros st Hbl. Qed.

Lemma item_safe_throw {A} e : not_Error e → item_safe (throw (A:=A) e).
Proof. by intros He st Hbl. Qed.

Lemma item_safe_bind {A B} (m : M ResolveState A) (f : A → M ResolveState B) :
  item_safe m → (∀ a, item_safe (f a)) → item_safe (bind m f).
Proof.
  intros Hm Hf st Hbl. unfold bind. specialize (Hm st Hbl).
  destruct (m st) as [[a st1]|e]; [|done]. destruct Hm as [Hbl1 Hs1].
  specialize (Hf a st1 Hbl1). destruct (f a st1) as [[b st2]|e]; [|done].
  destruct Hf as [? ?]. split; [done|congruence].
Qed.

Lemma item_safe_mapM {A B} (f : A → M ResolveState B) (xs : list A) :
  Forall (λ x, item_safe (f x)) xs → item_safe (mapM f xs).
Proof.
  induction 1 as [|x xs Hx _ IH]; cbn [mapM]; [apply item_safe_ret|].
  apply item_safe_bind; [done|]. intros y.
  apply item_safe_bind; [done|]. intros ys. apply item_safe_ret.
Qed.

Lemma item_safe_optM {A B} (f : A → M ResolveState B) (o : option A) :
  (∀ a, item_safe (f a)) → item_safe (optM f o).
Proof.
  destruct o as [a|]; cbn [optM]; intros Hf; [|apply item_safe_ret].
  apply item_safe_bind; [by apply Hf|]. intros b. apply item_safe_ret.
Qed.

Lemma item_safe_eq {A} (m : M ResolveState A) :
  preserves eq m → throws_only not_Error m → item_safe m.
Proof.
  intros Hm He st Hbl. destruct (m st) as [[a st']|e] eqn:H.
  - apply Hm in H as <-. done.
  - by eapply He.
Qed.

Lemma item_safe_type items type : item_safe (resolver_type ast items type).
Proof. apply item_safe_eq; [apply resolver_type_state|apply noerr_resolver_type]. Qed.

Lemma item_safe_loadCrate name span : item_safe (loadCrate gcx name span).
Proof.
  intros st Hbl. destruct (loadCrate gcx name span st) as [[a st']|e] eqn:H.
  - apply loadCrate_ext in H as (Hs & Hb & _). split; congruence.
  - by eapply noerr_loadCrate.
Qed.

Lemma item_safe_setItem id item : item_safe (modify (r_setItem id item)).
Proof. by intros st Hbl. Qed.

(** Pushing the parameters of a function... *)
Lemma push_params_run (params : list FunctionArg) st :
  forEachM (λ p, modify (λ st,
              r_set_scopes (r_scopes st ++ [ident_name (arg_ident p)]) st))
           params st
  = Ok (tt, r_set_scopes
              (r_scopes st ++ map (λ p, ident_name (arg_ident p)) params) st).
Proof.
  revert st. induction params as [|p params IH]; intros st; cbn [forEachM map].
  { rewrite app_nil_r. by destruct st. }
  unfold bind, modify at 1. rewrite IH. cbn. by rewrite <- (assoc_L (++)).
Qed.

(** ... and popping them again in reverse order: every pop finds the
    name it expects. *)
Lemma pop_params_run (params : list FunctionArg) scopes st :
  r_scopes st = scopes ++ map (λ p, ident_name (arg_ident p)) params →
  forEachM (λ p, popScope (ident_name (arg_ident p))) (reverse params) st
  = Ok (tt, r_set_scopes scopes st).
Proof.
  revert st. induction params as [|p params IH] using rev_ind; intros st Hs.
  { cbn in *. rewrite app_nil_r in Hs. rewrite <- Hs. by destruct st. }
  rewrite reverse_snoc. cbn [forEachM]. rewrite map_app, (assoc_L (++)) in Hs.
  cbn in Hs. unfold bind at 1, popScope, bind, gets, modify.
  rewrite Hs, last_snoc, removelast_last.
  destruct decide as [Hne|_]; [done|]. cbn [ret].
  rewrite IH; [done|]. done.
Qed.
End ResolverNoError.

Section ResolverItemsSafe.
Context (gcx : GlobalContext) (ast : Pkg).

(** A function's parameters are in scope for its body and for nothing
    else. *)
Lemma item_safe_scoped {A B} (params : list FunctionArg)
    (m : M ResolveState A) (k : A → M ResolveState B) :
  item_safe m → (∀ a, item_safe (k a)) →
  item_safe
    (let* _ := forEachM (λ p, modify (λ st,
                 r_set_scopes (r_scopes st ++ [ident_name (arg_ident p)]) st))
                 params in
     let* a := m in
     let* _ := forEachM (λ p, popScope (ident_name (arg_ident p)))
                        (reverse params) in
     k a).
Proof.
  intros Hm Hk st Hbl. unfold bind at 1. rewrite push_params_run.
  unfold bind at 1.
  specialize (Hm (r_set_scopes
                    (r_scopes st ++ map (λ p, ident_name (arg_ident p)) params)
                    st) Hbl).
  destruct (m _) as [[a st1]|e]; [|done]. destruct Hm as [Hbl1 Hs1]. cbn in Hs1.
  unfold bind. rewrite (pop_params_run params (r_scopes st) st1 Hs1).
  specialize (Hk a (r_set_scopes (r_scopes st) st1) Hbl1).
  by destruct (k a _) as [[b st2]|e].
Qed.

Lemma resolveModule_with_safe
    (item : list string → gmap string ItemId → Item → M ResolveState Item)
    modName contents :
  Forall (λ i, ∀ modName items, item_safe (item modName items i)) contents →
  item_safe (resolveModule_with item modName contents).
Proof.
  intros IH st Hbl. unfold resolveModule_with.
  destruct (gather_items contents ∅) as [items|e] eqn:Hg.
  2: { apply gather_items_Throw in Hg as (i & _ & ->).
       apply not_Error_CompilerError. }
  cbv [bind get modify]. cbn.
  assert (item_safe (mapM (item modName items) contents)) as Hmap.
  { apply item_safe_mapM. eapply Forall_impl; [done|]. intros i Hi. apply Hi. }
  specialize (Hmap (r_set_blockLocals [] (r_set_scopes [] st)) eq_refl).
  by destruct (mapM _ _ _) as [[contents' st1]|e].
Qed.

Lemma safe_resolver_item item :
  ∀ modName items, item_safe (resolver_item gcx ast modName items item).
Proof.
  induction item as [k IH span id name defPath
    |params body returnType ty|genericParams type ty
    |module func params returnType ty|contents IHc| |type init ty
    |segments res|err]
    using Item_mind
    with (P0 := λ k, ∀ span id name defPath modName items,
                  item_safe (resolver_item gcx ast modName items
                               (mkItem k span id name defPath)));
    try done; intros span id name defPath modName items;
    cbn [resolver_item]; unfold defaultFolder_item;
    (apply item_safe_bind;
     [|intros newItem; apply item_safe_bind; [apply item_safe_setItem|];
       intros; apply item_safe_ret]);
    cbn [superFoldItem foldArgs f_expr f_type resolver_folder].
  - (* function *)
    apply item_safe_bind.
    { apply item_safe_mapM, Forall_forall. intros p _.
      apply item_safe_bind; [apply item_safe_type|]. intros. apply item_safe_ret. }
    intros params'. apply item_safe_bind.
    { apply item_safe_optM. intros. apply item_safe_type. }
    intros returnType'.
    apply (item_safe_scoped params (resolver_expr gcx ast items body)).
    + apply safe_resolver_expr.
    + intros. apply item_safe_ret.
  - (* type *)
    apply item_safe_bind; [|intros; apply item_safe_ret].
    apply item_safe_bind; [|intros; apply item_safe_ret].
    destruct type as [fields|t].
    + apply item_safe_bind; [|intros; apply item_safe_ret].
      apply item_safe_mapM, Forall_forall. intros fd _.
      apply item_safe_bind; [apply item_safe_type|]. intros. apply item_safe_ret.
    + apply item_safe_bind; [apply item_safe_type|]. intros. apply item_safe_ret.
  - (* import *)
    apply item_safe_bind; [|intros; apply item_safe_ret].
    apply item_safe_bind.
    { apply item_safe_mapM, Forall_forall. intros p _.
      apply item_safe_bind; [apply item_safe_type|]. intros. apply item_safe_ret. }
    intros. apply item_safe_bind; [|intros; apply item_safe_ret].
    apply item_safe_optM. intros. apply item_safe_type.
  - (* mod *)
    apply item_safe_bind; [|intros; apply item_safe_ret].
    apply resolveModule_with_safe. by apply list_all_Forall.
  - (* extern *)
    apply item_safe_bind; [apply item_safe_loadCrate|]. intros. apply item_safe_ret.
  - (* global *)
    apply item_safe_bind; [|intros; apply item_safe_ret].
    apply item_safe_bind; [apply item_safe_type|]. intros.
    apply item_safe_bind; [apply safe_resolver_expr|]. intros. apply item_safe_ret.
Qed.
End ResolverItemsSafe.

(** ** The scope stack of the resolver *)

(** X1: whatever expression the resolver visits, the names the visit
    leaves on the scope stack are exactly the names of the local-info
    records it appended to the innermost open block, in order; with no
    block open the scope stack is left as it was. *)
Theorem resolver_scopes_track_locals (gcx : GlobalContext) (ast : Pkg)
    (items : gmap string ItemId) (e : Expr) (st st' : ResolveState) (e' : Expr) :
  resolver_expr gcx ast items e st = Ok (e', st') →
  ∃ more,
    r_scopes st' = r_scopes st ++ map local_name more
    ∧ ((r_blockLocals st = [] ∧ more = [] ∧ r_blockLocals st' = [])
       ∨ ∃ init top, r_blockLocals st = init ++ [top]
                     ∧ r_blockLocals st' = init ++ [top ++ more]).
Proof. apply rsync_resolver_expr. Qed.

Lemma resolver_scopes_track_locals_witness :
  ∃ more,
    ["x"; "x"] = ["x"] ++ map local_name more
    ∧ ((([[]] : list (list LocalInfo)) = [] ∧ more = []
        ∧ [[mkLocalInfo "x" (mkSpan 4 5) None]] = [])
       ∨ ∃ init top, [[]] = init ++ [top]
                     ∧ [[mkLocalInfo "x" (mkSpan 4 5) None]] = init ++ [top ++ more]).
Proof.
  apply (resolver_scopes_track_locals example_gcx empty_pkg ∅
           (mkExpr (KLet (mkIdent "x" (mkSpan 4 5)) None
                      (mkExpr (KIdent (mkIdentWithRes "x" (mkSpan 8 9) None))
                              (mkSpan 8 9) None)
                      None)
                   (mkSpan 0 9) None)
           example_let_state
           (mkResolveState [] ∅ ∅ ["x"; "x"] [[mkLocalInfo "x" (mkSpan 4 5) None]])
           (mkExpr (KLet (mkIdent "x" (mkSpan 4 5)) None
                      (mkExpr (KIdent (mkIdentWithRes "x" (mkSpan 8 9)
                                         (Some (ResLocal 0))))
                              (mkSpan 8 9) None)
                      (Some (mkLocalInfo "x" (mkSpan 4 5) None)))
                   (mkSpan 0 9) None)).
  reflexivity.
Defined.

(** X2: a block is visited with a fresh list of locals on the block
    stack; when the visit returns, the scope stack and the block stack
    are as they were before the block, and the block's [locals] hold one
    record for every name that the block's expressions had left on the
    scope stack, in order. *)
Theorem block_scopes_restored (gcx : GlobalContext) (ast : Pkg)
    (items : gmap string ItemId) (exprs : list Expr)
    (locals : option (list LocalInfo)) (span : Span) (ty : option Ty)
    (st st' : ResolveState) (e' : Expr) :
  resolver_expr gcx ast items (mkExpr (KBlock exprs locals) span ty) st
  = Ok (e', st') →
  r_scopes st' = r_scopes st
  ∧ r_blockLocals st' = r_blockLocals st
  ∧ ∃ exprs' st1 bound,
      mapM (resolver_expr gcx ast items) exprs
           (r_set_blockLocals (r_blockLocals st ++ [[]]) st) = Ok (exprs', st1)
      ∧ r_scopes st1 = r_scopes st ++ map local_name bound
      ∧ e' = mkExpr (KBlock exprs' (Some bound)) span None.
Proof.
  intros H. apply resolver_block_Ok in H
    as (exprs' & st1 & more & Hrun & Hs & Hb & -> & ->).
  - split_and!; [done..|]. by exists exprs', st1, more.
  - apply Forall_forall. intros e _. apply rsync_resolver_expr.
Qed.

Lemma block_scopes_restored_witness :
  r_scopes (mkResolveState [] ∅ ∅ ["a"] []) = ["a"]
  ∧ r_blockLocals (mkResolveState [] ∅ ∅ ["a"] []) = []
  ∧ ∃ exprs' st1 bound,
      mapM (resolver_expr example_gcx empty_pkg ∅)
           [mkExpr (KLet (mkIdent "x" (mkSpan 6 7)) None
                      (mkExpr (KLiteral (LitInt 1 LitInt_Int)) (mkSpan 10 11) None)
                      None) (mkSpan 6 7) None]
           (r_set_blockLocals ([] ++ [[]]) (mkResolveState [] ∅ ∅ ["a"] []))
      = Ok (exprs', st1)
      ∧ r_scopes st1 = ["a"] ++ map local_name bound
      ∧ mkExpr (KBlock
                  [mkExpr (KLet (mkIdent "x" (mkSpan 6 7)) None
                     (mkExpr (KLiteral (LitInt 1 LitInt_Int)) (mkSpan 10 11) None)
                     (Some (mkLocalInfo "x" (mkSpan 6 7) None))) (mkSpan 6 7) None]
                  (Some [mkLocalInfo "x" (mkSpan 6 7) None]))
               (mkSpan 0 1) None
        = mkExpr (KBlock exprs' (Some bound)) (mkSpan 0 1) None.
Proof.
  apply (block_scopes_restored example_gcx empty_pkg ∅
           [mkExpr (KLet (mkIdent "x" (mkSpan 6 7)) None
                      (mkExpr (KLiteral (LitInt 1 LitInt_Int)) (mkSpan 10 11) None)
                      None) (mkSpan 6 7) None]
           None (mkSpan 0 1) None
           (mkResolveState [] ∅ ∅ ["a"] [])
           (mkResolveState [] ∅ ∅ ["a"] [])).
  reflexivity.
Defined.

(** X3: a [let] that is visited while no block is open cannot be
    resolved: once its right-hand side and its type are visited, the
    append to the innermost block's locals reads [blockLocals[-1]], which
    is [undefined], and a [TypeError] is raised. *)
Theorem let_outside_block_throws (gcx : GlobalContext) (ast : Pkg)
    (items : gmap string ItemId) (name : Ident) (type : option Type_)
    (rhs : Expr) (local : option LocalInfo) (span : Span) (ty : option Ty)
    (st st1 st2 : ResolveState) (rhs' : Expr) (type' : option Type_) :
  r_blockLocals st = [] →
  resolver_expr gcx ast items rhs st = Ok (rhs', st1) →
  optM (resolver_type ast items) type st1 = Ok (type', st2) →
  resolver_expr gcx ast items (mkExpr (KLet name type rhs local) span ty) st
  = Throw (ThrowTypeError "Cannot read properties of undefined (reading 'push')").
Proof.
  intros Hbl Hrhs Htype. cbn [resolver_expr f_type resolver_folder].
  unfold bind at 1. rewrite Hrhs. unfold bind at 1. rewrite Htype.
  assert (st2 = st1) as ->.
  { eapply preserves_optM in Htype; [done|apply _|].
    intros. apply resolver_type_state. }
  pose proof (safe_resolver_expr gcx ast items rhs st Hbl) as Hsafe.
  rewrite Hrhs in Hsafe. destruct Hsafe as [Hbl1 _].
  cbv [bind modify blockLocals_push_local gets]. cbn. by rewrite Hbl1.
Qed.

Lemma let_outside_block_throws_witness :
  resolver_expr example_gcx empty_pkg ∅
    (mkExpr (KLet (mkIdent "x" (mkSpan 4 5)) None
               (mkExpr (KLiteral (LitInt 1 LitInt_Int)) (mkSpan 8 9) None) None)
            (mkSpan 4 5) None)
    (mkResolveState [] ∅ ∅ [] [])
  = Throw (ThrowTypeError "Cannot read properties of undefined (reading 'push')").
Proof.
  apply (let_outside_block_throws example_gcx empty_pkg ∅
           (mkIdent "x" (mkSpan 4 5)) None
           (mkExpr (KLiteral (LitInt 1 LitInt_Int)) (mkSpan 8 9) None) None
           (mkSpan 4 5) None
           (mkResolveState [] ∅ ∅ [] []) (mkResolveState [] ∅ ∅ [] [])
           (mkResolveState [] ∅ ∅ [] [])
           (mkExpr (KLiteral (LitInt 1 LitInt_Int)) (mkSpan 8 9) None) None);
    reflexivity.
Defined.

(** X4: the resolver's own consistency check never fires.  Whatever
    package is resolved, [resolve] does not raise the plain [Error]
    "Scopes corrupted" of [popScope]: what it raises is a
    [CompilerError] or a [TypeError]. *)
Theorem resolve_scopes_never_corrupted (gcx : GlobalContext)
    (finalized : list Pkg) (ast : Pkg) (e : Exn) :
  resolve gcx finalized ast = Throw e →
  (∃ err, e = ThrowCompilerError err) ∨ (∃ msg, e = ThrowTypeError msg).
Proof.
  unfold resolve, resolveModule. intros H.
  assert (not_Error e) as He.
  { pose proof (resolveModule_with_safe (resolver_item gcx ast)
                  [packageName ast] (rootItems ast)) as Hsafe.
    specialize (Hsafe (ltac:(apply Forall_forall; intros i _;
                             apply safe_resolver_item))
                      (mkResolveState finalized ∅ ∅ [] []) eq_refl).
    destruct (resolveModule_with _ _ _ _) as [[items' st]|e0]; [done|].
    by injection H as <-. }
  destruct e as [err|msg|msg]; [left; eauto|by destruct (He msg)|right; eauto].
Qed.

Lemma resolve_scopes_never_corrupted_witness :
  (∃ err, ThrowCompilerError (mkCompilerError "cannot find c" (mkSpan 18 19))
          = ThrowCompilerError err)
  ∨ (∃ msg, ThrowCompilerError (mkCompilerError "cannot find c" (mkSpan 18 19))
            = ThrowTypeError msg).
Proof.
  apply (resolve_scopes_never_corrupted example_gcx []
           (example_build example_unresolved_items)).
  reflexivity.
Defined.

(** ** Module contents and names in scope *)

Lemma Map_of_entries_snoc entries e :
  Map_of_entries (entries ++ [e]) = <[e.1 := e.2]> (Map_of_entries entries).
Proof. unfold Map_of_entries. by rewrite foldl_app. Qed.

Lemma contents_entries_snoc contents item :
  Map_of_entries (contents_entries (contents ++ [item]))
  = <[item_name item := item_id item]> (Map_of_entries (contents_entries contents)).
Proof.
  unfold contents_entries. rewrite map_app. cbn [map].
  by rewrite Map_of_entries_snoc.
Qed.

Lemma Map_of_entries_None (contents : list Item) name :
  Map_of_entries (contents_entries contents) !! name = None
  ↔ ∀ item, item ∈ contents → item_name item ≠ name.
Proof.
  induction contents as [|item contents IH] using rev_ind.
  { split; [by intros _ ? ?%elem_of_nil|done]. }
  rewrite contents_entries_snoc.
  rewrite lookup_insert_None, IH. split.
  - intros [Hrest Hne] i [Hi| ->%list_elem_of_singleton]%elem_of_app; [by apply Hrest|done].
  - intros H. split.
    + intros i Hi. apply H, elem_of_app. by left.
    + apply H, elem_of_app. right. by apply list_elem_of_singleton.
Qed.

Lemma Map_of_entries_Some (contents : list Item) name id :
  Map_of_entries (contents_entries contents) !! name = Some id →
  ∃ item, item ∈ contents ∧ item_name item = name ∧ item_id item = id.
Proof.
  induction contents as [|item contents IH] using rev_ind; [done|].
  rewrite contents_entries_snoc.
  destruct (decide (item_name item = name)) as [<-|Hne].
  - rewrite lookup_insert_eq. intros [= <-]. exists item.
    split; [|done]. apply elem_of_app. right. by apply list_elem_of_singleton.
  - rewrite lookup_insert_ne by done. intros (i & Hi & ? & ?)%IH.
    exists i. split; [|done]. apply elem_of_app. by left.
Qed.

Lemma Map_of_entries_NoDup (contents : list Item) item :
  NoDup (map item_name contents) → item ∈ contents →
  Map_of_entries (contents_entries contents) !! item_name item
  = Some (item_id item).
Proof.
  induction contents as [|last contents IH] using rev_ind;
    [by intros _ ?%elem_of_nil|].
  rewrite map_app, contents_entries_snoc. cbn [map].
  intros (Hnodup & Hdisj & _)%NoDup_app
         [Hin| ->%list_elem_of_singleton]%elem_of_app.
  - rewrite lookup_insert_ne; [by apply IH|].
    intros Heq. apply (Hdisj (item_name item)).
    + apply list_elem_of_fmap. eauto.
    + rewrite <- Heq. by apply list_elem_of_singleton.
  - by rewrite lookup_insert_eq.
Qed.

(** X5: the contents of a module are computed once.  After a member
    lookup on a module has returned, every later lookup on that module,
    in any state whose cache still holds what was cached, answers from the
    same table and changes nothing: no package is loaded again.  For a
    module written inline that was not cached before, the table maps a
    name to an item id exactly when the module has an item of that name,
    and to the id of that item when the names are distinct. *)
Theorem resolveModItem_memoised (gcx : GlobalContext) (module : Item)
    (name : string) (st st1 : ResolveState) (r : option ItemId) :
  resolveModItem gcx module name st = Ok (r, st1) →
  ∃ table : gmap string ItemId,
    r = table !! name
    ∧ (∀ st2 name',
         r_modContentsCache st1 ⊆ r_modContentsCache st2 →
         resolveModItem gcx module name' st2 = Ok (table !! name', st2))
    ∧ (∀ contents,
         r_modContentsCache st !! item_id module = None →
         item_kind module = IMod contents →
         (∀ name', table !! name' = None
                   ↔ ∀ item, item ∈ contents → item_name item ≠ name')
         ∧ (∀ name' id, table !! name' = Some id →
              ∃ item, item ∈ contents ∧ item_name item = name'
                      ∧ item_id item = id)
         ∧ (NoDup (map item_name contents) →
            ∀ item, item ∈ contents →
                    table !! item_name item = Some (item_id item))).
Proof.
  intros H. apply resolveModItem_Ok in H as Hok.
  destruct Hok as (_ & table & Hcache & ->).
  exists table. split_and!; [done| |].
  - intros st2 name' Hsub. apply resolveModItem_cached.
    by eapply lookup_weaken.
  - intros contents Hnone Hkind.
    assert (table = Map_of_entries (contents_entries contents)) as ->.
    { revert H Hcache. unfold resolveModItem, bind, gets, modify, ret.
      rewrite Hnone, Hkind. intros [= _ <-]. cbn.
      rewrite lookup_insert_eq. by intros [= <-]. }
    split_and!.
    + intros. apply Map_of_entries_None.
    + intros. by apply Map_of_entries_Some.
    + intros. by apply Map_of_entries_NoDup.
Qed.

Lemma resolveModItem_memoised_witness :
  ∃ table : gmap string ItemId,
    Some (mkItemId 0 2) = table !! "g"
    ∧ resolveModItem example_gcx
        (gcx_findItem example_gcx (mkItemId 0 1) (example_build example_mod_items))
        "h" (mkResolveState [] {[mkItemId 0 1 := {["g" := mkItemId 0 2]}]} ∅ [] [])
      = Ok (table !! "h",
            mkResolveState [] {[mkItemId 0 1 := {["g" := mkItemId 0 2]}]} ∅ [] []).
Proof.
  destruct (resolveModItem_memoised example_gcx
              (gcx_findItem example_gcx (mkItemId 0 1)
                 (example_build example_mod_items))
              "g" (mkResolveState [] ∅ ∅ [] [])
              (mkResolveState [] {[mkItemId 0 1 := {["g" := mkItemId 0 2]}]} ∅ [] [])
              (Some (mkItemId 0 2)))
    as (table & Hr & Hlater & _).
  - reflexivity.
  - exists table. split; [exact Hr|]. apply Hlater. reflexivity.
Defined.

(** The table that [resolveModule] gathers is the one [new Map] builds
    from the same entries. *)
Lemma gather_items_table contents items m :
  gather_items contents items = Ok m →
  m = foldl (λ m e, <[e.1 := e.2]> m) items (contents_entries contents).
Proof.
  revert items. induction contents as [|item rest IH]; intros items; cbn.
  { by intros [= <-]. }
  destruct (items !! item_name item); [done|]. apply IH.
Qed.

(** X6: when the duplicate check of [resolveModule] passes, every item
    of the module is in scope under its name throughout the module: an
    identifier with the name of an item, not shadowed by a local,
    resolves to that item's id, whatever packages are loaded and even if
    the name is also a built-in. *)
Theorem module_items_in_scope (ast : Pkg) (contents : list Item)
    (items : gmap string ItemId) (item : Item) (span : Span)
    (st : ResolveState) :
  gather_items contents ∅ = Ok items →
  item ∈ contents →
  (∀ i, r_scopes st !! i ≠ Some (item_name item)) →
  resolveIdent ast items (mkIdent (item_name item) span) st
  = Ok (ResItem (item_id item), st).
Proof.
  intros Hg Hin Hscopes.
  apply gather_items_Ok in Hg as Hok. destruct Hok as [Hnodup _].
  apply gather_items_table in Hg. fold (Map_of_entries (contents_entries contents)) in Hg.
  subst items. unfold resolveIdent, bind, gets. cbn.
  destruct (scan_scopes _ _ _ _) as [index|] eqn:Hscan.
  { apply scan_scopes_Some in Hscan as (i & _ & Hi & _). by destruct (Hscopes i). }
  by rewrite Map_of_entries_NoDup.
Qed.

Lemma module_items_in_scope_witness :
  resolveIdent (example_build example_mod_items)
    {["m" := mkItemId 0 1; "main" := mkItemId 0 3]}
    (mkIdent "m" (mkSpan 48 49)) (mkResolveState [] ∅ ∅ [] [])
  = Ok (ResItem (mkItemId 0 1), mkResolveState [] ∅ ∅ [] []).
Proof.
  apply (module_items_in_scope (example_build example_mod_items)
           (rootItems (example_build example_mod_items))
           {["m" := mkItemId 0 1; "main" := mkItemId 0 3]}
           (gcx_findItem example_gcx (mkItemId 0 1)
              (example_build example_mod_items))
           (mkSpan 48 49) (mkResolveState [] ∅ ∅ [] [])).
  - reflexivity.
  - vm_compute. constructor.
  - intros i. cbn. by rewrite lookup_nil.
Defined.

(** X7: the order in which names shadow each other.  A name on the scope
    stack resolves to a local whatever else carries it; a name that is
    not on the stack and names an item of the module resolves to that
    item, even if a package or a built-in has the same name; a name that
    is neither resolves to the root of the first package of that name
    (the current one first), even if it is also a built-in; and only a
    name that is none of these resolves to a built-in. *)
Theorem resolveIdent_shadowing (ast : Pkg) (items : gmap string ItemId)
    (ident : Ident) (st : ResolveState) :
  ((∃ i, r_scopes st !! i = Some (ident_name ident)) →
   ∃ index, resolveIdent ast items ident st = Ok (ResLocal index, st))
  ∧ ((∀ i, r_scopes st !! i ≠ Some (ident_name ident)) →
     ∀ id, items !! ident_name ident = Some id →
           resolveIdent ast items ident st = Ok (ResItem id, st))
  ∧ ((∀ i, r_scopes st !! i ≠ Some (ident_name ident)) →
     items !! ident_name ident = None →
     ∀ before crate after,
       ast :: r_finalizedCrates st = before ++ crate :: after →
       packageName crate = ident_name ident →
       (∀ c, c ∈ before → packageName c ≠ ident_name ident) →
       resolveIdent ast items ident st
       = Ok (ResItem (ItemId_pkgRoot (pkg_id crate)), st))
  ∧ (∀ name, resolveIdent ast items ident st = Ok (ResBuiltin name, st) →
       name = ident_name ident
       ∧ name ∈ BUILTINS
       ∧ (∀ i, r_scopes st !! i ≠ Some name)
       ∧ items !! name = None
       ∧ ∀ c, c ∈ ast :: r_finalizedCrates st → packageName c ≠ name).
Proof.
  assert (∀ n, (∀ i, r_scopes st !! i ≠ Some (ident_name ident)) →
               scan_scopes (r_scopes st) (ident_name ident)
                           (length (r_scopes st) - 1) n = None) as Hnone.
  { intros n H. destruct (scan_scopes _ _ _ _) eqn:Hscan; [|done].
    apply scan_scopes_Some in Hscan as (i & _ & Hi & _). by destruct (H i). }
  split_and!.
  - intros [i Hi]. unfold resolveIdent, bind, gets.
    destruct (scan_scopes _ _ _ _) as [index|] eqn:Hscan; [by eexists|].
    eapply scan_scopes_None in Hscan; [done|]. by eapply lookup_lt_Some.
  - intros Hs id Hid. unfold resolveIdent, bind, gets. by rewrite Hnone, Hid.
  - intros Hs Hid before crate after Hsplit Hname Hbefore.
    unfold resolveIdent, bind, gets. rewrite Hnone, Hid by done. cbn [ret].
    rewrite Hsplit.
    assert (find (λ c, bool_decide (ident_name ident = packageName c))
                 (before ++ crate :: after) = Some crate) as ->; [|done].
    clear Hsplit. induction before as [|c before IH]; cbn.
    + by rewrite bool_decide_eq_true_2.
    + rewrite bool_decide_eq_false_2.
      * apply IH. intros c' Hc'. apply Hbefore. by right.
      * intros Heq. apply (Hbefore c); [by left|done].
  - intros name. unfold resolveIdent, bind, gets.
    destruct (scan_scopes _ _ _ _) as [index|] eqn:Hscan; [done|].
    destruct (items !! ident_name ident) eqn:Hitems; [done|]. cbn [ret].
    destruct (find _ _) as [c|] eqn:Hfind; [done|].
    destruct (bool_decide (ident_name ident ∈ BUILTINS)) eqn:Hb; [|done].
    intros [= <-]. split_and!; [done|by apply bool_decide_eq_true in Hb| |done|].
    + intros i Hi. eapply scan_scopes_None in Hscan; [done|].
      by eapply lookup_lt_Some.
    + intros c Hc Heq. eapply find_none in Hfind; [|by apply list_elem_of_In].
      by rewrite bool_decide_eq_true_2 in Hfind.
Qed.

Lemma resolveIdent_shadowing_witness :
  ∃ index,
    resolveIdent empty_pkg {["print" := mkItemId 0 1]}
      (mkIdent "print" (mkSpan 0 5)) (mkResolveState [] ∅ ∅ ["print"] [])
    = Ok (ResLocal index, mkResolveState [] ∅ ∅ ["print"] []).
Proof.
  apply (proj1 (resolveIdent_shadowing empty_pkg {["print" := mkItemId 0 1]}
                  (mkIdent "print" (mkSpan 0 5))
                  (mkResolveState [] ∅ ∅ ["print"] []))).
  by exists 0.
Defined.

(** ** The by-id tables *)

Section Covers.
Context {S : Type} (table : S → gmap ItemId Item).

Lemma covers_mapM (f : Item → M S Item) (xs : list Item) :
  Forall (λ x, ∀ st y st', f x st = Ok (y, st') → covers table y st st') xs →
  ∀ st ys st',
    mapM f xs st = Ok (ys, st') →
    (NoDup (flat_map ids_of ys) →
     ∀ i, i ∈ flat_map items_of ys → table st' !! item_id i = Some i)
    ∧ (∀ id, id ∉ flat_map ids_of ys → table st' !! id = table st !! id).
Proof.
  induction 1 as [|x xs Hx _ IH]; intros st ys st'; cbn [mapM].
  { intros [= <- <-]. split; [by intros _ i ?%elem_of_nil|done]. }
  intros (y & s1 & Hy & H)%bind_Ok.
  apply bind_Ok in H as (ys' & s2 & Hys & [= <- <-]).
  destruct (Hx _ _ _ Hy) as [Hy1 Hy2]. destruct (IH _ _ _ Hys) as [IH1 IH2].
  cbn [flat_map]. split.
  - intros (Hn1 & Hdisj & Hn2)%NoDup_app i [Hi|Hi]%elem_of_app.
    + rewrite IH2; [by apply Hy1|]. apply Hdisj.
      apply list_elem_of_fmap. eauto.
    + by apply IH1.
  - intros id [Hid1 Hid2]%not_elem_of_app. rewrite IH2 by done. by apply Hy2.
Qed.

(** An item without items below it, recorded after a visit that left the
    table alone. *)
Lemma covers_leaf (item' : Item) (st s1 : S) :
  items_of item' = [item'] →
  table s1 = <[item_id item' := item']> (table st) →
  covers table item' st s1.
Proof.
  intros Hitems Htable. unfold covers, ids_of. rewrite Hitems, Htable. cbn. split.
  - intros _ i ->%list_elem_of_singleton. by rewrite lookup_insert_eq.
  - intros id Hid%not_elem_of_cons. by rewrite lookup_insert_ne by naive_solver.
Qed.

(** A module, recorded after its contents. *)
Lemma covers_mod contents' span id name defPath (st s0 s1 s2 : S) :
  table s0 = table st →
  ((NoDup (flat_map ids_of contents') →
    ∀ i, i ∈ flat_map items_of contents' → table s1 !! item_id i = Some i)
   ∧ (∀ id, id ∉ flat_map ids_of contents' → table s1 !! id = table s0 !! id)) →
  table s2 = <[id := mkItem (IMod contents') span id name defPath]> (table s1) →
  covers table (mkItem (IMod contents') span id name defPath) st s2.
Proof.
  intros H0 [H1 H2] Htable. unfold covers, ids_of. cbn [items_of map].
  rewrite Htable, <- flat_map_ids_of. cbn [item_id]. split.
  - intros [Hid Hnodup]%NoDup_cons i [->|Hi]%elem_of_cons.
    + by rewrite lookup_insert_eq.
    + rewrite lookup_insert_ne; [by apply H1|].
      intros ->. apply Hid. rewrite flat_map_ids_of.
      apply list_elem_of_fmap. eauto.
  - intros id' [Hne Hid']%not_elem_of_cons.
    rewrite lookup_insert_ne by done. by rewrite H2, H0.
Qed.
End Covers.

(** ** What resolution keeps and what it adds *)

Lemma ensures_mapM_rel {S A B} (R : A → B → Prop) (f : A → M S B) (xs : list A) :
  Forall (λ x, ensures (R x) (f x)) xs → ensures (Forall2 R xs) (mapM f xs).
Proof.
  induction 1 as [|x xs Hx _ IH]; cbn [mapM]; [by apply ensures_ret|].
  eapply ensures_bind; [done|]. intros y Hy.
  eapply ensures_bind; [done|]. intros ys Hys.
  apply ensures_ret. by constructor.
Qed.

Lemma resolved_like_contents modName (contents contents' : list Item) :
  Forall2 (resolved_like modName) contents contents' →
  forallb (defPaths_ok modName) contents' = true
  ∧ map item_key (flat_map items_of contents')
    = map item_key (flat_map items_of contents).
Proof.
  induction 1 as [|i i' l l' [Hd Hk] _ [IHd IHk]]; [done|]. cbn.
  rewrite Hd, IHd, !map_app, Hk, IHk. done.
Qed.

(** [superFoldItem] on an item that is not a module rebuilds the item
    around the folded parts. *)
Lemma superFoldItem_shape {S} (folder : Folder S) k span id name defPath :
  (∀ contents, k ≠ IMod contents) →
  ensures (λ a, ∃ k', a = mkItem k' span id name defPath
                      ∧ item_tag a = item_tag (mkItem k span id name defPath)
                      ∧ ∀ contents, k' ≠ IMod contents)
          (superFoldItem (mkItem k span id name defPath) folder).
Proof.
  intros Hk. destruct k; cbn [superFoldItem]; try (by destruct (Hk contents));
    repeat first
      [ apply ensures_ret; by eexists
      | eapply ensures_bind; [apply ensures_any|intros ? _] ].
Qed.

Section ResolverKeeps.
Context (gcx : GlobalContext) (ast : Pkg).

Lemma resolveModule_with_like
    (item : list string → gmap string ItemId → Item → M ResolveState Item)
    modName contents :
  Forall (λ i, ∀ modName items,
            ensures (resolved_like modName i) (item modName items i)) contents →
  ensures (Forall2 (resolved_like modName) contents)
          (resolveModule_with item modName contents).
Proof.
  intros IH. unfold resolveModule_with.
  destruct (gather_items contents ∅) as [items|e]; [|apply ensures_throw].
  eapply ensures_bind; [apply ensures_any|intros outer _].
  eapply ensures_bind; [apply ensures_any|intros [] _].
  eapply ensures_bind.
  { apply (ensures_mapM_rel (resolved_like modName)).
    eapply Forall_impl; [done|]. intros i Hi. apply Hi. }
  intros contents' Hc.
  eapply ensures_bind; [apply ensures_any|intros [] _].
  by apply ensures_ret.
Qed.

Lemma resolver_item_like item :
  ∀ modName items,
    ensures (resolved_like modName item)
            (resolver_item gcx ast modName items item).
Proof.
  induction item as [k IH span id name defPath
    |params body returnType ty|genericParams type ty
    |module func params returnType ty|contents IHc| |type init ty
    |segments res|err]
    using Item_mind
    with (P0 := λ k, ∀ span id name defPath modName items,
                  ensures (resolved_like modName (mkItem k span id name defPath))
                    (resolver_item gcx ast modName items
                       (mkItem k span id name defPath)));
    try done; intros span id name defPath modName items;
    cbn [resolver_item]; unfold defaultFolder_item;
    (match goal with
     | |- ensures (resolved_like ?m ?i) _ => apply (ensures_bind (resolved_like m i))
     end;
     [|intros newItem Hnew;
       eapply ensures_bind; [apply ensures_any|intros [] _];
       by apply ensures_ret]);
    try (eapply ensures_bind; [by apply superFoldItem_shape|];
         intros a (k' & -> & Htag & Hk'); apply ensures_ret;
         split; cbn;
         [rewrite bool_decide_eq_true_2 by done; by destruct k'
         |destruct k'; try done; by destruct (Hk' contents)]).
  2: { (* mod *)
    eapply ensures_bind;
      [apply resolveModule_with_like; by apply list_all_Forall|].
    intros contents' [Hd Hk]%resolved_like_contents. apply ensures_ret.
    split; cbn; [|by rewrite Hk].
    by rewrite bool_decide_eq_true_2, Hd. }
  all: repeat first
    [ apply ensures_ret; split; cbn; [by rewrite bool_decide_eq_true_2|done]
    | eapply ensures_bind; [apply ensures_any|intros ? _] ].
Qed.
End ResolverKeeps.

(** X8: resolution keeps the items of a package: the resolved package
    has the same items in the same order, each with the id, name, span
    and kind it had. *)
Theorem resolve_keeps_items (gcx : GlobalContext) (finalized : list Pkg)
    (ast pkg' : Pkg) (finalized' : list Pkg) :
  resolve gcx finalized ast = Ok (pkg', finalized') →
  map item_key (pkg_items pkg') = map item_key (pkg_items ast)
  ∧ pkg_id pkg' = pkg_id ast
  ∧ packageName pkg' = packageName ast.
Proof.
  unfold resolve, resolveModule.
  destruct (resolveModule_with _ _ _ _) as [[rootItems' st]|e] eqn:H; [|done].
  intros [= <- <-]. split; [|done]. unfold pkg_items. cbn.
  eapply resolveModule_with_like in H.
  - by apply resolved_like_contents in H as [_ ?].
  - apply Forall_forall. intros item _. apply resolver_item_like.
Qed.

Lemma resolve_keeps_items_witness :
  map item_key (pkg_items (example_resolve example_mod_items))
  = map item_key (pkg_items (example_build example_mod_items))
  ∧ pkg_id (example_resolve example_mod_items)
    = pkg_id (example_build example_mod_items)
  ∧ packageName (example_resolve example_mod_items)
    = packageName (example_build example_mod_items).
Proof.
  apply (resolve_keeps_items example_gcx [] (example_build example_mod_items)
           (example_resolve example_mod_items)
           (expect (resolve example_gcx [] (example_build example_mod_items))
                   (empty_pkg, [])).2).
  reflexivity.
Defined.

(** X9: every item of a resolved package carries its definition path:
    the package name, the names of the modules around it from the
    outside in, and its own name. *)
Theorem resolved_items_have_defPath (gcx : GlobalContext)
    (finalized : list Pkg) (ast pkg' : Pkg) (finalized' : list Pkg) :
  resolve gcx finalized ast = Ok (pkg', finalized') →
  forallb (defPaths_ok [packageName ast]) (rootItems pkg') = true.
Proof.
  unfold resolve, resolveModule.
  destruct (resolveModule_with _ _ _ _) as [[rootItems' st]|e] eqn:H; [|done].
  intros [= <- <-]. cbn.
  eapply resolveModule_with_like in H.
  - by apply resolved_like_contents in H as [? _].
  - apply Forall_forall. intros item _. apply resolver_item_like.
Qed.

Lemma resolved_items_have_defPath_witness :
  forallb (defPaths_ok ["main"]) (rootItems (example_resolve example_mod_items))
  = true
  ∧ map item_defPath (pkg_items (example_resolve example_mod_items))
    = [Some ["main"; "m"]; Some ["main"; "m"; "g"]; Some ["main"; "main"]].
Proof.
  split; [|reflexivity].
  apply (resolved_items_have_defPath example_gcx []
           (example_build example_mod_items)
           (example_resolve example_mod_items)
           (expect (resolve example_gcx [] (example_build example_mod_items))
                   (empty_pkg, [])).2).
  reflexivity.
Defined.

#[local] Instance b_same_preorder : PreOrder b_same.
Proof. split; [done|]. unfold b_same. intros a b c. congruence. Qed.

Lemma b_same_assigner_expr e : preserves b_same (assigner_expr e).
Proof.
  intros st e' st' H.
  destruct (assigner_expr_spec e st) as (e2 & st2 & Hrun & -> & _).
  rewrite Hrun in H. by injection H as <- <-.
Qed.

Lemma b_same_bind {A B} (m : M BuildState A) (f : A → M BuildState B) :
  preserves b_same m → (∀ a, preserves b_same (f a)) →
  preserves b_same (bind m f).
Proof. apply preserves_bind, _. Qed.

Lemma b_same_ret {A} (a : A) : preserves b_same (ret a).
Proof. apply preserves_ret, _. Qed.

Lemma b_same_mapM {A B} (f : A → M BuildState B) (xs : list A) :
  (∀ a, preserves b_same (f a)) → preserves b_same (mapM f xs).
Proof. intros Hf. apply preserves_mapM; [apply _|]. by apply Forall_forall. Qed.

Lemma b_same_optM {A B} (f : A → M BuildState B) (o : option A) :
  (∀ a, preserves b_same (f a)) → preserves b_same (optM f o).
Proof. intros Hf. apply preserves_optM; [apply _|]. intros. apply Hf. Qed.

(** The parts of an item that is not a module are folded without a
    write to the table. *)
Lemma b_same_superFoldItem pkgId k span id name defPath :
  (∀ contents, k ≠ IMod contents) →
  preserves b_same
    (superFoldItem (mkItem k span id name defPath)
       (assigner_folder (assigner_item pkgId) assigner_expr)).
Proof.
  intros Hk. destruct k; try (by destruct (Hk contents));
    cbn [superFoldItem foldArgs f_expr f_type assigner_folder];
    repeat first
      [ apply b_same_ret
      | apply b_same_assigner_expr
      | apply b_same_bind; [|intros]
      | apply b_same_mapM; intros
      | apply b_same_optM; intros
      | match goal with
        | |- preserves _ (match ?x with _ => _ end) => destruct x
        end ].
Qed.

Lemma assigner_item_inv pkgId k span id name defPath st item' st' :
  assigner_item pkgId (mkItem k span id name defPath) st = Ok (item', st') →
  ∃ folded s1,
    superFoldItem (mkItem k span id name defPath)
      (assigner_folder (assigner_item pkgId) assigner_expr)
      (mkBuildState (mkIds (S (ids_counter (b_itemId st)))) (b_loopId st)
                    (b_newItemsById st))
    = Ok (folded, s1)
    ∧ item' = with_id folded (mkItemId pkgId (ids_counter (b_itemId st)))
    ∧ b_newItemsById st' = <[item_id item' := item']> (b_newItemsById s1).
Proof.
  cbn [assigner_item]. unfold defaultFolder_item.
  intros (newItem & s2 & Hinner & H)%bind_Ok.
  cbv [bind modify ret] in H. injection H as <- <-.
  apply bind_Ok in Hinner as (n & s0 & Hn & Hinner).
  cbv [next_itemId Ids_next] in Hn. injection Hn as <- <-.
  apply bind_Ok in Hinner as (folded & s1 & Hfold & [= <- <-]).
  by exists folded, s1.
Qed.

(** The builder records every item it numbers. *)
Lemma assigner_item_covers pkgId item :
  ∀ st item' st',
    assigner_item pkgId item st = Ok (item', st') →
    covers b_newItemsById item' st st'.
Proof.
  induction item as [k IH span id name defPath
    |params body returnType ty|genericParams type ty
    |module func params returnType ty|contents IHc| |type init ty
    |segments res|err]
    using Item_mind
    with (P0 := λ k, ∀ span id name defPath st item' st',
                  assigner_item pkgId (mkItem k span id name defPath) st
                  = Ok (item', st') →
                  covers b_newItemsById item' st st');
    try done; try (by apply IH);
    intros span id name defPath st item' st'
           (folded & s1 & Hfold & -> & Htable)%assigner_item_inv.
  4: { (* mod *)
    cbn [superFoldItem f_item assigner_folder] in Hfold.
    apply bind_Ok in Hfold as (contents' & s2 & Hmap & [= <- <-]).
    cbn [with_id] in *. apply list_all_Forall in IHc.
    eapply covers_mod; [|by eapply (covers_mapM b_newItemsById)|done]. done. }
  all: apply b_same_superFoldItem in Hfold as Hsame; [|done];
    apply superFoldItem_shape in Hfold as (k' & -> & _ & Hk'); [|done];
    cbn [with_id] in *;
    (apply covers_leaf; [destruct k'; try done; by destruct (Hk' contents)|]);
    by rewrite Htable, Hsame.
Qed.

(** X10: every item of a package that the builder returns is found in
    the package's [itemsById] under its id, and the table holds nothing
    else. *)
Theorem buildPkg_table (name : string) (parsed : list Item) (pkgId : nat)
    (file : LoadedFile) (fatal : option ErrorEmitted) :
  ∃ built,
    buildPkg name parsed pkgId file fatal = Ok built
    ∧ (∀ item, item ∈ pkg_items built →
               itemsById built !! item_id item = Some item)
    ∧ (∀ id item, itemsById built !! id = Some item →
                  item ∈ pkg_items built ∧ item_id item = id).
Proof.
  destruct (buildPkg_spec name parsed pkgId file fatal)
    as (built & Hrun & _ & Hids & _).
  exists built. split; [done|].
  assert (NoDup (pkg_itemIds built)) as Hnodup.
  { rewrite Hids. apply NoDup_fmap_2; [by intros ?? [= ->]|apply NoDup_seq]. }
  revert Hrun Hnodup. unfold buildPkg, foldAst, pkg_itemIds, pkg_items.
  cbn [Ids_next Ids_new ids_counter rootItems f_item assigner assigner_folder].
  intros Hrun Hnodup. unfold bind at 1 in Hrun.
  destruct (mapM _ _ _) as [[items' st']|e] eqn:Hmap; [|done].
  cbn in Hrun. injection Hrun as <-. cbn [rootItems itemsById] in *.
  rewrite <- flat_map_ids_of in Hnodup.
  eapply (covers_mapM b_newItemsById) in Hmap as [H1 H2].
  2: { apply Forall_forall. intros item _. apply assigner_item_covers. }
  split; [by apply H1|].
  intros id item Hid.
  destruct (decide (id ∈ flat_map ids_of items')) as [Hin|Hout].
  - rewrite flat_map_ids_of in Hin.
    apply list_elem_of_fmap in Hin as (i & -> & Hi).
    rewrite (H1 Hnodup i Hi) in Hid. by injection Hid as <-.
  - rewrite (H2 id Hout) in Hid. done.
Qed.

Section ResolverCovers.
Context (gcx : GlobalContext) (ast : Pkg).

Ltac same_table :=
  repeat first
    [ apply same_items_ret
    | apply preserves_throw
    | apply same_items_gets
    | apply same_items_modify; by intros
    | apply same_items_popScope
    | apply same_items_eq, resolver_type_state
    | apply same_items_frame, rframe_resolver_expr
    | apply same_items_frame, rframe_ext, loadCrate_ext
    | apply same_items_bind; [|intros]
    | apply same_items_optM; intros
    | apply same_items_mapM; intros
    | apply same_items_forEachM; intros
    | match goal with
      | |- preserves _ (match ?x with _ => _ end) => destruct x
      | |- preserves _ (if ?x then _ else _) => destruct x
      end ].

Lemma same_items_run {A} (m : M ResolveState A) st a s1 :
  preserves same_items m → m st = Ok (a, s1) →
  r_newItemsById s1 = r_newItemsById st.
Proof. intros Hm H. by apply Hm in H. Qed.

(** The resolver records every item it returns. *)
Lemma resolver_item_covers item :
  ∀ modName items st item' st',
    resolver_item gcx ast modName items item st = Ok (item', st') →
    covers r_newItemsById item' st st'.
Proof.
  induction item as [k IH span id name defPath
    |params body returnType ty|genericParams type ty
    |module func params returnType ty|contents IHc| |type init ty
    |segments res|err]
    using Item_mind
    with (P0 := λ k, ∀ span id name defPath modName items st item' st',
                  resolver_item gcx ast modName items
                    (mkItem k span id name defPath) st = Ok (item', st') →
                  covers r_newItemsById item' st st');
    try done; try (by apply IH);
    intros span id name defPath modName items st item' st' Hrun;
    pose proof (resolver_item_like gcx ast _ _ _ _ _ _ Hrun) as [_ Hkey];
    cbn [resolver_item] in Hrun; unfold defaultFolder_item in Hrun;
    apply bind_Ok in Hrun as (newItem & s1 & Hinner & Hrun);
    cbv [bind modify ret] in Hrun; injection Hrun as -> <-.
  4: { (* mod *)
    apply bind_Ok in Hinner as (contents' & s2 & Hmod & [= <- <-]).
    unfold resolveModule_with in Hmod.
    destruct (gather_items contents ∅) as [names|e]; [|done].
    apply bind_Ok in Hmod as (outer & s3 & [= <- <-] & Hmod).
    apply bind_Ok in Hmod as ([] & s3 & [= <-] & Hmod).
    apply bind_Ok in Hmod as (contents2 & s4 & Hmap & Hmod).
    cbv [bind modify ret] in Hmod. injection Hmod as <- <-.
    apply list_all_Forall in IHc.
    eapply (covers_mod r_newItemsById _ _ _ _ _ st
              (r_set_blockLocals [] (r_set_scopes [] st)) s4); [done| |done].
    eapply (covers_mapM r_newItemsById); [|done].
    eapply Forall_impl; [done|]. intros i Hi. apply Hi. }
  all: apply covers_leaf;
    [ destruct item' as [[] ? ? ? ?]; try done; cbn in Hkey; by inversion Hkey
    | cbn; f_equal; eapply same_items_run; [|exact Hinner] ].
  all: cbn [superFoldItem foldArgs f_expr f_type resolver_folder];
    unfold loadCrate; same_table;
    apply same_items_frame, rframe_ext, crateLoader_ext.
Qed.
End ResolverCovers.

(** X11: when the item ids of a package are distinct (as they are after
    the builder and the validator), every item of the resolved package
    is found in its [itemsById] under its id, and the table holds nothing
    else. *)
Theorem resolve_table (gcx : GlobalContext) (finalized : list Pkg)
    (ast pkg' : Pkg) (finalized' : list Pkg) :
  resolve gcx finalized ast = Ok (pkg', finalized') →
  NoDup (pkg_itemIds ast) →
  (∀ item, item ∈ pkg_items pkg' → itemsById pkg' !! item_id item = Some item)
  ∧ (∀ id item, itemsById pkg' !! id = Some item →
                item ∈ pkg_items pkg' ∧ item_id item = id).
Proof.
  unfold resolve, resolveModule, pkg_itemIds, pkg_items.
  destruct (resolveModule_with _ _ _ _) as [[items' st]|e] eqn:H; [|done].
  intros [= <- <-] Hnodup. cbn [rootItems itemsById].
  assert (NoDup (flat_map ids_of items')) as Hnodup'.
  { eapply resolveModule_with_like in H as Hlike.
    2: { apply Forall_forall. intros item _. apply resolver_item_like. }
    apply resolved_like_contents in Hlike as [_ Hkey].
    rewrite flat_map_ids_of.
    assert (∀ l, map item_id l = map (λ k, k.1.1.1) (map item_key l)) as Hid.
    { intros l. by rewrite map_map. }
    by rewrite Hid, Hkey, <- Hid. }
  unfold resolveModule_with in H.
  destruct (gather_items (rootItems ast) ∅) as [names|e]; [|done].
  apply bind_Ok in H as (outer & s3 & [= <- <-] & H).
  apply bind_Ok in H as ([] & s3 & [= <-] & H).
  apply bind_Ok in H as (contents2 & s4 & Hmap & H).
  cbv [bind modify ret] in H. injection H as -> <-. cbn.
  eapply (covers_mapM r_newItemsById) in Hmap as [H1 H2].
  2: { apply Forall_forall. intros item _ ? ? ?. apply resolver_item_covers. }
  cbn in H2. split; [by apply H1|].
  intros id item Hid.
  destruct (decide (id ∈ flat_map ids_of items')) as [Hin|Hout].
  - rewrite flat_map_ids_of in Hin.
    apply list_elem_of_fmap in Hin as (i & -> & Hi).
    rewrite (H1 Hnodup' i Hi) in Hid. by injection Hid as <-.
  - rewrite (H2 id Hout) in Hid. done.
Qed.

Lemma resolve_table_witness :
  (∀ item, item ∈ pkg_items (example_resolve example_mod_items) →
           itemsById (example_resolve example_mod_items) !! item_id item
           = Some item)
  ∧ (∀ id item, itemsById (example_resolve example_mod_items) !! id = Some item →
                item ∈ pkg_items (example_resolve example_mod_items)
                ∧ item_id item = id).
Proof.
  apply (resolve_table example_gcx [] (example_build example_mod_items)
           (example_resolve example_mod_items)
           (expect (resolve example_gcx [] (example_build example_mod_items))
                   (empty_pkg, [])).2).
  - reflexivity.
  - apply (bool_decide_unpack _). vm_compute. exact I.
Defined.

(** ** What the validator reports *)

Section Emits.

Lemma emits_ret {A} (a : A) : emits true (ret a).
Proof. intros st a' st' [= <- <-]. exists []. by rewrite app_nil_r. Qed.

Lemma emits_throw {A} q e : emits q (throw (A:=A) e).
Proof. by intros st a st'. Qed.

Lemma emits_emitError err : emits false (v_emitError err).
Proof.
  intros st a st' H. unfold v_emitError in H. simplify_eq.
  exists [err]. cbn. split; [done|]. by split.
Qed.

Lemma emits_bind {A B} q1 q2 (m : M ValidateState A) (f : A → M ValidateState B) :
  emits q1 m → (∀ a, emits q2 (f a)) → emits (q1 && q2) (bind m f).
Proof.
  intros Hm Hf st b st' (a & s1 & H1 & H2)%bind_Ok.
  destruct (Hm _ _ _ H1) as (e1 & He1 & Hq1).
  destruct (Hf _ _ _ _ H2) as (e2 & He2 & Hq2).
  exists (e1 ++ e2). rewrite He2, He1, (assoc_L (++)). split; [done|].
  rewrite andb_true_iff, <- Hq1, <- Hq2. split.
  - by intros [-> ->]%app_eq_nil.
  - by intros [-> ->].
Qed.

Lemma emits_eq {A} q q' (m : M ValidateState A) : emits q m → q = q' → emits q' m.
Proof. by intros H <-. Qed.

Lemma emits_mapM {A B} (q : A → bool) (f : A → M ValidateState B) (xs : list A) :
  Forall (λ x, emits (q x) (f x)) xs → emits (forallb q xs) (mapM f xs).
Proof.
  induction 1 as [|x xs Hx _ IH]; cbn [mapM forallb]; [apply emits_ret|].
  apply emits_bind; [done|]. intros y.
  eapply emits_eq; [apply emits_bind; [done|]; intros; apply emits_ret|].
  by rewrite andb_true_r.
Qed.

Lemma emits_forEachM {A} (q : A → bool) (f : A → M ValidateState unit)
    (xs : list A) :
  Forall (λ x, emits (q x) (f x)) xs → emits (forallb q xs) (forEachM f xs).
Proof.
  induction 1 as [|x xs Hx _ IH]; cbn [forEachM forallb]; [apply emits_ret|].
  by apply emits_bind.
Qed.

Lemma emits_optM {A B} (q : A → bool) (f : A → M ValidateState B) (o : option A) :
  (∀ a, o = Some a → emits (q a) (f a)) →
  emits (match o with Some a => q a | None => true end) (optM f o).
Proof.
  destruct o as [a|]; cbn [optM]; intros Hf; [|apply emits_ret].
  eapply emits_eq; [apply emits_bind; [by apply Hf|]; intros; apply emits_ret|].
  by rewrite andb_true_r.
Qed.

Lemma emits_checkPrecedence k span inner side :
  emits (same_prec_class k inner) (checkPrecedence k span inner side).
Proof.
  unfold checkPrecedence, same_prec_class.
  destruct (expr_kind inner); try apply emits_ret.
  destruct decide as [Hne|Heq].
  - rewrite bool_decide_eq_false_2 by done.
    eapply emits_eq; [apply emits_bind; [apply emits_emitError|]|done].
    intros. apply emits_ret.
  - rewrite bool_decide_eq_true_2; [apply emits_ret|].
    by destruct (decide (binaryExprPrecedenceClass k = binaryExprPrecedenceClass binaryKind)).
Qed.

Lemma emits_modify q (f : ValidateState → ValidateState) :
  q = true → (∀ st, v_error (f st) = v_error st) → emits q (modify f).
Proof.
  intros -> Hf st a st' [= <- <-]. exists []. by rewrite app_nil_r, Hf.
Qed.

Lemma emits_gets {A} (f : ValidateState → A) : emits true (gets f).
Proof. intros st a st' [= <- <-]. exists []. by rewrite app_nil_r. Qed.

Lemma emits_optM_ret {A} (o : option A) : emits true (optM ret o).
Proof.
  destruct o; cbn [optM]; [|apply emits_ret].
  eapply emits_eq; [apply emits_bind; [apply emits_ret|]; intros; apply emits_ret|].
  done.
Qed.

(** Splits a visit of the validator into its steps and collects what
    they report. *)
Ltac emit :=
  repeat first
    [ apply emits_ret
    | eassumption
    | apply emits_emitError
    | apply emits_checkPrecedence
    | apply emits_optM_ret
    | apply emits_mapM; eassumption
    | eapply emits_bind; [|intros ?] ].

(** The expression visitor reports exactly the [let]s outside blocks and
    the mixed operators. *)
Lemma emits_validator_expr_let e :
  emits (quiet_expr e) (validator_expr e)
  ∧ match e with
    | mkExpr (KLet _ _ rhs _) _ _ => emits (quiet_expr rhs) (validator_expr rhs)
    | _ => True
    end.
Proof.
  induction e as [k IH span ty
    | |name type rhs IHrhs local|lhs IHl rhs IHr|exprs IHs locals|value|value
    |segments res|k lhs IHl rhs IHr|k rhs IHr|lhs IHl args IHargs
    |lhs IHl field|cond IHc then_ IHt else_ IHe|body IHb loopId|target
    |name fields IHf|fields IHf| |err
    |name expr IHe fieldIdx]
    using Expr_mind
    with (P0 := λ k, ∀ span ty,
                  (emits (quiet_expr (mkExpr k span ty))
                         (validator_expr (mkExpr k span ty)))
                  ∧ match k with
                    | KLet _ _ rhs _ => emits (quiet_expr rhs) (validator_expr rhs)
                    | _ => True
                    end)
         (P1 := λ f, let '(mkStructLiteralField _ expr _) := f in
                     emits (quiet_expr expr) (validator_expr expr));
    try done; try (by apply IH); try (by apply IHe); intros span ty;
    try destruct IHrhs as [IHrhs _];
    try destruct IHl as [IHl _];
    try destruct IHr as [IHr _];
    try destruct IHc as [IHc _];
    try destruct IHt as [IHt _];
    try destruct IHb as [IHb _];
    (split; [|done]);
    try apply list_all_Forall in IHs;
    try apply list_all_Forall in IHargs;
    try apply list_all_Forall in IHf;
    cbn [validator_expr superFoldExpr f_expr f_type f_ident validator_folder
         quiet_expr].
  all: try (eapply emits_eq; [emit|]; by rewrite ?andb_true_r, ?andb_assoc).
  - (* block *)
    eapply emits_eq;
      [apply emits_bind; [|intros; apply emits_ret]|by rewrite andb_true_r].
    apply (emits_forEachM
             (λ inner, match inner with
                       | mkExpr (KLet _ _ rhs _) _ _ => quiet_expr rhs
                       | _ => quiet_expr inner
                       end)).
    eapply Forall_impl; [exact IHs|]. intros [k sp t] [H1 H2].
    destruct k; (eapply emits_eq; [emit|by rewrite ?andb_true_r]).
  - (* call *)
    assert (Forall (λ e, emits (quiet_expr e) (validator_expr e)) args) as Hargs.
    { eapply Forall_impl; [exact IHargs|]. by intros ? [? _]. }
    eapply emits_eq; [emit|]. by rewrite ?andb_true_r.
  - (* if *)
    eapply emits_eq.
    { apply emits_bind; [done|]. intros.
      apply emits_bind; [done|]. intros.
      apply emits_bind; [|intros; apply emits_ret].
      apply (emits_optM quiet_expr). intros els Hels.
      by destruct (option_all_inv _ _ IHe els Hels). }
    by rewrite ?andb_true_r, ?andb_assoc.
  - (* struct literal *)
    eapply emits_eq.
    { apply emits_bind; [apply emits_ret|]. intros.
      apply emits_bind; [|intros; apply emits_ret].
      apply (emits_mapM (λ f, let '(mkStructLiteralField _ expr _) := f in
                              quiet_expr expr)).
      eapply Forall_impl; [exact IHf|]. intros [n e fi] He.
      eapply emits_eq; [emit|]. by rewrite ?andb_true_r. }
    by rewrite ?andb_true_r.
  - (* tuple literal *)
    assert (Forall (λ e, emits (quiet_expr e) (validator_expr e)) fields) as Hfields.
    { eapply Forall_impl; [exact IHf|]. by intros ? [? _]. }
    eapply emits_eq; [emit|]. by rewrite ?andb_true_r.
Qed.

Lemma emits_validator_expr e : emits (quiet_expr e) (validator_expr e).
Proof. apply emits_validator_expr_let. Qed.

Lemma emits_mapM_true {A B} (f : A → M ValidateState B) (xs : list A) :
  (∀ x, emits true (f x)) → emits true (mapM f xs).
Proof.
  intros Hf. eapply emits_eq.
  - apply (emits_mapM (λ _, true)). by apply Forall_forall.
  - by induction xs.
Qed.

Lemma emits_true_bind {A B} (m : M ValidateState A) (f : A → M ValidateState B) :
  emits true m → (∀ a, emits true (f a)) → emits true (bind m f).
Proof. intros. by apply (emits_bind true true). Qed.

Lemma emits_foldArgs item expr params :
  emits true (foldArgs (validator_folder item expr) params).
Proof.
  apply emits_mapM_true. intros p. apply emits_true_bind; [apply emits_ret|].
  intros. apply emits_ret.
Qed.

(** The item visitor reports what the bodies and initialisers below the
    item make the expression visitor report. *)
Lemma emits_validator_item item : emits (quiet_item item) (validator_item item).
Proof.
  induction item as [k IH span id name defPath
    |params body returnType ty|genericParams type ty
    |module func params returnType ty|contents IHc| |type init ty
    |segments res|err]
    using Item_mind
    with (P0 := λ k, ∀ span id name defPath,
                  emits (quiet_item (mkItem k span id name defPath))
                        (validator_item (mkItem k span id name defPath)));
    try done; intros span id name defPath;
    cbn [validator_item]; unfold defaultFolder_item;
    (eapply emits_eq;
     [apply emits_bind;
      [|intros; apply emits_bind;
        [apply emits_modify; [reflexivity|by intros]|intros; apply emits_ret]]
     |rewrite andb_true_r; reflexivity]);
    (eapply emits_eq;
     [apply emits_bind; [apply emits_gets|]; intros seen;
      destruct decide; [apply emits_throw|];
      apply emits_bind; [apply emits_modify; [reflexivity|by intros]|intros []]
     |reflexivity]);
    cbn [superFoldItem foldArgs f_item f_expr f_type validator_folder quiet_item].
  - (* function *)
    eapply emits_eq.
    { apply emits_bind; [apply emits_foldArgs|]. intros.
      apply emits_bind; [apply emits_validator_expr|]. intros.
      apply emits_bind; [apply emits_optM_ret|]. intros. apply emits_ret. }
    by rewrite ?andb_true_r.
  - (* type *)
    apply emits_true_bind; [|intros; apply emits_ret].
    destruct type.
    + apply emits_true_bind; [|intros; apply emits_ret].
      apply emits_mapM_true. intros.
      apply emits_true_bind; [apply emits_ret|]. intros. apply emits_ret.
    + apply emits_true_bind; [apply emits_ret|]. intros. apply emits_ret.
  - (* import *)
    apply emits_true_bind; [apply emits_foldArgs|]. intros.
    apply emits_true_bind; [apply emits_optM_ret|]. intros. apply emits_ret.
  - (* mod *)
    apply list_all_Forall in IHc.
    eapply emits_eq; [apply emits_bind; [by apply emits_mapM|]|].
    + intros. apply emits_ret.
    + by rewrite andb_true_r.
  - (* extern *) apply emits_ret.
  - (* global *)
    eapply emits_eq.
    { apply emits_bind; [apply emits_ret|]. intros.
      apply emits_bind; [apply emits_validator_expr|]. intros. apply emits_ret. }
    by rewrite ?andb_true_r.
  - (* use *) apply emits_ret.
  - (* error *) apply emits_ret.
Qed.
End Emits.

(** X12: what [validateAst] reports.  When it returns, the error sink
    is the one it was given followed by the diagnostics of this run, and
    there are none exactly when every [let] of the package is an element
    of a block and no binary expression has an operand that is a binary
    expression of another precedence class. *)
Theorem validateAst_silent_iff (ast : Pkg) (sink sink' : list CompilerError) :
  validateAst ast sink = Ok sink' →
  ∃ errs, sink' = sink ++ errs
          ∧ (errs = [] ↔ forallb quiet_item (rootItems ast) = true).
Proof.
  unfold validateAst, foldAst. cbn [f_item validator validator_folder].
  unfold bind at 1.
  destruct (mapM validator_item (rootItems ast) _) as [[items' st]|e] eqn:H;
    [|done].
  cbn. intros [= <-].
  apply (emits_mapM quiet_item) in H; [done|].
  apply Forall_forall. intros item _. apply emits_validator_item.
Qed.

Lemma validateAst_silent_iff_witness :
  ∃ errs,
    [mkCompilerError
       "mixing operators without parentheses is not allowed. left is +, which is different from <"
       (mkSpan 15 24)] = [] ++ errs
    ∧ (errs = [] ↔ forallb quiet_item (rootItems example_mixed_pkg) = true).
Proof.
  apply (validateAst_silent_iff example_mixed_pkg []).
  reflexivity.
Defined.

(** X13: which operators may stand next to each other without
    parentheses.  Two binary operators are of the same precedence class
    exactly when they are the same operator or both are arithmetic
    ([+], [-], [*], [/], [%]). *)
Theorem precedence_class_eq (k1 k2 : BinaryKind) :
  binaryExprPrecedenceClass k1 = binaryExprPrecedenceClass k2
  ↔ k1 = k2
    ∨ (includes (ARITH_TERM_KINDS ++ ARITH_FACTOR_KINDS) k1 = true
       ∧ includes (ARITH_TERM_KINDS ++ ARITH_FACTOR_KINDS) k2 = true).
Proof.
  destruct k1, k2; vm_compute; split; intros H; try done; try (by left);
    try (by right); try (by destruct H as [?|[? ?]]).
Qed.

(** ** Smaller checks of the body checker *)

(** X14: the operand types of unary operators.  [!] is admitted on
    [int], [i32] and [bool] and gives the operand's type without a
    diagnostic; every other application, and every application of unary
    [-], whatever the operand, appends exactly one diagnostic and gives
    the error type. *)
Theorem checkUnary_table `{env : TypeckEnv} (k : UnaryKind) (span : Span) (rhs : Expr)
    (rhsTy : Ty) (fcx : FuncCtx) :
  expr_ty rhs = Some rhsTy →
  (k = UNot → rhsTy ∈ [TyInt; TyI32; TyBool] →
   checkUnary k span rhs fcx
   = Ok (mkExpr (KUnary k rhs) span (Some rhsTy), fcx))
  ∧ (k = UNeg ∨ rhsTy ∉ [TyInt; TyI32; TyBool] →
     checkUnary k span rhs fcx
     = Ok (mkExpr (KUnary k rhs) span (Some (TyError errorEmitted)),
           fcx_report
             (mkCompilerError
                ("invalid types for unary operation: " +:+ UnaryKind_toString k
                 +:+ " " +:+ printTy rhsTy) span) fcx)).
Proof.
  intros Hty. unfold checkUnary, ty_of, bind. rewrite Hty. cbn [ret]. split.
  - intros -> Hin. rewrite bool_decide_eq_true_2 by done.
    by repeat (apply elem_of_cons in Hin as [->|Hin]; [done|]);
      apply elem_of_nil in Hin.
  - intros [->|Hout].
    + by rewrite bool_decide_eq_false_2.
    + destruct rhsTy; try (exfalso; apply Hout; set_solver);
        by rewrite andb_false_r.
Qed.

Lemma checkUnary_table_witness :
  checkUnary (env:=example_env0) UNeg (mkSpan 0 2)
    (mkExpr (KLiteral (LitInt 1 LitInt_Int)) (mkSpan 1 2) (Some TyInt))
    (example_fcx0 [])
  = Ok (mkExpr (KUnary UNeg
                  (mkExpr (KLiteral (LitInt 1 LitInt_Int)) (mkSpan 1 2) (Some TyInt)))
               (mkSpan 0 2) (Some (TyError errorEmitted)),
        fcx_report (mkCompilerError
                      ("invalid types for unary operation: - "
                       +:+ printTy (TypeckEnv:=example_env0) TyInt) (mkSpan 0 2))
                   (example_fcx0 [])).
Proof.
  apply (proj2 (checkUnary_table (env:=example_env0) UNeg (mkSpan 0 2)
                  (mkExpr (KLiteral (LitInt 1 LitInt_Int)) (mkSpan 1 2) (Some TyInt))
                  TyInt (example_fcx0 []) eq_refl)).
  by left.
Defined.

Lemma lvalue_root_chain e : is_chain e = is_name (lvalue_root e).
Proof.
  induction e as [k IH span ty| | | | | | | | | |
                  |lhs IHl field| | | | | | | |]
    using Expr_mind
    with (P0 := λ k, ∀ span ty,
                  is_chain (mkExpr k span ty) = is_name (lvalue_root (mkExpr k span ty)))
         (P1 := λ _, True); try done.
Qed.

(** X15: what may stand on the left of an assignment to a field.
    [checkLValue] accepts an identifier or a path followed by any number
    of field accesses, without a diagnostic; on anything else it reports
    "invalid left-hand side of assignment" once, at the expression the
    field accesses are rooted in; it never raises. *)
Theorem checkLValue_spec `{env : TypeckEnv} (e : Expr) (fcx : FuncCtx) :
  checkLValue e fcx
  = Ok (tt,
        if is_name (lvalue_root e) then fcx
        else fcx_report (mkCompilerError "invalid left-hand side of assignment"
                                         (expr_span (lvalue_root e))) fcx).
Proof.
  induction e as [k IH span ty| | | | | | | | | |
                  |lhs IHl field| | | | | | | |]
    using Expr_mind
    with (P0 := λ k, ∀ span ty,
                  checkLValue (mkExpr k span ty) fcx
                  = Ok (tt,
                        if is_name (lvalue_root (mkExpr k span ty)) then fcx
                        else fcx_report
                               (mkCompilerError
                                  "invalid left-hand side of assignment"
                                  (expr_span (lvalue_root (mkExpr k span ty))))
                               fcx))
         (P1 := λ _, True); try done.
Qed.

(** X16: field access on tuples and structs.  A tuple is indexed by a
    number below its length: the access gets the element's type and the
    number as field index; a number at or beyond the length is reported
    and typed as an error, and so is access by name.  A struct is
    accessed by name: the access gets the type and the position of the
    first field of that name; a name that no field has is reported. *)
Theorem fieldAccess_ty_bounds `{env : TypeckEnv} (lhs_span span : Span) (field : Field)
    (fcx : FuncCtx) :
  (∀ elems n,
     field_value field = inr n →
     match elems !! n with
     | Some ty =>
         fieldAccess_ty lhs_span span (TyTuple elems) field fcx
         = Ok ((ty, Some n), fcx)
     | None =>
         (length elems ≤ n)%nat
         ∧ fieldAccess_ty lhs_span span (TyTuple elems) field fcx
           = Ok ((TyError errorEmitted, None),
                 fcx_report
                   (mkCompilerError
                      ("tuple with " +:+ pretty (length elems)
                       +:+ " elements cannot be indexed with " +:+ pretty n)
                      (field_span field)) fcx)
     end)
  ∧ (∀ elems name,
       field_value field = inl name →
       fieldAccess_ty lhs_span span (TyTuple elems) field fcx
       = Ok ((TyError errorEmitted, None),
             fcx_report
               (mkCompilerError "tuple fields must be accessed with numbers"
                                (field_span field)) fcx))
  ∧ (∀ struct_name fields name,
       field_value field = inl name →
       (∀ idx ty,
          fields !! idx = Some (name, ty) →
          (∀ j def, (j < idx)%nat → fields !! j = Some def → def.1 ≠ name) →
          fieldAccess_ty lhs_span span (TyStruct struct_name fields) field fcx
          = Ok ((ty, Some idx), fcx))
       ∧ ((∀ def, def ∈ fields → def.1 ≠ name) →
          fieldAccess_ty lhs_span span (TyStruct struct_name fields) field fcx
          = Ok ((TyError errorEmitted, None),
                fcx_report
                  (mkCompilerError
                     ("field `" +:+ name +:+ "` does not exist on "
                      +:+ printTy (TyStruct struct_name fields))
                     (field_span field)) fcx))).
Proof.
  split_and!.
  - intros elems n Hf. unfold fieldAccess_ty. rewrite Hf.
    destruct (elems !! n) as [ty|] eqn:Hn; [done|].
    split; [by apply lookup_ge_None|done].
  - intros elems name Hf. unfold fieldAccess_ty. by rewrite Hf.
  - intros struct_name fields name Hf. unfold fieldAccess_ty. rewrite Hf. split.
    + intros idx ty Hidx Hfirst.
      assert (list_find (λ def : string * Ty, def.1 = name) fields
              = Some (idx, (name, ty))) as ->; [|done].
      apply list_find_Some. split_and!; [done..|].
      intros j def Hj Hlt. by eapply Hfirst.
    + intros Hnone.
      assert (list_find (λ def : string * Ty, def.1 = name) fields = None) as ->;
        [|done].
      apply list_find_None, Forall_forall. intros def Hdef. by apply Hnone.
Qed.

Lemma fieldAccess_ty_bounds_witness :
  (2 ≤ 2)%nat
  ∧ fieldAccess_ty (env:=example_env0) (mkSpan 0 1) (mkSpan 0 3)
      (TyTuple [TyInt; TyBool]) (mkField (inr 2) (mkSpan 2 3) None)
      (example_fcx0 [])
    = Ok ((TyError errorEmitted, None),
          fcx_report
            (mkCompilerError
               ("tuple with " +:+ pretty 2
                +:+ " elements cannot be indexed with " +:+ pretty 2)
               (mkSpan 2 3)) (example_fcx0 [])).
Proof.
  apply (proj1 (fieldAccess_ty_bounds (env:=example_env0) (mkSpan 0 1) (mkSpan 0 3)
                  (mkField (inr 2) (mkSpan 2 3) None) (example_fcx0 []))
           [TyInt; TyBool] 2 eq_refl).
Defined.
(** ** The stacks of the body checker *)

#[local] Instance fcx_same_stacks_preorder `{env : TypeckEnv} :
  PreOrder fcx_same_stacks.
Proof.
  split; [done|]. intros a b c [? ?] [? ?]. split; congruence.
Qed.

Section CheckerStacks.
Context `{env : TypeckEnv} (gcx : GlobalContext) (ast : Pkg).

Lemma stk_ret {A} (a : A) : preserves fcx_same_stacks (ret a).
Proof. apply preserves_ret, _. Qed.

Lemma stk_gets {A} (f : FuncCtx → A) : preserves fcx_same_stacks (gets f).
Proof. apply preserves_gets, _. Qed.

Lemma stk_bind {A B} (m : M FuncCtx A) (f : A → M FuncCtx B) :
  preserves fcx_same_stacks m → (∀ a, preserves fcx_same_stacks (f a)) →
  preserves fcx_same_stacks (bind m f).
Proof. apply preserves_bind, _. Qed.

Lemma stk_mapM {A B} (f : A → M FuncCtx B) (xs : list A) :
  (∀ x, preserves fcx_same_stacks (f x)) →
  preserves fcx_same_stacks (mapM f xs).
Proof. intros Hf. apply preserves_mapM; [apply _|]. by apply Forall_forall. Qed.

Lemma stk_emitError err : preserves fcx_same_stacks (emitError err).
Proof. intros s a s' H. cbv [emitError bind modify ret] in H. by simplify_eq. Qed.

Lemma stk_newVar : preserves fcx_same_stacks newVar.
Proof. intros s a s' H. cbv [newVar bind modify gets ret] in H. by simplify_eq. Qed.

Lemma stk_assign expected actual span :
  preserves fcx_same_stacks (assign expected actual span).
Proof.
  intros s a s' H. cbv [assign modify] in H. simplify_eq.
  by destruct subst_assign.
Qed.

Lemma stk_typeOfItem id args span :
  preserves fcx_same_stacks (typeOfItem id args span).
Proof.
  intros s a s'. unfold typeOfItem. destruct item_typeOfItem as [[ty errs] tys].
  by intros [= <- <-].
Qed.

Lemma stk_lowerAstTy type : preserves fcx_same_stacks (lowerAstTy type).
Proof.
  intros s a s'. unfold lowerAstTy. destruct item_lowerAstTy as [[ty errs] tys].
  by intros [= <- <-].
Qed.

Ltac stk :=
  repeat first
    [ assumption
    | apply stk_ret
    | apply preserves_throw
    | apply stk_gets
    | apply stk_emitError
    | apply stk_newVar
    | apply stk_assign
    | apply stk_typeOfItem
    | apply stk_lowerAstTy
    | apply stk_bind; [|intros]
    | match goal with
      | |- preserves _ (match ?x with _ => _ end) => destruct x
      | |- preserves _ (if ?x then _ else _) => destruct x
      | |- preserves _ (let '(_, _) := ?x in _) => destruct x
      end ].

Lemma stk_tyError err : preserves fcx_same_stacks (tyError err).
Proof. unfold tyError. stk. Qed.

Lemma stk_ty_of e : preserves fcx_same_stacks (ty_of e).
Proof. unfold ty_of. stk. Qed.

Lemma stk_resolveIfPossible ty : preserves fcx_same_stacks (resolveIfPossible ty).
Proof. apply stk_gets. Qed.

Lemma stk_resolve_ty_of e : preserves fcx_same_stacks (resolve_ty_of e).
Proof. unfold resolve_ty_of. stk; try first [apply stk_ty_of|apply stk_resolveIfPossible]. Qed.

Lemma stk_typeOfBuiltinValue name span :
  preserves fcx_same_stacks (typeOfBuiltinValue name span).
Proof. unfold typeOfBuiltinValue. stk; try apply stk_tyError. Qed.

Lemma stk_typeOfValue res span : preserves fcx_same_stacks (typeOfValue res span).
Proof.
  destruct res; cbn [typeOfValue]; stk;
    first [apply stk_typeOfBuiltinValue|apply stk_tyError].
Qed.

Lemma stk_checkUnary k span rhs : preserves fcx_same_stacks (checkUnary k span rhs).
Proof. unfold checkUnary. stk; try first [apply stk_ty_of|apply stk_tyError]. Qed.

Lemma stk_checkCall_params span params args i :
  preserves fcx_same_stacks (checkCall_params span params args i).
Proof.
  revert i. induction params as [|p params IH]; intros i;
    cbn [checkCall_params]; stk; try first [apply stk_ty_of|apply IH].
Qed.

Lemma stk_checkLValue e : preserves fcx_same_stacks (checkLValue e).
Proof.
  induction e as [k IH span ty| | | | | | | | | | | | | | | | | | |]
    using Expr_mind
    with (P0 := λ k, ∀ span ty,
                  preserves fcx_same_stacks (checkLValue (mkExpr k span ty)))
         (P1 := λ _, True); try done; intros; cbn [checkLValue]; stk.
Qed.

Lemma stk_check_assign_res res span :
  preserves fcx_same_stacks (check_assign_res gcx ast res span).
Proof. unfold check_assign_res. stk. Qed.

Lemma stk_fieldAccess_ty lhs_span span lhsTy field :
  preserves fcx_same_stacks (fieldAccess_ty lhs_span span lhsTy field).
Proof.
  unfold fieldAccess_ty. stk; try first [apply stk_tyError|apply stk_resolveIfPossible].
Qed.

Lemma stk_check_structLiteral_field n fields f :
  preserves fcx_same_stacks (check_structLiteral_field n fields f).
Proof. unfold check_structLiteral_field. stk; try apply stk_ty_of. Qed.

Lemma stk_is_transmute lhs : preserves fcx_same_stacks (is_transmute lhs).
Proof. unfold is_transmute. stk. Qed.
End CheckerStacks.

Ltac stk_all :=
  repeat first
    [ assumption
    | apply stk_ret
    | apply preserves_throw
    | apply stk_gets
    | apply stk_emitError
    | apply stk_newVar
    | apply stk_assign
    | apply stk_typeOfItem
    | apply stk_lowerAstTy
    | apply stk_tyError
    | apply stk_ty_of
    | apply stk_resolveIfPossible
    | apply stk_resolve_ty_of
    | apply stk_typeOfValue
    | apply stk_checkUnary
    | apply stk_checkCall_params
    | apply stk_checkLValue
    | apply stk_check_assign_res
    | apply stk_fieldAccess_ty
    | apply stk_check_structLiteral_field
    | apply stk_is_transmute
    | apply stk_bind; [|intros]
    | match goal with
      | |- preserves _ (match ?x with _ => _ end) => destruct x
      | |- preserves _ (if ?x then _ else _) => destruct x
      | |- preserves _ (let '(_, _) := ?x in _) => destruct x
      end ].

Section CheckerLoops.
Context `{env : TypeckEnv} (gcx : GlobalContext) (ast : Pkg).

Lemma in_loops_ret {A} loops (Q : A → Prop) a : Q a → in_loops loops Q (ret a).
Proof. intros HQ st a' st' Hl [= <- <-]. done. Qed.

Lemma in_loops_throw {A} loops (Q : A → Prop) e : in_loops loops Q (throw e).
Proof. by intros st a st' Hl H. Qed.

Lemma in_loops_bind {A B} loops (P : A → Prop) (Q : B → Prop)
    (m : M FuncCtx A) (f : A → M FuncCtx B) :
  in_loops loops P m → (∀ a, P a → in_loops loops Q (f a)) →
  in_loops loops Q (bind m f).
Proof.
  intros Hm Hf st b st' Hl (a & st1 & H1 & H2)%bind_Ok.
  destruct (Hm _ _ _ Hl H1) as (HP & Hl1 & Hp1).
  destruct (Hf a HP _ _ _ Hl1 H2) as (HQ & Hl2 & Hp2).
  split_and!; [done..|by etrans].
Qed.

Lemma in_loops_same {A} loops (m : M FuncCtx A) :
  preserves fcx_same_stacks m → in_loops loops (λ _, True) m.
Proof.
  intros Hm st a st' Hl H. destruct (Hm _ _ _ H) as [Hls Hty].
  by rewrite Hls, Hty.
Qed.

Lemma in_loops_weaken {A} loops (P Q : A → Prop) (m : M FuncCtx A) :
  in_loops loops P m → (∀ a, P a → Q a) → in_loops loops Q m.
Proof.
  intros Hm HPQ st a st' Hl H. destruct (Hm _ _ _ Hl H) as (? & ? & ?). auto.
Qed.

Lemma in_loops_eq {A} loops (Q : A → Prop) (m m' : M FuncCtx A) :
  in_loops loops Q m → (∀ st, m st = m' st) → in_loops loops Q m'.
Proof. intros Hm Heq st a st' Hl H. rewrite <- Heq in H. eauto. Qed.

Lemma in_loops_mapM {A B} loops (q : B → bool) (f : A → M FuncCtx B) xs :
  Forall (λ x, in_loops loops (λ y, q y = true) (f x)) xs →
  in_loops loops (λ ys, forallb q ys = true) (mapM f xs).
Proof.
  induction 1 as [|x xs Hx _ IH]; cbn [mapM]; [by apply in_loops_ret|].
  eapply in_loops_bind; [exact Hx|]. intros y Hy.
  eapply in_loops_bind; [exact IH|]. intros ys Hys.
  apply in_loops_ret. cbn. by rewrite Hy, Hys.
Qed.

Lemma in_loops_optM {A B} loops (q : B → bool) (f : A → M FuncCtx B) o :
  (∀ x, o = Some x → in_loops loops (λ y, q y = true) (f x)) →
  in_loops loops (λ o', match o' with Some y => q y | None => true end = true)
    (optM f o).
Proof.
  intros Hf. destruct o as [x|]; cbn [optM]; [|by apply in_loops_ret].
  eapply in_loops_bind; [by apply Hf|]. intros y Hy. by apply in_loops_ret.
Qed.

Lemma breaks_ok_with_ty loops e ty :
  breaks_ok loops (with_ty e ty) = breaks_ok loops e.
Proof. by destruct e. Qed.

(** A step that touches neither stack, followed by [f]. *)
Lemma in_loops_then {A B} loops (Q : B → Prop) (m : M FuncCtx A)
    (f : A → M FuncCtx B) :
  preserves fcx_same_stacks m → (∀ a, in_loops loops Q (f a)) →
  in_loops loops Q (bind m f).
Proof.
  intros Hm Hf. eapply in_loops_bind; [by apply in_loops_same|]. auto.
Qed.

Lemma in_loops_resolve_ty_of loops e :
  breaks_ok loops e = true →
  in_loops loops (λ e', breaks_ok loops e' = true) (resolve_ty_of e).
Proof.
  intros He. unfold resolve_ty_of.
  apply in_loops_then; [apply stk_ty_of|]. intros ty.
  apply in_loops_then; [apply stk_resolveIfPossible|]. intros ty'.
  apply in_loops_ret. by rewrite breaks_ok_with_ty.
Qed.

Ltac loops_step :=
  first
    [ apply in_loops_throw
    | apply in_loops_then; [solve [stk_all]|intros]
    | match goal with
      | |- in_loops _ _ (match ?x with _ => _ end) => destruct x
      | |- in_loops _ _ (if ?x then _ else _) => destruct x
      | |- in_loops _ _ (let '(_, _) := ?x in _) => destruct x
      end ].

Lemma in_loops_checkBinary loops checkExpr k lhs rhs span :
  in_loops loops (λ e', breaks_ok loops e' = true) (checkExpr lhs) →
  in_loops loops (λ e', breaks_ok loops e' = true) (checkExpr rhs) →
  in_loops loops (λ e', breaks_ok loops e' = true)
    (checkBinary checkExpr k lhs rhs span).
Proof.
  intros Hl Hr. unfold checkBinary.
  eapply in_loops_bind; [exact Hl|]. intros lhs1 H1.
  eapply in_loops_bind; [exact Hr|]. intros rhs1 H2.
  eapply in_loops_bind; [by apply in_loops_resolve_ty_of|]. intros lhs2 H3.
  eapply in_loops_bind; [by apply in_loops_resolve_ty_of|]. intros rhs2 H4.
  repeat loops_step;
    try (apply in_loops_ret; cbn; by rewrite H3, H4).
Qed.

Lemma in_loops_checkUnary loops k span rhs :
  breaks_ok loops rhs = true →
  in_loops loops (λ e', breaks_ok loops e' = true) (checkUnary k span rhs).
Proof.
  intros H. unfold checkUnary. repeat loops_step; by apply in_loops_ret.
Qed.

Lemma is_transmute_ident lhs st st' :
  is_transmute lhs st = Ok (true, st') → ∃ value, expr_kind lhs = KIdent value.
Proof.
  unfold is_transmute. destruct (expr_kind lhs); try by intros [= ?]. eauto.
Qed.

Lemma in_loops_checkCall loops checkExpr lhs args span :
  in_loops loops (λ e', breaks_ok loops e' = true) (checkExpr lhs) →
  Forall (λ a, in_loops loops (λ e', breaks_ok loops e' = true) (checkExpr a))
    args →
  in_loops loops (λ e', breaks_ok loops e' = true)
    (checkCall checkExpr lhs args span).
Proof.
  intros Hl Hargs. unfold checkCall.
  apply (in_loops_bind loops
           (λ b : bool, b = true → breaks_ok loops lhs = true)).
  { intros st b st' Hls H.
    destruct (stk_is_transmute lhs _ _ _ H) as [Hl1 Hl2].
    rewrite Hl1, Hl2. split_and!; [|done..].
    intros ->. apply is_transmute_ident in H as [value Hk].
    destruct lhs as [k ? ?]. cbn in Hk. by subst k. }
  intros [|] Hb.
  - loops_step.
    eapply in_loops_bind; [by apply in_loops_mapM|]. intros args' Ha.
    apply in_loops_ret. cbn. by rewrite breaks_ok_with_ty, Hb, Ha.
  - eapply in_loops_bind; [exact Hl|]. intros lhs1 H1.
    eapply in_loops_bind; [by apply in_loops_resolve_ty_of|]. intros lhs2 H2.
    eapply in_loops_bind; [by apply in_loops_mapM|]. intros args' Ha.
    repeat loops_step;
      try (apply in_loops_ret; cbn; by rewrite H2, Ha).
Qed.

Lemma in_loops_structLiteral_field loops n fields f :
  (let '(mkStructLiteralField _ expr _) := f in breaks_ok loops expr) = true →
  in_loops loops
    (λ f', (let '(mkStructLiteralField _ expr _) := f' in breaks_ok loops expr)
           = true)
    (check_structLiteral_field n fields f).
Proof.
  destruct f as [name e i]. intros He. unfold check_structLiteral_field.
  repeat loops_step. by apply in_loops_ret.
Qed.

Lemma in_loops_mapM_keep {A} loops (q : A → bool) (f : A → M FuncCtx A) xs :
  (∀ x, q x = true → in_loops loops (λ y, q y = true) (f x)) →
  forallb q xs = true →
  in_loops loops (λ ys, forallb q ys = true) (mapM f xs).
Proof.
  intros Hf Hxs. apply in_loops_mapM.
  induction xs as [|x xs IH]; [constructor|].
  cbn in Hxs. apply andb_true_iff in Hxs as [Hx Hxs].
  constructor; [by apply Hf|by apply IH].
Qed.

(** Every case of the checker keeps the open loops, at most adds to
    [localTys], and gives every [break] the id of the innermost loop. *)
Lemma in_loops_checker_expr e :
  ∀ loops, in_loops loops (λ e', breaks_ok loops e' = true)
             (checker_expr gcx ast e).
Proof.
  induction e as [k IH span ty
    | |name type rhs IHrhs local|lhs IHl rhs IHr|exprs IHs locals|value|value
    |segments res|k lhs IHl rhs IHr|k rhs IHr|lhs IHl args IHargs
    |lhs IHl field|cond IHc then_ IHt else_ IHe|body IHb loopId|target
    |name fields IHf|fields IHf| |err
    |name expr IHe fieldIdx]
    using Expr_mind
    with (P0 := λ k, ∀ span ty loops,
                  in_loops loops (λ e', breaks_ok loops e' = true)
                    (checker_expr gcx ast (mkExpr k span ty)))
         (P1 := λ f, let '(mkStructLiteralField _ expr _) := f in
                     ∀ loops, in_loops loops (λ e', breaks_ok loops e' = true)
                                (checker_expr gcx ast expr));
    try done; try (by intros; apply IH); intros span ty loops;
    cbn [checker_expr].
  - (* empty *) by apply in_loops_ret.
  - (* let *)
    apply in_loops_then.
    { destruct type; cbn [optM]; [|apply stk_ret].
      apply stk_bind; [apply stk_lowerAstTy|intros; apply stk_ret]. }
    intros lowered.
    apply in_loops_then; [destruct lowered; [apply stk_ret|apply stk_newVar]|].
    intros bindingTy.
    eapply in_loops_bind; [apply IHrhs|]. intros rhs' Hrhs.
    do 2 loops_step.
    apply (in_loops_bind loops (λ _, True)).
    { intros st0 u st0' Hls [= <- <-]. cbn. split_and!; [done..|].
      by apply prefix_app_r. }
    intros _ _. destruct local; [|apply in_loops_throw].
    by apply in_loops_ret.
  - (* assign *)
    eapply in_loops_bind; [apply IHl|]. intros lhs' Hl.
    eapply in_loops_bind; [apply IHr|]. intros rhs' Hr.
    do 3 loops_step.
    apply in_loops_then.
    { destruct lhs' as [[] ? ?];
        first [ apply stk_check_assign_res | apply stk_checkLValue
              | apply stk_bind; [apply stk_emitError|intros; apply stk_ret] ]. }
    intros. apply in_loops_ret. cbn. by rewrite Hl, Hr.
  - (* block *)
    apply list_all_Forall in IHs.
    intros st e' st' Hls (n & st1 & Hn & H)%bind_Ok.
    cbv [gets] in Hn. simplify_eq.
    apply bind_Ok in H as (exprs' & st2 & Hmap & H).
    cbv [bind modify ret] in H. simplify_eq.
    eapply in_loops_mapM in Hmap as (Hq & Hls2 & Hpre); [| |reflexivity].
    2:{ eapply Forall_impl; [exact IHs|]. intros x Hx. apply Hx. }
    cbn. split_and!; [done..|].
    destruct Hpre as [k ->]. by rewrite take_app_length.
  - (* literal *) by apply in_loops_ret.
  - (* ident *) repeat loops_step. by apply in_loops_ret.
  - (* path *) repeat loops_step. by apply in_loops_ret.
  - (* binary *) by apply in_loops_checkBinary.
  - (* unary *)
    eapply in_loops_bind; [apply IHr|]. intros rhs1 H1.
    eapply in_loops_bind; [by apply in_loops_resolve_ty_of|]. intros rhs2 H2.
    by apply in_loops_checkUnary.
  - (* call *)
    apply in_loops_checkCall; [done|].
    apply list_all_Forall in IHargs.
    eapply Forall_impl; [exact IHargs|]. intros x Hx. apply Hx.
  - (* fieldAccess *)
    eapply in_loops_bind; [apply IHl|]. intros lhs1 H1.
    eapply in_loops_bind; [by apply in_loops_resolve_ty_of|]. intros lhs2 H2.
    repeat loops_step. by apply in_loops_ret.
  - (* if *)
    eapply in_loops_bind; [apply IHc|]. intros cond' Hc.
    eapply in_loops_bind; [apply IHt|]. intros then' Ht.
    eapply in_loops_bind.
    { apply in_loops_optM. intros x Hx. apply (option_all_inv _ _ IHe x Hx). }
    intros else' He.
    do 3 loops_step.
    apply in_loops_then.
    { destruct else';
        repeat first [apply stk_bind; [|intros]|apply stk_ty_of
                     |apply stk_assign|apply stk_ret]. }
    intros. apply in_loops_ret. cbn. by rewrite Hc, Ht, He.
  - (* loop *)
    intros s e' s' Hls (? & s1 & Hpush & H)%bind_Ok.
    cbv [modify] in Hpush. simplify_eq.
    apply bind_Ok in H as (body' & s2 & Hbody & H).
    apply (IHb (map ls_loopId (loopState s) ++ [loopId])) in Hbody
      as (Hq & Hls2 & Hpre2); [|cbn; by rewrite map_app].
    apply bind_Ok in H as (bty & s3 & [Hl3 Ht3]%stk_ty_of & H).
    apply bind_Ok in H as (? & s4 & [Hl4 Ht4]%stk_assign & H).
    cbv [bind gets modify ret] in H. simplify_eq. cbn in *.
    split_and!; [done| |congruence].
    rewrite Hl4, Hl3.
    destruct (loopState s2) as [|l ls _] using rev_ind.
    { by destruct (map ls_loopId (loopState s)). }
    rewrite removelast_last. rewrite map_app in Hls2.
    by apply app_inj_tail in Hls2 as [? ?].
  - (* break *)
    apply (in_loops_bind loops (λ ls : list LoopState, map ls_loopId ls = loops)).
    { by intros s ls s' Hls [= <- <-]. }
    intros ls Hls. destruct (last ls) as [top|] eqn:Hlast.
    + intros s e' s' _ H. cbv [bind modify ret] in H. simplify_eq. cbn.
      destruct ls as [|l ls _] using rev_ind; [done|].
      rewrite last_snoc in Hlast. simplify_eq.
      rewrite removelast_last, !map_app. cbn. split_and!; [|done..].
      apply bool_decide_eq_true. by rewrite last_snoc.
    + loops_step. by apply in_loops_ret.
  - (* structLiteral *)
    apply list_all_Forall in IHf.
    eapply in_loops_bind.
    { apply (in_loops_mapM loops
               (λ f, let '(mkStructLiteralField _ expr _) := f in
                     breaks_ok loops expr)).
      eapply Forall_impl; [exact IHf|]. intros [n e i] He.
      eapply in_loops_bind; [apply He|]. intros e' He'. by apply in_loops_ret. }
    intros fields1 Hf1.
    apply in_loops_then; [solve [stk_all]|]. intros structTy.
    destruct structTy as [[]|];
      try (repeat loops_step; by apply in_loops_ret).
    eapply in_loops_bind.
    { apply in_loops_mapM_keep; [|exact Hf1].
      intros. by apply in_loops_structLiteral_field. }
    intros fields2 Hf2. loops_step. by apply in_loops_ret.
  - (* tupleLiteral *)
    apply list_all_Forall in IHf.
    eapply in_loops_bind.
    { apply in_loops_mapM. eapply Forall_impl; [exact IHf|].
      intros x Hx. apply Hx. }
    intros fields' Hf.
    apply in_loops_then; [apply stk_mapM; intros; apply stk_ty_of|].
    intros. by apply in_loops_ret.
  - (* error; the asm case raises *) by apply in_loops_ret.
Qed.
End CheckerLoops.
(** X17: in whatever the checker returns, every [break] carries the id of
    the innermost loop around it, counting the loops that were open when
    the visit began; a [break] with no loop around it does not survive
    (it is replaced by an error node).  The open loops are the same
    after the visit as before. *)
Theorem break_targets_innermost_loop `{env : TypeckEnv} (gcx : GlobalContext)
    (ast : Pkg) (e e' : Expr) (st st' : FuncCtx) :
  checker_expr gcx ast e st = Ok (e', st') →
  breaks_ok (map ls_loopId (loopState st)) e' = true
  ∧ map ls_loopId (loopState st') = map ls_loopId (loopState st).
Proof.
  intros H.
  by destruct (in_loops_checker_expr gcx ast e _ st e' st' eq_refl H)
    as (? & ? & ?).
Qed.

Lemma break_targets_innermost_loop_witness :
  checker_expr (env:=example_env0) example_gcx empty_pkg example_break_body
    (example_fcx0 [])
  = Ok (example_break_checked, example_break_fcx)
  ∧ breaks_ok [] example_break_checked = true
  ∧ map ls_loopId (loopState example_break_fcx) = [].
Proof.
  split; [vm_compute; reflexivity|].
  apply (break_targets_innermost_loop (env:=example_env0) example_gcx empty_pkg
           example_break_body example_break_checked (example_fcx0 [])
           example_break_fcx).
  vm_compute; reflexivity.
Defined.

(** X18: a visit of the checker never removes a type that was on
    [localTys] when it began, and a block gives [localTys] back exactly
    as it found it: the types its [let]s pushed are dropped, and
    assigning the old length to the array never has to lengthen it. *)
Theorem block_restores_localTys `{env : TypeckEnv} (gcx : GlobalContext)
    (ast : Pkg) (e e' : Expr) (st st' : FuncCtx) :
  checker_expr gcx ast e st = Ok (e', st') →
  localTys st `prefix_of` localTys st'
  ∧ (∀ exprs locals, expr_kind e = KBlock exprs locals →
       localTys st' = localTys st).
Proof.
  intros H. split.
  { by destruct (in_loops_checker_expr gcx ast e _ st e' st' eq_refl H)
      as (? & ? & ?). }
  intros exprs locals Hk. destruct e as [k span ty]. cbn in Hk. subst k.
  cbn [checker_expr] in H.
  apply bind_Ok in H as (n & st1 & Hn & H). cbv [gets] in Hn. simplify_eq.
  apply bind_Ok in H as (exprs' & st2 & Hmap & H).
  cbv [bind modify ret] in H. simplify_eq. cbn.
  eapply in_loops_mapM in Hmap as (_ & _ & [k ->]); [| |reflexivity].
  - by rewrite take_app_length.
  - apply Forall_forall. intros x _. apply in_loops_checker_expr.
Qed.

Lemma block_restores_localTys_witness :
  checker_expr (env:=example_env0) example_gcx empty_pkg example_let_block
    (example_fcx0 [TY_BOOL])
  = Ok (example_let_block_checked, example_let_block_fcx)
  ∧ [TY_BOOL] `prefix_of` localTys example_let_block_fcx
  ∧ (∀ exprs locals,
       expr_kind example_let_block = KBlock exprs locals →
       localTys example_let_block_fcx = [TY_BOOL]).
Proof.
  split; [vm_compute; reflexivity|].
  apply (block_restores_localTys (env:=example_env0) example_gcx empty_pkg
           example_let_block example_let_block_checked (example_fcx0 [TY_BOOL])
           example_let_block_fcx).
  vm_compute; reflexivity.
Defined.
(** ** C10: every occurrence of [__NULL] gets a variable of its own *)

Lemma fresh_tys_nil lo hi : fresh_tys lo hi [].
Proof. split; constructor. Qed.

Lemma fresh_tys_mono lo hi hi' tys :
  (hi ≤ hi')%nat → fresh_tys lo hi tys → fresh_tys lo hi' tys.
Proof.
  intros Hle [Hnd Hall]. split; [done|].
  eapply Forall_impl; [exact Hall|]. intros ty (v & -> & ?). exists v. split; [done|lia].
Qed.

Lemma fresh_tys_sub lo hi tys tys' :
  tys' ⊆+ tys → fresh_tys lo hi tys → fresh_tys lo hi tys'.
Proof.
  intros Hsub [Hnd Hall]. split.
  { apply submseteq_Permutation in Hsub as [k Hk]. rewrite Hk in Hnd.
    by apply NoDup_app in Hnd as (? & _ & _). }
  apply Forall_forall. intros ty Hty.
  eapply (proj1 (Forall_forall _ _) Hall), elem_of_submseteq; eauto.
Qed.

Lemma fresh_tys_app lo mid hi a b :
  (lo ≤ mid)%nat → (mid ≤ hi)%nat →
  fresh_tys lo mid a → fresh_tys mid hi b → fresh_tys lo hi (a ++ b).
Proof.
  intros H1 H2 [Hna Ha] [Hnb Hb]. split.
  - apply NoDup_app. split_and!; [done| |done].
    intros ty Hin1 Hin2.
    apply (proj1 (Forall_forall _ _) Ha) in Hin1 as (v & -> & ?).
    apply (proj1 (Forall_forall _ _) Hb) in Hin2 as (w & [= ->] & ?). lia.
  - apply Forall_app. split.
    + eapply Forall_impl; [exact Ha|]. intros ty (v & -> & ?). exists v. split; [done|lia].
    + eapply Forall_impl; [exact Hb|]. intros ty (v & -> & ?). exists v. split; [done|lia].
Qed.

Section Carries.
Context `{env : TypeckEnv}.

Lemma vars_of_frame {A} (m : M FuncCtx A) :
  preserves fcx_frame m → preserves fcx_vars m.
Proof. intros Hm s a s' H. by destruct (Hm _ _ _ H) as (_ & ? & _). Qed.

Lemma vars_modify (f : FuncCtx → FuncCtx) :
  (∀ s, infcx (f s) = infcx s) → preserves fcx_vars (modify f).
Proof. intros Hf s a s' [= <- <-]. unfold fcx_vars. by rewrite Hf. Qed.

Lemma carries_ret {A} pre (tys : A → list (option Ty)) a :
  tys a ⊆+ pre → carries pre tys (ret a).
Proof.
  intros Hsub lo st a' st' Hlo Hpre [= <- <-]. split; [done|].
  eapply fresh_tys_sub; [exact Hsub|exact Hpre].
Qed.

Lemma carries_throw {A} pre (tys : A → list (option Ty)) e :
  carries pre tys (throw e).
Proof. by intros lo st a st' Hlo Hpre H. Qed.

Lemma carries_bind {A B} pre (t1 : A → list (option Ty))
    (t2 : B → list (option Ty)) (m : M FuncCtx A) (f : A → M FuncCtx B) :
  carries pre t1 m → (∀ a, carries (t1 a) t2 (f a)) →
  carries pre t2 (bind m f).
Proof.
  intros Hm Hf lo st b st' Hlo Hpre (a & st1 & H1 & H2)%bind_Ok.
  destruct (Hm _ _ _ _ Hlo Hpre H1) as [Hle1 Hfresh1].
  destruct (Hf a lo st1 b st') as [Hle2 Hfresh2]; [lia|done|done|].
  split; [lia|done].
Qed.

Lemma carries_then {A B} pre (t : B → list (option Ty)) (m : M FuncCtx A)
    (f : A → M FuncCtx B) :
  preserves fcx_vars m → (∀ a, carries pre t (f a)) →
  carries pre t (bind m f).
Proof.
  intros Hm Hf. apply (carries_bind pre (λ _, pre)); [|done].
  intros lo st a st' Hlo Hpre H. pose proof (Hm _ _ _ H) as Hle.
  split; [done|]. eapply fresh_tys_mono; [exact Hle|exact Hpre].
Qed.

Lemma carries_add {A} pre (t : A → list (option Ty)) (m : M FuncCtx A) :
  carries [] t m → carries pre (λ a, pre ++ t a) m.
Proof.
  intros Hm lo st a st' Hlo Hpre H.
  destruct (Hm (tyVars (infcx st)) st a st') as [Hle Hfresh];
    [done|apply fresh_tys_nil|done|].
  split; [done|]. eapply fresh_tys_app; [exact Hlo|exact Hle|exact Hpre|exact Hfresh].
Qed.

Lemma carries_post {A} pre (t t' : A → list (option Ty)) (m : M FuncCtx A) :
  carries pre t m → (∀ a, t' a ⊆+ t a) → carries pre t' m.
Proof.
  intros Hm Hsub lo st a st' Hlo Hpre H.
  destruct (Hm _ _ _ _ Hlo Hpre H) as [Hle Hfresh].
  split; [done|]. eapply fresh_tys_sub; [apply Hsub|exact Hfresh].
Qed.

Lemma carries_pre {A} pre pre' (t : A → list (option Ty)) (m : M FuncCtx A) :
  carries pre t m → pre ⊆+ pre' → carries pre' t m.
Proof.
  intros Hm Hsub lo st a st' Hlo Hpre H.
  eapply Hm; [done| |done]. eapply fresh_tys_sub; [exact Hsub|exact Hpre].
Qed.

Lemma carries_mapM {A B} (t : B → list (option Ty)) (f : A → M FuncCtx B) xs :
  Forall (λ x, carries [] t (f x)) xs →
  carries [] (flat_map t) (mapM f xs).
Proof.
  induction 1 as [|x xs Hx _ IH]; cbn [mapM]; [by apply carries_ret|].
  eapply carries_bind; [exact Hx|]. intros y.
  eapply carries_bind; [apply carries_add, IH|]. intros ys.
  by apply carries_ret.
Qed.

Lemma carries_optM {A B} (t : B → list (option Ty)) (f : A → M FuncCtx B) o :
  (∀ x, o = Some x → carries [] t (f x)) →
  carries [] (λ o', match o' with Some y => t y | None => [] end) (optM f o).
Proof.
  intros Hf. destruct o as [x|]; cbn [optM]; [|by apply carries_ret].
  eapply carries_bind; [by apply Hf|]. intros y. by apply carries_ret.
Qed.
End Carries.

(** Closes a goal [preserves fcx_vars m] for a step of the checker that
    is not a visit. *)
Ltac vars_all :=
  first
    [ apply vars_modify; reflexivity
    | apply vars_of_frame;
      repeat first
        [ assumption
        | apply frame_ret
        | apply preserves_throw
        | apply frame_gets
        | apply frame_emitError
        | apply frame_tyError
        | apply frame_newVar
        | apply frame_assign
        | apply frame_resolveIfPossible
        | apply frame_typeOfItem
        | apply frame_lowerAstTy
        | apply frame_ty_of
        | apply frame_set_localTys
        | apply frame_typeOfValue
        | apply frame_checkCall_params
        | apply frame_checkLValue
        | apply frame_check_assign_res
        | apply frame_fieldAccess_ty
        | apply frame_is_transmute
        | apply frame_bind; [|intros]
        | apply frame_mapM, Forall_forall; intros
        | apply frame_optM; intros ? ?
        | match goal with
          | |- preserves _ (match ?x with _ => _ end) => destruct x
          | |- preserves _ (if ?x then _ else _) => destruct x
          | |- preserves _ (let '(_, _) := ?x in _) => destruct x
          end ] ].

Ltac car_step :=
  first
    [ apply carries_throw
    | apply carries_then; [solve [vars_all]|intros]
    | match goal with
      | |- carries _ _ (match ?x with _ => _ end) => destruct x
      | |- carries _ _ (if ?x then _ else _) => destruct x
      | |- carries _ _ (let '(_, _) := ?x in _) => destruct x
      end ].

(** A returned node whose occurrences are among those carried so far. *)
Ltac car_ret :=
  apply carries_ret; cbn [NULL_types is_NULL_kind app];
  repeat match goal with
         | H : NULL_types _ = NULL_types _ |- _ => rewrite H; clear H
         end;
  rewrite ?app_nil_r;
  first [ reflexivity | solve_submseteq ].

Section NullOccurrences.
Context `{env : TypeckEnv} (gcx : GlobalContext) (ast : Pkg).
Hypothesis shallow :
  ∀ s ty, (∀ v, ty ≠ TyVar v) → subst_resolveIfPossible s ty = ty.

(** [resolve_ty_of] leaves the slot of an occurrence as it is: a raw
    pointer is not a variable. *)
Lemma carries_resolve_ty_of {B} pre e (t : B → list (option Ty))
    (f : Expr → M FuncCtx B) :
  NULL_types e ⊆+ pre →
  (∀ e2, NULL_types e2 = NULL_types e → carries pre t (f e2)) →
  carries pre t (bind (resolve_ty_of e) f).
Proof.
  intros Hsub Hf lo st b st' Hlo Hpre (e2 & st1 & Hr & Hrun)%bind_Ok.
  unfold resolve_ty_of in Hr.
  apply bind_Ok in Hr as (ty & st2 & Hty & Hr).
  apply bind_Ok in Hr as (ty' & st3 & Hres & [= <- <-]).
  cbv [resolveIfPossible gets] in Hres. injection Hres as <- <-.
  unfold ty_of in Hty. destruct e as [k sp oty]. cbn in Hty.
  destruct oty as [ty0|]; [|done]. injection Hty as <- <-.
  assert (NULL_types (with_ty (mkExpr k sp (Some ty0))
                        (subst_resolveIfPossible (subst (infcx st)) ty0))
          = NULL_types (mkExpr k sp (Some ty0))) as Heq.
  { cbn [with_ty NULL_types]. destruct (is_NULL_kind k) eqn:Hk; [|done].
    f_equal. f_equal. f_equal. apply shallow.
    assert (Some ty0 ∈ pre) as Hin.
    { eapply elem_of_submseteq; [|exact Hsub]. cbn [NULL_types]. rewrite Hk.
      apply elem_of_app. left. by apply list_elem_of_singleton. }
    destruct Hpre as [_ Hall].
    by apply (proj1 (Forall_forall _ _) Hall) in Hin as (v & [= ->] & _). }
  exact (Hf _ Heq lo st b st' Hlo Hpre Hrun).
Qed.

Lemma carries_typeOfValue pre res span :
  carries pre (λ ty, pre ++ if is_NULL_res res then [ty] else [])
    (typeOfValue res span).
Proof.
  destruct (is_NULL_res res) eqn:Hres.
  - destruct res as [| |name| |]; try done. cbn in Hres.
    apply bool_decide_eq_true in Hres as ->.
    intros lo st ty st' Hlo Hpre H. cbn [typeOfValue] in H. unfold bind in H.
    rewrite typeOfBuiltinValue_NULL in H. injection H as <- <-. cbn.
    split; [lia|].
    apply (fresh_tys_app lo (tyVars (infcx st))); [done|lia|done|].
    split; [apply NoDup_singleton|]. constructor; [|constructor].
    eexists. split; [reflexivity|lia].
  - intros lo st ty st' Hlo Hpre H.
    pose proof (frame_typeOfValue res span _ _ _ H) as (_ & Hle & _).
    split; [done|]. rewrite app_nil_r.
    eapply fresh_tys_mono; [exact Hle|exact Hpre].
Qed.

Lemma is_transmute_no_NULL lhs st st' ty :
  is_transmute lhs st = Ok (true, st') → NULL_types (with_ty lhs ty) = [].
Proof.
  unfold is_transmute. destruct lhs as [k sp oty]. cbn.
  destruct k; try by intros [= ?].
  destruct (iwr_res value) as [[| |name| |]|] eqn:Hres; try by intros [= ?].
  cbn. intros [= Hname]. rewrite Hres. cbn.
  apply bool_decide_eq_true in Hname as ->. done.
Qed.

Lemma carries_checkBinary checkExpr k lhs rhs span :
  carries [] NULL_types (checkExpr lhs) →
  carries [] NULL_types (checkExpr rhs) →
  carries [] NULL_types (checkBinary checkExpr k lhs rhs span).
Proof.
  intros Hl Hr. unfold checkBinary.
  eapply carries_bind; [exact Hl|]. intros lhs1.
  eapply carries_bind; [apply carries_add, Hr|]. intros rhs1.
  apply carries_resolve_ty_of; [solve_submseteq|]. intros lhs2 H1.
  apply carries_resolve_ty_of; [solve_submseteq|]. intros rhs2 H2.
  repeat car_step; car_ret.
Qed.

Lemma carries_checkUnary pre k span rhs :
  NULL_types rhs ⊆+ pre →
  carries pre NULL_types (checkUnary k span rhs).
Proof.
  intros H. unfold checkUnary. repeat car_step; by apply carries_ret.
Qed.

Lemma carries_checkCall checkExpr lhs args span :
  carries [] NULL_types (checkExpr lhs) →
  Forall (λ a, carries [] NULL_types (checkExpr a)) args →
  carries [] NULL_types (checkCall checkExpr lhs args span).
Proof.
  intros Hl Hargs. unfold checkCall.
  intros lo st b st' Hlo Hpre (tr & st1 & Htr & Hrun)%bind_Ok.
  pose proof (frame_is_transmute lhs _ _ _ Htr) as (_ & Hle & _).
  revert Hrun. destruct tr.
  - intros Hrun.
    assert (carries [] NULL_types
              (let* ty := newVar in
               let* args0 := mapM checkExpr args in
               ret (mkExpr (KCall (with_ty lhs TY_UNIT) args0) span (Some ty))))
      as Hc.
    { car_step. eapply carries_bind; [by apply carries_mapM|]. intros args'.
      apply carries_ret. cbn [NULL_types is_NULL_kind app].
      by rewrite (is_transmute_no_NULL _ _ _ _ Htr). }
    destruct (Hc (tyVars (infcx st1)) st1 b st') as [Hle2 Hfresh];
      [done|apply fresh_tys_nil|done|].
    split; [lia|].
    destruct Hfresh as [Hnd Hall]. split; [done|].
    eapply Forall_impl; [exact Hall|]. intros ty (v & -> & ?).
    exists v. split; [done|lia].
  - intros Hrun.
    assert (carries [] NULL_types
              (let* lhs0 := checkExpr lhs in
               let* lhs1 := resolve_ty_of lhs0 in
               let* args0 := mapM checkExpr args in
               let* lhsTy := ty_of lhs1 in
               match lhsTy with
               | TyFn params returnTy =>
                   let* _ := checkCall_params span params args0 0 in
                   let* _ :=
                     if decide (length params < length args0) then
                       let* _ := emitError (mkCompilerError
                         ("too many arguments passed, expected "
                          +:+ pretty (length params)
                          +:+ ", found " +:+ pretty (length args0)) span) in
                       ret tt
                     else ret tt in
                   ret (mkExpr (KCall lhs1 args0) span (Some returnTy))
               | _ =>
                   let* ty := tyError (mkCompilerError
                     ("expression of type " +:+ printTy lhsTy
                      +:+ " is not callable")
                     (expr_span lhs1)) in
                   ret (mkExpr (KCall lhs1 args0) span (Some ty))
               end)) as Hc.
    { eapply carries_bind; [exact Hl|]. intros lhs1.
      apply carries_resolve_ty_of; [done|]. intros lhs2 H1.
      eapply carries_bind; [apply carries_add, carries_mapM, Hargs|].
      intros args'.
      repeat car_step; car_ret. }
    destruct (Hc (tyVars (infcx st1)) st1 b st') as [Hle2 Hfresh];
      [done|apply fresh_tys_nil|done|].
    split; [lia|].
    destruct Hfresh as [Hnd Hall]. split; [done|].
    eapply Forall_impl; [exact Hall|]. intros ty (v & -> & ?).
    exists v. split; [done|lia].
Qed.

Lemma carries_structLiteral_field pre n fields f :
  (let '(mkStructLiteralField _ expr _) := f in NULL_types expr) ⊆+ pre →
  carries pre
    (λ f', let '(mkStructLiteralField _ expr _) := f' in NULL_types expr)
    (check_structLiteral_field n fields f).
Proof.
  destruct f as [name e i]. intros He. unfold check_structLiteral_field.
  repeat car_step. by apply carries_ret.
Qed.


(** A step that keeps the variables and tells [R] of its result. *)
Lemma carries_known {A B} pre (R : A → Prop) (t : B → list (option Ty))
    (m : M FuncCtx A) (f : A → M FuncCtx B) :
  preserves fcx_vars m →
  (∀ st a st', m st = Ok (a, st') → R a) →
  (∀ a, R a → carries pre t (f a)) →
  carries pre t (bind m f).
Proof.
  intros Hm HR Hf lo st b st' Hlo Hpre (a & st1 & H1 & H2)%bind_Ok.
  pose proof (Hm _ _ _ H1) as Hle. unfold fcx_vars in Hle.
  destruct (Hf a (HR _ _ _ H1) lo st1 b st') as [Hle2 Hfresh]; [lia| |done|].
  { eapply fresh_tys_mono; [exact Hle|exact Hpre]. }
  split; [lia|done].
Qed.

Lemma check_structLiteral_fields_same n fs fields :
  ∀ st fields' st',
    mapM (check_structLiteral_field n fs) fields st = Ok (fields', st') →
    flat_map (λ f, let '(mkStructLiteralField _ expr _) := f in
                   NULL_types expr) fields'
    = flat_map (λ f, let '(mkStructLiteralField _ expr _) := f in
                     NULL_types expr) fields.
Proof.
  induction fields as [|[name e i] fields IH]; intros st fields' st'; cbn [mapM].
  { by intros [= <- <-]. }
  intros (f' & st1 & Hf & H)%bind_Ok.
  apply bind_Ok in H as (fields1 & st2 & Hrest & [= <- <-]).
  apply IH in Hrest. cbn [flat_map]. rewrite Hrest. f_equal.
  unfold check_structLiteral_field in Hf.
  destruct (list_find _ fs) as [[idx def]|].
  - apply bind_Ok in Hf as (? & ? & _ & Hf).
    by apply bind_Ok in Hf as (? & ? & _ & [= <- <-]).
  - by apply bind_Ok in Hf as (? & ? & _ & ?).
Qed.

Lemma carries_checker_expr e : carries [] NULL_types (checker_expr gcx ast e).
Proof.
  induction e as [k IH span ty
    | |name type rhs IHrhs local|lhs IHl rhs IHr|exprs IHs locals|value|value
    |segments res|k lhs IHl rhs IHr|k rhs IHr|lhs IHl args IHargs
    |lhs IHl field|cond IHc then_ IHt else_ IHe|body IHb loopId|target
    |name fields IHf|fields IHf| |err
    |name expr IHe fieldIdx]
    using Expr_mind
    with (P0 := λ k, ∀ span ty,
                  carries [] NULL_types (checker_expr gcx ast (mkExpr k span ty)))
         (P1 := λ f, let '(mkStructLiteralField _ expr _) := f in
                     carries [] NULL_types (checker_expr gcx ast expr));
    try done; try (by intros; apply IH); intros span ty;
    cbn [checker_expr].
  - (* empty *) car_ret.
  - (* let *)
    do 2 car_step.
    eapply carries_bind; [apply IHrhs|]. intros rhs'.
    repeat car_step; car_ret.
  - (* assign *)
    eapply carries_bind; [apply IHl|]. intros lhs'.
    eapply carries_bind; [apply carries_add, IHr|]. intros rhs'.
    do 3 car_step.
    apply carries_then.
    { destruct lhs' as [[] ? ?]; vars_all. }
    intros. car_ret.
  - (* block *)
    car_step.
    eapply carries_bind.
    { apply carries_mapM. apply list_all_Forall in IHs.
      eapply Forall_impl; [exact IHs|]. intros x Hx. apply Hx. }
    intros exprs'. car_step. car_ret.
  - (* literal *) car_ret.
  - (* ident *)
    destruct (iwr_res value) as [res|] eqn:Hres; [|apply carries_throw].
    eapply carries_bind; [apply carries_typeOfValue|]. intros oty.
    apply carries_ret. cbn [NULL_types is_NULL_kind app]. rewrite Hres.
    by rewrite app_nil_r.
  - (* path *)
    eapply carries_bind; [apply carries_typeOfValue|]. intros oty.
    apply carries_ret. cbn [NULL_types is_NULL_kind app]. by rewrite app_nil_r.
  - (* binary *) by apply carries_checkBinary.
  - (* unary *)
    eapply carries_bind; [apply IHr|]. intros rhs1.
    apply carries_resolve_ty_of; [done|]. intros rhs2 H2.
    eapply carries_post; [apply carries_checkUnary; by rewrite H2|done].
  - (* call *)
    apply carries_checkCall; [done|].
    apply list_all_Forall in IHargs.
    eapply Forall_impl; [exact IHargs|]. intros x Hx. apply Hx.
  - (* fieldAccess *)
    eapply carries_bind; [apply IHl|]. intros lhs1.
    apply carries_resolve_ty_of; [done|]. intros lhs2 H2.
    repeat car_step; car_ret.
  - (* if *)
    eapply carries_bind; [apply IHc|]. intros cond'.
    eapply carries_bind; [apply carries_add, IHt|]. intros then'.
    eapply carries_bind.
    { apply carries_add, carries_optM. intros x Hx.
      apply (option_all_inv _ _ IHe x Hx). }
    intros else'.
    do 3 car_step.
    apply carries_then.
    { destruct else'; vars_all. }
    intros. destruct else'; car_ret.
  - (* loop *)
    car_step.
    eapply carries_bind; [apply IHb|]. intros body'.
    repeat car_step; car_ret.
  - (* break *)
    repeat car_step; car_ret.
  - (* structLiteral *)
    apply list_all_Forall in IHf.
    eapply carries_bind.
    { apply (carries_mapM
               (λ f, let '(mkStructLiteralField _ expr _) := f in
                     NULL_types expr)).
      eapply Forall_impl; [exact IHf|]. intros [n e i] He.
      eapply carries_bind; [apply He|]. intros e'. by apply carries_ret. }
    intros fields1.
    apply carries_then.
    { destruct (iwr_res name); vars_all. }
    intros structTy.
    destruct structTy as [[]|]; try (repeat car_step; car_ret).
    eapply (carries_known _
              (λ fields2,
                 flat_map (λ f, let '(mkStructLiteralField _ expr _) := f in
                                NULL_types expr) fields2
                 = flat_map (λ f, let '(mkStructLiteralField _ expr _) := f in
                                  NULL_types expr) fields1)).
    { apply vars_of_frame, frame_mapM, Forall_forall. intros.
      apply frame_check_structLiteral_field. }
    { intros st a st'. apply check_structLiteral_fields_same. }
    intros fields2 H2. car_step.
    apply carries_ret. cbn [NULL_types is_NULL_kind app]. by rewrite H2.
  - (* tupleLiteral *)
    apply list_all_Forall in IHf.
    eapply carries_bind.
    { apply carries_mapM. eapply Forall_impl; [exact IHf|].
      intros x Hx. apply Hx. }
    intros fields'.
    apply carries_then.
    { apply vars_of_frame, frame_mapM, Forall_forall. intros. apply frame_ty_of. }
    intros. car_ret.
  - (* error; the asm case raises *) car_ret.
Qed.
End NullOccurrences.

(** C10: an identifier that resolved to the builtin [__NULL] is typed as
    a raw pointer to the variable that [newVar] creates at that moment.
    In a checked body every occurrence of [__NULL] used as a value thus
    carries a raw pointer to an inference variable created while that
    body was checked, and no two occurrences carry the same type: each
    has a variable of its own.  ([resolveIfPossible] is taken to be the
    shallow chase of the spec: a type that is not a variable is returned
    as it is.) *)
Theorem NULL_pointee_fresh_per_occurrence `{env : TypeckEnv}
    (gcx : GlobalContext) (ast : Pkg) (e e' : Expr) (fcx fcx' : FuncCtx) :
  (∀ s ty, (∀ v, ty ≠ TyVar v) → subst_resolveIfPossible s ty = ty) →
  checker_expr gcx ast e fcx = Ok (e', fcx') →
  (∀ value span ty st,
     iwr_res value = Some (ResBuiltin "__NULL") →
     checker_expr gcx ast (mkExpr (KIdent value) span ty) st
     = Ok (mkExpr (KIdent value) span
                  (Some (TyRawptr (TyVar (tyVars (infcx st))))),
           set_infcx (mkInferContext (S (tyVars (infcx st))) (subst (infcx st)))
                     st))
  ∧ NoDup (NULL_types e')
  ∧ Forall (λ ty, ∃ v, ty = Some (TyRawptr (TyVar v))
                       ∧ tyVars (infcx fcx) ≤ v < tyVars (infcx fcx'))
           (NULL_types e').
Proof.
  intros Hshallow H. split.
  { intros value span ty st Hres. cbn [checker_expr]. by rewrite Hres. }
  destruct (carries_checker_expr gcx ast Hshallow e (tyVars (infcx fcx))
              fcx e' fcx') as [_ Hfresh];
    [done|apply fresh_tys_nil|done|].
  exact Hfresh.
Qed.

Lemma NULL_pointee_fresh_per_occurrence_witness :
  checker_expr (env:=example_env0) example_gcx empty_pkg example_NULL_body
    (example_fcx0 [])
  = Ok (example_NULL_checked, example_state [] 3 [(0, TyVar 1)] [] [])
  ∧ NULL_types example_NULL_checked
    = [Some (TyRawptr (TyVar 0)); Some (TyRawptr (TyVar 1));
       Some (TyRawptr (TyVar 2))]
  ∧ NoDup (NULL_types example_NULL_checked).
Proof.
  split; [vm_compute; reflexivity|]. split; [vm_compute; reflexivity|].
  apply (proj1 (proj2 (NULL_pointee_fresh_per_occurrence (env:=example_env0)
           example_gcx empty_pkg example_NULL_body example_NULL_checked
           (example_fcx0 []) (example_state [] 3 [(0, TyVar 1)] [] [])
           (λ s ty Hty,
              match ty return (∀ v, ty ≠ TyVar v) →
                              subst_resolveIfPossible (TypeckEnv:=example_env0) s ty = ty
              with
              | TyVar index => λ H, False_ind _ (H index eq_refl)
              | _ => λ _, eq_refl
              end Hty)
           eq_refl))).
Defined.

(** ** C2: the checker returns from every checkable body *)

#[local] Instance same_locals_preorder `{env : TypeckEnv} : PreOrder same_locals.
Proof. split; [by intros a|]. intros a b c. unfold same_locals. congruence. Qed.

Section Runs.
Context `{env : TypeckEnv} (gcx : GlobalContext) (ast : Pkg).





Lemma runs_returns {A} n (m : M FuncCtx A) :
  returns same_locals m → runs n n (λ _, True) m.
Proof.
  intros Hm fcx Hn. destruct (Hm fcx) as (a & fcx1 & -> & Hsame).
  unfold same_locals in Hsame. split; [congruence|done].
Qed.

Lemma runs_weaken {A} n n' (P Q : A → Prop) (m : M FuncCtx A) :
  runs n n' P m → (∀ a, P a → Q a) → runs n n' Q m.
Proof.
  intros Hm HPQ fcx Hn. specialize (Hm fcx Hn).
  destruct (m fcx) as [[a fcx1]|exn]; [|done]. destruct Hm. auto.
Qed.
















End Runs.




Section CheckerRuns.
Context `{env : TypeckEnv} (gcx : GlobalContext) (ast : Pkg).

















End CheckerRuns.

(** ** C2: only a struct literal reaches the abort on an unknown field *)

Section CheckerAborts.
Context `{env : TypeckEnv} (gcx : GlobalContext) (ast : Pkg).
















End CheckerAborts.

(** ** C2: what the checker does at a typing failure *)

Section CheckerReports.
Context `{env : TypeckEnv}.




End CheckerReports.



(** ** The parser: what its functions do to the state and the sink *)

Section StepsLemmas.
Context `{penv : ParserEnv}.

Lemma state_le_refl t : state_le t t.
Proof. by split. Qed.

Lemma state_le_trans t1 t2 t3 : state_le t1 t2 → state_le t2 t3 → state_le t1 t3.
Proof. intros [? ?] [? ?]. split; [congruence|by etrans]. Qed.

Lemma state_lt_le t' t : state_lt t' t → state_le t' t.
Proof. by intros [? ?]. Qed.

Lemma state_le_length t' t :
  state_le t' t → (length (ps_tokens t') ≤ length (ps_tokens t))%nat.
Proof. intros [_ ?]. by apply suffix_length. Qed.

Lemma state_lt_le_trans t1 t2 t3 : state_lt t1 t2 → state_le t2 t3 → state_lt t1 t3.
Proof.
  intros [? ?] H23. split; [by eapply state_le_trans|].
  pose proof (state_le_length t2 t3 H23). lia.
Qed.

Lemma state_le_lt_trans t1 t2 t3 : state_le t1 t2 → state_lt t2 t3 → state_lt t1 t3.
Proof.
  intros H12 [? ?]. split; [by eapply state_le_trans|].
  pose proof (state_le_length t1 t2 H12). lia.
Qed.

Lemma steps_ret {A} (Q : A → Prop) a : Q a → steps (p_ret a) Q.
Proof. by intros HQ sink. Qed.

Lemma steps_fatal {A} (Q : A → Prop) err : steps (p_fatal err) Q.
Proof. intros sink. cbn. by eexists. Qed.

Lemma steps_outOfFuel {A} (Q : A → Prop) : steps p_outOfFuel Q.
Proof. by intros sink. Qed.

Lemma steps_bind {A B} (P : A → Prop) (Q : B → Prop) (m : PM A) (f : A → PM B) :
  steps m P → (∀ a, P a → steps (f a) Q) → steps (p_bind m f) Q.
Proof.
  intros Hm Hf sink. unfold p_bind. specialize (Hm sink).
  destruct (m sink) as [a sink'| |]; [|done..].
  destruct Hm as [-> HP]. apply (Hf a HP).
Qed.

Lemma steps_weaken {A} (P Q : A → Prop) (m : PM A) :
  steps m P → (∀ a, P a → Q a) → steps m Q.
Proof.
  intros Hm HPQ sink. specialize (Hm sink). destruct (m sink); naive_solver.
Qed.

Lemma steps_unexpectedToken {A} (Q : A → Prop) tok expected :
  steps (unexpectedToken tok expected) Q.
Proof. apply steps_fatal. Qed.

Lemma tokens_maybeNextT t :
  ps_tokens t = match (maybeNextT t).2 with
                | Some tok => tok :: ps_tokens (maybeNextT t).1
                | None => []
                end.
Proof. unfold maybeNextT. cbn. by destruct (ps_tokens t). Qed.

Lemma maybeNextT_lt t tok :
  (maybeNextT t).2 = Some tok → state_lt (maybeNextT t).1 t.
Proof.
  intros H. pose proof (tokens_maybeNextT t) as Ht. rewrite H in Ht.
  split; [split; [done|]|]; rewrite Ht; [|cbn; lia].
  by apply suffix_cons_r.
Qed.

Lemma steps_next t :
  steps (next t) (λ r, state_lt r.1 t ∧ ps_tokens t = r.2 :: ps_tokens r.1).
Proof.
  unfold next. pose proof (tokens_maybeNextT t) as Ht.
  pose proof (maybeNextT_lt t) as Hlt.
  destruct (maybeNextT t) as [rest [tok|]]; [|apply steps_fatal].
  apply steps_ret. split; [apply (Hlt tok eq_refl)|done].
Qed.

Lemma steps_expectNext t kind :
  steps (expectNext t kind)
    (λ r, state_lt r.1 t ∧ ps_tokens t = r.2 :: ps_tokens r.1
          ∧ tok_kind r.2 = kind).
Proof.
  unfold expectNext. pose proof (tokens_maybeNextT t) as Ht.
  pose proof (maybeNextT_lt t) as Hlt.
  destruct (maybeNextT t) as [rest [tok|]]; [|apply steps_fatal].
  destruct (decide _) as [?|Hk]; [apply steps_fatal|].
  apply steps_ret. split_and!; [apply (Hlt tok eq_refl)|done|].
  by destruct (decide (tok_kind tok = kind)).
Qed.

Lemma steps_eat t kind :
  steps (eat t kind)
    (λ r, match r.2 with
          | Some tok => state_lt r.1 t ∧ tok_kind tok = kind
          | None => r.1 = t ∧ peekKind t ≠ Some kind
          end).
Proof.
  unfold eat. destruct (decide _) as [Hp|Hp]; [|by apply steps_ret].
  eapply steps_bind; [apply steps_expectNext|].
  intros [t' tok] (? & ? & ?). by apply steps_ret.
Qed.
Lemma steps_bind_ret {A B} (Q : B → Prop) (a : A) (f : A → PM B) :
  steps (f a) Q → steps (p_bind (p_ret a) f) Q.
Proof. done. Qed.

Lemma steps_bind_assoc {A B C} (Q : C → Prop) (m : PM A) (f : A → PM B)
    (g : B → PM C) :
  steps (p_bind m (λ a, p_bind (f a) g)) Q → steps (p_bind (p_bind m f) g) Q.
Proof.
  intros H sink. specialize (H sink). unfold p_bind in *.
  by destruct (m sink).
Qed.

Lemma steps_bind_fatal {A B} (Q : B → Prop) err (f : A → PM B) :
  steps (p_bind (p_fatal err) f) Q.
Proof. intros sink. cbn. by eexists. Qed.
End StepsLemmas.

Ltac st_le :=
  lazymatch goal with
  | |- state_le ?a ?a => apply state_le_refl
  | |- state_le ?a ?b =>
      first
        [ assumption
        | apply state_lt_le; assumption
        | match goal with
          | H : state_le a ?m |- _ => apply (state_le_trans a m b H); st_le
          | H : state_lt a ?m |- _ =>
              apply (state_le_trans a m b (state_lt_le _ _ H)); st_le
          end ]
  end.

Ltac st_lt :=
  lazymatch goal with
  | |- state_lt ?a ?b =>
      first
        [ assumption
        | match goal with
          | H : state_lt a ?m |- _ => apply (state_lt_le_trans a m b H); st_le
          | H : state_le a ?m |- _ => apply (state_le_lt_trans a m b H); st_lt
          end ]
  end.

Ltac st := destruct_and?; first [st_lt | st_le].

Ltac pstep_intro :=
  let r := fresh "r" in
  let t := fresh "t" in
  let v := fresh "v" in
  let H := fresh "H" in
  intros r H; destruct r as [t v]; cbn [fst snd] in H; destruct_and?;
  cbn beta iota.

Create HintDb psteps.
#[global] Hint Resolve steps_next steps_expectNext steps_eat : psteps.

Ltac pret :=
  apply steps_ret; cbn [fst snd]; destruct_and?; subst; split; [st|].

Ltac bsolve :=
  unfold parsed_sig, parsed_args, parsed_opt_type;
  cbn; rewrite ?forallb_app; cbn;
  unfold parsed_sig, parsed_args, parsed_opt_type in *;
  repeat match goal with
         | H : _ && _ = true |- _ => apply andb_true_iff in H as [? ?]
         end;
  repeat match goal with
         | H : ?x = true |- context [?x] => rewrite H
         end;
  done.

Ltac ptail :=
  let r := fresh "r" in
  let H := fresh "H" in
  intros r H; destruct r; cbn [fst snd] in *; destruct_and?;
  split; [st|try bsolve].

Ltac psteps :=
  repeat first
    [ apply steps_outOfFuel
    | apply steps_fatal
    | apply steps_unexpectedToken
    | progress cbn beta iota
    | lazymatch goal with
      | |- steps (p_bind (p_fatal _) _) _ => apply steps_bind_fatal
      | |- steps (p_bind (unexpectedToken _ _) _) _ => apply steps_bind_fatal
      | |- steps (p_bind (p_ret _) _) _ => apply steps_bind_ret; cbn beta iota
      | |- steps (p_bind (p_bind _ _) _) _ => apply steps_bind_assoc
      | |- steps (p_bind (match ?x with _ => _ end) _) _ => destruct x eqn:?
      | |- steps (match ?x with _ => _ end) _ => destruct x eqn:?
      | |- steps (p_bind _ _) _ =>
          eapply steps_bind; [solve [eauto with psteps]|pstep_intro]
      | |- steps (p_ret _) _ => pret; solve [done|bsolve]
      end ].

Section StepsParsers.
Context `{penv : ParserEnv}.

Lemma steps_parseCommaSeparatedList_loop {R} (q : R → bool) n terminator
    (parser : Parser R) :
  (∀ t, steps (parser t) (λ r, state_le r.1 t ∧ q r.2 = true)) →
  ∀ t items,
    forallb q items = true →
    steps (parseCommaSeparatedList_loop n terminator parser t items)
      (λ r, state_le r.1 t ∧ forallb q r.2 = true).
Proof.
  intros Hp. induction n as [|n IH]; intros t items Hitems;
    cbn [parseCommaSeparatedList_loop]; [apply steps_outOfFuel|].
  destruct (decide _); [|pret; done].
  eapply steps_bind; [apply Hp|]. pstep_intro.
  assert (forallb q (items ++ [v]) = true) as Hitems'.
  { bsolve. }
  eapply steps_bind; [apply steps_eat|]. pstep_intro.
  destruct v0 as [comma|]; destruct_and?; subst.
  - eapply steps_weaken; [by apply IH|]. ptail.
  - psteps.
Qed.

Lemma steps_parseCommaSeparatedList {R} (q : R → bool) fuel terminator
    (parser : Parser R) t :
  (∀ t, steps (parser t) (λ r, state_le r.1 t ∧ q r.2 = true)) →
  steps (parseCommaSeparatedList fuel t terminator parser)
    (λ r, state_lt r.1 t ∧ forallb q r.2 = true).
Proof.
  intros Hp. unfold parseCommaSeparatedList.
  eapply steps_bind.
  { by apply (steps_parseCommaSeparatedList_loop q). }
  pstep_intro. psteps.
Qed.

Lemma steps_le {A} (m : PM (ParseState * A)) t (Q : A → Prop) :
  steps m (λ r, state_lt r.1 t ∧ Q r.2) →
  steps m (λ r, state_le r.1 t ∧ Q r.2).
Proof.
  intros H. eapply steps_weaken; [exact H|].
  intros r [? ?]. split; [by apply state_lt_le|done].
Qed.

Lemma steps_parseGenericsArgs (parseType : Parser Type_) fuel t :
  (∀ t, steps (parseType t) (λ r, state_lt r.1 t ∧ parsed_type r.2 = true)) →
  steps (parseGenericsArgs parseType fuel t)
    (λ r, state_le r.1 t ∧ forallb parsed_type r.2 = true).
Proof.
  intros Hp. unfold parseGenericsArgs.
  eapply steps_bind; [apply steps_eat|]. pstep_intro.
  destruct v as [tok|]; destruct_and?; subst.
  - eapply steps_weaken.
    { apply (steps_parseCommaSeparatedList parsed_type).
      intros. eapply steps_weaken; [apply Hp|ptail]. }
    ptail.
  - pret; done.
Qed.

Lemma steps_parseType fuel :
  ∀ t, steps (parseType fuel t) (λ r, state_lt r.1 t ∧ parsed_type r.2 = true).
Proof.
  induction fuel as [|fuel IH]; intros t; cbn [parseType];
    [apply steps_outOfFuel|].
  eapply steps_bind; [apply steps_next|]. pstep_intro.
  destruct v as [ident span|value span|value type span|s span];
    try apply steps_fatal.
  - eapply steps_bind; [by apply steps_parseGenericsArgs|]. pstep_intro.
    psteps.
  - destruct s as [| | | | | | | | | | | | | | | | | | | | | | | | | |k];
      try apply steps_fatal.
    + (* ( *)
      destruct (decide _).
      { psteps. }
      eapply steps_bind; [apply IH|]. pstep_intro.
      destruct (decide _).
      { psteps. }
      psteps.
      eapply steps_bind.
      { apply (steps_parseCommaSeparatedList parsed_type).
        intros. eapply steps_weaken; [apply IH|ptail]. }
      pstep_intro. psteps.
    + pret; done.
    + destruct k; psteps.
Qed.
End StepsParsers.

#[global] Hint Resolve steps_parseType : psteps.

Section StepsExpr.
Context `{penv : ParserEnv}.

Lemma steps_mkParserExprBinary n (lower : Parser Expr) kinds mkExpr' :
  (∀ t, steps (lower t) (λ r, state_le r.1 t ∧ parsed_expr r.2 = true)) →
  (∀ lhs rhs span kind,
     parsed_expr lhs = true → parsed_expr rhs = true →
     parsed_expr (mkExpr' lhs rhs span kind) = true) →
  ∀ t, steps (mkParserExprBinary n lower kinds mkExpr' t)
         (λ r, state_le r.1 t ∧ parsed_expr r.2 = true).
Proof.
  intros Hlower Hmk. induction n as [|n IH]; intros t;
    cbn [mkParserExprBinary]; [apply steps_outOfFuel|].
  eapply steps_bind; [apply Hlower|]. pstep_intro.
  destruct (peekKind t0) as [peek|]; [|pret; done].
  destruct (bool_decide _); [|pret; done].
  psteps. pret. by apply Hmk.
Qed.

Lemma parsed_mkBinaryExpr lhs rhs span kind :
  parsed_expr lhs = true → parsed_expr rhs = true →
  parsed_expr (mkBinaryExpr lhs rhs span kind) = true.
Proof.
  intros Hl Hr. unfold mkBinaryExpr. destruct (as_BinaryKind kind); [|done].
  cbn. by rewrite Hl, Hr.
Qed.

Section WithParseExpr.
Variable parseExpr : Parser Expr.
Variable fuel : nat.
Hypothesis steps_parseExpr_rec :
  ∀ t, steps (parseExpr t) (λ r, state_le r.1 t ∧ parsed_expr r.2 = true).

Lemma steps_parseStructInit t :
  steps (parseStructInit parseExpr fuel t)
    (λ r, state_lt r.1 t
          ∧ forallb (λ f, let '(mkStructLiteralField _ expr idx) := f in
                          parsed_expr expr && bool_decide (idx = None)) r.2
            = true).
Proof.
  unfold parseStructInit. psteps.
  eapply steps_bind.
  { apply (steps_parseCommaSeparatedList
             (λ f, let '(mkStructLiteralField _ expr idx) := f in
                   parsed_expr expr && bool_decide (idx = None))).
    intros t1. psteps. }
  pstep_intro. psteps.
Qed.

Lemma steps_parseExprAtom_block n :
  ∀ t exprs,
    forallb parsed_expr exprs = true →
    steps (parseExprAtom_block parseExpr n t exprs)
      (λ r, state_le r.1 t ∧ forallb parsed_expr r.2 = true).
Proof.
  induction n as [|n IH]; intros t exprs Hexprs;
    cbn [parseExprAtom_block]; [apply steps_outOfFuel|].
  destruct (decide _); [|pret; done].
  psteps. eapply steps_weaken; [apply IH; bsolve|]. ptail.
Qed.

Lemma steps_parseExprAtom t :
  steps (parseExprAtom parseExpr fuel t)
    (λ r, state_le r.1 t ∧ parsed_expr r.2 = true).
Proof.
  unfold parseExprAtom.
  eapply steps_bind; [apply steps_next|]. pstep_intro.
  destruct v as [ident span|value span|value type span|s span].
  - (* identifier *)
    destruct (decide _); [|psteps].
    eapply steps_bind; [apply steps_parseStructInit|]. pstep_intro. psteps.
  - psteps.
  - psteps.
  - destruct s; try (pret; done).
    + (* let *) psteps.
    + (* if *) psteps.
    + (* loop *) psteps.
    + (* ( *)
      psteps.
      * (* ; *)
        eapply steps_bind; [apply steps_parseExprAtom_block; bsolve|].
        pstep_intro. psteps.
      * (* , *)
        eapply steps_bind.
        { by apply (steps_parseCommaSeparatedList parsed_expr). }
        pstep_intro. psteps.
Qed.
#[local] Hint Resolve steps_parseExprAtom : psteps.

Lemma steps_parseExprCall_loop n :
  ∀ t lhs,
    parsed_expr lhs = true →
    steps (parseExprCall_loop parseExpr fuel n t lhs)
      (λ r, state_le r.1 t ∧ parsed_expr r.2 = true).
Proof.
  induction n as [|n IH]; intros t lhs Hlhs;
    cbn [parseExprCall_loop]; [apply steps_outOfFuel|].
  destruct (decide _); [|psteps].
  eapply steps_bind; [apply steps_next|]. pstep_intro.
  destruct (tok_kind v) as [| | |[]];
    try (eapply steps_weaken; [by apply IH|ptail]).
  - (* ( *)
    eapply steps_bind.
    { by apply (steps_parseCommaSeparatedList parsed_expr). }
    pstep_intro. eapply steps_weaken; [apply IH; bsolve|ptail].
  - (* . *)
    eapply steps_bind; [apply steps_next|]. pstep_intro.
    destruct v0; psteps;
      (eapply steps_weaken; [apply IH; bsolve|ptail]).
Qed.

Lemma steps_parseExprCall t :
  steps (parseExprCall parseExpr fuel t)
    (λ r, state_le r.1 t ∧ parsed_expr r.2 = true).
Proof.
  unfold parseExprCall. psteps.
  eapply steps_weaken; [by apply steps_parseExprCall_loop|ptail].
Qed.

Lemma steps_parseExprUnary n :
  ∀ t, steps (parseExprUnary parseExpr fuel n t)
         (λ r, state_le r.1 t ∧ parsed_expr r.2 = true).
Proof.
  induction n as [|n IH]; intros t; cbn [parseExprUnary];
    [apply steps_outOfFuel|].
  destruct (peekKind t) as [peek|]; [|apply steps_parseExprCall].
  destruct (as_UnaryKind peek) as [unaryKind|]; [|apply steps_parseExprCall].
  destruct (bool_decide _); [|apply steps_parseExprCall].
  psteps.
Qed.

Lemma steps_parseExprAssignment t :
  steps (parseExprAssignment parseExpr fuel t)
    (λ r, state_le r.1 t ∧ parsed_expr r.2 = true).
Proof.
  unfold parseExprAssignment, parseExprComparison, parseExprLogical,
    parseExprArithTerm, parseExprArithFactor.
  repeat (apply steps_mkParserExprBinary;
          [intros|first [apply parsed_mkBinaryExpr|intros; bsolve]]).
  apply steps_parseExprUnary.
Qed.
End WithParseExpr.
End StepsExpr.

Section StepsParseExpr.
Context `{penv : ParserEnv}.

Lemma steps_parseExpr fuel :
  ∀ t, steps (parseExpr fuel t) (λ r, state_le r.1 t ∧ parsed_expr r.2 = true).
Proof.
  induction fuel as [|fuel IH]; intros t; cbn [parseExpr];
    [apply steps_outOfFuel|].
  by apply steps_parseExprAssignment.
Qed.
End StepsParseExpr.

#[global] Hint Resolve steps_parseExpr : psteps.

(** ** Termination of the parser *)

Ltac len :=
  destruct_and?;
  repeat match goal with
         | H : state_lt ?a ?b |- _ =>
             let H1 := fresh in
             let H2 := fresh in
             destruct H as [H1 H2]; apply state_le_length in H1
         | H : state_le ?a ?b |- _ => apply state_le_length in H
         end;
  subst; cbn [ps_tokens length] in *; lia.

Create HintDb pfin.

Section FinishesLemmas.
Context `{penv : ParserEnv}.

Lemma finishes_ret {A} (a : A) : finishes (p_ret a).
Proof. by intros sink. Qed.

Lemma finishes_fatal {A} err : finishes (p_fatal (A:=A) err).
Proof. by intros sink. Qed.

Lemma finishes_unexpectedToken {A} tok expected :
  finishes (unexpectedToken (A:=A) tok expected).
Proof. by intros sink. Qed.

Lemma finishes_bind {A B} (P : A → Prop) (m : PM A) (f : A → PM B) :
  steps m P → finishes m → (∀ a, P a → finishes (f a)) →
  finishes (p_bind m f).
Proof.
  intros Hs Hm Hf sink. unfold p_bind. specialize (Hs sink).
  specialize (Hm sink). destruct (m sink) as [a sink'| |]; [|done..].
  destruct Hs as [-> HP]. by apply Hf.
Qed.

Lemma finishes_bind_ret {A B} (a : A) (f : A → PM B) :
  finishes (f a) → finishes (p_bind (p_ret a) f).
Proof. done. Qed.

Lemma finishes_bind_assoc {A B C} (m : PM A) (f : A → PM B) (g : B → PM C) :
  finishes (p_bind m (λ a, p_bind (f a) g)) → finishes (p_bind (p_bind m f) g).
Proof.
  intros H sink. specialize (H sink). unfold p_bind in *.
  by destruct (m sink).
Qed.

Lemma finishes_bind_fatal {A B} err (f : A → PM B) :
  finishes (p_bind (p_fatal err) f).
Proof. by intros sink. Qed.

Lemma finishes_next t : finishes (next t).
Proof. intros sink. unfold next. by destruct (maybeNextT t) as [? []]. Qed.

Lemma finishes_expectNext t kind : finishes (expectNext t kind).
Proof.
  intros sink. unfold expectNext. destruct (maybeNextT t) as [? []]; [|done].
  by destruct (decide _).
Qed.

Lemma finishes_eat t kind : finishes (eat t kind).
Proof.
  unfold eat. destruct (decide _); [|apply finishes_ret].
  eapply finishes_bind; [apply steps_expectNext|apply finishes_expectNext|].
  intros [? ?] _. apply finishes_ret.
Qed.
End FinishesLemmas.

#[global] Hint Resolve finishes_ret finishes_fatal finishes_unexpectedToken
  finishes_next finishes_expectNext finishes_eat : pfin.
#[global] Hint Extern 2 (_ < _)%nat => len : pfin.
#[global] Hint Extern 2 (_ ≤ _)%nat => len : pfin.

Ltac pfin :=
  repeat first
    [ apply finishes_ret
    | apply finishes_fatal
    | apply finishes_unexpectedToken
    | progress cbn beta iota
    | lazymatch goal with
      | |- finishes (p_bind (p_fatal _) _) => apply finishes_bind_fatal
      | |- finishes (p_bind (unexpectedToken _ _) _) => apply finishes_bind_fatal
      | |- finishes (p_bind (p_ret _) _) => apply finishes_bind_ret; cbn beta iota
      | |- finishes (p_bind (p_bind _ _) _) => apply finishes_bind_assoc
      | |- finishes (p_bind (match ?x with _ => _ end) _) => destruct x eqn:?
      | |- finishes (match ?x with _ => _ end) => destruct x eqn:?
      | |- finishes (p_bind _ _) =>
          eapply finishes_bind;
            [solve [eauto with psteps]|solve [eauto with pfin]|pstep_intro]
      end ].

Section FinishesParsers.
Context `{penv : ParserEnv}.

Lemma finishes_parseCommaSeparatedList_loop {R} (q : R → bool) terminator
    (parser : Parser R) n :
  (∀ t, steps (parser t) (λ r, state_le r.1 t ∧ q r.2 = true)) →
  ∀ t items,
    (length (ps_tokens t) < n)%nat →
    (∀ t', state_le t' t → finishes (parser t')) →
    finishes (parseCommaSeparatedList_loop n terminator parser t items).
Proof.
  intros Hp. induction n as [|n IH]; intros t items Hn Hfin; [lia|].
  cbn [parseCommaSeparatedList_loop].
  destruct (decide _); [|pfin].
  eapply finishes_bind; [apply Hp|apply Hfin, state_le_refl|]. pstep_intro.
  pfin. apply IH; [len|]. intros t' Ht'. apply Hfin. st.
Qed.

Lemma finishes_parseCommaSeparatedList {R} (q : R → bool) fuel terminator
    (parser : Parser R) t :
  (∀ t, steps (parser t) (λ r, state_le r.1 t ∧ q r.2 = true)) →
  (length (ps_tokens t) < fuel)%nat →
  (∀ t', state_le t' t → finishes (parser t')) →
  finishes (parseCommaSeparatedList fuel t terminator parser).
Proof.
  intros Hp Hn Hfin. unfold parseCommaSeparatedList.
  eapply finishes_bind.
  { by apply (steps_parseCommaSeparatedList_loop q). }
  { by apply (finishes_parseCommaSeparatedList_loop q). }
  pstep_intro. pfin.
Qed.

Lemma finishes_parseGenericsArgs (parseType : Parser Type_) fuel t :
  (∀ t, steps (parseType t) (λ r, state_lt r.1 t ∧ parsed_type r.2 = true)) →
  (length (ps_tokens t) < fuel)%nat →
  (∀ t', state_lt t' t → finishes (parseType t')) →
  finishes (parseGenericsArgs parseType fuel t).
Proof.
  intros Hp Hn Hfin. unfold parseGenericsArgs. pfin.
  apply (finishes_parseCommaSeparatedList parsed_type).
  - intros. eapply steps_weaken; [apply Hp|ptail].
  - len.
  - intros t' Ht'. apply Hfin. st.
Qed.

Lemma finishes_parseType fuel :
  ∀ t, (length (ps_tokens t) < fuel)%nat → finishes (parseType fuel t).
Proof.
  induction fuel as [|fuel IH]; intros t Hn; [lia|]. cbn [parseType].
  eapply finishes_bind; [apply steps_next|apply finishes_next|]. pstep_intro.
  assert (∀ t', state_le t' t0 → finishes (parseType fuel t')) as IH'.
  { intros t' Ht'. apply IH. len. }
  destruct v as [ident span|value span|value type span|s span];
    cbn beta iota; try apply finishes_fatal.
  - eapply finishes_bind.
    + apply steps_parseGenericsArgs, steps_parseType.
    + apply finishes_parseGenericsArgs; [apply steps_parseType|len|].
      intros t' Ht'. apply IH'. st.
    + pstep_intro. pfin.
  - destruct s; cbn beta iota; try apply finishes_fatal.
    + (* ( *)
      destruct (decide _); [pfin|].
      eapply finishes_bind;
        [apply steps_parseType|apply IH', state_le_refl|]. pstep_intro.
      destruct (decide _); pfin.
      assert (∀ t, steps (parseType fuel t)
                     (λ r, state_le r.1 t ∧ parsed_type r.2 = true)) as Hs.
      { intros. eapply steps_weaken; [apply steps_parseType|ptail]. }
      eapply finishes_bind.
      * by apply (steps_parseCommaSeparatedList parsed_type).
      * apply (finishes_parseCommaSeparatedList parsed_type); [done|len|].
        intros t' Ht'. apply IH'. st.
      * pstep_intro. pfin.
    + apply finishes_ret.
    + destruct k; cbn beta iota; try apply finishes_fatal.
      eapply finishes_bind;
        [apply steps_parseType|apply IH', state_le_refl|]. pstep_intro. pfin.
Qed.
End FinishesParsers.

#[global] Hint Resolve finishes_parseType : pfin.

Section FinishesExpr.
Context `{penv : ParserEnv}.

Lemma finishes_mkParserExprBinary (lower : Parser Expr) kinds mkExpr' n :
  (∀ t, steps (lower t) (λ r, state_le r.1 t ∧ parsed_expr r.2 = true)) →
  (∀ lhs rhs span kind,
     parsed_expr lhs = true → parsed_expr rhs = true →
     parsed_expr (mkExpr' lhs rhs span kind) = true) →
  ∀ t, (length (ps_tokens t) < n)%nat →
       (∀ t', state_le t' t → finishes (lower t')) →
       finishes (mkParserExprBinary n lower kinds mkExpr' t).
Proof.
  intros Hlower Hmk. induction n as [|n IH]; intros t Hn Hfin; [lia|].
  cbn [mkParserExprBinary].
  eapply finishes_bind; [apply Hlower|apply Hfin, state_le_refl|].
  pstep_intro.
  destruct (peekKind t0) as [peek|]; [|pfin].
  destruct (bool_decide _); [|pfin].
  eapply finishes_bind; [apply steps_next|apply finishes_next|]. pstep_intro.
  eapply finishes_bind.
  - by apply steps_mkParserExprBinary.
  - apply IH; [len|]. intros t' Ht'. apply Hfin. st.
  - pstep_intro. pfin.
Qed.

Section WithParseExpr.
Variable parseExpr : Parser Expr.
Variables fuel N : nat.
Hypothesis steps_parseExpr_rec :
  ∀ t, steps (parseExpr t) (λ r, state_le r.1 t ∧ parsed_expr r.2 = true).
Hypothesis finishes_parseExpr_rec :
  ∀ t, (length (ps_tokens t) < N)%nat → finishes (parseExpr t).
Hypothesis fuel_N : (N < fuel)%nat.

Lemma finishes_parseExpr_lt t t' :
  (length (ps_tokens t) ≤ N)%nat → state_lt t' t → finishes (parseExpr t').
Proof. intros. apply finishes_parseExpr_rec. len. Qed.

Lemma finishes_parseType_le t t' :
  (length (ps_tokens t) ≤ N)%nat → state_le t' t → finishes (parseType fuel t').
Proof. intros. apply finishes_parseType. len. Qed.

Lemma finishes_parseCommaSeparatedList_exprs t t' :
  (length (ps_tokens t) ≤ N)%nat → state_lt t' t →
  finishes (parseCommaSeparatedList fuel t' SRParen parseExpr).
Proof.
  intros Ht Ht'.
  apply (finishes_parseCommaSeparatedList parsed_expr); [done|len|].
  intros t'' Ht''. apply (finishes_parseExpr_lt t); [done|st].
Qed.

Lemma finishes_parseStructInit t t' :
  (length (ps_tokens t) ≤ N)%nat → state_lt t' t →
  finishes (parseStructInit parseExpr fuel t').
Proof.
  intros Ht Ht'. unfold parseStructInit. pfin.
  set (q := λ f, let '(mkStructLiteralField _ expr idx) := f in
                 parsed_expr expr && bool_decide (idx = None)).
  eapply finishes_bind.
  - apply (steps_parseCommaSeparatedList q). intros t1. psteps.
  - apply (finishes_parseCommaSeparatedList q); [intros t1; psteps|len|].
    intros t1 Ht1. pfin.
  - pstep_intro. pfin.
Qed.

Lemma finishes_parseExprAtom_block n :
  ∀ t t' exprs,
    (length (ps_tokens t) ≤ N)%nat → state_lt t' t →
    (length (ps_tokens t') < n)%nat →
    finishes (parseExprAtom_block parseExpr n t' exprs).
Proof.
  induction n as [|n IH]; intros t t' exprs Ht Ht' Hn; [lia|].
  cbn [parseExprAtom_block]. destruct (decide _); [|pfin].
  pfin. apply (IH t); [done|st|len].
Qed.

Lemma finishes_parseExprAtom t :
  (length (ps_tokens t) ≤ N)%nat →
  finishes (parseExprAtom parseExpr fuel t).
Proof.
  intros Ht. unfold parseExprAtom.
  eapply finishes_bind; [apply steps_next|apply finishes_next|]. pstep_intro.
  destruct v as [ident span|value span|value type span|s span];
    cbn beta iota; try apply finishes_ret.
  - destruct (decide _); [|pfin].
    eapply finishes_bind;
      [apply steps_parseStructInit, steps_parseExpr_rec
      |by apply (finishes_parseStructInit t)|].
    pstep_intro. pfin.
  - destruct s; cbn beta iota; try apply finishes_ret.
    + (* let *) pfin.
    + (* if *) pfin.
    + (* loop *) pfin.
    + (* ( *)
      pfin.
      * (* ; *)
        eapply finishes_bind.
        -- apply steps_parseExprAtom_block; [done|bsolve].
        -- apply (finishes_parseExprAtom_block _ t); [done|st|len].
        -- pstep_intro. pfin.
      * (* , *)
        eapply finishes_bind.
        -- by apply (steps_parseCommaSeparatedList parsed_expr).
        -- apply (finishes_parseCommaSeparatedList_exprs t); [done|st].
        -- pstep_intro. pfin.
Qed.

Lemma finishes_parseExprCall_loop n :
  ∀ t t' lhs,
    (length (ps_tokens t) ≤ N)%nat → state_le t' t →
    (length (ps_tokens t') < n)%nat →
    parsed_expr lhs = true →
    finishes (parseExprCall_loop parseExpr fuel n t' lhs).
Proof.
  induction n as [|n IH]; intros t t' lhs Ht Ht' Hn Hlhs; [lia|].
  cbn [parseExprCall_loop]. destruct (decide _); [|pfin].
  eapply finishes_bind; [apply steps_next|apply finishes_next|]. pstep_intro.
  destruct (tok_kind v) as [| | |[]]; cbn beta iota;
    try (apply (IH t); [done|st|len|done]).
  - (* ( *)
    eapply finishes_bind.
    + by apply (steps_parseCommaSeparatedList parsed_expr).
    + apply (finishes_parseCommaSeparatedList_exprs t); [done|st].
    + pstep_intro. apply (IH t); [done|st|len|bsolve].
  - (* . *)
    eapply finishes_bind; [apply steps_next|apply finishes_next|].
    pstep_intro.
    destruct v0; pfin; (apply (IH t); [done|st|len|bsolve]).
Qed.

Lemma finishes_parseExprCall t :
  (length (ps_tokens t) ≤ N)%nat →
  finishes (parseExprCall parseExpr fuel t).
Proof.
  intros Ht. unfold parseExprCall.
  eapply finishes_bind;
    [by apply steps_parseExprAtom|by apply finishes_parseExprAtom|].
  pstep_intro. apply (finishes_parseExprCall_loop _ t); [done|st|len|done].
Qed.

Lemma finishes_parseExprUnary n :
  ∀ t t',
    (length (ps_tokens t) ≤ N)%nat → state_le t' t →
    (length (ps_tokens t') < n)%nat →
    finishes (parseExprUnary parseExpr fuel n t').
Proof.
  induction n as [|n IH]; intros t t' Ht Ht' Hn; [lia|].
  cbn [parseExprUnary].
  assert (finishes (parseExprCall parseExpr fuel t')) as Hcall.
  { apply finishes_parseExprCall. len. }
  destruct (peekKind t') as [peek|]; [|done].
  destruct (as_UnaryKind peek) as [unaryKind|]; [|done].
  destruct (bool_decide _); [|done].
  pfin.
  eapply finishes_bind.
  - by apply steps_parseExprUnary.
  - apply (IH t); [done|st|len].
  - pstep_intro. pfin.
Qed.

Lemma finishes_parseExprAssignment t :
  (length (ps_tokens t) ≤ N)%nat →
  finishes (parseExprAssignment parseExpr fuel t).
Proof.
  intros Ht.
  unfold parseExprAssignment, parseExprComparison, parseExprLogical,
    parseExprArithTerm, parseExprArithFactor.
  repeat (apply finishes_mkParserExprBinary;
    [repeat (apply steps_mkParserExprBinary;
             [intros|first [apply parsed_mkBinaryExpr|intros; bsolve]]);
     apply steps_parseExprUnary, steps_parseExpr_rec
    |first [apply parsed_mkBinaryExpr|intros; bsolve]
    |len
    |intros ? ?]).
  apply (finishes_parseExprUnary _ t); [done|st|len].
Qed.
End WithParseExpr.

Lemma finishes_parseExpr fuel :
  ∀ t, (length (ps_tokens t) < fuel)%nat → finishes (parseExpr fuel t).
Proof.
  induction fuel as [|fuel IH]; intros t Hn; [lia|]. cbn [parseExpr].
  apply (finishes_parseExprAssignment _ _ fuel);
    [apply steps_parseExpr|exact IH|lia|lia].
Qed.
End FinishesExpr.

(** ** More fuel does not change a result *)

Create HintDb pmono.

Section Refines.
Context `{penv : ParserEnv}.

Lemma refines_refl {A} (m : PM A) : refines m m.
Proof. by intros sink. Qed.

Lemma refines_outOfFuel {A} (m : PM A) : refines p_outOfFuel m.
Proof. by intros sink. Qed.

Lemma refines_bind {A B} (m m' : PM A) (f f' : A → PM B) :
  refines m m' → (∀ a, refines (f a) (f' a)) →
  refines (p_bind m f) (p_bind m' f').
Proof.
  intros Hm Hf sink. unfold p_bind. specialize (Hm sink).
  destruct (m sink) as [a sink'| |] eqn:Hrun; [| |done].
  - rewrite Hm by done. apply Hf.
  - by rewrite Hm.
Qed.
End Refines.

Ltac pmono :=
  repeat first
    [ apply refines_refl
    | apply refines_outOfFuel
    | progress cbn beta iota
    | lazymatch goal with
      | |- refines (p_bind _ _) (p_bind _ _) =>
          apply refines_bind;
            [|let x := fresh in intros x; try destruct x as [? ?]]
      | |- refines (match ?x with _ => _ end) (match ?x with _ => _ end) =>
          destruct x
      end
    | solve [eauto with pmono] ].

Section RefinesParsers.
Context `{penv : ParserEnv}.

Lemma refines_parseCommaSeparatedList_loop {R} terminator
    (parser parser' : Parser R) n :
  (∀ t, refines (parser t) (parser' t)) →
  ∀ n' t items,
    (n ≤ n')%nat →
    refines (parseCommaSeparatedList_loop n terminator parser t items)
            (parseCommaSeparatedList_loop n' terminator parser' t items).
Proof.
  intros Hp. induction n as [|n IH]; intros n' t items Hn;
    [apply refines_outOfFuel|].
  destruct n' as [|n']; [lia|]. cbn [parseCommaSeparatedList_loop].
  pmono. apply IH. lia.
Qed.

Lemma refines_parseCommaSeparatedList {R} terminator
    (parser parser' : Parser R) fuel fuel' t :
  (∀ t, refines (parser t) (parser' t)) →
  (fuel ≤ fuel')%nat →
  refines (parseCommaSeparatedList fuel t terminator parser)
          (parseCommaSeparatedList fuel' t terminator parser').
Proof.
  intros Hp Hn. unfold parseCommaSeparatedList. pmono.
  by apply refines_parseCommaSeparatedList_loop.
Qed.

Lemma refines_parseType fuel :
  ∀ fuel' t, (fuel ≤ fuel')%nat → refines (parseType fuel t) (parseType fuel' t).
Proof.
  induction fuel as [|fuel IH]; intros fuel' t Hn; [apply refines_outOfFuel|].
  destruct fuel' as [|fuel']; [lia|]. cbn [parseType].
  assert (∀ t, refines (parseType fuel t) (parseType fuel' t)) as IH'.
  { intros. apply IH. lia. }
  unfold parseGenericsArgs. pmono;
    (apply refines_parseCommaSeparatedList; [done|lia]).
Qed.

Lemma refines_mkParserExprBinary (lower lower' : Parser Expr) kinds mkExpr' n :
  (∀ t, refines (lower t) (lower' t)) →
  ∀ n' t, (n ≤ n')%nat →
          refines (mkParserExprBinary n lower kinds mkExpr' t)
                  (mkParserExprBinary n' lower' kinds mkExpr' t).
Proof.
  intros Hl. induction n as [|n IH]; intros n' t Hn;
    [apply refines_outOfFuel|].
  destruct n' as [|n']; [lia|]. cbn [mkParserExprBinary].
  pmono. apply IH. lia.
Qed.

Section WithParseExpr.
Variables parseExpr parseExpr' : Parser Expr.
Variables fuel fuel' : nat.
Hypothesis refines_parseExpr_rec : ∀ t, refines (parseExpr t) (parseExpr' t).
Hypothesis fuel_le : (fuel ≤ fuel')%nat.

Lemma refines_parseType_le t : refines (parseType fuel t) (parseType fuel' t).
Proof. by apply refines_parseType. Qed.

Lemma refines_parseCommaSeparatedList_exprs t :
  refines (parseCommaSeparatedList fuel t SRParen parseExpr)
          (parseCommaSeparatedList fuel' t SRParen parseExpr').
Proof. by apply refines_parseCommaSeparatedList. Qed.

Lemma refines_parseStructInit t :
  refines (parseStructInit parseExpr fuel t)
          (parseStructInit parseExpr' fuel' t).
Proof.
  unfold parseStructInit. pmono.
  apply refines_parseCommaSeparatedList; [|done]. intros. pmono.
Qed.

Lemma refines_parseExprAtom_block n :
  ∀ n' t exprs,
    (n ≤ n')%nat →
    refines (parseExprAtom_block parseExpr n t exprs)
            (parseExprAtom_block parseExpr' n' t exprs).
Proof.
  induction n as [|n IH]; intros n' t exprs Hn; [apply refines_outOfFuel|].
  destruct n' as [|n']; [lia|]. cbn [parseExprAtom_block].
  pmono. apply IH. lia.
Qed.

Lemma refines_parseExprAtom t :
  refines (parseExprAtom parseExpr fuel t) (parseExprAtom parseExpr' fuel' t).
Proof.
  unfold parseExprAtom. pmono;
    first [ apply refines_parseStructInit
          | apply refines_parseType_le
          | by apply refines_parseExprAtom_block
          | apply refines_parseCommaSeparatedList_exprs ].
Qed.

Lemma refines_parseExprCall_loop n :
  ∀ n' t lhs,
    (n ≤ n')%nat →
    refines (parseExprCall_loop parseExpr fuel n t lhs)
            (parseExprCall_loop parseExpr' fuel' n' t lhs).
Proof.
  induction n as [|n IH]; intros n' t lhs Hn; [apply refines_outOfFuel|].
  destruct n' as [|n']; [lia|]. cbn [parseExprCall_loop].
  pmono;
    first [ apply refines_parseCommaSeparatedList_exprs
          | apply IH; lia
          | intros; apply IH; lia ].
Qed.

Lemma refines_parseExprCall t :
  refines (parseExprCall parseExpr fuel t) (parseExprCall parseExpr' fuel' t).
Proof.
  unfold parseExprCall. pmono;
    first [apply refines_parseExprAtom|by apply refines_parseExprCall_loop].
Qed.

Lemma refines_parseExprUnary n :
  ∀ n' t,
    (n ≤ n')%nat →
    refines (parseExprUnary parseExpr fuel n t)
            (parseExprUnary parseExpr' fuel' n' t).
Proof.
  induction n as [|n IH]; intros n' t Hn; [apply refines_outOfFuel|].
  destruct n' as [|n']; [lia|]. cbn [parseExprUnary].
  pmono; first [apply refines_parseExprCall|apply IH; lia].
Qed.

Lemma refines_parseExprAssignment t :
  refines (parseExprAssignment parseExpr fuel t)
          (parseExprAssignment parseExpr' fuel' t).
Proof.
  unfold parseExprAssignment, parseExprComparison, parseExprLogical,
    parseExprArithTerm, parseExprArithFactor.
  repeat (apply refines_mkParserExprBinary; [intros|done]).
  by apply refines_parseExprUnary.
Qed.
End WithParseExpr.

Lemma refines_parseExpr fuel :
  ∀ fuel' t, (fuel ≤ fuel')%nat → refines (parseExpr fuel t) (parseExpr fuel' t).
Proof.
  induction fuel as [|fuel IH]; intros fuel' t Hn; [apply refines_outOfFuel|].
  destruct fuel' as [|fuel']; [lia|]. cbn [parseExpr].
  apply refines_parseExprAssignment; [|lia]. intros. apply IH. lia.
Qed.
End RefinesParsers.

(** ** The item parser *)

Create HintDb pwsteps.

Section StepsW.
Context `{penv : ParserEnv}.

Lemma steps_w_of_steps {A} (m : PM A) (Q : A → Prop) : steps m Q → steps_w m Q.
Proof.
  intros H sink. specialize (H sink). destruct (m sink) as [a sink'|i sink'|].
  - by destruct H as [-> ?].
  - destruct H as [err ->]. by apply prefix_app_r.
  - done.
Qed.

Lemma steps_w_ret {A} (Q : A → Prop) a : Q a → steps_w (p_ret a) Q.
Proof. by intros HQ sink. Qed.

Lemma steps_w_fatal {A} (Q : A → Prop) err : steps_w (p_fatal err) Q.
Proof. intros sink. cbn. by apply prefix_app_r. Qed.

Lemma steps_w_throw {A} (Q : A → Prop) err : steps_w (p_throw err) Q.
Proof. intros sink. cbn. reflexivity. Qed.

Lemma steps_w_outOfFuel {A} (Q : A → Prop) : steps_w p_outOfFuel Q.
Proof. by intros sink. Qed.

Lemma steps_w_emitError err : steps_w (p_emitError err) (λ _, True).
Proof. intros sink. cbn. split; [by apply prefix_app_r|done]. Qed.

Lemma steps_w_tokenize file : steps_w (p_tokenize file) (λ _, True).
Proof.
  intros sink. unfold p_tokenize. destruct (tokenize file) as [r errs].
  split; [by apply prefix_app_r|done].
Qed.

Lemma steps_w_bind {A B} (P : A → Prop) (Q : B → Prop) (m : PM A) (f : A → PM B) :
  steps_w m P → (∀ a, P a → steps_w (f a) Q) → steps_w (p_bind m f) Q.
Proof.
  intros Hm Hf sink. unfold p_bind. specialize (Hm sink).
  destruct (m sink) as [a sink'| |]; [|done..].
  destruct Hm as [Hpre HP]. specialize (Hf a HP sink').
  destruct (f a sink') as [b sink''|i sink''|];
    [|exact (transitivity Hpre Hf)|done].
  destruct Hf as [Hf ?]. split; [exact (transitivity Hpre Hf)|done].
Qed.

Lemma steps_w_weaken {A} (P Q : A → Prop) (m : PM A) :
  steps_w m P → (∀ a, P a → Q a) → steps_w m Q.
Proof.
  intros Hm HPQ sink. specialize (Hm sink). destruct (m sink); naive_solver.
Qed.

Lemma steps_w_bind_ret {A B} (Q : B → Prop) (a : A) (f : A → PM B) :
  steps_w (f a) Q → steps_w (p_bind (p_ret a) f) Q.
Proof. done. Qed.

Lemma steps_w_bind_assoc {A B C} (Q : C → Prop) (m : PM A) (f : A → PM B)
    (g : B → PM C) :
  steps_w (p_bind m (λ a, p_bind (f a) g)) Q →
  steps_w (p_bind (p_bind m f) g) Q.
Proof.
  intros H sink. specialize (H sink). unfold p_bind in *.
  by destruct (m sink).
Qed.

Lemma steps_w_bind_fatal {A B} (Q : B → Prop) err (f : A → PM B) :
  steps_w (p_bind (p_fatal err) f) Q.
Proof. intros sink. cbn. by apply prefix_app_r. Qed.
End StepsW.

Ltac pwret :=
  apply steps_w_ret; cbn [fst snd]; destruct_and?; subst; split; [st|].

Ltac pwsteps :=
  repeat first
    [ apply steps_w_outOfFuel
    | apply steps_w_fatal
    | apply steps_w_throw
    | apply (steps_w_fatal _ (mkCompilerError _ _))
    | progress cbn beta iota
    | lazymatch goal with
      | |- steps_w (unexpectedToken _ _) _ => apply steps_w_fatal
      | |- steps_w (p_bind (p_fatal _) _) _ => apply steps_w_bind_fatal
      | |- steps_w (p_bind (unexpectedToken _ _) _) _ => apply steps_w_bind_fatal
      | |- steps_w (p_bind (p_ret _) _) _ => apply steps_w_bind_ret; cbn beta iota
      | |- steps_w (p_bind (p_bind _ _) _) _ => apply steps_w_bind_assoc
      | |- steps_w (p_bind (p_emitError _) _) _ =>
          eapply steps_w_bind; [apply steps_w_emitError|intros ? _]
      | |- steps_w (p_bind (p_tokenize _) _) _ =>
          eapply steps_w_bind; [apply steps_w_tokenize|intros ? _]
      | |- steps_w (p_bind (match ?x with _ => _ end) _) _ => destruct x eqn:?
      | |- steps_w (match ?x with _ => _ end) _ => destruct x eqn:?
      | |- steps_w (p_bind _ _) _ =>
          eapply steps_w_bind;
            [first [ solve [eauto with pwsteps]
                   | apply steps_w_of_steps; solve [eauto with psteps] ]
            |pstep_intro]
      | |- steps_w (p_ret _) _ => pwret; solve [done|bsolve]
      end ].

Ltac pwtail :=
  let r := fresh "r" in
  let H := fresh "H" in
  intros r H; destruct r; cbn [fst snd] in *; destruct_and?;
  split; [st|try bsolve].

#[global] Hint Resolve steps_parseExpr : psteps.

Section StepsItems.
Context `{penv : ParserEnv}.

Lemma steps_parseFunctionSig fuel t :
  steps (parseFunctionSig fuel t)
    (λ r, state_lt r.1 t ∧ parsed_sig r.2 = true).
Proof.
  unfold parseFunctionSig. psteps.
  eapply steps_bind.
  { apply (steps_parseCommaSeparatedList (λ a, parsed_type (arg_type a))).
    intros. psteps. }
  pstep_intro. psteps.
Qed.

Lemma steps_parseGenericsDef fuel t :
  steps (parseGenericsDef fuel t) (λ r, state_le r.1 t ∧ True).
Proof.
  unfold parseGenericsDef.
  eapply steps_bind; [apply steps_eat|]. pstep_intro.
  destruct v; destruct_and?; subst; [|psteps].
  eapply steps_bind.
  { apply (steps_parseCommaSeparatedList (λ _, true)). intros. psteps. }
  pstep_intro. psteps.
Qed.

Lemma steps_parseItem_segments n :
  ∀ t segments,
    steps (parseItem_segments n t segments) (λ r, state_le r.1 t ∧ True).
Proof.
  induction n as [|n IH]; intros t segments; cbn [parseItem_segments];
    [apply steps_outOfFuel|].
  eapply steps_bind; [apply steps_eat|]. pstep_intro.
  destruct v; destruct_and?; subst; [|psteps].
  psteps. eapply steps_weaken; [apply IH|ptail].
Qed.

Lemma steps_w_parseItems_loop (parseItem : Parser Item) n :
  (∀ t, steps_w (parseItem t) (λ r, state_lt r.1 t ∧ parsed_item r.2 = true)) →
  ∀ t items,
    forallb parsed_item items = true →
    steps_w (parseItems_loop parseItem n t items)
      (λ r, (state_le r.1 t ∧ ps_tokens r.1 = [])
            ∧ forallb parsed_item r.2 = true).
Proof.
  intros Hp. induction n as [|n IH]; intros t items Hitems;
    cbn [parseItems_loop]; [apply steps_w_outOfFuel|].
  destruct (decide _) as [Hlen|Hlen].
  - eapply steps_w_bind; [apply Hp|]. pstep_intro.
    eapply steps_w_weaken; [apply IH; bsolve|].
    intros [t1 r] [[? ?] ?]. cbn [fst snd] in *. split_and!; [st|done..].
  - apply steps_w_ret. cbn [fst snd]. split_and!; [st| |done].
    destruct (ps_tokens t); [done|cbn in Hlen; lia].
Qed.

Lemma steps_w_parseItem_contents (parseItem : Parser Item) n :
  (∀ t, steps_w (parseItem t) (λ r, state_lt r.1 t ∧ parsed_item r.2 = true)) →
  ∀ t contents,
    forallb parsed_item contents = true →
    steps_w (parseItem_contents parseItem n t contents)
      (λ r, state_le r.1 t ∧ forallb parsed_item r.2 = true).
Proof.
  intros Hp. induction n as [|n IH]; intros t contents Hc;
    cbn [parseItem_contents]; [apply steps_w_outOfFuel|].
  destruct (decide _); [|pwsteps].
  eapply steps_w_bind; [apply Hp|]. pstep_intro.
  eapply steps_w_weaken; [apply IH; bsolve|pwtail].
Qed.
End StepsItems.

#[global] Hint Resolve steps_parseFunctionSig steps_parseGenericsDef
  steps_parseItem_segments : psteps.

Section StepsParseItem.
Context `{penv : ParserEnv}.

Lemma steps_w_parseItem fuel :
  ∀ t, steps_w (parseItem fuel t)
         (λ r, state_lt r.1 t ∧ parsed_item r.2 = true).
Proof.
  induction fuel as [|fuel IH]; intros t; cbn [parseItem];
    [apply steps_w_outOfFuel|].
  eapply steps_w_bind; [apply steps_w_of_steps, steps_next|]. pstep_intro.
  destruct (tok_kind v) as [| | |[]]; cbn beta iota;
    try apply steps_w_fatal.
  - (* function *) pwsteps.
  - (* type *)
    pwsteps.
    eapply steps_w_bind.
    { apply steps_w_of_steps.
      apply (steps_parseCommaSeparatedList (λ f, parsed_type (fd_type f))).
      intros. psteps. }
    pstep_intro. pwsteps.
  - (* import *) pwsteps.
  - (* extern *) pwsteps.
  - (* mod *)
    pwsteps.
    + eapply steps_w_bind.
      { by apply steps_w_parseItem_contents. }
      pstep_intro. pwsteps.
    + eapply steps_w_bind.
      { by apply steps_w_parseItems_loop. }
      pstep_intro. pwsteps.
  - (* global *) pwsteps.
  - (* use *) pwsteps.
Qed.

Lemma steps_w_parseItems fuel t :
  steps_w (parseItems fuel t)
    (λ r, (state_le r.1 t ∧ ps_tokens r.1 = [])
          ∧ forallb parsed_item r.2 = true).
Proof.
  unfold parseItems. apply steps_w_parseItems_loop; [|done].
  apply steps_w_parseItem.
Qed.
End StepsParseItem.

Section FinishesW.
Context `{penv : ParserEnv}.

Lemma finishes_bind_w {A B} (P : A → Prop) (m : PM A) (f : A → PM B) :
  steps_w m P → finishes m → (∀ a, P a → finishes (f a)) →
  finishes (p_bind m f).
Proof.
  intros Hs Hm Hf sink. unfold p_bind. specialize (Hs sink).
  specialize (Hm sink). destruct (m sink) as [a sink'| |]; [|done..].
  destruct Hs as [_ HP]. by apply Hf.
Qed.

Lemma finishes_emitError err : finishes (p_emitError err).
Proof. by intros sink. Qed.

Lemma finishes_throw {A} err : finishes (p_throw (A:=A) err).
Proof. by intros sink. Qed.
End FinishesW.

#[global] Hint Resolve finishes_emitError finishes_throw finishes_parseExpr : pfin.

Ltac pwfin :=
  repeat first
    [ apply finishes_ret
    | apply finishes_fatal
    | apply finishes_throw
    | apply finishes_unexpectedToken
    | progress cbn beta iota
    | lazymatch goal with
      | |- finishes (p_bind (p_fatal _) _) => apply finishes_bind_fatal
      | |- finishes (p_bind (unexpectedToken _ _) _) => apply finishes_bind_fatal
      | |- finishes (p_bind (p_ret _) _) => apply finishes_bind_ret; cbn beta iota
      | |- finishes (p_bind (p_bind _ _) _) => apply finishes_bind_assoc
      | |- finishes (p_bind (p_emitError _) _) =>
          eapply finishes_bind_w;
            [apply steps_w_emitError|apply finishes_emitError|intros ? _]
      | |- finishes (p_bind (match ?x with _ => _ end) _) => destruct x eqn:?
      | |- finishes (match ?x with _ => _ end) => destruct x eqn:?
      | |- finishes (p_bind _ _) =>
          eapply finishes_bind_w;
            [first [ solve [eauto with pwsteps]
                   | apply steps_w_of_steps; solve [eauto with psteps] ]
            |solve [eauto with pfin]|pstep_intro]
      end ].

Section FinishesItems.
Context `{penv : ParserEnv}.

Lemma finishes_parseFunctionSig fuel t :
  (length (ps_tokens t) < fuel)%nat → finishes (parseFunctionSig fuel t).
Proof.
  intros Hn. unfold parseFunctionSig. pfin.
  set (q := λ a, parsed_type (arg_type a)).
  eapply finishes_bind.
  - apply (steps_parseCommaSeparatedList q). intros. psteps.
  - apply (finishes_parseCommaSeparatedList q); [intros; psteps|len|].
    intros t' Ht'. pfin.
  - pstep_intro. pfin.
Qed.

Lemma finishes_parseGenericsDef fuel t :
  (length (ps_tokens t) < fuel)%nat → finishes (parseGenericsDef fuel t).
Proof.
  intros Hn. unfold parseGenericsDef. pfin.
  eapply finishes_bind.
  - apply (steps_parseCommaSeparatedList (λ _, true)). intros. psteps.
  - apply (finishes_parseCommaSeparatedList (λ _, true)); [intros; psteps|len|].
    intros t' Ht'. pfin.
  - pstep_intro. pfin.
Qed.

Lemma finishes_parseItem_segments n :
  ∀ t segments,
    (length (ps_tokens t) < n)%nat →
    finishes (parseItem_segments n t segments).
Proof.
  induction n as [|n IH]; intros t segments Hn; [lia|].
  cbn [parseItem_segments]. pfin. apply IH. len.
Qed.

Lemma finishes_parseItems_loop (parseItem : Parser Item) n :
  (∀ t, steps_w (parseItem t) (λ r, state_lt r.1 t ∧ parsed_item r.2 = true)) →
  ∀ t items,
    (length (ps_tokens t) < n)%nat →
    (∀ t', state_le t' t → finishes (parseItem t')) →
    finishes (parseItems_loop parseItem n t items).
Proof.
  intros Hp. induction n as [|n IH]; intros t items Hn Hfin; [lia|].
  cbn [parseItems_loop]. destruct (decide _); [|pfin].
  eapply finishes_bind_w; [apply Hp|apply Hfin, state_le_refl|].
  pstep_intro. apply IH; [len|]. intros t' Ht'. apply Hfin. st.
Qed.

Lemma finishes_parseItem_contents (parseItem : Parser Item) n :
  (∀ t, steps_w (parseItem t) (λ r, state_lt r.1 t ∧ parsed_item r.2 = true)) →
  ∀ t contents,
    (length (ps_tokens t) < n)%nat →
    (∀ t', state_le t' t → finishes (parseItem t')) →
    finishes (parseItem_contents parseItem n t contents).
Proof.
  intros Hp. induction n as [|n IH]; intros t contents Hn Hfin; [lia|].
  cbn [parseItem_contents]. destruct (decide _); [|pfin].
  eapply finishes_bind_w; [apply Hp|apply Hfin, state_le_refl|].
  pstep_intro. apply IH; [len|]. intros t' Ht'. apply Hfin. st.
Qed.
End FinishesItems.

#[global] Hint Resolve finishes_parseFunctionSig finishes_parseGenericsDef
  finishes_parseItem_segments : pfin.

Section FinishesParseItem.
Context `{penv : ParserEnv}.
Hypothesis no_files : no_module_files.

Lemma finishes_parseItem fuel :
  ∀ t, (length (ps_tokens t) < fuel)%nat → finishes (parseItem fuel t).
Proof.
  induction fuel as [|fuel IH]; intros t Hn; [lia|]. cbn [parseItem].
  eapply finishes_bind; [apply steps_next|apply finishes_next|]. pstep_intro.
  destruct (tok_kind v) as [| | |[]]; cbn beta iota;
    try apply finishes_fatal.
  - (* function *) pwfin.
  - (* type *)
    pwfin.
    set (q := λ f, parsed_type (fd_type f)).
    eapply finishes_bind.
    + apply (steps_parseCommaSeparatedList q). intros. psteps.
    + apply (finishes_parseCommaSeparatedList q); [intros; psteps|len|].
      intros t' Ht'. pfin.
    + pstep_intro. pwfin.
  - (* import *) pwfin.
  - (* extern *) pwfin.
  - (* mod *)
    pwfin.
    + eapply finishes_bind_w.
      * apply steps_w_parseItem_contents; [apply steps_w_parseItem|done].
      * apply finishes_parseItem_contents; [apply steps_w_parseItem|len|].
        intros t' Ht'. apply IH. len.
      * pstep_intro. pwfin.
    + match goal with
      | H : path (span_file ?span) = Some ?p,
        H' : loadModuleFile ?p ?name ?span = inr _ |- _ =>
          destruct (no_files span name p H) as [err Herr]; congruence
      end.
  - (* global *) pwfin.
  - (* use *) pwfin.
Qed.

Lemma finishes_parseItems fuel t :
  (length (ps_tokens t) < fuel)%nat → finishes (parseItems fuel t).
Proof.
  intros Hn. unfold parseItems.
  apply finishes_parseItems_loop; [apply steps_w_parseItem|done|].
  intros t' Ht'. apply finishes_parseItem. len.
Qed.
End FinishesParseItem.

Section RefinesItems.
Context `{penv : ParserEnv}.

Lemma refines_parseFunctionSig fuel fuel' t :
  (fuel ≤ fuel')%nat →
  refines (parseFunctionSig fuel t) (parseFunctionSig fuel' t).
Proof.
  intros Hn. unfold parseFunctionSig. pmono;
    first [ by apply refines_parseType
          | apply refines_parseCommaSeparatedList; [intros; pmono|done] ];
    by apply refines_parseType.
Qed.

Lemma refines_parseGenericsDef fuel fuel' t :
  (fuel ≤ fuel')%nat →
  refines (parseGenericsDef fuel t) (parseGenericsDef fuel' t).
Proof.
  intros Hn. unfold parseGenericsDef. pmono.
  apply refines_parseCommaSeparatedList; [intros; pmono|done].
Qed.

Lemma refines_parseItem_segments n :
  ∀ n' t segments,
    (n ≤ n')%nat →
    refines (parseItem_segments n t segments)
            (parseItem_segments n' t segments).
Proof.
  induction n as [|n IH]; intros n' t segments Hn; [apply refines_outOfFuel|].
  destruct n' as [|n']; [lia|]. cbn [parseItem_segments].
  pmono. apply IH. lia.
Qed.

Lemma refines_parseItems_loop (parseItem parseItem' : Parser Item) n :
  (∀ t, refines (parseItem t) (parseItem' t)) →
  ∀ n' t items,
    (n ≤ n')%nat →
    refines (parseItems_loop parseItem n t items)
            (parseItems_loop parseItem' n' t items).
Proof.
  intros Hp. induction n as [|n IH]; intros n' t items Hn;
    [apply refines_outOfFuel|].
  destruct n' as [|n']; [lia|]. cbn [parseItems_loop].
  pmono. apply IH. lia.
Qed.

Lemma refines_parseItem_contents (parseItem parseItem' : Parser Item) n :
  (∀ t, refines (parseItem t) (parseItem' t)) →
  ∀ n' t contents,
    (n ≤ n')%nat →
    refines (parseItem_contents parseItem n t contents)
            (parseItem_contents parseItem' n' t contents).
Proof.
  intros Hp. induction n as [|n IH]; intros n' t contents Hn;
    [apply refines_outOfFuel|].
  destruct n' as [|n']; [lia|]. cbn [parseItem_contents].
  pmono. apply IH. lia.
Qed.

Lemma refines_parseItem fuel :
  ∀ fuel' t, (fuel ≤ fuel')%nat → refines (parseItem fuel t) (parseItem fuel' t).
Proof.
  induction fuel as [|fuel IH]; intros fuel' t Hn; [apply refines_outOfFuel|].
  destruct fuel' as [|fuel']; [lia|]. cbn [parseItem].
  assert (∀ t, refines (parseItem fuel t) (parseItem fuel' t)) as IH'.
  { intros. apply IH. lia. }
  pmono;
    first [ by apply refines_parseFunctionSig
          | by apply refines_parseExpr
          | by apply refines_parseType
          | by apply refines_parseGenericsDef
          | by apply refines_parseItem_segments
          | apply refines_parseItem_contents; [done|lia]
          | apply refines_parseItems_loop; [done|lia]
          | apply refines_parseCommaSeparatedList; [intros; pmono|done] ];
    by apply refines_parseType.
Qed.

Lemma refines_parseItems fuel fuel' t :
  (fuel ≤ fuel')%nat → refines (parseItems fuel t) (parseItems fuel' t).
Proof.
  intros Hn. unfold parseItems.
  apply refines_parseItems_loop; [|done]. intros. by apply refines_parseItem.
Qed.
End RefinesItems.

(** ** The parser: what a caller can rely on *)

Section ParseLemmas.
Context `{penv : ParserEnv}.

Lemma buildPkg_fields name parsed pkgId file fatal built :
  buildPkg name parsed pkgId file fatal = Ok built →
  packageName built = name ∧ rootFile built = file ∧ fatalError built = fatal
  ∧ (parsed = [] → rootItems built = []).
Proof.
  unfold buildPkg, foldAst. cbn [Ids_next Ids_new ids_counter].
  cbn [rootItems packageName rootFile fatalError pkg_id].
  unfold bind at 1.
  destruct (mapM _ parsed _) as [[items' st']|e] eqn:Hrun; [|done].
  cbn. intros [= <-]. cbn. split_and!; [done..|].
  intros ->. cbv [mapM ret] in Hrun. by simplify_eq.
Qed.

Lemma validateAst_appends ast sink sink' :
  validateAst ast sink = Ok sink' → sink `prefix_of` sink'.
Proof.
  unfold validateAst, foldAst. cbn [f_item validator validator_folder].
  unfold bind at 1.
  destruct (mapM validator_item (rootItems ast) _) as [[items' st]|e] eqn:H;
    [|done].
  cbn. intros [= <-].
  apply (emits_mapM quiet_item) in H as (errs & -> & _).
  - by apply prefix_app_r.
  - apply Forall_forall. intros item _. apply emits_validator_item.
Qed.

Lemma parse_build name (t : ParseState) pkgId items fatal sink :
  ∃ pkg sink',
    match buildPkg name items pkgId (ps_file t) fatal with
    | Ok ast =>
        match validateAst ast sink with
        | Ok sink' => Ok (ast, sink')
        | Throw e => Throw e
        end
    | Throw e => Throw e
    end = Ok (pkg, sink')
    ∧ sink `prefix_of` sink'
    ∧ pkg_id pkg = pkgId ∧ packageName pkg = name
    ∧ rootFile pkg = ps_file t ∧ fatalError pkg = fatal
    ∧ (items = [] → rootItems pkg = []).
Proof.
  destruct (buildPkg_spec name items pkgId (ps_file t) fatal)
    as (built & Hbuilt & Hid & Hids & _).
  rewrite Hbuilt.
  assert (NoDup (pkg_itemIds built)) as Hnodup.
  { rewrite Hids. apply NoDup_fmap_2; [by intros ?? [=]|apply NoDup_seq]. }
  apply (validateAst_accepts built sink) in Hnodup as [sink' Hv].
  rewrite Hv. exists built, sink'.
  destruct (buildPkg_fields _ _ _ _ _ _ Hbuilt) as (? & ? & ? & ?).
  split_and!; try done. by eapply validateAst_appends.
Qed.
End ParseLemmas.

(** X20: what [parseExpr] does to its surroundings.  When it returns, the
    error sink is untouched, the state is that of the same file with the
    remaining tokens a suffix of the given ones (nothing is invented or
    reordered), and the expression is a parsed one: no slot of a later
    phase is filled, every loop has the id 0, and there is no [path],
    [asm] or [error] node.  When it fails, exactly one diagnostic has
    been appended to the sink. *)
Theorem parseExpr_consumes `{penv : ParserEnv} (fuel : nat) (t : ParseState)
    (sink : list CompilerError) :
  match parseExpr fuel t sink with
  | POk (t', e) sink' =>
      sink' = sink
      ∧ ps_file t' = ps_file t
      ∧ ps_tokens t' `suffix_of` ps_tokens t
      ∧ parsed_expr e = true
  | PFatal _ sink' => ∃ err, sink' = sink ++ [err]
  | POutOfFuel => True
  end.
Proof.
  pose proof (steps_parseExpr fuel t sink) as H.
  destruct (parseExpr fuel t sink) as [[t' e] sink'| |]; [|done..].
  by destruct H as (-> & [? ?] & ?).
Qed.

(** X21: what [parseType] does to its surroundings.  When it returns, the
    error sink is untouched, at least one token has been consumed, the
    remaining tokens are a suffix of the given ones, and the type is a
    parsed one (no resolution, no error node).  When it fails, exactly
    one diagnostic has been appended to the sink. *)
Theorem parseType_consumes `{penv : ParserEnv} (fuel : nat) (t : ParseState)
    (sink : list CompilerError) :
  match parseType fuel t sink with
  | POk (t', ty) sink' =>
      sink' = sink
      ∧ ps_file t' = ps_file t
      ∧ ps_tokens t' `suffix_of` ps_tokens t
      ∧ (length (ps_tokens t') < length (ps_tokens t))%nat
      ∧ parsed_type ty = true
  | PFatal _ sink' => ∃ err, sink' = sink ++ [err]
  | POutOfFuel => True
  end.
Proof.
  pose proof (steps_parseType fuel t sink) as H.
  destruct (parseType fuel t sink) as [[t' e] sink'| |]; [|done..].
  by destruct H as (-> & [[? ?] ?] & ?).
Qed.

(** X22: the expression and type parsers terminate.  With more fuel than
    there are tokens, neither [parseExpr] nor [parseType] runs out of
    fuel, and any larger amount of fuel gives the same result. *)
Theorem parseExpr_terminates `{penv : ParserEnv} (fuel fuel' : nat)
    (t : ParseState) (sink : list CompilerError) :
  (length (ps_tokens t) < fuel)%nat →
  (fuel ≤ fuel')%nat →
  parseExpr fuel t sink ≠ POutOfFuel
  ∧ parseExpr fuel' t sink = parseExpr fuel t sink
  ∧ parseType fuel t sink ≠ POutOfFuel
  ∧ parseType fuel' t sink = parseType fuel t sink.
Proof.
  intros Hn Hle.
  pose proof (finishes_parseExpr fuel t Hn sink) as He.
  pose proof (finishes_parseType fuel t Hn sink) as Ht.
  split_and!; [done| |done|].
  - by apply refines_parseExpr.
  - by apply refines_parseType.
Qed.

Lemma parseExpr_terminates_witness :
  (length (ps_tokens example_sub_state) < 7)%nat
  ∧ parseExpr (penv:=example_penv) 7 example_sub_state [] ≠ POutOfFuel
  ∧ parseExpr (penv:=example_penv) 9 example_sub_state []
    = parseExpr (penv:=example_penv) 7 example_sub_state []
  ∧ parseType (penv:=example_penv) 7 example_sub_state [] ≠ POutOfFuel
  ∧ parseType (penv:=example_penv) 9 example_sub_state []
    = parseType (penv:=example_penv) 7 example_sub_state [].
Proof.
  split; [vm_compute; lia|].
  apply (parseExpr_terminates (penv:=example_penv) 7 9 example_sub_state []);
    vm_compute; lia.
Defined.

(** X23: [parse] never raises.  Whenever it returns (that is, for any
    amount of fuel that suffices), it returns a package and a sink that
    extends the given one: a fatal parse error is caught and recorded in
    [fatalError], and then the package has no items; neither [buildPkg]
    nor [validateAst] throws on what the parser built.  When no module is
    read from a file, more fuel than there are tokens suffices; and once
    the fuel suffices, more of it changes nothing. *)
Theorem parse_never_raises `{penv : ParserEnv} (fuel : nat) (name : string)
    (t : ParseState) (pkgId : nat) (sink : list CompilerError) :
  (∀ r, parse fuel name t pkgId sink = Some r →
        ∃ pkg sink',
          r = Ok (pkg, sink')
          ∧ sink `prefix_of` sink'
          ∧ pkg_id pkg = pkgId ∧ packageName pkg = name
          ∧ rootFile pkg = ps_file t
          ∧ (fatalError pkg ≠ None → rootItems pkg = []))
  ∧ (no_module_files → (length (ps_tokens t) < fuel)%nat →
     parse fuel name t pkgId sink ≠ None)
  ∧ (∀ fuel', (fuel ≤ fuel')%nat →
              parse fuel name t pkgId sink ≠ None →
              parse fuel' name t pkgId sink = parse fuel name t pkgId sink).
Proof.
  unfold parse. split_and!.
  - intros r Hr. pose proof (steps_w_parseItems fuel t sink) as Hs.
    destruct (parseItems fuel t sink) as [[t' items] sink1|inner sink1|];
      [| |done].
    + destruct Hs as [Hpre _].
      destruct (parse_build name t pkgId items None sink1)
        as (pkg & sink' & Hb & ? & ? & ? & ? & Hf & ?).
      rewrite Hb in Hr. simplify_eq. exists pkg, sink'.
      split_and!; [done|by etrans|done..|]. by rewrite Hf.
    + destruct (parse_build name t pkgId [] (Some inner) sink1)
        as (pkg & sink' & Hb & ? & ? & ? & ? & Hf & Hnil).
      rewrite Hb in Hr. simplify_eq. exists pkg, sink'.
      split_and!; [done|by etrans|done..|]. intros _. by apply Hnil.
  - intros Hfiles Hn. pose proof (finishes_parseItems Hfiles fuel t Hn sink).
    by destruct (parseItems fuel t sink) as [[? ?] ?| |].
  - intros fuel' Hle Hsome.
    rewrite (refines_parseItems fuel fuel' t Hle sink); [done|].
    by destruct (parseItems fuel t sink).
Qed.

Lemma parse_never_raises_witness :
  ∃ pkg sink',
    Ok example_fn_parsed = Ok (pkg, sink')
    ∧ [] `prefix_of` sink'
    ∧ pkg_id pkg = 0 ∧ packageName pkg = "main"
    ∧ rootFile pkg = ps_file example_fn_state
    ∧ (fatalError pkg ≠ None → rootItems pkg = []).
Proof.
  apply (proj1 (parse_never_raises (penv:=example_penv) 14 "main"
                  example_fn_state 0 [])).
  vm_compute; reflexivity.
Defined.
Section BinaryChain.
Context `{penv : ParserEnv}.

Lemma parseExprAssignment_tower parseExpr fuel :
  parseExprAssignment parseExpr fuel
  = binary_tower parseExpr fuel
      [ ([TkSym SAssign], λ lhs rhs span _, mkExpr (KAssign lhs rhs) span None);
        (binary_kinds COMPARISON_KINDS, mkBinaryExpr);
        (binary_kinds LOGICAL_KINDS, mkBinaryExpr);
        (binary_kinds ARITH_TERM_KINDS, mkBinaryExpr);
        (binary_kinds ARITH_FACTOR_KINDS, mkBinaryExpr) ].
Proof. reflexivity. Qed.

Lemma peekKind_cons tok x file :
  peekKind (mkParseState (tok :: x) file) = Some (tok_kind tok).
Proof. reflexivity. Qed.

Lemma peekKind_avoids x file kinds :
  peek_avoids x kinds →
  match peekKind (mkParseState x file) with
  | Some peek => bool_decide (peek ∈ kinds) = false
  | None => True
  end.
Proof.
  intros H. destruct x as [|tok x]; [done|]. rewrite peekKind_cons.
  apply bool_decide_eq_false, H. done.
Qed.

Lemma parseExprUnary_operand parseExpr fuel n o x file sink :
  peek_avoids x [TkSym SLParen; TkSym SDot] →
  parseExprUnary parseExpr (S fuel) (S n)
    (mkParseState (operand_token o :: x) file) sink
  = POk (mkParseState x file, operand_expr o) sink.
Proof.
  intros Hx. destruct o as [[v ty] sp].
  unfold operand_token, operand_expr. cbn [fst snd].
  cbn [parseExprUnary]. rewrite peekKind_cons. cbn [tok_kind as_UnaryKind].
  unfold parseExprCall, parseExprAtom, next, maybeNextT. cbn [ps_tokens head tail ps_file tok_span].
  unfold p_bind at 1. cbn [p_ret]. unfold p_bind at 1. cbn [p_ret].
  cbn [parseExprCall_loop].
  destruct (decide (_ ∨ _)) as [[H|H]|_]; [| |reflexivity].
  - destruct x as [|tok x]; [done|]. rewrite peekKind_cons in H.
    exfalso. apply (Hx tok eq_refl). injection H as ->. set_solver.
  - destruct x as [|tok x]; [done|]. rewrite peekKind_cons in H.
    exfalso. apply (Hx tok eq_refl). injection H as ->. set_solver.
Qed.

Lemma mkParserExprBinary_pass n lower kinds mkExpr' t sink x file lhs :
  lower t sink = POk (mkParseState x file, lhs) sink →
  peek_avoids x kinds →
  mkParserExprBinary (S n) lower kinds mkExpr' t sink
  = POk (mkParseState x file, lhs) sink.
Proof.
  intros Hl Hx. cbn [mkParserExprBinary]. unfold p_bind at 1. rewrite Hl.
  pose proof (peekKind_avoids x file kinds Hx) as Hp.
  destruct (peekKind _) as [peek|]; [|done]. by rewrite Hp.
Qed.

Lemma binary_tower_operand parseExpr fuel levels o x file sink :
  peek_avoids x [TkSym SLParen; TkSym SDot] →
  Forall (λ level, peek_avoids x level.1) levels →
  binary_tower parseExpr (S fuel) levels
    (mkParseState (operand_token o :: x) file) sink
  = POk (mkParseState x file, operand_expr o) sink.
Proof.
  intros Hx. induction 1 as [|[kinds mk] levels Hk _ IH]; cbn [binary_tower].
  - by apply parseExprUnary_operand.
  - by apply mkParserExprBinary_pass.
Qed.

Lemma peek_avoids_cons tok x kinds :
  peek_avoids (tok :: x) kinds ↔ tok_kind tok ∉ kinds.
Proof.
  split; [intros H; by apply H|]. intros H tok' [= <-]. done.
Qed.

Lemma chain_tokens_head first rest :
  ∃ x, chain_tokens first rest = operand_token first :: x.
Proof. destruct rest; cbn; eauto. Qed.

Lemma mkParserExprBinary_chain lower (kinds : list BinaryKind) file sink after :
  (∀ o x, peek_avoids x [TkSym SLParen; TkSym SDot] →
          (∀ tok, head x = Some tok →
                  tok_kind tok ∈ binary_kinds kinds ∨ x = after) →
          lower (mkParseState (operand_token o :: x) file) sink
          = POk (mkParseState x file, operand_expr o) sink) →
  peek_avoids after [TkSym SLParen; TkSym SDot] →
  peek_avoids after (binary_kinds kinds) →
  ∀ rest first n,
    Forall (λ link : BinaryKind * Span * Operand, link.1.1 ∈ kinds) rest →
    (length rest < n)%nat →
    mkParserExprBinary n lower (binary_kinds kinds) mkBinaryExpr
      (mkParseState (chain_tokens first rest ++ after) file) sink
    = POk (mkParseState after file, chain_expr first rest) sink.
Proof.
  intros Hlower Ha1 Ha2.
  induction rest as [|[[k span] nxt] rest IH]; intros first n Hkinds Hn;
    (destruct n as [|n]; [cbn in Hn; lia|]).
  - cbn [chain_tokens chain_expr app].
    apply mkParserExprBinary_pass; [|done].
    apply Hlower; [done|]. intros; by right.
  - cbn [chain_tokens chain_expr app]. cbn [mkParserExprBinary].
    apply Forall_cons in Hkinds as [Hk Hkinds]. cbn in Hk.
    assert (TkSym (SBinary k) ∈ binary_kinds kinds) as Hk'.
    { apply list_elem_of_fmap. by exists k. }
    unfold p_bind at 1. rewrite Hlower; first last.
    { intros tok [= <-]. by left. }
    { apply peek_avoids_cons. cbn. set_solver. }
    rewrite peekKind_cons. cbn [tok_kind].
    rewrite bool_decide_eq_true_2 by done.
    unfold next, maybeNextT. cbn [ps_tokens head tail ps_file].
    unfold p_bind at 1. cbn [p_ret]. unfold p_bind at 1.
    rewrite IH; [|done|cbn in Hn; lia].
    cbn [p_ret tok_kind]. unfold mkBinaryExpr. cbn [as_BinaryKind].
    destruct first as [[v ty] sp]. reflexivity.
Qed.
End BinaryChain.
Section BinaryChainTower.
Context `{penv : ParserEnv}.

Lemma peek_avoids_binary after kinds :
  ends_operand after → peek_avoids after (binary_kinds kinds).
Proof.
  intros Ha tok Hhd. destruct after as [|tok' after]; [done|].
  injection Hhd as ->. destruct Ha as [_ Ha].
  intros (k & Hk & _)%list_elem_of_fmap. by rewrite Hk in Ha.
Qed.

Lemma peek_avoids_call after :
  ends_operand after → peek_avoids after [TkSym SLParen; TkSym SDot].
Proof.
  intros Ha tok Hhd. destruct after as [|tok' after]; [done|].
  injection Hhd as ->. destruct Ha as [Ha _]. set_solver.
Qed.

Lemma peek_avoids_assign after :
  ends_operand after → peek_avoids after [TkSym SAssign].
Proof.
  intros Ha tok Hhd. destruct after as [|tok' after]; [done|].
  injection Hhd as ->. destruct Ha as [Ha _]. set_solver.
Qed.

Lemma binary_tower_chain parseExpr fuel (kinds : list BinaryKind)
    above below file sink after first rest :
  Forall (λ level : list TokenKind * (Expr → Expr → Span → TokenKind → Expr),
            ∀ kind, kind ∈ binary_kinds kinds → kind ∉ level.1) below →
  Forall (λ level, peek_avoids after level.1) above →
  Forall (λ level, peek_avoids after level.1) below →
  ends_operand after →
  Forall (λ link : BinaryKind * Span * Operand, link.1.1 ∈ kinds) rest →
  (length rest ≤ fuel)%nat →
  binary_tower parseExpr (S fuel)
    (above ++ (binary_kinds kinds, mkBinaryExpr) :: below)
    (mkParseState (chain_tokens first rest ++ after) file) sink
  = POk (mkParseState after file, chain_expr first rest) sink.
Proof.
  intros Hdisj Habove Hbelow Hafter Hrest Hn.
  induction Habove as [|[ks mk] above Hks _ IH]; cbn [app binary_tower].
  - apply mkParserExprBinary_chain;
      [|by apply peek_avoids_call|by apply peek_avoids_binary|done|lia].
    intros o x Hx Hhead. apply binary_tower_operand; [done|].
    apply Forall_forall. intros level Hlevel tok Htok.
    destruct (Hhead tok Htok) as [Hin| ->].
    + rewrite Forall_forall in Hdisj. by apply (Hdisj level Hlevel).
    + rewrite Forall_forall in Hbelow. by apply (Hbelow level Hlevel).
  - by apply mkParserExprBinary_pass.
Qed.
End BinaryChainTower.

(** X24: binary operators of one level nest to the right.  A chain of
    integer literals joined by operators of one level (all [*], [/], [%];
    or all [+], [-]; or all [&], [|]; or all comparisons), followed by
    tokens that do not continue the operand, is parsed as [a op (b op (c
    ...))]: [1 - 2 - 3] is read as [1 - (2 - 3)].  More fuel than there
    are operators suffices. *)
Theorem binary_chain_nests_right `{penv : ParserEnv} (kinds : list BinaryKind)
    (first : Operand) (rest : list (BinaryKind * Span * Operand))
    (after : list Token) (file : LoadedFile) (sink : list CompilerError)
    (fuel : nat) :
  kinds ∈ [ARITH_FACTOR_KINDS; ARITH_TERM_KINDS; LOGICAL_KINDS;
           COMPARISON_KINDS] →
  Forall (λ link, link.1.1 ∈ kinds) rest →
  ends_operand after →
  (length rest < fuel)%nat →
  parseExpr fuel (mkParseState (chain_tokens first rest ++ after) file) sink
  = POk (mkParseState after file, chain_expr first rest) sink.
Proof.
  intros Hkinds Hrest Hafter Hn. destruct fuel as [|fuel]; [lia|].
  cbn [parseExpr]. rewrite parseExprAssignment_tower.
  pose proof (peek_avoids_assign after Hafter) as Hassign.
  pose proof (λ ks, peek_avoids_binary after ks Hafter) as Hbin.
  set (assign := ([TkSym SAssign],
                  λ lhs rhs span (_ : TokenKind),
                    mkExpr (KAssign lhs rhs) span None)).
  repeat (apply elem_of_cons in Hkinds as [->|Hkinds]).
  - apply (binary_tower_chain _ _ ARITH_FACTOR_KINDS
             [assign; (binary_kinds COMPARISON_KINDS, mkBinaryExpr);
              (binary_kinds LOGICAL_KINDS, mkBinaryExpr);
              (binary_kinds ARITH_TERM_KINDS, mkBinaryExpr)] []);
      [|repeat constructor; try apply Hbin; done|done..|lia].
    constructor.
  - apply (binary_tower_chain _ _ ARITH_TERM_KINDS
             [assign; (binary_kinds COMPARISON_KINDS, mkBinaryExpr);
              (binary_kinds LOGICAL_KINDS, mkBinaryExpr)]
             [(binary_kinds ARITH_FACTOR_KINDS, mkBinaryExpr)]);
      [|repeat constructor; try apply Hbin; done
       |repeat constructor; try apply Hbin; done|done..|lia].
    repeat constructor. cbn. set_solver.
  - apply (binary_tower_chain _ _ LOGICAL_KINDS
             [assign; (binary_kinds COMPARISON_KINDS, mkBinaryExpr)]
             [(binary_kinds ARITH_TERM_KINDS, mkBinaryExpr);
              (binary_kinds ARITH_FACTOR_KINDS, mkBinaryExpr)]);
      [|repeat constructor; try apply Hbin; done
       |repeat constructor; try apply Hbin; done|done..|lia].
    repeat constructor; cbn; set_solver.
  - apply (binary_tower_chain _ _ COMPARISON_KINDS
             [assign]
             [(binary_kinds LOGICAL_KINDS, mkBinaryExpr);
              (binary_kinds ARITH_TERM_KINDS, mkBinaryExpr);
              (binary_kinds ARITH_FACTOR_KINDS, mkBinaryExpr)]);
      [|repeat constructor; try apply Hbin; done
       |repeat constructor; try apply Hbin; done|done..|lia].
    repeat constructor; cbn; set_solver.
  - by apply elem_of_nil in Hkinds.
Qed.

Lemma binary_chain_nests_right_witness :
  ARITH_TERM_KINDS ∈ [ARITH_FACTOR_KINDS; ARITH_TERM_KINDS; LOGICAL_KINDS;
                      COMPARISON_KINDS]
  ∧ chain_tokens example_sub_first example_sub_rest
    ++ [TokenSym SSemi (example_span 5)]
    = example_sub_tokens
  ∧ parseExpr (penv:=example_penv) 3
      (mkParseState (chain_tokens example_sub_first example_sub_rest
                     ++ [TokenSym SSemi (example_span 5)]) example_file) []
    = POk (mkParseState [TokenSym SSemi (example_span 5)] example_file,
           chain_expr example_sub_first example_sub_rest) [].
Proof.
  assert (ARITH_TERM_KINDS ∈ [ARITH_FACTOR_KINDS; ARITH_TERM_KINDS;
                              LOGICAL_KINDS; COMPARISON_KINDS]) as Hkinds.
  { apply (bool_decide_unpack _). vm_compute. exact I. }
  split; [exact Hkinds|]. split; [reflexivity|].
  apply (binary_chain_nests_right (penv:=example_penv) ARITH_TERM_KINDS
           example_sub_first example_sub_rest
           [TokenSym SSemi (example_span 5)] example_file [] 3 Hkinds).
  - apply (bool_decide_unpack _). vm_compute. exact I.
  - split; [|reflexivity]. apply (bool_decide_unpack _). vm_compute. exact I.
  - vm_compute. lia.
Defined.
Section TypeRoundTrip.
Context `{penv : ParserEnv}.

Lemma type_tokens_start type :
  written_type type = true →
  ∃ tok x, type_tokens type = tok :: x
           ∧ tok_kind tok ≠ TkSym SRBracket ∧ tok_kind tok ≠ TkSym SRParen.
Proof. destruct type; cbn; intros; try done; by eexists _, _. Qed.

Lemma comma_sep_length comma (elems : list Type_) :
  forallb written_type elems = true →
  (length elems ≤ length (comma_sep comma (map type_tokens elems)))%nat
  ∧ Forall (λ e, (length (type_tokens e)
                  ≤ length (comma_sep comma (map type_tokens elems)))%nat)
           elems.
Proof.
  induction elems as [|e elems IH]; [done|]. cbn [forallb map comma_sep].
  intros [He Helems]%andb_true_iff. destruct (IH Helems) as [IH1 IH2].
  destruct (type_tokens_start e He) as (tok & x & Hstart & _).
  rewrite length_app. rewrite Hstart at 1. cbn [length].
  split.
  - destruct elems; cbn [map length] in *; [lia|]. cbn [length]. lia.
  - constructor; [lia|]. eapply Forall_impl; [exact IH2|].
    intros e' He'. cbn beta in He'.
    destruct elems; [by apply Forall_nil_2 in IH2 || (cbn in *; lia)|].
    cbn [map length] in *. lia.
Qed.

Lemma expectNext_cons tok x file sink :
  expectNext (mkParseState (tok :: x) file) (tok_kind tok) sink
  = POk (mkParseState x file, tok) sink.
Proof.
  unfold expectNext, maybeNextT. cbn [ps_tokens head tail ps_file].
  by destruct (decide _).
Qed.

Lemma next_cons tok x file sink :
  next (mkParseState (tok :: x) file) sink = POk (mkParseState x file, tok) sink.
Proof. reflexivity. Qed.

Lemma eat_cons tok x file sink :
  eat (mkParseState (tok :: x) file) (tok_kind tok) sink
  = POk (mkParseState x file, Some tok) sink.
Proof.
  unfold eat. rewrite peekKind_cons. destruct (decide _); [|done].
  unfold p_bind. by rewrite expectNext_cons.
Qed.

Lemma eat_other x file kind sink :
  peek_avoids x [kind] →
  eat (mkParseState x file) kind sink = POk (mkParseState x file, None) sink.
Proof.
  intros Hx. unfold eat. destruct (decide _) as [Hp|]; [|done].
  destruct x as [|tok x]; [done|]. rewrite peekKind_cons in Hp.
  exfalso. apply (Hx tok eq_refl). injection Hp as ->. set_solver.
Qed.

(** A comma-separated list of written types, up to its terminator. *)
Lemma parseCommaSeparatedList_loop_types (parser : Parser Type_)
    (s : Sym) span file sink after :
  s = SRBracket ∨ s = SRParen →
  ∀ elems n items,
    forallb written_type elems = true →
    Forall (λ e, ∀ after',
              peek_avoids after' [TkSym SLBracket] →
              parser (mkParseState (type_tokens e ++ after') file) sink
              = POk (mkParseState after' file, e) sink) elems →
    (length elems < n)%nat →
    parseCommaSeparatedList_loop n (TkSym s) parser
      (mkParseState (comma_sep (TokenSym SComma span) (map type_tokens elems)
                     ++ TokenSym s span :: after) file) items sink
    = POk (mkParseState (TokenSym s span :: after) file, items ++ elems) sink.
Proof.
  intros Hs. induction elems as [|e elems IH]; intros n items Hw Hp Hn;
    (destruct n as [|n]; [cbn in Hn; lia|]); cbn [parseCommaSeparatedList_loop].
  - cbn [map comma_sep app]. rewrite peekKind_cons. cbn [tok_kind].
    destruct (decide _); [done|]. by rewrite app_nil_r.
  - cbn [forallb] in Hw. apply andb_true_iff in Hw as [He Hw].
    apply Forall_cons in Hp as [Hpe Hp].
    destruct (type_tokens_start e He) as (tok & x & Hstart & Hk1 & Hk2).
    cbn [map comma_sep]. rewrite <- (assoc_L (++)).
    destruct (decide _) as [_|Hpeek]; first last.
    { exfalso. apply Hpeek. rewrite Hstart. cbn [app].
      intros Heq. rewrite (peekKind_cons tok) in Heq.
      injection Heq as Heq. by destruct Hs as [-> | ->]. }
    unfold p_bind at 1. rewrite Hpe; first last.
    { intros tok' Htok'. destruct elems; cbn in Htok'; injection Htok' as <-;
        cbn; destruct Hs as [-> | ->]; set_solver. }
    destruct elems as [|e' elems].
    + cbn [map app]. unfold p_bind at 1. rewrite eat_other; first last.
      { intros tok' [= <-]. cbn. destruct Hs as [-> | ->]; set_solver. }
      rewrite peekKind_cons. cbn [tok_kind].
      destruct (decide _); [done|]. done.
    + cbn [map app]. unfold p_bind at 1.
      rewrite (eat_cons (TokenSym SComma span)).
      change (type_tokens e' :: map type_tokens elems)
        with (map type_tokens (e' :: elems)).
      rewrite (IH n (items ++ [e])); [|done|done|cbn in *; lia].
      by rewrite <- (assoc_L (++)).
Qed.

Lemma parseCommaSeparatedList_types (parser : Parser Type_)
    (s : Sym) span file sink after elems fuel :
  s = SRBracket ∨ s = SRParen →
  forallb written_type elems = true →
  Forall (λ e, ∀ after',
            peek_avoids after' [TkSym SLBracket] →
            parser (mkParseState (type_tokens e ++ after') file) sink
            = POk (mkParseState after' file, e) sink) elems →
  (length elems < fuel)%nat →
  parseCommaSeparatedList fuel
    (mkParseState (comma_sep (TokenSym SComma span) (map type_tokens elems)
                   ++ TokenSym s span :: after) file)
    (TkSym s) parser sink
  = POk (mkParseState after file, elems) sink.
Proof.
  intros Hs Hw Hp Hn. unfold parseCommaSeparatedList. unfold p_bind at 1.
  rewrite (parseCommaSeparatedList_loop_types parser s span file sink after Hs
             elems fuel [] Hw Hp Hn).
  unfold p_bind at 1.
  by rewrite (expectNext_cons (TokenSym s span)).
Qed.
End TypeRoundTrip.
Section TypeRoundTripMain.
Context `{penv : ParserEnv}.

Lemma parseType_written file sink type :
  ∀ after fuel,
    written_type type = true →
    peek_avoids after [TkSym SLBracket] →
    (length (type_tokens type) < fuel)%nat →
    parseType fuel (mkParseState (type_tokens type ++ after) file) sink
    = POk (mkParseState after file, type) sink.
Proof.
  induction type as [args value span IH|elems span IH|inner span IH|span|err span]
    using Type_nested_ind; intros after fuel Hw Hafter Hn;
    (destruct fuel as [|fuel]; [lia|]); cbn [parseType type_tokens] in *.
  - (* identifier *)
    apply andb_true_iff in Hw as [[Hargs Hspan]%andb_true_iff Hres].
    apply bool_decide_eq_true in Hspan, Hres.
    destruct value as [name vspan res]. cbn in Hspan, Hres. subst vspan res.
    cbn [iwr_name app]. unfold p_bind at 1. rewrite next_cons.
    cbn [tok_span]. unfold parseGenericsArgs.
    destruct args as [|arg args].
    + cbn [app]. do 2 unfold p_bind at 1. rewrite eat_other by done.
      reflexivity.
    + cbn [app]. rewrite <- (assoc_L (++)). cbn [app].
      do 2 unfold p_bind at 1.
      rewrite (eat_cons (TokenSym SLBracket span)).
      destruct (comma_sep_length (TokenSym SComma span) (arg :: args) Hargs)
        as [Hlen Hlens].
      cbn [length] in Hn. rewrite length_app in Hn. cbn [length] in Hn.
      rewrite (parseCommaSeparatedList_types (parseType fuel) SRBracket span
                 file sink after (arg :: args) (S fuel));
        [reflexivity|by left|done| |lia].
      apply Forall_forall. intros e He after' Hafter'.
      rewrite Forall_forall in IH. rewrite Forall_forall in Hlens.
      apply IH; [done| |done|].
      * rewrite forallb_forall in Hargs. apply Hargs.
        by apply list_elem_of_In.
      * specialize (Hlens e He). cbn beta in Hlens. lia.
  - (* tuple *)
    cbn [app]. unfold p_bind at 1. rewrite next_cons. cbn [tok_span].
    destruct elems as [|head tail].
    + cbn [map comma_sep app]. rewrite peekKind_cons. cbn [tok_kind].
      destruct (decide _); [|done].
      unfold p_bind at 1. rewrite next_cons. reflexivity.
    + assert (written_type head = true ∧ forallb written_type tail = true)
        as [Hhead Htail] by (by apply andb_true_iff).
      apply Forall_cons in IH as [IHhead IHtail].
      destruct (type_tokens_start head Hhead) as (tok & x & Hstart & Hk1 & Hk2).
      destruct (comma_sep_length (TokenSym SComma span) tail Htail)
        as [Hlen Hlens].
      cbn [map comma_sep] in *. cbn [length] in Hn.
      rewrite !length_app in Hn. cbn [length] in Hn.
      destruct (decide _) as [Hp|_].
      { exfalso. revert Hp. rewrite Hstart. cbn [app].
        rewrite <- !(assoc_L (++)). cbn [app].
        rewrite (peekKind_cons tok). by intros [= ?]. }
      set (after' :=
             TokenSym SComma span
             :: comma_sep (TokenSym SComma span) (map type_tokens tail)
             ++ TokenSym SRParen span :: after).
      match goal with
      | |- context [mkParseState ?l file] =>
          replace l with (type_tokens head ++ after')
      end.
      2:{ unfold after'. rewrite <- !(assoc_L (++)). f_equal.
          destruct tail; cbn [map comma_sep app]; [done|].
          by rewrite <- !(assoc_L (++)). }
      unfold p_bind at 1.
      rewrite (IHhead after' fuel); [|done|by intros ? [= <-]; set_solver|].
      2:{ lia. }
      subst after'.
      destruct (decide _) as [Hp|_];
        [by rewrite (peekKind_cons (TokenSym SComma span)) in Hp|].
      unfold p_bind at 1.
      rewrite (expectNext_cons (TokenSym SComma span)).
      unfold p_bind at 1.
      rewrite (parseCommaSeparatedList_types (parseType fuel) SRParen span
                 file sink after tail (S fuel));
        [reflexivity|by right|done| |].
      * apply Forall_forall. intros e He after'' Hafter''.
        rewrite Forall_forall in IHtail. rewrite Forall_forall in Hlens.
        apply IHtail; [done| |done|].
        -- rewrite forallb_forall in Htail. apply Htail.
           by apply list_elem_of_In.
        -- specialize (Hlens e He). cbn beta in Hlens.
           destruct tail; [by apply elem_of_nil in He|].
           cbn [map length] in Hn, Hlens. lia.
      * destruct tail; [cbn; lia|]. cbn [map length] in Hn, Hlen |- *. lia.
  - (* raw pointer *)
    cbn [app]. unfold p_bind at 1. rewrite next_cons. cbn [tok_span].
    unfold p_bind at 1. rewrite IH; [reflexivity|done..|cbn in Hn; lia].
  - (* never *) reflexivity.
  - (* error *) done.
Qed.
End TypeRoundTripMain.

(** X25: a written type is read back.  Every parsed type whose
    identifiers carry the span of their node can be written as tokens
    ([()] for the empty tuple, [(T,)] for a tuple of one, brackets only
    around a non-empty argument list), and [parseType] reads these tokens
    back as exactly that type, consuming nothing more, whatever follows
    that is not a [[]. *)
Theorem parseType_round_trip `{penv : ParserEnv} (type : Type_)
    (after : list Token) (file : LoadedFile) (sink : list CompilerError)
    (fuel : nat) :
  written_type type = true →
  peek_avoids after [TkSym SLBracket] →
  (length (type_tokens type) < fuel)%nat →
  parseType fuel (mkParseState (type_tokens type ++ after) file) sink
  = POk (mkParseState after file, type) sink.
Proof. intros. by apply parseType_written. Qed.

Lemma parseType_round_trip_witness :
  written_type example_written_type = true
  ∧ parseType (penv:=example_penv) 20
      (mkParseState (type_tokens example_written_type
                     ++ [TokenSym SAssign (example_span 9)]) example_file) []
    = POk (mkParseState [TokenSym SAssign (example_span 9)] example_file,
           example_written_type) [].
Proof.
  split; [reflexivity|].
  apply (parseType_round_trip (penv:=example_penv) example_written_type
           [TokenSym SAssign (example_span 9)] example_file [] 20).
  - reflexivity.
  - intros tok [= <-]. apply (bool_decide_unpack _). vm_compute. exact I.
  - vm_compute. lia.
Defined.
Section EmptyExpr.
Context `{penv : ParserEnv}.

Lemma mkParserExprBinary_fatal n lower kinds mkExpr' t sink inner sink' :
  lower t sink = PFatal inner sink' →
  mkParserExprBinary (S n) lower kinds mkExpr' t sink = PFatal inner sink'.
Proof. intros Hl. cbn [mkParserExprBinary]. unfold p_bind at 1. by rewrite Hl. Qed.

Lemma binary_tower_fatal parseExpr fuel levels t sink inner sink' :
  parseExprUnary parseExpr (S fuel) (S fuel) t sink = PFatal inner sink' →
  binary_tower parseExpr (S fuel) levels t sink = PFatal inner sink'.
Proof.
  intros Hu. induction levels as [|[kinds mk] levels IH]; cbn [binary_tower];
    [done|by apply mkParserExprBinary_fatal].
Qed.

Lemma binary_tower_pass parseExpr fuel levels t sink x file e :
  parseExprUnary parseExpr (S fuel) (S fuel) t sink
  = POk (mkParseState x file, e) sink →
  Forall (λ level : list TokenKind * (Expr → Expr → Span → TokenKind → Expr),
            peek_avoids x level.1) levels →
  binary_tower parseExpr (S fuel) levels t sink
  = POk (mkParseState x file, e) sink.
Proof.
  intros Hu. induction 1 as [|[kinds mk] levels Hk _ IH]; cbn [binary_tower];
    [done|by apply mkParserExprBinary_pass].
Qed.
End EmptyExpr.

(** X26: the empty expression.  Where an expression is expected and the
    next token cannot begin one (it is none of an identifier, a literal,
    [(], [let], [if], [loop], [break], [!], [-]) nor continue one, the
    parser returns the [empty] expression at that token's span and
    consumes nothing.  At the end of the input there is no such token:
    the parser fails with "unexpected end of file". *)
Theorem parseExpr_empty `{penv : ParserEnv} (fuel : nat) (file : LoadedFile)
    (sink : list CompilerError) :
  (0 < fuel)%nat →
  (∀ tok x,
     tok_kind tok ∉ [TkIdentifier; TkLitString; TkLitInt; TkSym SLet;
                     TkSym SIf; TkSym SLoop; TkSym SBreak; TkSym SNot] →
     ends_operand (tok :: x) →
     parseExpr fuel (mkParseState (tok :: x) file) sink
     = POk (mkParseState (tok :: x) file, mkExpr KEmpty (tok_span tok) None)
           sink)
  ∧ parseExpr fuel (mkParseState [] file) sink
    = PFatal errorEmitted
        (sink ++ [mkCompilerError "unexpected end of file" (span_eof file)]).
Proof.
  intros Hfuel. destruct fuel as [|fuel]; [lia|]. cbn [parseExpr].
  rewrite parseExprAssignment_tower. split.
  - intros tok x Hstart Hends.
    pose proof (peek_avoids_assign _ Hends) as Hassign.
    pose proof (λ ks, peek_avoids_binary _ ks Hends) as Hbin.
    pose proof (peek_avoids_call _ Hends) as Hcall.
    apply binary_tower_pass; [|repeat constructor; try apply Hbin; done].
    cbn [parseExprUnary]. rewrite peekKind_cons.
    destruct Hends as [Hk Hb].
    assert (as_UnaryKind (tok_kind tok) = None) as ->.
    { destruct (tok_kind tok) as [| | |s]; [done..|].
      destruct s; try done.
      exfalso. apply Hstart. apply (bool_decide_unpack _). vm_compute. exact I. }
    unfold parseExprCall, parseExprAtom. do 2 unfold p_bind at 1.
    rewrite next_cons. cbn beta iota.
    assert (∀ e : Expr,
              parseExprCall_loop (parseExpr fuel) (S fuel) (S fuel)
                (mkParseState (tok :: x) file) e sink
              = POk (mkParseState (tok :: x) file, e) sink) as Hloop.
    { intros e. cbn [parseExprCall_loop].
      destruct (decide _) as [[H|H]|_]; [| |done];
        rewrite peekKind_cons in H; injection H as H;
        exfalso; apply Hk; rewrite H;
        apply (bool_decide_unpack _); vm_compute; exact I. }
    destruct tok as [ident span|value span|value type span|s span];
      try (exfalso; apply Hstart; apply (bool_decide_unpack _); vm_compute;
           exact I).
    destruct s;
      try (exfalso; apply Hstart; apply (bool_decide_unpack _); vm_compute;
           exact I);
      try (exfalso; apply Hk; apply (bool_decide_unpack _); vm_compute;
           exact I);
      cbn [p_ret]; apply Hloop.
  - apply binary_tower_fatal. reflexivity.
Qed.

Lemma parseExpr_empty_witness :
  parseExpr (penv:=example_penv) 1
    (mkParseState [TokenSym SSemi (example_span 0)] example_file) []
  = POk (mkParseState [TokenSym SSemi (example_span 0)] example_file,
         mkExpr KEmpty (example_span 0) None) []
  ∧ parseExpr (penv:=example_penv) 1 (mkParseState [] example_file) []
    = PFatal errorEmitted
        [mkCompilerError "unexpected end of file" (mkSpan 0 0)].
Proof.
  assert (0 < 1)%nat as Hfuel by lia.
  destruct (parseExpr_empty (penv:=example_penv) 1 example_file [] Hfuel)
    as [Hempty Heof].
  split; [|exact Heof].
  apply (Hempty (TokenSym SSemi (example_span 0)) []).
  - apply (bool_decide_unpack _). vm_compute. exact I.
  - split; [|reflexivity]. apply (bool_decide_unpack _). vm_compute. exact I.
Defined.

(** ** The closing pass of the body checker *)

#[local] Instance reports_unsolved_preorder `{env : TypeckEnv} :
  PreOrder reports_unsolved.
Proof.
  split.
  - intros st. exists []. split; [|constructor].
    destruct st. cbn. by rewrite app_nil_r.
  - intros a b c (e1 & -> & H1) (e2 & -> & H2). exists (e1 ++ e2).
    split; [|by apply Forall_app]. destruct a. cbn. by rewrite (assoc_L (++)).
Qed.

Section ResolveBodyFacts.
Context `{env : TypeckEnv}.

Lemma ensures_resolveTy oty span :
  ensures (λ ty, solved_ty (Some ty) = true) (resolveTy oty span).
Proof.
  destruct oty as [ty|]; cbn [resolveTy]; [|apply ensures_throw].
  eapply ensures_bind; [apply ensures_any|]. intros resTy _.
  destruct resTy; try by apply ensures_ret.
  by intros s a s' [= <- <-].
Qed.

Lemma ensures_is {A} (a : A) : ensures (S:=FuncCtx) (λ x, x = a) (ret a).
Proof. by apply ensures_ret. Qed.

Lemma ensures_optM_is {A} (o : option A) :
  ensures (S:=FuncCtx) (λ x, x = o) (optM ret o).
Proof. intros s a s'. rewrite optM_ret. by intros [= <- <-]. Qed.

Lemma ensures_inner (m : M FuncCtx Expr) ty0 (Q : Expr → Prop) :
  ensures (λ inner, Q (with_ty inner ty0)) m →
  ensures Q (let* innerExpr := m in ret (with_ty innerExpr ty0)).
Proof.
  intros Hm. eapply ensures_bind; [exact Hm|]. intros inner Hi.
  by apply ensures_ret.
Qed.

Lemma resolved_of_list xs ys :
  Forall2 resolved_of xs ys →
  forallb (every_slot solved_ty) ys = true
  ∧ map untyped ys = map untyped xs
  ∧ forallb literal_fields_unindexed ys = true.
Proof.
  induction 1 as [|x y xs ys (H1 & H2 & H3) _ (IH1 & IH2 & IH3)]; [done|].
  cbn. by rewrite H1, H2, H3, IH1, IH2, IH3.
Qed.

Lemma ensures_resolveBody_locals locals :
  ensures (λ o, (match o with
                 | Some ls => forallb (λ l, solved_ty (local_ty l)) ls
                 | None => false
                 end) = true
                ∧ (map untyped_local <$> o) = (map untyped_local <$> locals))
    (resolveBody_locals locals).
Proof.
  destruct locals as [ls|]; cbn [resolveBody_locals]; [|apply ensures_throw].
  eapply ensures_bind.
  { apply (ensures_mapM_rel
             (λ l l', solved_ty (local_ty l') = true
                      ∧ untyped_local l' = untyped_local l)).
    apply Forall_forall. intros l _.
    eapply ensures_bind; [apply ensures_resolveTy|]. intros ty Hty.
    by apply ensures_ret. }
  intros ls' Hls. apply ensures_ret. cbn.
  induction Hls as [|l l' ls ls' [H1 H2] _ [IH1 IH2]]; [done|].
  cbn. rewrite H1, H2, IH1. split; [done|]. by injection IH2 as ->.
Qed.

(** Brings the facts about the folded parts into the goal. *)
Ltac rb_done :=
  apply ensures_ret; unfold resolved_of in *;
  repeat match goal with
         | H : Forall2 _ _ _ |- _ => apply resolved_of_list in H
         | H : _ ∧ _ |- _ => destruct H
         end;
  subst; cbn [with_ty every_slot untyped literal_fields_unindexed fmap
              option_fmap option_map] in *;
  repeat match goal with
         | H : _ = _ |- _ => rewrite H
         end;
  done.

Lemma resolved_resolveBody_expr e : ensures (resolved_of e) (resolveBody_expr e).
Proof.
  induction e as [k IH span ty
    | |name type rhs IHrhs local|lhs IHl rhs IHr|exprs IHs locals|value|value
    |segments res|k lhs IHl rhs IHr|k rhs IHr|lhs IHl args IHargs
    |lhs IHl field|cond IHc then_ IHt else_ IHe|body IHb loopId|target
    |name fields IHf|fields IHf| |err
    |name expr IHe fieldIdx]
    using Expr_mind
    with (P0 := λ k, ∀ span ty,
                  ensures (resolved_of (mkExpr k span ty))
                    (resolveBody_expr (mkExpr k span ty)))
         (P1 := λ f, let '(mkStructLiteralField _ expr _) := f in
                     ensures (resolved_of expr) (resolveBody_expr expr));
    try done; try (by intros; apply IH); intros span ty;
    cbn [resolveBody_expr superFoldExpr f_expr f_ident f_type expr_ty expr_span];
    (eapply ensures_bind; [apply ensures_resolveTy|]); intros ty0 Hty0;
    apply ensures_inner.
  - (* empty *) rb_done.
  - (* let *)
    eapply ensures_bind; [apply ensures_optM_is|]. intros type' ->.
    eapply ensures_bind; [apply IHrhs|]. intros rhs' Hrhs. rb_done.
  - (* assign *)
    eapply ensures_bind; [apply IHl|]. intros lhs' Hl.
    eapply ensures_bind; [apply IHr|]. intros rhs' Hr. rb_done.
  - (* block *)
    eapply ensures_bind; [apply ensures_resolveBody_locals|].
    intros locals' Hlocals.
    eapply ensures_bind.
    { apply (ensures_mapM_rel resolved_of). apply list_all_Forall in IHs.
      exact IHs. }
    intros exprs' Hexprs. destruct locals' as [ls'|]; [|by destruct Hlocals].
    rb_done.
  - (* literal *) rb_done.
  - (* ident *)
    eapply ensures_bind; [apply ensures_is|]. intros value' ->. rb_done.
  - (* path *) rb_done.
  - (* binary *)
    eapply ensures_bind; [apply IHl|]. intros lhs' Hl.
    eapply ensures_bind; [apply IHr|]. intros rhs' Hr. rb_done.
  - (* unary *)
    eapply ensures_bind; [apply IHr|]. intros rhs' Hr. rb_done.
  - (* call *)
    eapply ensures_bind; [apply IHl|]. intros lhs' Hl.
    eapply ensures_bind.
    { apply (ensures_mapM_rel resolved_of). apply list_all_Forall in IHargs.
      exact IHargs. }
    intros args' Hargs. rb_done.
  - (* fieldAccess *)
    eapply ensures_bind; [apply IHl|]. intros lhs' Hl. rb_done.
  - (* if *)
    eapply ensures_bind; [apply IHc|]. intros cond' Hc.
    eapply ensures_bind; [apply IHt|]. intros then' Ht.
    destruct else_ as [else_|]; cbn [optM].
    + eapply ensures_bind.
      { eapply ensures_bind; [apply (option_all_inv _ _ IHe else_ eq_refl)|].
        intros else' He.
        apply (ensures_ret (λ o, ∃ e2, o = Some e2 ∧ resolved_of else_ e2)).
        by exists else'. }
      intros o (else' & -> & He). rb_done.
    + eapply ensures_bind; [apply ensures_is|]. intros o ->. rb_done.
  - (* loop *)
    eapply ensures_bind; [apply IHb|]. intros body' Hb. rb_done.
  - (* break *) rb_done.
  - (* structLiteral *)
    eapply ensures_bind; [apply ensures_is|]. intros name' ->.
    eapply ensures_bind.
    { apply (ensures_mapM_rel
               (λ f f', let '(mkStructLiteralField n e _) := f in
                        let '(mkStructLiteralField n' e' i') := f' in
                        n' = n ∧ i' = None ∧ resolved_of e e')).
      apply list_all_Forall in IHf.
      eapply Forall_impl; [exact IHf|]. intros [n e i] He.
      eapply ensures_bind; [apply He|]. intros e' He'. by apply ensures_ret. }
    intros fields' Hfields.
    assert (forallb (λ f, let '(mkStructLiteralField _ expr _) := f in
                          every_slot solved_ty expr) fields' = true
            ∧ map (λ f, let '(mkStructLiteralField name expr _) := f in
                        mkStructLiteralField name (untyped expr) None) fields'
              = map (λ f, let '(mkStructLiteralField name expr _) := f in
                          mkStructLiteralField name (untyped expr) None) fields
            ∧ forallb (λ f, let '(mkStructLiteralField _ expr fieldIdx) := f in
                            bool_decide (fieldIdx = None)
                            && literal_fields_unindexed expr) fields' = true)
      as (H1 & H2 & H3).
    { clear IHf. induction Hfields as [|[n e i] [n' e' i'] fs fs'
        (-> & -> & He1 & He2 & He3) _ (IH1 & IH2 & IH3)]; [done|].
      cbn. by rewrite He1, He2, He3, IH1, IH2, IH3. }
    clear Hfields. rb_done.
  - (* tupleLiteral *)
    eapply ensures_bind.
    { apply (ensures_mapM_rel resolved_of). apply list_all_Forall in IHf.
      exact IHf. }
    intros fields' Hfields. rb_done.
  - (* asm *) rb_done.
  - (* error *) rb_done.
Qed.
End ResolveBodyFacts.

Section ResolveBodyState.
Context `{env : TypeckEnv}.

Lemma reports_unsolved_emit span st :
  reports_unsolved st
    (set_cx_error (sink_emit (cx_error st) (mkCompilerError "cannot infer type" span))
                  st).
Proof.
  exists [mkCompilerError "cannot infer type" span]. split; [done|].
  by constructor.
Qed.

Lemma ru_ret {A} (a : A) : preserves reports_unsolved (ret a).
Proof. apply preserves_ret, _. Qed.

Lemma ru_bind {A B} (m : M FuncCtx A) (f : A → M FuncCtx B) :
  preserves reports_unsolved m → (∀ a, preserves reports_unsolved (f a)) →
  preserves reports_unsolved (bind m f).
Proof. apply preserves_bind, _. Qed.

Lemma ru_mapM {A B} (f : A → M FuncCtx B) (xs : list A) :
  Forall (λ x, preserves reports_unsolved (f x)) xs →
  preserves reports_unsolved (mapM f xs).
Proof. apply preserves_mapM, _. Qed.

Lemma ru_optM {A B} (f : A → M FuncCtx B) (o : option A) :
  (∀ a, o = Some a → preserves reports_unsolved (f a)) →
  preserves reports_unsolved (optM f o).
Proof. apply preserves_optM, _. Qed.

Lemma rr_ret {A} (a : A) : returns reports_unsolved (ret a).
Proof. apply returns_ret, _. Qed.

Lemma rr_bind {A B} (m : M FuncCtx A) (f : A → M FuncCtx B) :
  returns reports_unsolved m → (∀ a, returns reports_unsolved (f a)) →
  returns reports_unsolved (bind m f).
Proof. apply returns_bind, _. Qed.

Lemma rr_mapM {A B} (f : A → M FuncCtx B) (xs : list A) :
  Forall (λ x, returns reports_unsolved (f x)) xs →
  returns reports_unsolved (mapM f xs).
Proof. apply returns_mapM, _. Qed.

Lemma preserves_resolveTy oty span :
  preserves reports_unsolved (resolveTy oty span).
Proof.
  destruct oty as [ty|]; cbn [resolveTy]; [|apply preserves_throw].
  intros st a st'. unfold bind, resolveIfPossible, gets.
  destruct (subst_resolveIfPossible _ ty); intros [= <- <-];
    first [reflexivity|apply reports_unsolved_emit].
Qed.

Lemma returns_resolveTy oty span :
  filled_ty oty = true → returns reports_unsolved (resolveTy oty span).
Proof.
  destruct oty as [ty|]; [|done]. intros _ st. cbn [resolveTy].
  unfold bind, resolveIfPossible, gets.
  destruct (subst_resolveIfPossible _ ty); eexists _, _;
    (split; [reflexivity|]); first [reflexivity|apply reports_unsolved_emit].
Qed.

Lemma preserves_resolveBody_locals locals :
  preserves reports_unsolved (resolveBody_locals locals).
Proof.
  destruct locals as [ls|]; cbn [resolveBody_locals]; [|apply preserves_throw].
  apply ru_bind; [|intros; apply ru_ret].
  apply ru_mapM. apply Forall_forall. intros l _.
  apply ru_bind; [apply preserves_resolveTy|].
  intros. apply ru_ret.
Qed.

Lemma returns_resolveBody_locals locals :
  match locals with
  | Some ls => forallb (λ l, filled_ty (local_ty l)) ls
  | None => false
  end = true →
  returns reports_unsolved (resolveBody_locals locals).
Proof.
  destruct locals as [ls|]; [|done]. intros Hls. cbn [resolveBody_locals].
  apply rr_bind; [|intros; apply rr_ret].
  apply rr_mapM. apply Forall_forall. intros l Hl.
  apply rr_bind; [|intros; apply rr_ret].
  apply returns_resolveTy.
  by apply (proj1 (forallb_forall _ _) Hls), list_elem_of_In.
Qed.

Ltac rb_keep :=
  repeat first
    [ assumption
    | apply ru_ret
    | apply preserves_resolveTy
    | apply preserves_resolveBody_locals
    | apply ru_bind; [|intros]
    | apply ru_optM; intros ? ?
    | apply ru_mapM ].

Lemma preserves_resolveBody_expr e :
  preserves reports_unsolved (resolveBody_expr e).
Proof.
  induction e as [k IH span ty
    | |name type rhs IHrhs local|lhs IHl rhs IHr|exprs IHs locals|value|value
    |segments res|k lhs IHl rhs IHr|k rhs IHr|lhs IHl args IHargs
    |lhs IHl field|cond IHc then_ IHt else_ IHe|body IHb loopId|target
    |name fields IHf|fields IHf| |err
    |name expr IHe fieldIdx]
    using Expr_mind
    with (P0 := λ k, ∀ span ty,
                  preserves reports_unsolved (resolveBody_expr (mkExpr k span ty)))
         (P1 := λ f, let '(mkStructLiteralField _ expr _) := f in
                     preserves reports_unsolved (resolveBody_expr expr));
    try done; try (by intros; apply IH); intros span ty;
    cbn [resolveBody_expr superFoldExpr f_expr f_ident f_type expr_ty expr_span];
    try (apply list_all_Forall in IHs);
    try (apply list_all_Forall in IHargs);
    try (apply list_all_Forall in IHf);
    rb_keep.
  - (* if: the else part *) by apply (option_all_inv _ _ IHe).
  - (* structLiteral: the fields *)
    eapply Forall_impl; [exact IHf|]. intros [n e i] He. rb_keep.
Qed.

Ltac rb_split :=
  repeat match goal with
         | H : _ && _ = true |- _ => apply andb_true_iff in H as [? ?]
         end.

Ltac rb_run :=
  repeat first
    [ assumption
    | apply rr_ret
    | apply returns_resolveTy; assumption
    | apply returns_resolveBody_locals; assumption
    | apply rr_bind; [|intros]
    | apply rr_mapM
    | match goal with
      | IH : ?P → returns _ ?m |- returns _ ?m => apply IH; assumption
      end ].

Lemma Forall_filled (q : Expr → bool) (R : Expr → Prop) (xs : list Expr) :
  Forall (λ x, q x = true → R x) xs → forallb q xs = true → Forall R xs.
Proof.
  induction 1 as [|x xs Hx _ IH]; [constructor|]. cbn.
  intros [? ?]%andb_true_iff. constructor; auto.
Qed.

Lemma returns_resolveBody_expr e :
  every_slot filled_ty e = true →
  returns reports_unsolved (resolveBody_expr e).
Proof.
  induction e as [k IH span ty
    | |name type rhs IHrhs local|lhs IHl rhs IHr|exprs IHs locals|value|value
    |segments res|k lhs IHl rhs IHr|k rhs IHr|lhs IHl args IHargs
    |lhs IHl field|cond IHc then_ IHt else_ IHe|body IHb loopId|target
    |name fields IHf|fields IHf| |err
    |name expr IHe fieldIdx]
    using Expr_mind
    with (P0 := λ k, ∀ span ty,
                  every_slot filled_ty (mkExpr k span ty) = true →
                  returns reports_unsolved (resolveBody_expr (mkExpr k span ty)))
         (P1 := λ f, let '(mkStructLiteralField _ expr _) := f in
                     every_slot filled_ty expr = true →
                     returns reports_unsolved (resolveBody_expr expr));
    try done; try (by intros; apply IH); intros span ty;
    cbn [every_slot resolveBody_expr superFoldExpr f_expr f_ident f_type
         expr_ty expr_span];
    intros Hfilled; rb_split;
    try (apply list_all_Forall in IHs);
    try (apply list_all_Forall in IHargs);
    try (apply list_all_Forall in IHf);
    rb_run.
  - (* let: the ascription *)
    destruct type; cbn [optM]; rb_run.
  - (* block *) by eapply Forall_filled.
  - (* call *) by eapply Forall_filled.
  - (* if: the else part *)
    destruct else_ as [else_|]; cbn [optM]; rb_run.
    by apply (option_all_inv _ _ IHe else_ eq_refl).
  - (* structLiteral *)
    match goal with
    | H : forallb _ fields = true |- _ => revert H
    end.
    clear -IHf. induction IHf as [|[n e i] fs He _ IH]; [constructor|]. cbn.
    intros [? ?]%andb_true_iff. constructor; [|by apply IH]. rb_run.
  - (* tupleLiteral *) by eapply Forall_filled.
Qed.
End ResolveBodyState.

(** X27: [resolveBody] leaves no inference variable at the top of a
    type.  When it returns, every node of the result and every local of
    every block carries a type, and none of these types is a variable: a
    variable that the substitution does not solve has been replaced by
    the error type.  (Variables nested inside a type are not looked
    for.) *)
Theorem resolveBody_leaves_no_variable `{env : TypeckEnv} (checked e' : Expr)
    (st st' : FuncCtx) :
  resolveBody checked st = Ok (e', st') →
  every_slot solved_ty e' = true.
Proof.
  intros H. by destruct (resolved_resolveBody_expr checked st e' st' H).
Qed.

Lemma resolveBody_leaves_no_variable_witness :
  ∃ e' st',
    resolveBody (env:=example_env0) example_checked_block
      (example_state [] 1 [] [] [])
    = Ok (e', st')
    ∧ expr_ty e' = Some (TyError errorEmitted)
    ∧ every_slot solved_ty e' = true.
Proof.
  eexists _, _. split; [vm_compute; reflexivity|]. split; [reflexivity|].
  eapply (resolveBody_leaves_no_variable (env:=example_env0)
            example_checked_block _ (example_state [] 1 [] [] [])).
  vm_compute; reflexivity.
Defined.

(** X28: [resolveBody] rewrites types and nothing else of what the parser
    and the resolver built: the result is the given tree up to the types
    of nodes and locals.  It does drop what the checker recorded in
    struct literals: no field of a struct literal of the result has a
    field index, since [superFoldExpr] rebuilds such a field from its
    name and expression alone. *)
Theorem resolveBody_keeps_shape `{env : TypeckEnv} (checked e' : Expr)
    (st st' : FuncCtx) :
  resolveBody checked st = Ok (e', st') →
  untyped e' = untyped checked ∧ literal_fields_unindexed e' = true.
Proof.
  intros H.
  by destruct (resolved_resolveBody_expr checked st e' st' H) as (_ & ? & ?).
Qed.

Lemma resolveBody_keeps_shape_witness :
  literal_fields_unindexed example_checked_literal = false
  ∧ ∃ e' st',
      resolveBody (env:=example_env0) example_checked_literal
        (example_state [] 0 [] [] [])
      = Ok (e', st')
      ∧ untyped e' = untyped example_checked_literal
      ∧ literal_fields_unindexed e' = true.
Proof.
  split; [reflexivity|].
  eexists _, _. split; [vm_compute; reflexivity|].
  eapply (resolveBody_keeps_shape (env:=example_env0)
            example_checked_literal _ (example_state [] 0 [] [] [])).
  vm_compute; reflexivity.
Defined.

(** X29: [resolveBody] changes nothing of the checker's state but the
    error sink, and all it adds there are "cannot infer type"
    diagnostics. *)
Theorem resolveBody_reports_unsolved `{env : TypeckEnv} (checked e' : Expr)
    (st st' : FuncCtx) :
  resolveBody checked st = Ok (e', st') →
  ∃ errs,
    st' = set_cx_error (cx_error st ++ errs) st
    ∧ Forall (λ err, message err = "cannot infer type") errs.
Proof. apply preserves_resolveBody_expr. Qed.

Lemma resolveBody_reports_unsolved_witness :
  ∃ e' errs,
    resolveBody (env:=example_env0) example_checked_block
      (example_state [] 1 [] [] [])
    = Ok (e', example_state
                ([mkCompilerError "cannot infer type" (mkSpan 0 1);
                  mkCompilerError "cannot infer type" (mkSpan 6 7);
                  mkCompilerError "cannot infer type" (mkSpan 13 14)]) 1 [] [] [])
    ∧ example_state
        ([mkCompilerError "cannot infer type" (mkSpan 0 1);
          mkCompilerError "cannot infer type" (mkSpan 6 7);
          mkCompilerError "cannot infer type" (mkSpan 13 14)]) 1 [] [] []
      = set_cx_error ([] ++ errs) (example_state [] 1 [] [] [])
    ∧ Forall (λ err, message err = "cannot infer type") errs.
Proof.
  destruct (resolveBody_reports_unsolved (env:=example_env0)
              example_checked_block
              (expect (resolveBody (env:=example_env0) example_checked_block
                         (example_state [] 1 [] [] []))
                      (example_checked_block, example_state [] 1 [] [] [])).1
              (example_state [] 1 [] [] [])
              (example_state
                 ([mkCompilerError "cannot infer type" (mkSpan 0 1);
                   mkCompilerError "cannot infer type" (mkSpan 6 7);
                   mkCompilerError "cannot infer type" (mkSpan 13 14)]) 1 [] [] []))
    as (errs & Hst & Herrs).
  - vm_compute; reflexivity.
  - eexists _, errs. split; [vm_compute; reflexivity|]. split; [exact Hst|exact Herrs].
Defined.

(** X30: [resolveBody] returns on every tree in which each node carries
    a type and each block its list of locals, all of them typed, as the
    checker leaves a body. *)
Theorem resolveBody_returns `{env : TypeckEnv} (checked : Expr) (st : FuncCtx) :
  every_slot filled_ty checked = true →
  ∃ e' st', resolveBody checked st = Ok (e', st').
Proof.
  intros H. destruct (returns_resolveBody_expr checked H st) as (e' & st' & ? & _).
  by exists e', st'.
Qed.

Lemma resolveBody_returns_witness :
  ∃ e' st',
    resolveBody (env:=example_env0) example_checked_block
      (example_state [] 1 [(0, TyInt)] [] [])
    = Ok (e', st').
Proof.
  apply (resolveBody_returns (env:=example_env0) example_checked_block
           (example_state [] 1 [(0, TyInt)] [] [])).
  reflexivity.
Defined.
